(** * tars2squashfs: the batch-and-merge extraction controller

    A shallow embedding of [src/tars2squashfs/main.py] (class
    [SquashFSBuilder]) and the properties of its specification.

    Modelling conventions.
    - Python integers are [Z].  Paths are lists of components
      ([pathlib]'s [parts]); [p / name] is [p ++ path_parts name].
      This is what the code does for member names that are relative
      and have no [..] component, the names [plain_name] describes.
      For an absolute name [p / name] is the name itself, and [..] is
      resolved by the file system: such names are outside the model,
      and every statement that depends on where a member lands is made
      for archives whose regular files have plain names
      ([plain_files]).
    - The disk is a finite map from absolute paths to nodes.  The library
      calls the program makes ([Path.mkdir], [os.makedirs],
      [shutil.rmtree], [shutil.move], [TarFile.extract],
      [tempfile.mkdtemp], [Path.rglob]) are modelled on it with the
      failures they raise.
    - The program is written in a state-and-exception monad [M]: the
      state carries the mutable fields of the builder object, the disk,
      a journal of observable events (tool invocations and log records)
      and the counters that index the environment's answers.
    - [mksquashfs] is external: every [subprocess.run] is journalled
      together with the disk it saw, and its answer (exit status,
      diagnostic text, running time) is read from the configuration.
      The image file itself is not on the modelled disk, so the size
      diagnostics of verbose mode and the progress bar are left out.
      A tool that cannot be started at all and an [os.statvfs] that
      fails are not modelled: statements about the tool and the free
      space are made for runs that return normally, or say what is
      left unchanged.
    - Archives are well-formed member lists; [tarfile.TarError] does not
      arise. *)

From stdpp Require Import gmap strings list fin_maps pretty sorting.
From Stdlib Require Import ZArith Lia Ascii.

Open Scope Z_scope.

(** ** Paths and the disk *)

Abbreviation path := (list string).

Inductive node :=
| File (content : string)
| Dir.

#[global] Instance node_eq_dec : EqDecision node.
Proof. solve_decision. Defined.

Definition is_file (n : node) : bool :=
  match n with File _ => true | Dir => false end.

(** [os.path.dirname] / [Path.parent] and [Path.name]. *)
Definition parent (p : path) : path := removelast p.
Definition basename (p : path) : string := List.last p "".

(** The root always exists and is a directory. *)
Definition stat (d : gmap path node) (p : path) : option node :=
  match p with
  | [] => Some Dir
  | _ => d !! p
  end.

Definition exists_ (d : gmap path node) (p : path) : bool :=
  match stat d p with Some _ => true | None => false end.

(** ** Strings: [c in s], [sub in s], and [Path(name).parts] *)

Fixpoint contains_char (c : ascii) (s : string) : bool :=
  match s with
  | EmptyString => false
  | String a r => if Ascii.eqb a c then true else contains_char c r
  end.

Fixpoint contains_sub (sub s : string) : bool :=
  if String.prefix sub s then true
  else match s with
       | EmptyString => false
       | String _ r => contains_sub sub r
       end.

(** Pieces between slashes, empty pieces included. *)
Fixpoint split_slash (s : string) : list string :=
  match s with
  | EmptyString => [EmptyString]
  | String c r =>
      if Ascii.eqb c "/"%char then EmptyString :: split_slash r
      else match split_slash r with
           | h :: t => String c h :: t
           | [] => [String c EmptyString]
           end
  end.

Definition real_segment (s : string) : bool :=
  negb (String.eqb s "") && negb (String.eqb s ".").

(** [pathlib] drops empty and [.] components of a relative path. *)
Definition path_parts (name : string) : path :=
  List.filter real_segment (split_slash name).

(** The member names on which the model follows the code: relative
    names without a [..] component. *)
Definition plain_name (name : string) : Prop :=
  String.prefix "/" name = false ∧ ".." ∉ path_parts name.

#[global] Instance plain_name_dec name : Decision (plain_name name).
Proof. unfold plain_name. apply _. Defined.

(** Python truthiness of a [str]. *)
Definition truthy (s : string) : bool := negb (String.eqb s "").

(** ** Exceptions *)

Inductive runtime_error :=
| ToolsMissing
| InsufficientDiskSpace
| TimedOut
| NoSpaceForMksquashfs
| AppendFailed (diagnostic : string).

Inductive exn :=
| RuntimeError (m : runtime_error)
| FileExistsError (p : path)
| FileNotFoundError (p : path)
| NotADirectoryError (p : path)
| IsADirectoryError (p : path)
| ShutilError (p : path)
| CalledProcessError (status : Z)
| TimeoutExpired.

Inductive outcome (A : Type) :=
| Ok (a : A)
| Raise (e : exn).
Arguments Ok {A} a.
Arguments Raise {A} e.

(** ** Library calls on the disk *)

Section Disk.
Implicit Types (d : gmap path node) (p : path).

(** [Path.mkdir(exist_ok=...)], without [parents]. *)
Definition fs_mkdir (exist_ok : bool) p d : outcome (gmap path node) :=
  match stat d p with
  | Some Dir => if exist_ok then Ok d else Raise (FileExistsError p)
  | Some (File _) => Raise (FileExistsError p)
  | None =>
      match stat d (parent p) with
      | Some Dir => Ok (<[p := Dir]> d)
      | Some (File _) => Raise (NotADirectoryError p)
      | None => Raise (FileNotFoundError p)
      end
  end.

(** Create the components of [rest] one by one below [pre]. *)
Fixpoint mkdirs_from (pre rest : path) d : outcome (gmap path node) :=
  match rest with
  | [] => Ok d
  | s :: r =>
      let q := pre ++ [s] in
      match stat d q with
      | Some Dir => mkdirs_from q r d
      | Some (File _) =>
          Raise (match r with
                 | [] => FileExistsError q
                 | _ => NotADirectoryError q
                 end)
      | None => mkdirs_from q r (<[q := Dir]> d)
      end
  end.

(** [Path.mkdir(parents=True, exist_ok=True)]. *)
Definition fs_mkdir_parents p d : outcome (gmap path node) :=
  mkdirs_from [] p d.

(** [os.makedirs(p)]: as above, but [p] itself must be new. *)
Definition fs_makedirs p d : outcome (gmap path node) :=
  if exists_ d p then Raise (FileExistsError p) else mkdirs_from [] p d.

(** [shutil.rmtree(p, ignore_errors=...)]. *)
Definition fs_rmtree (ignore_errors : bool) p d : outcome (gmap path node) :=
  match stat d p with
  | Some Dir => Ok (filter (λ kv, ¬ p `prefix_of` kv.1) d)
  | Some (File _) =>
      if ignore_errors then Ok d else Raise (NotADirectoryError p)
  | None => if ignore_errors then Ok d else Raise (FileNotFoundError p)
  end.

(** [tar.extract(member, path=dest)] for a regular file: missing
    parent directories are created, an existing file is replaced, a
    directory in the way is an error.  When the parent of the target
    is a regular file no directory is made and opening the target
    fails with [NotADirectoryError]. *)
Definition fs_extract (dest : path) (name content : string) d
  : outcome (gmap path node) :=
  let target := dest ++ path_parts name in
  match mkdirs_from [] (parent target) d with
  | Raise (FileExistsError _) => Raise (NotADirectoryError target)
  | Raise e => Raise e
  | Ok d1 =>
      match stat d1 target with
      | Some Dir => Raise (IsADirectoryError target)
      | _ => Ok (<[target := File content]> d1)
      end
  end.

(** [os.rename] of a regular file. *)
Definition fs_rename (src dst : path) d : outcome (gmap path node) :=
  match stat d src with
  | None => Raise (FileNotFoundError src)
  | Some Dir => Raise (IsADirectoryError src)
  | Some (File c) =>
      match stat d (parent dst) with
      | Some Dir =>
          match stat d dst with
          | Some Dir => Raise (IsADirectoryError dst)
          | _ => Ok (<[dst := File c]> (delete src d))
          end
      | Some (File _) => Raise (NotADirectoryError dst)
      | None => Raise (FileNotFoundError dst)
      end
  end.

(** [shutil.move(src, dst)]: a directory at [dst] receives the source
    under its own name, and the move fails when that name is taken.
    The source is always a regular file here, since it has just been
    written by [fs_extract]. *)
Definition fs_move (src dst : path) d : outcome (gmap path node) :=
  match stat d dst with
  | Some Dir =>
      let real_dst := dst ++ [basename src] in
      if exists_ d real_dst then Raise (ShutilError real_dst)
      else fs_rename src real_dst d
  | _ => fs_rename src dst d
  end.

(** The regular files strictly below [p]: what
    [Path(p).rglob('*')] filtered by [is_file] yields, and what
    [mksquashfs p image] reads. *)
Definition files_under p d : gmap path node :=
  filter (λ kv, (p `prefix_of` kv.1 ∧ p ≠ kv.1) ∧ is_file kv.2 = true) d.

Definition count_files_under p d : Z :=
  match stat d p with
  | Some Dir => Z.of_nat (size (files_under p d))
  | _ => 0
  end.

(** Every entry strictly below [p], directories included. *)
Definition entries_under p d : gmap path node :=
  filter (λ kv, p `prefix_of` kv.1 ∧ p ≠ kv.1) d.

Definition count_entries_under p d : Z :=
  Z.of_nat (size (entries_under p d)).
End Disk.

(** ** The environment and the builder object *)

(** What one run of the external tool answers. *)
Record tool_response := {
  returncode : Z;
  stderr : string;
  duration : Z   (* wall-clock seconds *)
}.

Inductive command :=
| MksquashfsVersion
| MksquashfsCreate (source image : path) (comp : option string)
| MksquashfsAppend (source image : path) (comp : option string).

Inductive level := DEBUG | INFO | ERROR.

Inductive log_record :=
| CreatedTemporaryDirectory (p : path)
| WouldInitialize
| Initialized
| WouldAppend (file_count : Z) (source : path)
| MksquashfsError (diagnostic : string)
| ProcessingArchive (archive_name : string)
| ProcessingArchiveMemoryEfficient (archive_name : string)
| MergingDuplicateDirectories (dirs : gset string)
| OverwritingDuplicateFile (name : string)
| AppendingBatch (n : Z)
| AppendingFinalBatch (n : Z)
| FoundFiles (n : Z)
| UnexpectedError (e : exn)
| ArchiveOf (i total : Z)
| SuccessfullyProcessed (files archives : Z)
| WouldCreateOutput.

Inductive event :=
| Run (cmd : command) (time_limit : option Z) (seen : gmap path node)
| Log (lvl : level) (r : log_record).

Inductive member_kind := RegularFile | Directory | OtherKind.

(** A [TarInfo] with the content of the member. *)
Record member := {
  name : string;
  kind : member_kind;
  content : string
}.

Definition isfile (m : member) : bool :=
  match kind m with RegularFile => true | _ => false end.
Definition isdir (m : member) : bool :=
  match kind m with Directory => true | _ => false end.

Record archive := {
  archive_name : string;
  members : list member
}.

(** The constructor arguments of [SquashFSBuilder], and the answers of
    the environment: [tool i] is the answer to the [i]-th
    [subprocess.run], [free_bytes i] the space [os.statvfs] reports at
    that time. *)
Record config := {
  output_file : path;
  batch_size : Z;
  compression : string;
  temp_dir : option path;
  temp_base : option path;
  dry_run : bool;
  merge_duplicates : bool;
  tool : nat → tool_response;
  free_bytes : nat → Z
}.

(** The mutable fields of the builder, then the world around it.  The
    journal is kept newest first. *)
Record state := {
  files_in_batch : Z;
  total_files : Z;
  seen_top_dirs : gset string;
  merge_base_dir : option path;
  disk : gmap path node;
  journal : list event;
  tool_calls : nat;
  temp_serial : nat
}.

Definition set_files_in_batch (n : Z) (s : state) : state :=
  {| files_in_batch := n; total_files := total_files s;
     seen_top_dirs := seen_top_dirs s; merge_base_dir := merge_base_dir s;
     disk := disk s; journal := journal s; tool_calls := tool_calls s;
     temp_serial := temp_serial s |}.
Definition set_total_files (n : Z) (s : state) : state :=
  {| files_in_batch := files_in_batch s; total_files := n;
     seen_top_dirs := seen_top_dirs s; merge_base_dir := merge_base_dir s;
     disk := disk s; journal := journal s; tool_calls := tool_calls s;
     temp_serial := temp_serial s |}.
Definition set_seen_top_dirs (x : gset string) (s : state) : state :=
  {| files_in_batch := files_in_batch s; total_files := total_files s;
     seen_top_dirs := x; merge_base_dir := merge_base_dir s;
     disk := disk s; journal := journal s; tool_calls := tool_calls s;
     temp_serial := temp_serial s |}.
Definition set_merge_base_dir (x : option path) (s : state) : state :=
  {| files_in_batch := files_in_batch s; total_files := total_files s;
     seen_top_dirs := seen_top_dirs s; merge_base_dir := x;
     disk := disk s; journal := journal s; tool_calls := tool_calls s;
     temp_serial := temp_serial s |}.
Definition set_disk (x : gmap path node) (s : state) : state :=
  {| files_in_batch := files_in_batch s; total_files := total_files s;
     seen_top_dirs := seen_top_dirs s; merge_base_dir := merge_base_dir s;
     disk := x; journal := journal s; tool_calls := tool_calls s;
     temp_serial := temp_serial s |}.
Definition set_journal (x : list event) (s : state) : state :=
  {| files_in_batch := files_in_batch s; total_files := total_files s;
     seen_top_dirs := seen_top_dirs s; merge_base_dir := merge_base_dir s;
     disk := disk s; journal := x; tool_calls := tool_calls s;
     temp_serial := temp_serial s |}.
Definition set_tool_calls (x : nat) (s : state) : state :=
  {| files_in_batch := files_in_batch s; total_files := total_files s;
     seen_top_dirs := seen_top_dirs s; merge_base_dir := merge_base_dir s;
     disk := disk s; journal := journal s; tool_calls := x;
     temp_serial := temp_serial s |}.
Definition set_temp_serial (x : nat) (s : state) : state :=
  {| files_in_batch := files_in_batch s; total_files := total_files s;
     seen_top_dirs := seen_top_dirs s; merge_base_dir := merge_base_dir s;
     disk := disk s; journal := journal s; tool_calls := tool_calls s;
     temp_serial := x |}.

(** [SquashFSBuilder.__init__] on a given disk. *)
Definition init_state (d : gmap path node) : state :=
  {| files_in_batch := 0; total_files := 0; seen_top_dirs := ∅;
     merge_base_dir := None; disk := d; journal := []; tool_calls := 0;
     temp_serial := 0 |}.

(** ** The monad: state, and exceptions that keep the state *)

Definition M (A : Type) : Type := state → outcome A * state.

#[global] Instance M_ret : MRet M := λ A a s, (Ok a, s).
#[global] Instance M_bind : MBind M := λ A B f m s,
  match m s with
  | (Ok a, s') => f a s'
  | (Raise e, s') => (Raise e, s')
  end.

Definition raise {A} (e : exn) : M A := λ s, (Raise e, s).
Definition get : M state := λ s, (Ok s, s).
Definition modify (f : state → state) : M unit := λ s, (Ok tt, f s).

(** [try: body finally: cleanup]. *)
Definition try_finally {A} (body : M A) (cleanup : M unit) : M A := λ s,
  let '(r, s1) := body s in
  match cleanup s1 with
  | (Ok _, s2) => (r, s2)
  | (Raise e, s2) => (Raise e, s2)
  end.

(** [try: body except ...: handler]. *)
Definition try_except {A} (body : M A) (handler : exn → M A) : M A := λ s,
  match body s with
  | (Ok a, s1) => (Ok a, s1)
  | (Raise e, s1) => handler e s1
  end.

Definition log (lvl : level) (r : log_record) : M unit :=
  modify (λ s, set_journal (Log lvl r :: journal s) s).

Definition on_disk (f : gmap path node → outcome (gmap path node)) : M unit :=
  λ s, match f (disk s) with
       | Ok d => (Ok tt, set_disk d s)
       | Raise e => (Raise e, s)
       end.

Definition when (b : bool) (m : M unit) : M unit :=
  if b then m else mret tt.

Fixpoint for_each {A} (l : list A) (body : A → M unit) : M unit :=
  match l with
  | [] => mret tt
  | x :: r => body x ;; for_each r body
  end.

(** ** The builder *)

Section Builder.
Variable cfg : config.

(** [tempfile.mkdtemp(prefix=prefix, dir=self.temp_base)]: the random
    suffix is modelled by a serial number, and a taken name fails. *)
Definition mkdtemp (prefix : string) : M path := λ s,
  let base := default ["tmp"] (temp_base cfg) in
  let p := base ++ [prefix +:+ pretty (temp_serial s)] in
  match stat (disk s) base with
  | Some Dir =>
      if exists_ (disk s) p then (Raise (FileExistsError p), s)
      else (Ok p, set_temp_serial (S (temp_serial s))
                    (set_disk (<[p := Dir]> (disk s)) s))
  | Some (File _) => (Raise (NotADirectoryError p), s)
  | None => (Raise (FileNotFoundError p), s)
  end.

(** [subprocess.run(cmd, timeout=...)]. *)
Definition subprocess_run (cmd : command) (time_limit : option Z)
  : M tool_response := λ s,
  let r := tool cfg (tool_calls s) in
  let s' := set_tool_calls (S (tool_calls s))
              (set_journal (Run cmd time_limit (disk s) :: journal s) s) in
  match time_limit with
  | Some t => if t <? duration r then (Raise TimeoutExpired, s')
              else (Ok r, s')
  | None => (Ok r, s')
  end.

(** [subprocess.run(cmd, check=True)]. *)
Definition subprocess_run_checked (cmd : command) : M unit :=
  r ← subprocess_run cmd None;
  if returncode r =? 0 then mret tt
  else raise (CalledProcessError (returncode r)).

Definition temp_directory {A} (prefix : string) (body : path → M A) : M A :=
  match temp_dir cfg with
  | None =>
      t ← mkdtemp prefix;
      try_finally
        (log DEBUG (CreatedTemporaryDirectory t) ;; body t)
        (on_disk (fs_rmtree true t))
  | Some t =>
      s ← get;
      when (negb (exists_ (disk s) t)) (on_disk (fs_mkdir_parents t)) ;;
      try_finally
        (log DEBUG (CreatedTemporaryDirectory t) ;; body t)
        (on_disk (fs_rmtree true t))
  end.

Definition check_tools : M unit :=
  try_except (subprocess_run_checked MksquashfsVersion)
             (λ _, raise (RuntimeError ToolsMissing)).

Definition check_disk_space (required_space_mb : Z) : M unit :=
  if dry_run cfg then mret tt
  else
    s ← get;
    if free_bytes cfg (tool_calls s) <? required_space_mb * (1024 * 1024)
    then raise (RuntimeError InsufficientDiskSpace)
    else mret tt.

Definition comp_option : option string :=
  if truthy (compression cfg) then Some (compression cfg) else None.

Definition initialize_squashfs : M unit :=
  if dry_run cfg then log INFO WouldInitialize
  else
    temp_directory "squashfs_" (λ t,
      let empty_dir := t ++ ["empty"] in
      on_disk (fs_mkdir false empty_dir) ;;
      subprocess_run_checked
        (MksquashfsCreate empty_dir (output_file cfg) comp_option) ;;
      log INFO Initialized).

Definition append_to_squashfs (source_dir : path) : M unit :=
  if dry_run cfg then
    s ← get;
    log INFO (WouldAppend (count_files_under source_dir (disk s)) source_dir)
  else
    check_disk_space 100 ;;
    result ← try_except
      (subprocess_run
         (MksquashfsAppend source_dir (output_file cfg) comp_option)
         (Some 300))
      (λ e, match e with
            | TimeoutExpired => raise (RuntimeError TimedOut)
            | _ => raise e
            end);
    if negb (returncode result =? 0) then
      log ERROR (MksquashfsError (stderr result)) ;;
      if contains_sub "No space left on device" (stderr result)
      then raise (RuntimeError NoSpaceForMksquashfs)
      else raise (RuntimeError (AppendFailed (stderr result)))
    else mret tt.

Definition get_top_level_dir (member_path : string) : option string :=
  if negb (truthy member_path) || String.eqb member_path "." then None
  else
    match path_parts member_path with
    | [] => None
    | [p] => if contains_char "."%char p then None else Some p
    | p :: _ => Some p
    end.

(** Truthiness of an optional [str]. *)
Definition has_top (top_dir : option string) : bool :=
  match top_dir with Some t => truthy t | None => false end.

Definition setup_merge_directory (extract_path : path) (top_dir : option string)
  : M path :=
  if negb (merge_duplicates cfg) || negb (has_top top_dir)
  then mret extract_path
  else
    s ← get;
    (match merge_base_dir s with
     | None =>
         modify (set_merge_base_dir (Some (extract_path ++ ["merged"]))) ;;
         when (negb (dry_run cfg))
              (on_disk (fs_mkdir true (extract_path ++ ["merged"])))
     | Some _ => mret tt
     end) ;;
    s ← get;
    let base := default extract_path (merge_base_dir s) in
    let target_dir := base ++ [default "" top_dir] in
    when (negb (dry_run cfg)) (on_disk (fs_mkdir true target_dir)) ;;
    mret base.

(** [self.merge_base_dir if self.merge_duplicates and
    self.merge_base_dir else extract_path]. *)
Definition content_root (extract_path : path) (s : state) : path :=
  if merge_duplicates cfg then default extract_path (merge_base_dir s)
  else extract_path.

Definition merging_here (s : state) : bool :=
  merge_duplicates cfg && bool_decide (is_Some (merge_base_dir s)).

(** The placement block of [process_tar_member] (the body of
    [if not self.dry_run:]). *)
Definition place_member (m : member) (extract_path : path)
    (top_dir : option string) : M unit :=
  when (negb (dry_run cfg))
    (if merge_duplicates cfg && has_top top_dir then
       s ← get;
       (match merge_base_dir s with
        | None =>
            modify (set_merge_base_dir (Some (extract_path ++ ["merged"]))) ;;
            on_disk (fs_mkdir true (extract_path ++ ["merged"]))
        | Some _ => mret tt
        end) ;;
       let temp_extract := extract_path ++ ["temp_extract"] in
       on_disk (fs_mkdir true temp_extract) ;;
       on_disk (fs_extract temp_extract (name m) (content m)) ;;
       s ← get;
       let src := temp_extract ++ path_parts (name m) in
       let dst := default extract_path (merge_base_dir s)
                    ++ path_parts (name m) in
       on_disk (fs_mkdir_parents (parent dst)) ;;
       s ← get;
       when (exists_ (disk s) src)
         (when (exists_ (disk s) dst)
               (log DEBUG (OverwritingDuplicateFile (name m))) ;;
          on_disk (fs_move src dst)) ;;
       on_disk (fs_rmtree true temp_extract)
     else
       on_disk (fs_extract extract_path (name m) (content m))).

(** The post-commit reset of the staging area. *)
Definition reset_staging (extract_path : path) : M unit :=
  s ← get;
  if merging_here s then
    on_disk (fs_rmtree false (default extract_path (merge_base_dir s))) ;;
    modify (set_merge_base_dir (Some (extract_path ++ ["merged"]))) ;;
    on_disk (fs_mkdir true (extract_path ++ ["merged"]))
  else
    on_disk (fs_rmtree false extract_path) ;;
    on_disk (fs_makedirs extract_path).

(** The counting block of [process_tar_member], with the commit at
    the batch boundary. *)
Definition count_and_commit (extract_path : path) : M unit :=
  modify (λ s, set_files_in_batch (files_in_batch s + 1) s) ;;
  modify (λ s, set_total_files (total_files s + 1) s) ;;
  s ← get;
  if batch_size cfg <=? files_in_batch s then
    log DEBUG (AppendingBatch (files_in_batch s)) ;;
    when (negb (dry_run cfg))
      (append_to_squashfs (content_root extract_path s) ;;
       reset_staging extract_path) ;;
    modify (set_files_in_batch 0)
  else mret tt.

Definition process_tar_member (m : member) (extract_path : path)
    (top_dir : option string) : M unit :=
  if isfile m then
    place_member m extract_path top_dir ;;
    count_and_commit extract_path
  else mret tt.

(** The first pass over an archive: the top-level directories of its
    file and directory members. *)
Fixpoint collect_top_dirs (ms : list member) (acc : gset string) : gset string :=
  match ms with
  | [] => acc
  | m :: r =>
      if isfile m || isdir m then
        match get_top_level_dir (name m) with
        | Some t => if truthy t then collect_top_dirs r ({[t]} ∪ acc)
                    else collect_top_dirs r acc
        | None => collect_top_dirs r acc
        end
      else collect_top_dirs r acc
  end.

Definition note_top_dirs (a : archive) : M unit :=
  let archive_top_dirs := collect_top_dirs (members a) ∅ in
  s ← get;
  let duplicate_dirs := archive_top_dirs ∩ seen_top_dirs s in
  when (negb (bool_decide (duplicate_dirs = ∅)))
       (log INFO (MergingDuplicateDirectories duplicate_dirs)) ;;
  modify (λ s, set_seen_top_dirs (seen_top_dirs s ∪ archive_top_dirs) s).

(** The extraction loop of streaming mode; [file_count] is the local
    counter of the loop. *)
Fixpoint streaming_loop (ms : list member) (extract_dir : path)
    (file_count : Z) : M Z :=
  match ms with
  | [] => mret file_count
  | m :: r =>
      if isfile m then
        let top_dir := if merge_duplicates cfg
                       then get_top_level_dir (name m) else None in
        (if merge_duplicates cfg && has_top top_dir
         then setup_merge_directory extract_dir top_dir ;; mret tt
         else mret tt) ;;
        process_tar_member m extract_dir top_dir ;;
        streaming_loop r extract_dir (file_count + 1)
      else streaming_loop r extract_dir file_count
  end.

Definition process_archive_streaming (a : archive) : M unit :=
  log INFO (ProcessingArchive (archive_name a)) ;;
  temp_directory "extract_" (λ extract_dir,
    modify (set_files_in_batch 0) ;;
    when (merge_duplicates cfg) (modify (set_merge_base_dir None)) ;;
    try_except
      (when (merge_duplicates cfg) (note_top_dirs a) ;;
       file_count ← streaming_loop (members a) extract_dir 0;
       log INFO (FoundFiles file_count) ;;
       s ← get;
       if 0 <? files_in_batch s then
         log DEBUG (AppendingFinalBatch (files_in_batch s)) ;;
         append_to_squashfs (content_root extract_dir s)
       else mret tt)
      (λ e, log ERROR (UnexpectedError e) ;; raise e)).

(** The placement block of the loop of memory-efficient mode (the
    body of its [if not self.dry_run:]). *)
Definition memory_efficient_place (m : member) (batch_dir : path) : M unit :=
  when (negb (dry_run cfg))
    (let top_dir := if merge_duplicates cfg
                    then get_top_level_dir (name m) else None in
     let temp_extract := batch_dir ++ ["temp_extract"] in
     if merge_duplicates cfg && has_top top_dir then
       s ← get;
       (match merge_base_dir s with
        | None =>
            modify (set_merge_base_dir (Some (batch_dir ++ ["merged"]))) ;;
            on_disk (fs_mkdir true (batch_dir ++ ["merged"]))
        | Some _ => mret tt
        end) ;;
       on_disk (fs_mkdir true temp_extract) ;;
       on_disk (fs_extract temp_extract (name m) (content m)) ;;
       s ← get;
       let src := temp_extract ++ path_parts (name m) in
       let dst := default batch_dir (merge_base_dir s)
                    ++ path_parts (name m) in
       on_disk (fs_mkdir_parents (parent dst)) ;;
       s ← get;
       when (exists_ (disk s) dst)
            (log DEBUG (OverwritingDuplicateFile (name m))) ;;
       on_disk (fs_move src dst) ;;
       on_disk (fs_rmtree false temp_extract)
     else
       on_disk (fs_mkdir true temp_extract) ;;
       on_disk (fs_extract temp_extract (name m) (content m)) ;;
       let src := temp_extract ++ path_parts (name m) in
       let dst := batch_dir ++ path_parts (name m) in
       on_disk (fs_mkdir_parents (parent dst)) ;;
       on_disk (fs_move src dst) ;;
       on_disk (fs_rmtree false temp_extract)).

(** The counting block of that loop, with the commit at the batch
    boundary; here the commit call is outside the dry-run guard. *)
Definition memory_efficient_count_and_commit (batch_dir : path) : M unit :=
  modify (λ s, set_files_in_batch (files_in_batch s + 1) s) ;;
  modify (λ s, set_total_files (total_files s + 1) s) ;;
  s ← get;
  if batch_size cfg <=? files_in_batch s then
    log DEBUG (AppendingBatch (files_in_batch s)) ;;
    append_to_squashfs (content_root batch_dir s) ;;
    when (negb (dry_run cfg)) (reset_staging batch_dir) ;;
    modify (set_files_in_batch 0)
  else mret tt.

(** One iteration of the extraction loop of memory-efficient mode. *)
Definition memory_efficient_member (m : member) (batch_dir : path) : M unit :=
  if isfile m then
    memory_efficient_place m batch_dir ;;
    memory_efficient_count_and_commit batch_dir
  else mret tt.

Definition process_archive_memory_efficient (a : archive) : M unit :=
  log INFO (ProcessingArchiveMemoryEfficient (archive_name a)) ;;
  temp_directory "batch_" (λ batch_dir,
    modify (set_files_in_batch 0) ;;
    when (merge_duplicates cfg) (note_top_dirs a) ;;
    for_each (members a) (λ m, memory_efficient_member m batch_dir) ;;
    s ← get;
    if 0 <? files_in_batch s then
      log DEBUG (AppendingFinalBatch (files_in_batch s)) ;;
      append_to_squashfs (content_root batch_dir s)
    else mret tt).

Fixpoint archives_loop (l : list archive) (memory_efficient : bool)
    (i total : Z) : M unit :=
  match l with
  | [] => mret tt
  | a :: r =>
      log INFO (ArchiveOf i total) ;;
      (if memory_efficient then process_archive_memory_efficient a
       else process_archive_streaming a) ;;
      archives_loop r memory_efficient (i + 1) total
  end.

Definition build_from_archives (archive_list : list archive)
    (memory_efficient : bool) : M unit :=
  when (negb (dry_run cfg)) check_tools ;;
  initialize_squashfs ;;
  let total_archives := Z.of_nat (length archive_list) in
  archives_loop archive_list memory_efficient 1 total_archives ;;
  s ← get;
  log INFO (SuccessfullyProcessed (total_files s) total_archives) ;;
  when (dry_run cfg) (log INFO WouldCreateOutput).
End Builder.

(** ** Observations on a run *)

(** The commits issued so far, oldest first: the content root handed to
    [mksquashfs] and the disk at that moment. *)
Definition appends_of (j : list event) : list (path * gmap path node) :=
  omap (λ e, match e with
             | Run (MksquashfsAppend src _ _) _ seen => Some (src, seen)
             | _ => None
             end) j.

Definition appends (s : state) : list (path * gmap path node) :=
  rev (appends_of (journal s)).

(** The regular files of a content root, by their path relative to it. *)
Definition listing (root : path) (d : gmap path node) : list (path * string) :=
  omap (λ kv, match kv.2 with
              | File c => Some (drop (length root) kv.1, c)
              | Dir => None
              end) (map_to_list (files_under root d)).

Definition committed_files (c : path * gmap path node) : Z :=
  Z.of_nat (size (files_under c.1 c.2)).

Fixpoint sum_list (l : list Z) : Z :=
  match l with
  | [] => 0
  | x :: r => x + sum_list r
  end.

Definition committed_total (s : state) : Z :=
  sum_list (committed_files <$> appends s).

(** The batch sizes announced at batch boundaries and at archive end,
    oldest first. *)
Definition announced_of (j : list event) : list Z :=
  omap (λ e, match e with
             | Log _ (AppendingBatch n) => Some n
             | Log _ (AppendingFinalBatch n) => Some n
             | _ => None
             end) j.

Definition announced (s : state) : list Z := rev (announced_of (journal s)).

(** What a dry run reports it would append, oldest first. *)
Definition would_append_of (j : list event) : list Z :=
  omap (λ e, match e with
             | Log _ (WouldAppend n _) => Some n
             | _ => None
             end) j.

Definition would_append (s : state) : list Z :=
  rev (would_append_of (journal s)).

Definition runs_of (j : list event) : list command :=
  omap (λ e, match e with Run c _ _ => Some c | Log _ _ => None end) j.

Definition overwrites_of (j : list event) : list string :=
  omap (λ e, match e with
             | Log _ (OverwritingDuplicateFile n) => Some n
             | _ => None
             end) j.

(** The number of regular-file members of an archive. *)
Definition file_count (ms : list member) : Z :=
  Z.of_nat (length (List.filter isfile ms)).

(** [⌈n / b⌉]. *)
Definition ceil_div (n b : Z) : Z := (n + b - 1) / b.

(** Every non-root prefix of [p], and [p] itself, is a directory. *)
Definition dir_chain (d : gmap path node) (p : path) : Prop :=
  ∀ q, q `prefix_of` p → stat d q = Some Dir.

(** The extraction loop of streaming mode in a staging directory just
    obtained from [mkdtemp]; the state is observed before the scope is
    left. *)
Definition streaming_in_staging (cfg : config) (ms : list member)
  : M (path * Z) :=
  t ← mkdtemp cfg "extract_";
  n ← streaming_loop cfg ms t 0;
  mret (t, n).

(** ** Concrete environments and archives *)

Definition answers_ok : nat → tool_response :=
  λ _, {| returncode := 0; stderr := ""; duration := 1 |}.

Definition plenty : nat → Z := λ _, 1000000000000.

Definition plain_config (b : Z) (dry mrg : bool) : config :=
  {| output_file := ["out.sqfs"]; batch_size := b; compression := "xz";
     temp_dir := None; temp_base := None; dry_run := dry;
     merge_duplicates := mrg; tool := answers_ok; free_bytes := plenty |}.

Definition bare_disk : gmap path node := {[ ["tmp"] := Dir ]}.

Definition regular (n c : string) : member :=
  {| name := n; kind := RegularFile; content := c |}.

Definition shard (n : string) (ms : list member) : archive :=
  {| archive_name := n; members := ms |}.


(** ** Definitions used in the proofs *)

(** ** Programs that keep a preorder on states

    [Keeps R m]: whatever the outcome, the final state of [m] is
    [R]-related to the initial one. *)

Definition Keeps (R : relation state) {A} (m : M A) : Prop :=
  ∀ s, R s (m s).2.

(** The ledger: what placement and cleanup leave alone. *)
Record quiet (s s' : state) : Prop := {
  quiet_batch : files_in_batch s' = files_in_batch s;
  quiet_total : total_files s' = total_files s;
  quiet_calls : tool_calls s' = tool_calls s;
  quiet_runs : runs_of (journal s') = runs_of (journal s);
  quiet_appends : appends_of (journal s') = appends_of (journal s);
  quiet_announced : announced_of (journal s') = announced_of (journal s);
  quiet_would : would_append_of (journal s') = would_append_of (journal s)
}.

Definition plain_record (r : log_record) : bool :=
  match r with
  | AppendingBatch _ | AppendingFinalBatch _ | WouldAppend _ _ => false
  | _ => true
  end.

(** The counter logic of the extraction loops on its own: the batch
    sizes announced at the boundaries met while [ms] is read with [fib]
    files already in the batch, and the counter left at the end. *)
Fixpoint batch_plan (b : Z) (ms : list member) (fib : Z) : list Z * Z :=
  match ms with
  | [] => ([], fib)
  | m :: r =>
      if isfile m then
        if b <=? fib + 1 then
          let '(l, f) := batch_plan b r 0 in ((fib + 1) :: l, f)
        else batch_plan b r (fib + 1)
      else batch_plan b r fib
  end.

(** The announcements of one archive, the final partial batch included. *)
Definition archive_plan (b : Z) (ms : list member) : list Z :=
  let '(l, f) := batch_plan b ms 0 in
  l ++ (if 0 <? f then [f] else []).

(** What a dry run leaves alone: the disk, and the tool. *)
Record untouched (s s' : state) : Prop := {
  untouched_disk : disk s' = disk s;
  untouched_calls : tool_calls s' = tool_calls s;
  untouched_runs : runs_of (journal s') = runs_of (journal s)
}.

(** The effect on the ledger of reading members whose plan is [(l, f)]
    and which contain [n] regular files. *)
Record ledger_step (cfg : config) (l : list Z) (f n : Z) (s s' : state)
  : Prop := {
  step_batch : files_in_batch s' = f;
  step_total : total_files s' = total_files s + n;
  step_announced :
    announced_of (journal s') = rev l ++ announced_of (journal s);
  step_appends :
    dry_run cfg = false →
    length (appends_of (journal s')) =
      (length l + length (appends_of (journal s)))%nat
}.

(** [d'] is [d] with directories added at paths that were free. *)
Definition adds_dirs (d d' : gmap path node) : Prop :=
  ∀ q, d' !! q = d !! q ∨ (d !! q = None ∧ d' !! q = Some Dir).

(** The file counts of the commits issued so far, newest first. *)
Definition committed_of (j : list event) : list Z :=
  committed_files <$> appends_of j.

(** The paths of the regular-file members of an archive. *)
Definition file_paths (ms : list member) : list path :=
  (λ m, path_parts (name m)) <$> List.filter isfile ms.

(** The regular files of an archive have plain names. *)
Definition plain_files (ms : list member) : Prop :=
  Forall (λ m, isfile m = true → plain_name (name m)) ms.

#[global] Instance plain_files_dec ms : Decision (plain_files ms).
Proof. unfold plain_files. apply _. Defined.

(** The staging directory [e] between two placements when merging is
    off: it exists, its regular files come from the members [P] placed
    so far, and there are as many of them as the batch counter says. *)
Record staged (e : path) (P : list path) (s : state) : Prop := {
  staged_dir : stat (disk s) e = Some Dir;
  staged_origin :
    ∀ p c, p ≠ [] → disk s !! (e ++ p) = Some (File c) → p ∈ P;
  staged_count : Z.of_nat (size (files_under e (disk s))) = files_in_batch s
}.

(** Nothing exists strictly below [p]. *)
Definition clear_below (d : gmap path node) (p : path) : Prop :=
  ∀ q, p `prefix_of` q → p ≠ q → d !! q = None.

(** The disk is a tree: every entry lies in a directory, whose
    ancestors are directories. *)
Definition tree (d : gmap path node) : Prop :=
  ∀ p, is_Some (d !! p) → dir_chain d (parent p).

(** The disk is a tree on which a fixed [temp_dir] is free: absent, or
    an empty directory.  (A directory made by [mkdtemp] is new, hence
    empty on a tree, whatever else its parent holds.) *)
Definition staging_ready (cfg : config) (d : gmap path node) : Prop :=
  tree d ∧
  match temp_dir cfg with
  | Some t => clear_below d t ∧ ∀ c, d !! t ≠ Some (File c)
  | None => True
  end.

(** [t] is the scoped staging directory that [temp_directory] supplies
    from the disk [d]: the fixed [temp_dir], or a directory that
    [mkdtemp] makes, which was not there before. *)
Definition scoped (cfg : config) (t : path) (d : gmap path node) : Prop :=
  match temp_dir cfg with
  | Some u => t = u
  | None => d !! t = None ∧ parent t = default ["tmp"] (temp_base cfg)
  end.

(** Executable forms of [dir_chain], [clear_below] and [tree]. *)
Fixpoint chain_from (d : gmap path node) (pre rest : path) : bool :=
  match rest with
  | [] => true
  | x :: r =>
      bool_decide (d !! (pre ++ [x]) = Some Dir) && chain_from d (pre ++ [x]) r
  end.

Definition dir_chainb (d : gmap path node) (p : path) : bool :=
  chain_from d [] p.


Definition treeb (d : gmap path node) : bool :=
  bool_decide (map_Forall (λ p _, dir_chainb d (parent p) = true) d).

(** The listings of the content roots committed so far, oldest first. *)
Definition commit_listings (s : state) : list (list (path * string)) :=
  (λ c, listing c.1 c.2) <$> appends s.

(** The duplicate top-level directories reported so far, newest first. *)
Definition merging_reports_of (j : list event) : list (list string) :=
  omap (λ e, match e with
             | Log _ (MergingDuplicateDirectories dirs) => Some (elements dirs)
             | _ => None
             end) j.

(** The content roots of the commits issued so far, oldest first. *)
Definition commit_roots (s : state) : list path := fst <$> appends s.

(** The two archives of the merge scenario. *)
Definition archive_A (c : string) : archive :=
  shard "A" [regular "foo/x.txt" c].
Definition archive_B (c : string) : archive :=
  shard "B" [regular "foo/y.txt" c].

(** [k] root-level files with dotted single-segment names
    ([m0.json], [m1.json], ...). *)
Definition dotted_members (k : nat) : list member :=
  (λ i, regular ("m" +:+ pretty i +:+ ".json") "{}") <$> seq 0 k.

(** An environment whose tool always succeeds but takes [t] seconds. *)
Definition slow_config (t : Z) : config :=
  {| output_file := ["out.sqfs"]; batch_size := 1000; compression := "xz";
     temp_dir := None; temp_base := None; dry_run := false;
     merge_duplicates := true;
     tool := λ _, {| returncode := 0; stderr := ""; duration := t |};
     free_bytes := plenty |}.

(** The time limits of the tool runs so far, newest first. *)
Definition time_limits_of (j : list event) : list (command * option Z) :=
  omap (λ e, match e with
             | Run c limit _ => Some (c, limit)
             | Log _ _ => None
             end) j.

(** The same configuration with the dry-run flag set to [b]. *)
Definition with_dry_run (b : bool) (cfg : config) : config :=
  {| output_file := output_file cfg; batch_size := batch_size cfg;
     compression := compression cfg; temp_dir := temp_dir cfg;
     temp_base := temp_base cfg; dry_run := b;
     merge_duplicates := merge_duplicates cfg; tool := tool cfg;
     free_bytes := free_bytes cfg |}.

(** The batch announcements of a whole run, and its number of regular
    files. *)
Definition run_plan (b : Z) (l : list archive) : list Z :=
  concat ((λ a, archive_plan b (members a)) <$> l).

Definition run_file_count (l : list archive) : Z :=
  sum_list ((λ a, file_count (members a)) <$> l).

(** What a dry run spares: no regular file appears or changes, and the
    tool is not run. *)
Record sparing (s s' : state) : Prop := {
  sparing_files :
    ∀ p c, disk s' !! p = Some (File c) → disk s !! p = Some (File c);
  sparing_calls : tool_calls s' = tool_calls s;
  sparing_runs : runs_of (journal s') = runs_of (journal s)
}.

(** What the preflight check and the image initialization leave alone. *)
Record calm (s s' : state) : Prop := {
  calm_batch : files_in_batch s' = files_in_batch s;
  calm_total : total_files s' = total_files s;
  calm_appends : appends_of (journal s') = appends_of (journal s);
  calm_announced : announced_of (journal s') = announced_of (journal s)
}.

(** An archive with three files under one top-level directory. *)
Definition archive_of_three : archive :=
  shard "A" [regular "foo/x.txt" "1"; regular "foo/y.txt" "2";
             regular "foo/z.txt" "3"].

(** An archive that holds the same path twice. *)
Definition archive_with_duplicate : archive :=
  shard "D" [regular "a/x" "1"; regular "a/x" "2"].


(** What the disk held at [root ++ p] when the last commit so far was
    issued from [root], and the regular files it then held below
    [where_]. *)
Definition last_commit_lookup (s : state) (p : path) : option node :=
  match last (appends s) with
  | Some (root, seen) => seen !! (root ++ p)
  | None => None
  end.

Definition last_commit_files (s : state) (where_ : path)
  : list (path * string) :=
  match last (appends s) with
  | Some (_, seen) => listing where_ seen
  | None => []
  end.

(** Two paths neither of which is a prefix of the other. *)
Definition apart (p q : path) : Prop :=
  ¬ p `prefix_of` q ∧ ¬ q `prefix_of` p.

Fixpoint prefix_free (l : list path) : Prop :=
  match l with
  | [] => True
  | p :: r => Forall (apart p) r ∧ prefix_free r
  end.

#[global] Instance apart_dec p q : Decision (apart p q).
Proof. unfold apart. apply _. Defined.

#[global] Instance prefix_free_dec l : Decision (prefix_free l).
Proof. induction l; simpl; apply _. Defined.

(** The staging directory [e] of an archive before its first entry is
    placed, with merging on. *)
Record fresh_staging (e : path) (s : state) : Prop := {
  fresh_mb : merge_base_dir s = None;
  fresh_chain : dir_chain (disk s) e;
  fresh_clear : clear_below (disk s) e;
  fresh_batch : files_in_batch s = 0
}.

(** The staging directory [e] between two placements once the merge
    root exists: the merge root is a directory, the temporary extraction
    directory is gone, the regular files below the merge root come from
    the members [Pf], the directories below it lead to members of [Pd],
    and the files are as many as the batch counter says. *)
Record merged_staged (e : path) (Pf Pd : list path) (s : state) : Prop := {
  ms_mb : merge_base_dir s = Some (e ++ ["merged"]);
  ms_chain : dir_chain (disk s) e;
  ms_root : disk s !! (e ++ ["merged"]) = Some Dir;
  ms_temp : disk s !! (e ++ ["temp_extract"]) = None;
  ms_temp_clear : clear_below (disk s) (e ++ ["temp_extract"]);
  ms_files :
    ∀ p c, disk s !! ((e ++ ["merged"]) ++ p) = Some (File c) → p ∈ Pf;
  ms_dirs :
    ∀ p, p ≠ [] → disk s !! ((e ++ ["merged"]) ++ p) = Some Dir →
         ∃ q, q ∈ Pd ∧ p `prefix_of` q ∧ p ≠ q;
  ms_count :
    Z.of_nat (size (files_under (e ++ ["merged"]) (disk s))) =
      files_in_batch s
}.

(** ** Further observations on runs *)

(** [n] files cut into batches of [b]: the full batches, then the rest. *)
Definition batches (n b : Z) : list Z :=
  replicate (Z.to_nat (n / b)) b ++ (if 0 <? n mod b then [n mod b] else []).

(** The number of commits a whole run needs, archive by archive. *)
Definition run_commit_count (b : Z) (l : list archive) : Z :=
  sum_list ((λ a, ceil_div (file_count (members a)) b) <$> l).

(** The batches of a whole run, archive by archive. *)
Definition run_batches (b : Z) (l : list archive) : list Z :=
  concat ((λ a, batches (file_count (members a)) b) <$> l).

(** One of the two processing modes. *)
Definition process_archive (cfg : config) (memory_efficient : bool)
    (a : archive) : M unit :=
  if memory_efficient then process_archive_memory_efficient cfg a
  else process_archive_streaming cfg a.

(** The tool runs so far, oldest first. *)
Definition tool_runs (s : state) : list command := rev (runs_of (journal s)).

(** The commit command of a configuration on a content root. *)
Definition append_command (cfg : config) (root : path) : command :=
  MksquashfsAppend root (output_file cfg) (comp_option cfg).

(** Since [s] the tool has run only to append to the image of the
    configuration (newest run first, as in the journal). *)
Definition appending (cfg : config) (s s' : state) : Prop :=
  ∃ roots,
    runs_of (journal s') = (append_command cfg <$> roots) ++ runs_of (journal s).

(** [Succeeds Q m]: a run of [m] that ends normally has taken the state
    to a [Q]-related one. *)
Definition Succeeds (Q : relation state) {A} (m : M A) : Prop :=
  ∀ s a s', m s = (Ok a, s') → Q s s'.

(** The tool exits with status 0 on its [k]-th run. *)
Definition exits_well (cfg : config) (k : nat) : Prop :=
  returncode (tool cfg k) = 0.

(** What a commit needs from the environment at the [k]-th run: 100 MB
    of free space, an answer within the time limit, exit status 0. *)
Definition commits_well (cfg : config) (k : nat) : Prop :=
  100 * (1024 * 1024) ≤ free_bytes cfg k ∧
  duration (tool cfg k) ≤ 300 ∧
  returncode (tool cfg k) = 0.

(** Between [s] and [s'] the tool has run for commits only, once per
    commit, and every one of these runs was answered well. *)
Record committing (cfg : config) (s s' : state) : Prop := {
  committing_calls : (tool_calls s ≤ tool_calls s')%nat;
  committing_each :
    ∀ k, (tool_calls s ≤ k < tool_calls s')%nat → commits_well cfg k;
  committing_count :
    (tool_calls s' + length (appends_of (journal s)) =
     tool_calls s + length (appends_of (journal s')))%nat
}.

(** The tool runs of a whole real run, in order: the preflight check,
    the creation of the image from the empty directory [e], then the
    commits of the content roots. *)
Definition run_pattern (cfg : config) (e : path) (roots : list path)
  : list command :=
  MksquashfsVersion
    :: MksquashfsCreate e (output_file cfg) (comp_option cfg)
    :: (append_command cfg <$> roots).

(** The top-level directory of a member path, read off its components:
    the first one, unless the path is a single component with a dot. *)
Definition leads (t : string) (n : string) : Prop :=
  ∃ r, path_parts n = t :: r ∧ (r = [] → contains_char "." t = false).

(** ** Finding the archives *)

(** [s.endswith(suffix)]. *)
Fixpoint ends_with (suffix s : string) : bool :=
  String.eqb suffix s ||
  match s with
  | EmptyString => false
  | String _ r => ends_with suffix r
  end.

(** The order of [pathlib] paths: component by component, a component
    by code points, a proper prefix first. *)
Fixpoint path_leb (p q : path) : bool :=
  match p, q with
  | [], _ => true
  | _ :: _, [] => false
  | a :: p', b :: q' =>
      match String.compare a b with
      | Lt => true
      | Gt => false
      | Eq => path_leb p' q'
      end
  end.

Definition path_le (p q : path) : Prop := path_leb p q = true.

#[global] Instance path_le_dec : RelDecision path_le.
Proof. intros p q. unfold path_le. apply _. Defined.

(** [Path(p).iterdir()]: the entries directly in [p], in the order the
    system lists them. *)
Definition iterdir (p : path) (d : gmap path node) : outcome (list path) :=
  match stat d p with
  | Some Dir =>
      Ok (List.filter (λ q, bool_decide (q ≠ [] ∧ parent q = p))
            (map_to_list d).*1)
  | Some (File _) => Raise (NotADirectoryError p)
  | None => Raise (FileNotFoundError p)
  end.

Definition archive_extensions : list string := [".tar.gz"; ".tgz"].

(** The loop of [find_archives]; [skipped] collects the names reported
    at debug level as temporary files. *)
Fixpoint find_archives_loop (files : list path) (archives : list path)
    (skipped : list string) : list path * list string :=
  match files with
  | [] => (archives, skipped)
  | file :: r =>
      if contains_sub "temp" (basename file) then
        find_archives_loop r archives (skipped ++ [basename file])
      else if existsb (λ ext, ends_with ext (basename file)) archive_extensions
      then find_archives_loop r (archives ++ [file]) skipped
      else find_archives_loop r archives skipped
  end.

(** [find_archives(directory)], with the names it reports as skipped. *)
Definition find_archives (directory : path) (d : gmap path node)
  : outcome (list path * list string) :=
  match iterdir directory d with
  | Raise e => Raise e
  | Ok files =>
      let '(archives, skipped) := find_archives_loop files [] [] in
      Ok (merge_sort path_le archives, skipped)
  end.

(** ** The command line *)

(** The values of the command-line arguments; paths are absolute.
    Of what [argparse] turns down, the model has the compression that
    is not one of the choices: a usage error, exit status 2, before
    anything is logged (the later test of the same condition in [main]
    is then never true).  The other rejections, such as a batch size
    that is not an integer, are outside the model. *)
Record arguments := {
  input_dir : path;
  output : path;
  arg_batch_size : Z;
  arg_compression : string;
  memory_efficient : bool;
  no_merge_duplicates : bool;
  arg_temp_dir : option path;
  arg_dry_run : bool;
  verbose : bool
}.

(** What [main] asks of the world besides the disk: the answers of the
    tool and of [os.statvfs], whether [os.access(p, os.W_OK)] holds,
    and what [tarfile.open(p)] reads. *)
Record environment := {
  env_tool : nat → tool_response;
  env_free_bytes : nat → Z;
  writable : path → bool;
  tar_members : path → list member
}.

(** The log records of [main] and [find_archives]. *)
Inductive main_record :=
| SkippingTemporaryFile (name : string)
| NoArchivesFound (dir : path)
| FoundArchives (n : Z)
| CreatingOutputDirectory (p : path)
| OutputDirectoryNotWritable (p : path)
| Configuration (a : arguments)
| MountInstructions (image : path)
| NoFilesWereCreated
| FailedToBuild (e : exn).

(** How [main] ends: it returns, it leaves through [sys.exit], or an
    exception escapes from it. *)
Inductive ending :=
| Returns
| Exits (status : Z)
| Fails (e : exn).

(** The end of [main], the state of the builder (with the disk and the
    builder's journal; the initial state when no builder was made), and
    the records [main] itself has logged, oldest first. *)
Record main_result := {
  ending_of : ending;
  builder_state : state;
  console : list (level * main_record)
}.

Definition valid_compressions : list string :=
  ["gzip"; "lzo"; "xz"; "lz4"; "zstd"].

(** The builder [main] constructs. *)
Definition builder_config (env : environment) (args : arguments) : config :=
  {| output_file := output args; batch_size := arg_batch_size args;
     compression := arg_compression args; temp_dir := arg_temp_dir args;
     temp_base := None; dry_run := arg_dry_run args;
     merge_duplicates := negb (no_merge_duplicates args);
     tool := env_tool env; free_bytes := env_free_bytes env |}.

(** The archive behind a path. *)
Definition archive_at (env : environment) (p : path) : archive :=
  {| archive_name := basename p; members := tar_members env p |}.

Definition main (env : environment) (args : arguments)
    (d : gmap path node) : main_result :=
  if negb (bool_decide (arg_compression args ∈ valid_compressions)) then
    {| ending_of := Exits 2; builder_state := init_state d; console := [] |}
  else
    match find_archives (input_dir args) d with
    | Raise e =>
        {| ending_of := Fails e; builder_state := init_state d;
           console := [] |}
    | Ok (archives, skipped) =>
        let log1 := (λ n, (DEBUG, SkippingTemporaryFile n)) <$> skipped in
        if bool_decide (archives = []) then
          {| ending_of := Exits 1; builder_state := init_state d;
             console := log1 ++ [(ERROR, NoArchivesFound (input_dir args))] |}
        else
          let log2 :=
            log1 ++ [(INFO, FoundArchives (Z.of_nat (length archives)))] in
          let output_dir := parent (output args) in
          let made :=
            if arg_dry_run args then Ok (d, log2)
            else if negb (exists_ d output_dir) then
              match fs_mkdir_parents output_dir d with
              | Ok d1 =>
                  Ok (d1, log2 ++ [(INFO, CreatingOutputDirectory output_dir)])
              | Raise e => Raise e
              end
            else Ok (d, log2) in
          match made with
          | Raise e =>
              {| ending_of := Fails e; builder_state := init_state d;
                 console :=
                   log2 ++ [(INFO, CreatingOutputDirectory output_dir)] |}
          | Ok (d1, log3) =>
              if negb (arg_dry_run args) && negb (writable env output_dir)
              then
                {| ending_of := Exits 1; builder_state := init_state d1;
                   console :=
                     log3 ++ [(ERROR, OutputDirectoryNotWritable output_dir)] |}
              else
                let log4 := log3 ++ [(INFO, Configuration args)] in
                match build_from_archives (builder_config env args)
                        (archive_at env <$> archives)
                        (memory_efficient args) (init_state d1) with
                | (Ok _, s) =>
                    {| ending_of := Returns; builder_state := s;
                       console :=
                         log4 ++
                         [(INFO, if arg_dry_run args then NoFilesWereCreated
                                 else MountInstructions (output args))] |}
                | (Raise e, s) =>
                    {| ending_of := Exits 1; builder_state := s;
                       console := log4 ++ [(ERROR, FailedToBuild e)] |}
                end
          end
    end.

(** ** The disk around a staging directory *)

(** [d'] differs from [d] only below the directory [t], which is still
    there with its ancestors. *)
Definition inside (t : path) (d d' : gmap path node) : Prop :=
  dir_chain d' t ∧ ∀ q, ¬ t `prefix_of` q → d' !! q = d !! q.

(** What the work in the staging directory [t] relies on: [t] is there
    with its ancestors, and with merging on the merge root, once
    chosen, is [t/merged]. *)
Definition staging_inv (cfg : config) (t : path) (s : state) : Prop :=
  dir_chain (disk s) t ∧
  (merge_duplicates cfg = true →
   merge_base_dir s = None ∨ merge_base_dir s = Some (t ++ ["merged"])).

(** Work that stays in the staging directory [t]. *)
Definition within (cfg : config) (t : path) (s s' : state) : Prop :=
  staging_inv cfg t s →
  staging_inv cfg t s' ∧ ∀ q, ¬ t `prefix_of` q → disk s' !! q = disk s !! q.

(** The disk and the merge root reference are as they were. *)
Record unmoved (s s' : state) : Prop := {
  unmoved_disk : disk s' = disk s;
  unmoved_mb : merge_base_dir s' = merge_base_dir s
}.

(** On a disk that is a tree, the disk is as it was. *)
Definition restored (s s' : state) : Prop :=
  tree (disk s) → disk s' = disk s.

(** From [s], the program [m] stays in the staging directory [t]. *)
Definition stays (cfg : config) (t : path) {A} (m : M A) (s : state) : Prop :=
  within cfg t s (m s).2.

(** A configuration that stages in the fixed directory [/scratch], and a
    disk on which that directory already holds a file. *)
Definition scratch_config : config :=
  {| output_file := ["out.sqfs"]; batch_size := 2; compression := "xz";
     temp_dir := Some ["scratch"]; temp_base := None; dry_run := false;
     merge_duplicates := true; tool := answers_ok; free_bytes := plenty |}.

Definition scratch_disk : gmap path node :=
  <[ ["scratch"; "keep.txt"] := File "mine" ]>
    (<[ ["scratch"] := Dir ]> (<[ ["home"] := Dir ]> bare_disk)).

(** A command line over an input directory with one archive, and the
    world it runs in. *)
Definition shelf_disk : gmap path node :=
  <[ ["in"; "a.tar.gz"] := File "" ]> (<[ ["in"] := Dir ]> bare_disk).

Definition shelf_env : environment :=
  {| env_tool := answers_ok; env_free_bytes := plenty;
     writable := λ _, true;
     tar_members := λ _, members archive_of_three |}.

Definition shelf_args (dry mem : bool) : arguments :=
  {| input_dir := ["in"]; output := ["out"; "image.sqfs"];
     arg_batch_size := 2; arg_compression := "zstd";
     memory_efficient := mem; no_merge_duplicates := false;
     arg_temp_dir := None; arg_dry_run := dry; verbose := false |}.

(** ** Where the files of an archive end up *)

(** A commit holds a member: the disk the tool read had the member's
    content at the member's path below the content root. *)
Definition holds_member (c : path * gmap path node) (m : member) : Prop :=
  c.2 !! (c.1 ++ path_parts (name m)) = Some (File (content m)).

(** One of the commits holds the member. *)
Definition delivered (cs : list (path * gmap path node)) (m : member) : Prop :=
  ∃ c, c ∈ cs ∧ holds_member c m.

(** The members [W] are in place below [root], waiting for the commit. *)
Definition pending (root : path) (W : list member) (s : state) : Prop :=
  ∀ w, w ∈ W →
       disk s !! (root ++ path_parts (name w)) = Some (File (content w)).

(** ** Staging in memory-efficient mode *)

(** A member path that memory-efficient mode can stage below the batch
    directory: it has a first component, and that is not the name of
    the temporary extraction directory, which shares the batch
    directory with the staged files. *)
Definition stageable (p : path) : Prop :=
  p ≠ [] ∧ ¬ ["temp_extract"] `prefix_of` p.

#[global] Instance stageable_dec p : Decision (stageable p).
Proof. unfold stageable. apply _. Defined.

(** The batch directory [e] between two placements of memory-efficient
    mode, with merging off: it is there with its ancestors, the regular
    files below it are at paths of [P], and the directories below it
    lead to paths of [P]. *)
Record tidy_staging (e : path) (P : list path) (s : state) : Prop := {
  ts_chain : dir_chain (disk s) e;
  ts_files : ∀ p c, p ≠ [] → disk s !! (e ++ p) = Some (File c) → p ∈ P;
  ts_dirs :
    ∀ p, p ≠ [] → disk s !! (e ++ p) = Some Dir →
         ∃ q, q ∈ P ∧ p `prefix_of` q ∧ p ≠ q
}.



(** ** Archives whose files all reach the image *)

(** What the regular files of an archive must be like for every one of
    them to reach a commit: their names are plain and, in streaming
    mode without merging, their paths are distinct; with merging every
    file lies in a directory and no path is a prefix of another; in
    memory-efficient mode merging is off, the paths can be staged and
    none is a prefix of another. *)
Definition deliverable (cfg : config) (memory_efficient : bool)
    (a : archive) : Prop :=
  let P := file_paths (members a) in
  plain_files (members a) ∧
  if memory_efficient then
    merge_duplicates cfg = false ∧ Forall stageable P ∧ prefix_free P
  else if merge_duplicates cfg then
    Forall (λ p, (2 ≤ length p)%nat) P ∧ prefix_free P
  else NoDup P.

#[global] Instance deliverable_dec cfg mode a : Decision (deliverable cfg mode a).
Proof.
  unfold deliverable. apply and_dec; [apply _|].
  destruct mode; [apply _|].
  destruct (merge_duplicates cfg); apply _.
Defined.

(** An archive that shares the top-level directory of [archive_of_three]. *)
Definition archive_of_two : archive :=
  shard "B" [regular "foo/w.txt" "4"; regular "bar/v.txt" "5"].

(** ** What a scope in a fixed temporary directory leaves *)

(** From the disk [d] to the disk [d']: [d'] is a tree, nothing is at
    or below [u], and the rest is as in [d], except that missing
    ancestors of [u] may have been made. *)
Definition wiped (u : path) (d d' : gmap path node) : Prop :=
  tree d' ∧
  (∀ q, u `prefix_of` q → d' !! q = None) ∧
  (∀ q, ¬ u `prefix_of` q →
        d' !! q = d !! q ∨
        (q `prefix_of` u ∧ d !! q = None ∧ d' !! q = Some Dir)).

(** * Reasoning about programs in [M] *)

Lemma run_bind {A B} (m : M A) (f : A → M B) s :
  (m ≫= f) s = match m s with
               | (Ok a, s1) => f a s1
               | (Raise e, s1) => (Raise e, s1)
               end.
Proof. reflexivity. Qed.

Lemma run_ret {A} (a : A) s : (mret a : M A) s = (Ok a, s).
Proof. reflexivity. Qed.

Lemma run_ok_eq {A} (m : M A) s a : (m s).1 = Ok a → m s = (Ok a, (m s).2).
Proof. destruct (m s); simpl; congruence. Qed.

(** A run of [m ≫= f] that ends normally went through both parts. *)
Lemma bind_ok {A B} (m : M A) (f : A → M B) s b s' :
  (m ≫= f) s = (Ok b, s') →
  ∃ a s1, m s = (Ok a, s1) ∧ f a s1 = (Ok b, s').
Proof.
  rewrite run_bind. destruct (m s) as [[a|e] s1]; intros H.
  - eauto.
  - discriminate.
Qed.

Lemma bind_inv {A B} (m : M A) (f : A → M B) s r s' :
  (m ≫= f) s = (r, s') →
  (∃ a s1, m s = (Ok a, s1) ∧ f a s1 = (r, s')) ∨
  (∃ e, m s = (Raise e, s') ∧ r = Raise e).
Proof.
  rewrite run_bind. destruct (m s) as [[a|e] s1]; intros H.
  - left. eauto.
  - right. inversion H; subst. eauto.
Qed.

Section Keeps.
Context (R : relation state) `{!PreOrder R}.

Lemma Keeps_ret {A} (a : A) : Keeps R (mret a : M A).
Proof. intros s. reflexivity. Qed.

Lemma Keeps_raise {A} e : Keeps R (raise e : M A).
Proof. intros s. reflexivity. Qed.

Lemma Keeps_get : Keeps R get.
Proof. intros s. reflexivity. Qed.

Lemma Keeps_bind {A B} (m : M A) (f : A → M B) :
  Keeps R m → (∀ a, Keeps R (f a)) → Keeps R (m ≫= f).
Proof.
  intros Hm Hf s. rewrite run_bind. specialize (Hm s).
  destruct (m s) as [[a|e] s1]; simpl in *; [|done].
  etrans; [exact Hm|]. apply Hf.
Qed.

Lemma Keeps_when b (m : M unit) : Keeps R m → Keeps R (when b m).
Proof. destruct b; [done|]. intros _. apply Keeps_ret. Qed.

Lemma Keeps_try_finally {A} (m : M A) c :
  Keeps R m → Keeps R c → Keeps R (try_finally m c).
Proof.
  intros Hm Hc s. unfold try_finally. specialize (Hm s).
  destruct (m s) as [r s1]. specialize (Hc s1).
  destruct (c s1) as [[[]|e] s2]; simpl in *; by etrans.
Qed.

Lemma Keeps_try_except {A} (m : M A) h :
  Keeps R m → (∀ e, Keeps R (h e)) → Keeps R (try_except m h).
Proof.
  intros Hm Hh s. unfold try_except. specialize (Hm s).
  destruct (m s) as [[a|e] s1]; simpl in *; [done|].
  etrans; [exact Hm|]. apply Hh.
Qed.

Lemma Keeps_for_each {A} (l : list A) (body : A → M unit) :
  (∀ x, Keeps R (body x)) → Keeps R (for_each l body).
Proof.
  intros Hb. induction l as [|x l IH]; simpl.
  - apply Keeps_ret.
  - apply Keeps_bind; auto.
Qed.

Lemma Keeps_modify f : (∀ s, R s (f s)) → Keeps R (modify f).
Proof. intros Hf s. apply Hf. Qed.

Lemma Keeps_on_disk f :
  (∀ s d, f (disk s) = Ok d → R s (set_disk d s)) → Keeps R (on_disk f).
Proof.
  intros Hf s. unfold on_disk. specialize (Hf s).
  destruct (f (disk s)); simpl; [by apply Hf|reflexivity].
Qed.
End Keeps.

#[global] Instance quiet_preorder : PreOrder quiet.
Proof.
  split.
  - intros s. by split.
  - intros s1 s2 s3 [] []. split; congruence.
Qed.

Lemma quiet_log lvl r : plain_record r = true → Keeps quiet (log lvl r).
Proof. intros Hr s. split; try done; destruct r; done. Qed.

Lemma quiet_set_disk s d : quiet s (set_disk d s).
Proof. by split. Qed.

Lemma quiet_on_disk f : Keeps quiet (on_disk f).
Proof. apply Keeps_on_disk; [apply _|]. intros. apply quiet_set_disk. Qed.

Lemma quiet_set_merge_base_dir x : Keeps quiet (modify (set_merge_base_dir x)).
Proof. apply Keeps_modify. intros s. by split. Qed.

Create HintDb quiet.
#[global] Hint Resolve Keeps_ret Keeps_raise Keeps_get Keeps_when
  Keeps_try_finally Keeps_try_except Keeps_for_each
  quiet_on_disk quiet_set_merge_base_dir quiet_preorder : quiet.
#[global] Hint Extern 1 (Keeps quiet (log _ _)) =>
  (apply quiet_log; reflexivity) : quiet.
#[global] Hint Extern 2 (Keeps _ (_ ≫= _)) =>
  (apply Keeps_bind; [apply _| |intros ?]) : quiet.
#[global] Hint Extern 3 (Keeps _ (match ?x with _ => _ end)) =>
  destruct x : quiet.

Ltac quiet_steps := intros; eauto 30 with quiet.

(** ** Placement and cleanup are quiet *)

Lemma quiet_place_member cfg m e top : Keeps quiet (place_member cfg m e top).
Proof. unfold place_member. quiet_steps. Qed.

Lemma quiet_setup_merge_directory cfg e top :
  Keeps quiet (setup_merge_directory cfg e top).
Proof. unfold setup_merge_directory. quiet_steps. Qed.

Lemma quiet_reset_staging cfg e : Keeps quiet (reset_staging cfg e).
Proof. unfold reset_staging. quiet_steps. Qed.

Lemma quiet_memory_efficient_place cfg m e :
  Keeps quiet (memory_efficient_place cfg m e).
Proof. unfold memory_efficient_place. quiet_steps. Qed.

(** ** The batch plan is the arithmetic of the specification *)

Lemma batch_plan_arith b ms fib :
  1 ≤ b → 0 ≤ fib < b →
  let '(l, f) := batch_plan b ms fib in
  0 ≤ f < b ∧ Forall (λ x, x = b) l ∧
  fib + file_count ms = b * Z.of_nat (length l) + f.
Proof.
  intros Hb. revert fib. induction ms as [|m r IH]; intros fib Hfib; simpl.
  - unfold file_count; simpl. split; [lia|]. split; [constructor|lia].
  - unfold file_count in *; simpl. destruct (isfile m); simpl.
    + destruct (Z.leb_spec b (fib + 1)) as [Hge|Hlt].
      * specialize (IH 0 ltac:(lia)).
        destruct (batch_plan b r 0) as [l f].
        destruct IH as (Hf & Hall & Hsum). split; [done|].
        split; [constructor; [lia|done]|]. simpl length. lia.
      * specialize (IH (fib + 1) ltac:(lia)).
        destruct (batch_plan b r (fib + 1)) as [l f].
        destruct IH as (Hf & Hall & Hsum). repeat split; try done; lia.
    + specialize (IH fib Hfib). by destruct (batch_plan b r fib).
Qed.

Lemma sum_list_app l1 l2 : sum_list (l1 ++ l2) = sum_list l1 + sum_list l2.
Proof. induction l1 as [|x l1 IH]; simpl; lia. Qed.

Lemma sum_list_const b l :
  Forall (λ x, x = b) l → sum_list l = b * Z.of_nat (length l).
Proof.
  induction 1 as [|x l Hx _ IH]; simpl length; simpl sum_list; subst; lia.
Qed.

Lemma ceil_div_split b q f :
  1 ≤ b → 0 ≤ f < b →
  ceil_div (b * q + f) b = q + (if 0 <? f then 1 else 0).
Proof.
  intros Hb Hf. unfold ceil_div.
  destruct (Z.ltb_spec 0 f).
  - replace (b * q + f + b - 1) with ((f - 1) + (q + 1) * b) by lia.
    rewrite Z.div_add by lia. rewrite Z.div_small by lia. lia.
  - replace (b * q + f + b - 1) with ((b - 1) + q * b) by lia.
    rewrite Z.div_add by lia. rewrite Z.div_small by lia. lia.
Qed.

(** The plan of an archive has [⌈N / B⌉] batches, which add up to [N]. *)
Lemma archive_plan_arith b ms :
  1 ≤ b →
  Z.of_nat (length (archive_plan b ms)) = ceil_div (file_count ms) b ∧
  sum_list (archive_plan b ms) = file_count ms.
Proof.
  intros Hb. unfold archive_plan.
  pose proof (batch_plan_arith b ms 0 Hb ltac:(lia)) as H.
  destruct (batch_plan b ms 0) as [l f]. destruct H as (Hf & Hall & Hsum).
  rewrite length_app, sum_list_app, (sum_list_const b l Hall).
  replace (file_count ms) with (b * Z.of_nat (length l) + f) by lia.
  rewrite ceil_div_split by lia.
  destruct (Z.ltb_spec 0 f); simpl; lia.
Qed.

(** ** The commit call *)

Ltac run_M :=
  cbv [mbind M_bind mret M_ret try_except try_finally get raise log modify
       when on_disk] in *.

(** A real commit that returns has run the tool once, within the time
    limit, on the disk as it was, and changed nothing else. *)
Lemma append_real_ok cfg src s s' :
  dry_run cfg = false →
  append_to_squashfs cfg src s = (Ok tt, s') →
  s' = set_tool_calls (S (tool_calls s))
         (set_journal
            (Run (MksquashfsAppend src (output_file cfg) (comp_option cfg))
                 (Some 300) (disk s) :: journal s) s).
Proof.
  intros Hdry. unfold append_to_squashfs, check_disk_space, subprocess_run.
  rewrite Hdry. run_M.
  repeat (case_match; simplify_eq/=); try done.
  by intros [= <-].
Qed.

(** In a dry run the commit call only writes a report. *)
Lemma append_dry cfg src s :
  dry_run cfg = true →
  append_to_squashfs cfg src s =
    (Ok tt, set_journal
              (Log INFO (WouldAppend (count_files_under src (disk s)) src)
                 :: journal s) s).
Proof. intros Hdry. unfold append_to_squashfs. by rewrite Hdry. Qed.

(** ** The ledger along the extraction loop *)

Lemma ledger_step_quiet_l cfg l f n s s1 s' :
  quiet s s1 → ledger_step cfg l f n s1 s' → ledger_step cfg l f n s s'.
Proof.
  intros [] []. split; try congruence.
  intros Hdry. rewrite step_appends0 by done. congruence.
Qed.

Lemma ledger_step_quiet_r cfg l f n s s1 s' :
  ledger_step cfg l f n s s1 → quiet s1 s' → ledger_step cfg l f n s s'.
Proof.
  intros [] []. split; try congruence.
  intros Hdry. rewrite <- step_appends0 by done. congruence.
Qed.

(** One regular file counted: either the batch grows, or a batch of
    [files_in_batch s + 1] files is announced and committed. *)
Lemma count_and_commit_ledger cfg e s s' :
  count_and_commit cfg e s = (Ok tt, s') →
  if batch_size cfg <=? files_in_batch s + 1
  then ledger_step cfg [files_in_batch s + 1] 0 1 s s'
  else ledger_step cfg [] (files_in_batch s + 1) 1 s s'.
Proof.
  unfold count_and_commit. run_M. simpl.
  destruct (batch_size cfg <=? files_in_batch s + 1) eqn:Hb.
  - destruct (dry_run cfg) eqn:Hdry; simpl.
    + intros [= <-]. split; simpl; try done. congruence.
    + match goal with
      | |- context [append_to_squashfs cfg ?r ?s0] =>
          destruct (append_to_squashfs cfg r s0) as [[[]|err] s1] eqn:Happ
      end; [|discriminate].
      apply append_real_ok in Happ as ->; [|done].
      match goal with
      | |- context [reset_staging cfg e ?s0] =>
          pose proof (quiet_reset_staging cfg e s0) as Hq;
          destruct (reset_staging cfg e s0) as [[[]|err] s2]
      end; [|discriminate].
      intros [= <-]. simpl in Hq. destruct Hq. simpl in *.
      split; simpl; try congruence.
      intros _. rewrite quiet_appends0. done.
  - intros [= <-]. split; simpl; done.
Qed.

Lemma ledger_step_nil cfg s : ledger_step cfg [] (files_in_batch s) 0 s s.
Proof. split; simpl; try done. lia. Qed.

Lemma ledger_step_trans cfg l1 f1 n1 l2 f2 n2 s s1 s2 :
  ledger_step cfg l1 f1 n1 s s1 → ledger_step cfg l2 f2 n2 s1 s2 →
  ledger_step cfg (l1 ++ l2) f2 (n1 + n2) s s2.
Proof.
  intros [] []. split; try congruence.
  - lia.
  - rewrite step_announced1, step_announced0, rev_app_distr.
    by rewrite <- app_assoc.
  - intros Hdry. rewrite step_appends1, step_appends0 by done.
    rewrite length_app. lia.
Qed.

Lemma file_count_cons m r :
  file_count (m :: r) = (if isfile m then 1 else 0) + file_count r.
Proof. unfold file_count. simpl. destruct (isfile m); simpl length; lia. Qed.

Lemma file_count_nonneg ms : 0 ≤ file_count ms.
Proof. unfold file_count. lia. Qed.

Lemma process_tar_member_ledger cfg m e top s s' :
  isfile m = true →
  process_tar_member cfg m e top s = (Ok tt, s') →
  if batch_size cfg <=? files_in_batch s + 1
  then ledger_step cfg [files_in_batch s + 1] 0 1 s s'
  else ledger_step cfg [] (files_in_batch s + 1) 1 s s'.
Proof.
  intros Hf. unfold process_tar_member. rewrite Hf.
  intros (? & s1 & Hplace & Hcount)%bind_ok.
  pose proof (quiet_place_member cfg m e top s) as Hq.
  rewrite Hplace in Hq. simpl in Hq.
  apply count_and_commit_ledger in Hcount.
  rewrite (quiet_batch _ _ Hq) in Hcount.
  destruct (batch_size cfg <=? files_in_batch s + 1);
    by eapply ledger_step_quiet_l.
Qed.

(** The extraction loop of streaming mode follows the batch plan. *)
Lemma streaming_loop_ledger cfg ms e k s k' s' :
  streaming_loop cfg ms e k s = (Ok k', s') →
  ledger_step cfg (batch_plan (batch_size cfg) ms (files_in_batch s)).1
    (batch_plan (batch_size cfg) ms (files_in_batch s)).2
    (file_count ms) s s' ∧
  k' = k + file_count ms.
Proof.
  revert k s. induction ms as [|m r IH]; intros k s; simpl.
  - intros [= <- <-]. split; [apply ledger_step_nil|].
    unfold file_count; simpl; lia.
  - rewrite file_count_cons. destruct (isfile m) eqn:Hf.
    + intros (? & s1 & Hsetup & ([] & s2 & Hmember & Hrest)%bind_ok)%bind_ok.
      assert (quiet s s1) as Hq.
      { destruct (merge_duplicates cfg && has_top _).
        - apply bind_ok in Hsetup as (? & s0 & Hsetup & Heq).
          injection Heq as _ <-.
          pose proof (quiet_setup_merge_directory cfg e
            (if merge_duplicates cfg then get_top_level_dir (name m)
             else None) s) as Hq.
          by rewrite Hsetup in Hq.
        - injection Hsetup as _ <-. reflexivity. }
      apply process_tar_member_ledger in Hmember; [|done].
      apply IH in Hrest as [Hrest ->]. split; [|lia].
      rewrite <- (quiet_batch _ _ Hq) in *.
      eapply ledger_step_quiet_l; [exact Hq|].
      destruct (batch_size cfg <=? files_in_batch s1 + 1).
      * rewrite (step_batch _ _ _ _ _ _ Hmember) in Hrest.
        destruct (batch_plan (batch_size cfg) r 0) as [l f]. simpl in *.
        by apply (ledger_step_trans _ [_] _ _ l f _ _ _ _ Hmember).
      * rewrite (step_batch _ _ _ _ _ _ Hmember) in Hrest.
        by apply (ledger_step_trans _ [] _ _ _ _ _ _ _ _ Hmember).
    + intros Hrest. apply IH in Hrest as [Hrest ->]. split; [|lia]. done.
Qed.

(** * The disk *)

Lemma stat_nonempty (d : gmap path node) p : p ≠ [] → stat d p = d !! p.
Proof. by destruct p. Qed.

Lemma stat_snoc (d : gmap path node) p x : stat d (p ++ [x]) = d !! (p ++ [x]).
Proof. apply stat_nonempty. by destruct p. Qed.

Lemma parent_snoc p x : parent (p ++ [x]) = p.
Proof. apply removelast_last. Qed.

Lemma parent_app p q : q ≠ [] → parent (p ++ q) = p ++ parent q.
Proof. apply removelast_app. Qed.

Lemma basename_snoc p x : basename (p ++ [x]) = x.
Proof. unfold basename. apply last_last. Qed.

#[global] Instance adds_dirs_preorder : PreOrder adds_dirs.
Proof.
  split.
  - intros d q. by left.
  - intros d1 d2 d3 H12 H23 q.
    destruct (H12 q) as [E1|[E1 E1']], (H23 q) as [E2|[E2 E2']]; try naive_solver.
    + left. congruence.
    + right. split; congruence.
    + right. split; congruence.
Qed.

Lemma adds_dirs_insert (d : gmap path node) q :
  d !! q = None → adds_dirs d (<[q := Dir]> d).
Proof.
  intros Hq k. destruct (decide (q = k)) as [<-|Hne].
  - right. by rewrite lookup_insert_eq.
  - left. by rewrite lookup_insert_ne.
Qed.

Lemma adds_dirs_file (d d' : gmap path node) q c :
  adds_dirs d d' → d' !! q = Some (File c) ↔ d !! q = Some (File c).
Proof. intros H. destruct (H q) as [->|[-> ->]]; naive_solver. Qed.

Lemma adds_dirs_dir (d d' : gmap path node) q :
  adds_dirs d d' → d !! q = Some Dir → d' !! q = Some Dir.
Proof. intros H Hq. destruct (H q) as [->|[? ->]]; naive_solver. Qed.

Lemma adds_dirs_stat_dir (d d' : gmap path node) q :
  adds_dirs d d' → stat d q = Some Dir → stat d' q = Some Dir.
Proof. destruct q; [done|]. apply adds_dirs_dir. Qed.

(** [mkdirs_from] only adds directories... *)
Lemma mkdirs_from_adds pre rest d d' :
  mkdirs_from pre rest d = Ok d' → adds_dirs d d'.
Proof.
  revert pre d. induction rest as [|x r IH]; intros pre d; simpl.
  - intros [= <-]. reflexivity.
  - rewrite stat_snoc. destruct (d !! (pre ++ [x])) as [[c|]|] eqn:Hq.
    + discriminate.
    + apply IH.
    + intros H%IH. etrans; [|exact H]. by apply adds_dirs_insert.
Qed.

(** ... and leaves a directory at every component it went through. *)
Lemma mkdirs_from_made pre rest d d' q :
  mkdirs_from pre rest d = Ok d' →
  q `prefix_of` pre ++ rest → (length pre < length q)%nat →
  d' !! q = Some Dir.
Proof.
  revert pre d. induction rest as [|x r IH]; intros pre d; simpl.
  - intros _ Hq%prefix_length Hlen. rewrite app_nil_r in Hq. lia.
  - rewrite stat_snoc. intros H Hq Hlen.
    destruct (decide (q = pre ++ [x])) as [->|Hne].
    + destruct (d !! (pre ++ [x])) as [[c|]|] eqn:Hd; [done| |].
      * eapply adds_dirs_dir; [by eapply mkdirs_from_adds|done].
      * eapply adds_dirs_dir; [by eapply mkdirs_from_adds|].
        by rewrite lookup_insert_eq.
    + assert (length (pre ++ [x]) < length q)%nat.
      { rewrite length_app. simpl.
        destruct (decide (length q = length pre + 1)%nat) as [E|]; [|lia].
        exfalso. apply Hne. destruct Hq as [k Hq].
        rewrite (cons_middle x pre r), app_assoc in Hq.
        assert (length (pre ++ [x]) = length q) as E'
          by (rewrite length_app; simpl; lia).
        by destruct (app_inj_1 _ _ _ _ E' Hq) as [<- _]. }
      rewrite (cons_middle x pre r), app_assoc in Hq.
      destruct (d !! (pre ++ [x])) as [[c|]|]; [done| |]; by eapply IH.
Qed.

(** On an existing chain of directories [mkdirs_from] changes nothing. *)
Lemma mkdirs_from_chain pre rest d :
  (∀ q, q `prefix_of` pre ++ rest → (length pre < length q)%nat →
        d !! q = Some Dir) →
  mkdirs_from pre rest d = Ok d.
Proof.
  revert pre. induction rest as [|x r IH]; intros pre Hchain; simpl; [done|].
  rewrite stat_snoc, (Hchain (pre ++ [x])).
  - apply IH. intros q Hq Hlen. apply Hchain.
    + by rewrite (cons_middle x pre r), app_assoc.
    + rewrite length_app in Hlen. simpl in Hlen. lia.
  - rewrite (cons_middle x pre r), app_assoc. by apply prefix_app_r.
  - rewrite length_app. simpl. lia.
Qed.

Lemma dir_chain_lookup d p q :
  dir_chain d p → q `prefix_of` p → q ≠ [] → d !! q = Some Dir.
Proof. intros H Hq Hne. rewrite <- stat_nonempty by done. by apply H. Qed.

Lemma mkdirs_dir_chain d p : dir_chain d p → mkdirs_from [] p d = Ok d.
Proof.
  intros H. apply mkdirs_from_chain. intros q Hq Hlen.
  eapply dir_chain_lookup; [done..|]. destruct q; simpl in *; [lia|done].
Qed.

Lemma dir_chain_adds d d' p : adds_dirs d d' → dir_chain d p → dir_chain d' p.
Proof. intros H Hp q Hq. eapply adds_dirs_stat_dir; [done|]. by apply Hp. Qed.

Lemma chain_from_sound d pre rest q :
  chain_from d pre rest = true →
  q `prefix_of` pre ++ rest → (length pre < length q)%nat →
  d !! q = Some Dir.
Proof.
  revert pre. induction rest as [|x r IH]; intros pre; simpl.
  - intros _ Hq%prefix_length Hlen. rewrite app_nil_r in Hq. lia.
  - intros [Hx Hr]%andb_prop Hq Hlen. apply bool_decide_eq_true in Hx.
    destruct (decide (q = pre ++ [x])) as [->|Hne]; [done|].
    rewrite (cons_middle x pre r), app_assoc in Hq.
    apply (IH _ Hr Hq). rewrite length_app. simpl.
    destruct (decide (length q = length pre + 1)%nat) as [E|]; [|lia].
    exfalso. apply Hne. destruct Hq as [k Hq].
    assert (length (pre ++ [x]) = length q) as E'
      by (rewrite length_app; simpl; lia).
    by destruct (app_inj_1 _ _ _ _ E' Hq) as [<- _].
Qed.

Lemma dir_chainb_sound d p : dir_chainb d p = true → dir_chain d p.
Proof.
  intros H q Hq. destruct q as [|x q]; [done|]. simpl.
  eapply chain_from_sound; [exact H|done|simpl; lia].
Qed.

Lemma clear_below_lookup d p q :
  clear_below d p → p `prefix_of` q → p ≠ q → d !! q = None.
Proof. intros H. apply H. Qed.


Lemma mkdirs_from_only pre rest d d' q :
  mkdirs_from pre rest d = Ok d' → ¬ q `prefix_of` pre ++ rest →
  d' !! q = d !! q.
Proof.
  revert pre d. induction rest as [|x r IH]; intros pre d; simpl.
  - by intros [= <-].
  - rewrite stat_snoc, (cons_middle x pre r), app_assoc. intros H Hq.
    destruct (d !! (pre ++ [x])) as [[c|]|]; [done|by eapply IH|].
    rewrite (IH _ _ H Hq). apply lookup_insert_ne.
    intros <-. apply Hq. by apply prefix_app_r.
Qed.

Lemma mkdirs_from_stable pre rest d d' q :
  mkdirs_from pre rest d = Ok d' →
  (q `prefix_of` pre ++ rest → (length q ≤ length pre)%nat) →
  d' !! q = d !! q.
Proof.
  revert pre d. induction rest as [|x r IH]; intros pre d; simpl.
  - by intros [= <-].
  - rewrite stat_snoc, (cons_middle x pre r), app_assoc. intros H Hq.
    assert (q ≠ pre ++ [x]) as Hne.
    { intros ->. rewrite length_app in Hq. simpl in Hq.
      specialize (Hq (prefix_app_r _ _ _ (reflexivity _))). lia. }
    assert (q `prefix_of` (pre ++ [x]) ++ r →
            (length q ≤ length (pre ++ [x]))%nat) as Hq'.
    { intros Hp%Hq. rewrite length_app. simpl. lia. }
    destruct (d !! (pre ++ [x])) as [[c|]|]; [done|by eapply IH|].
    rewrite (IH _ _ H Hq'). by apply lookup_insert_ne.
Qed.

Lemma mkdirs_from_keeps pre rest d d' q :
  mkdirs_from pre rest d = Ok d' → is_Some (d !! q) → d' !! q = d !! q.
Proof.
  intros H%mkdirs_from_adds [n Hn].
  destruct (H q) as [E|[E _]]; [done|congruence].
Qed.

(** [mkdirs_from] looks only at the components it goes through. *)
Lemma mkdirs_from_agree pre rest d1 d2 dm :
  (∀ q, q `prefix_of` pre ++ rest → d2 !! q = d1 !! q) →
  mkdirs_from pre rest d1 = Ok dm →
  ∃ dm2, mkdirs_from pre rest d2 = Ok dm2 ∧
         ∀ q, q `prefix_of` pre ++ rest → dm2 !! q = dm !! q.
Proof.
  revert pre d1 d2. induction rest as [|x r IH]; intros pre d1 d2 Hag; simpl.
  - intros [= <-]. eauto.
  - rewrite !stat_snoc.
    assert (pre ++ [x] `prefix_of` pre ++ x :: r) as Hx.
    { rewrite (cons_middle x pre r), app_assoc. by apply prefix_app_r. }
    rewrite (Hag _ Hx). rewrite (cons_middle x pre r), app_assoc in Hag |- *.
    destruct (d1 !! (pre ++ [x])) as [[c|]|]; [done|by apply IH|].
    apply IH. intros q Hq. destruct (decide (q = pre ++ [x])) as [->|Hne].
    + by rewrite !lookup_insert_eq.
    + rewrite !lookup_insert_ne by done. by apply Hag.
Qed.

Lemma mkdirs_from_succeeds pre rest d :
  (∀ q c, q `prefix_of` pre ++ rest → (length pre < length q)%nat →
          d !! q ≠ Some (File c)) →
  ∃ d', mkdirs_from pre rest d = Ok d'.
Proof.
  revert pre d. induction rest as [|x r IH]; intros pre d Hfree; simpl.
  - eauto.
  - rewrite stat_snoc.
    assert (pre ++ [x] `prefix_of` (pre ++ [x]) ++ r) as Hx
      by by apply prefix_app_r.
    assert (length pre < length (pre ++ [x]))%nat as Hlen
      by (rewrite length_app; simpl; lia).
    rewrite (cons_middle x pre r), app_assoc in Hfree.
    destruct (d !! (pre ++ [x])) as [[c|]|] eqn:Hd.
    + by destruct (Hfree _ c Hx Hlen).
    + apply IH. intros q c Hq Hl. apply Hfree; [done|].
      rewrite length_app in Hl. simpl in Hl. lia.
    + apply IH. intros q c Hq Hl.
      destruct (decide (q = pre ++ [x])) as [->|Hne].
      * by rewrite lookup_insert_eq.
      * rewrite lookup_insert_ne by done. apply Hfree; [done|].
        rewrite length_app in Hl. simpl in Hl. lia.
Qed.

Lemma prefix_snoc_cases {A} (q l : list A) x :
  q `prefix_of` l ++ [x] → q = l ++ [x] ∨ q `prefix_of` l.
Proof.
  intros [k Hk]. destruct k as [|y k _] using rev_ind.
  - left. by rewrite app_nil_r in Hk.
  - right. rewrite app_assoc in Hk. apply app_inj_tail in Hk as [-> _].
    by apply prefix_app_r.
Qed.

Lemma clear_below_not_prefix {A} (t q : list A) :
  t `prefix_of` q → t ≠ q → ¬ q `prefix_of` t.
Proof.
  intros H1 Hne H2. apply Hne. apply prefix_length_eq; [done|].
  by apply prefix_length.
Qed.

Lemma prefix_app_self_nil {A} (l k : list A) : l ++ k `prefix_of` l → k = [].
Proof.
  intros H%prefix_length. rewrite length_app in H.
  destruct k; [done|]. simpl in H. lia.
Qed.

Lemma on_disk_ok f s s' :
  on_disk f s = (Ok tt, s') → ∃ d, f (disk s) = Ok d ∧ s' = set_disk d s.
Proof. unfold on_disk. destruct (f (disk s)); naive_solver. Qed.

(** ** Scoped staging directories *)

Lemma try_finally_ok {A} (m : M A) c s a s' :
  try_finally m c s = (Ok a, s') →
  ∃ s1, m s = (Ok a, s1) ∧ c s1 = (Ok tt, s').
Proof.
  unfold try_finally. destruct (m s) as [r s1].
  destruct (c s1) as [[[]|e] s2] eqn:Hc; [|discriminate].
  intros [= -> <-]. eauto.
Qed.

Lemma try_except_reraise_ok {A} (m : M A) (h : exn → M unit) s a s' :
  try_except m (λ e, h e ;; raise e) s = (Ok a, s') → m s = (Ok a, s').
Proof.
  unfold try_except. destruct (m s) as [[x|e] s1]; [done|].
  rewrite run_bind. destruct (h e s1) as [[[]|e'] s2]; discriminate.
Qed.

Lemma quiet_mkdtemp cfg prefix : Keeps quiet (mkdtemp cfg prefix).
Proof.
  intros s. unfold mkdtemp.
  repeat case_match; simpl; try reflexivity. by split.
Qed.

(** ** Trees *)

Lemma prefix_parent (p q : path) :
  p `prefix_of` q → p ≠ q → p `prefix_of` parent q.
Proof.
  intros [k ->] Hne. assert (k ≠ []) as Hk.
  { intros ->. by rewrite app_nil_r in Hne. }
  rewrite parent_app by done. by apply prefix_app_r.
Qed.

(** In a tree nothing lies below a missing entry, and an entry that is
    there has its ancestors. *)
Lemma tree_absent d p q :
  tree d → p ≠ [] → d !! p = None → p `prefix_of` q → d !! q = None.
Proof.
  intros Htree Hp Hnone Hpq. destruct (decide (p = q)) as [<-|Hne]; [done|].
  apply eq_None_not_Some. intros Hq.
  pose proof (Htree q Hq p (prefix_parent _ _ Hpq Hne)) as Hdir.
  rewrite stat_nonempty in Hdir by done. congruence.
Qed.

Lemma tree_chain d p : tree d → stat d p = Some Dir → dir_chain d p.
Proof.
  intros Htree Hp q Hq. destruct (decide (q = p)) as [->|Hne]; [done|].
  destruct p as [|x p]; [by apply prefix_nil_inv in Hq as ->|].
  apply (Htree (x :: p)); [by exists Dir|]. by apply prefix_parent.
Qed.

Lemma treeb_sound d : treeb d = true → tree d.
Proof.
  unfold treeb. intros H%bool_decide_eq_true p [n Hn].
  apply dir_chainb_sound. by apply (H p n).
Qed.

(** A scope that ends normally ran its body normally, in a directory
    supplied by the scope; entering and leaving are quiet, and on a
    ready disk the directory is there and empty. *)
Lemma temp_directory_at {A} cfg prefix (body : path → M A) s a s' :
  temp_directory cfg prefix body s = (Ok a, s') →
  ∃ t s0 s1, quiet s s0 ∧ body t s0 = (Ok a, s1) ∧ quiet s1 s' ∧
    (staging_ready cfg (disk s) →
     dir_chain (disk s0) t ∧ clear_below (disk s0) t) ∧
    scoped cfg t (disk s).
Proof.
  unfold temp_directory, staging_ready, scoped.
  destruct (temp_dir cfg) as [t|].
  - intros (s_ & ? & Hget & H)%bind_ok. injection Hget as <- <-.
    apply bind_ok in H as ([] & s0 & Hmk & H).
    apply try_finally_ok in H as (s1 & H & Hclean).
    apply bind_ok in H as ([] & s0' & Hlog & H). injection Hlog as <-.
    exists t, (set_journal (Log DEBUG (CreatedTemporaryDirectory t)
                              :: journal s0) s0), s1.
    split; [|split; [done|split; [|split]]].
    + trans s0; [|by split].
      assert (Keeps quiet (when (negb (exists_ (disk s) t))
                             (on_disk (fs_mkdir_parents t)))) as Hk
        by quiet_steps.
      specialize (Hk s). rewrite Hmk in Hk. exact Hk.
    + pose proof (quiet_on_disk (fs_rmtree true t) s1) as Hk.
      rewrite Hclean in Hk. exact Hk.
    + intros (Htree & Hclear & Hnofile). simpl. unfold exists_ in Hmk.
      destruct (stat (disk s) t) as [n|] eqn:Hst; simpl in Hmk.
      * injection Hmk as <-. split; [|done].
        apply tree_chain; [done|].
        destruct t as [|x t]; [done|]. simpl in *.
        destruct n as [c|]; [by destruct (Hnofile c)|done].
      * apply on_disk_ok in Hmk as (d & Hmk & ->). simpl.
        unfold fs_mkdir_parents in Hmk. split.
        -- intros q Hq. destruct q as [|x q]; [done|]. simpl.
           eapply mkdirs_from_made; [done|done|simpl; lia].
        -- intros q Hq Hne.
           rewrite (mkdirs_from_only _ _ _ _ q Hmk); [by apply Hclear|].
           by apply clear_below_not_prefix.
    + done.
  - intros (t & s0 & Hmk & H)%bind_ok.
    apply try_finally_ok in H as (s1 & H & Hclean).
    apply bind_ok in H as ([] & s0' & Hlog & H). injection Hlog as <-.
    exists t, (set_journal (Log DEBUG (CreatedTemporaryDirectory t)
                              :: journal s0) s0), s1.
    split; [|split; [done|split; [|split]]].
    + trans s0; [|by split].
      pose proof (quiet_mkdtemp cfg prefix s) as Hk. rewrite Hmk in Hk. exact Hk.
    + pose proof (quiet_on_disk (fs_rmtree true t) s1) as Hk.
      rewrite Hclean in Hk. exact Hk.
    + intros [Htree _]. simpl. unfold mkdtemp in Hmk.
      destruct (stat (disk s) _) as [[]|] eqn:Hbase; [done| |done].
      destruct (exists_ (disk s) _) eqn:Hex; [done|].
      injection Hmk as <- <-. simpl.
      set (base := default ["tmp"] (temp_base cfg)) in *.
      set (p := base ++ [prefix +:+ pretty (temp_serial s)]) in *.
      assert (p ≠ []) as Hp by (unfold p; by destruct base).
      assert (disk s !! p = None) as Hfree.
      { unfold exists_ in Hex. rewrite stat_nonempty in Hex by done.
        by destruct (disk s !! p). }
      split.
      * intros q [->|Hq]%prefix_snoc_cases.
        -- by rewrite stat_snoc, lookup_insert_eq.
        -- destruct q as [|x q]; [done|]. simpl.
           rewrite lookup_insert_ne.
           ++ by apply (tree_chain (disk s) base Htree Hbase (x :: q)).
           ++ intros E. rewrite <- E in Hq. by apply prefix_snoc_not in Hq.
      * intros q Hq Hne. rewrite lookup_insert_ne by done.
        by apply (tree_absent (disk s) p q).
    + unfold mkdtemp in Hmk.
      destruct (stat (disk s) _) as [[]|]; [done| |done].
      destruct (exists_ (disk s) _) eqn:Hex; [done|].
      injection Hmk as <- _. rewrite parent_snoc. split; [|done].
      unfold exists_ in Hex. rewrite stat_snoc in Hex.
      by destruct (disk s !! _).
Qed.

Lemma temp_directory_ok {A} cfg prefix (body : path → M A) s a s' :
  temp_directory cfg prefix body s = (Ok a, s') →
  ∃ t s0 s1, quiet s s0 ∧ body t s0 = (Ok a, s1) ∧ quiet s1 s' ∧
    (staging_ready cfg (disk s) →
     dir_chain (disk s0) t ∧ clear_below (disk s0) t).
Proof.
  intros (t & s0 & s1 & ? & ? & ? & ? & _)%temp_directory_at.
  by exists t, s0, s1.
Qed.

(** ** One archive in streaming mode *)

Lemma quiet_set_seen_top_dirs (f : state → gset string) :
  Keeps quiet (modify (λ s, set_seen_top_dirs (f s) s)).
Proof. apply Keeps_modify. intros s. by split. Qed.

#[global] Hint Extern 1 (Keeps quiet (modify (λ s, set_seen_top_dirs _ s))) =>
  apply quiet_set_seen_top_dirs : quiet.

Lemma quiet_note_top_dirs a : Keeps quiet (note_top_dirs a).
Proof. unfold note_top_dirs. quiet_steps. Qed.

Lemma final_commit_ledger cfg root n s s' :
  files_in_batch s = n →
  (log DEBUG (AppendingFinalBatch n) ;;
   append_to_squashfs cfg root) s = (Ok tt, s') →
  ledger_step cfg [n] n 0 s s'.
Proof.
  intros <- ([] & s1 & Hlog & Happ)%bind_ok. injection Hlog as <-.
  destruct (dry_run cfg) eqn:Hdry.
  - rewrite append_dry in Happ by done. injection Happ as <-.
    split; simpl; try done; [lia|congruence].
  - apply append_real_ok in Happ as ->; [|done].
    split; simpl; try done. lia.
Qed.

Lemma ledger_step_reset cfg l f n s s' :
  ledger_step cfg l f n (set_files_in_batch 0 s) s' →
  ledger_step cfg l f n s s'.
Proof. intros []. by split. Qed.

(** An archive processed to the end in streaming mode has announced the
    batches of its plan, and in a real run has committed once per
    announcement. *)
Lemma process_archive_streaming_ledger cfg a s s' :
  process_archive_streaming cfg a s = (Ok tt, s') →
  ∃ f, ledger_step cfg (archive_plan (batch_size cfg) (members a)) f
         (file_count (members a)) s s'.
Proof.
  unfold process_archive_streaming.
  intros ([] & s1 & Hlog & H)%bind_ok. injection Hlog as <-.
  apply temp_directory_ok in H as (t & s2 & s3 & Hq1 & H & Hq2 & _).
  apply bind_ok in H as ([] & s4 & Hfib & H). injection Hfib as <-.
  apply bind_ok in H as ([] & s5 & Hmb & H).
  assert (quiet (set_files_in_batch 0 s2) s5 ∧ files_in_batch s5 = 0)
    as [Hq3 Hfib5].
  { destruct (merge_duplicates cfg); injection Hmb as <-; by split. }
  apply try_except_reraise_ok in H.
  apply bind_ok in H as ([] & s6 & Hnote & H).
  assert (quiet s5 s6) as Hq4.
  { destruct (merge_duplicates cfg).
    - pose proof (quiet_note_top_dirs a s5) as Hk.
      simpl in Hnote. rewrite Hnote in Hk. exact Hk.
    - injection Hnote as <-. reflexivity. }
  apply bind_ok in H as (k & s7 & Hloop & H).
  apply streaming_loop_ledger in Hloop as [Hloop _].
  apply bind_ok in H as ([] & s8 & Hfound & H). injection Hfound as <-.
  apply bind_ok in H as (s9 & ? & Hget & H). injection Hget as <- <-.
  rewrite (quiet_batch _ _ Hq4), Hfib5 in Hloop.
  unfold archive_plan.
  destruct (batch_plan (batch_size cfg) (members a) 0) as [l f].
  simpl in Hloop, H.
  assert (ledger_step cfg l f (file_count (members a)) s
            (set_journal (Log INFO (FoundFiles k) :: journal s7) s7)) as Hmain.
  { apply (ledger_step_quiet_r _ _ _ _ _ s7); [|by split].
    eapply ledger_step_quiet_l.
    { trans (set_journal
        (Log INFO (ProcessingArchive (archive_name a)) :: journal s) s);
        [by split|exact Hq1]. }
    apply ledger_step_reset.
    eapply ledger_step_quiet_l; [by trans s5|]. exact Hloop. }
  rewrite (step_batch _ _ _ _ _ _ Hloop) in H.
  exists f. eapply ledger_step_quiet_r; [|exact Hq2].
  destruct (0 <? f).
  - apply final_commit_ledger in H; [|exact (step_batch _ _ _ _ _ _ Hloop)].
    replace (file_count (members a)) with (file_count (members a) + 0) by lia.
    by eapply ledger_step_trans.
  - injection H as <-. by rewrite app_nil_r.
Qed.

(** * Placement of entries without a top-level directory *)


Lemma fs_extract_at_root d e n seg c :
  path_parts n = [seg] → dir_chain d e → stat d (e ++ [seg]) ≠ Some Dir →
  fs_extract e n c d = Ok (<[e ++ [seg] := File c]> d).
Proof.
  intros Hparts Hchain Hfree. unfold fs_extract.
  rewrite Hparts, parent_snoc, mkdirs_dir_chain by done.
  by destruct (stat d (e ++ [seg])) as [[]|].
Qed.

Lemma place_member_at_root cfg m seg e s :
  path_parts (name m) = [seg] → dry_run cfg = false →
  dir_chain (disk s) e → stat (disk s) (e ++ [seg]) ≠ Some Dir →
  place_member cfg m e None s =
    (Ok tt, set_disk (<[e ++ [seg] := File (content m)]> (disk s)) s).
Proof.
  intros Hparts Hdry Hchain Hfree. unfold place_member. rewrite Hdry. simpl.
  rewrite andb_false_r. unfold on_disk.
  by rewrite (fs_extract_at_root _ _ _ seg).
Qed.




(** * Regular files below a directory *)

Lemma lookup_files_under p d k n :
  files_under p d !! k = Some n ↔
  d !! k = Some n ∧ (p `prefix_of` k ∧ p ≠ k) ∧ is_file n = true.
Proof. unfold files_under. by rewrite map_lookup_filter_Some. Qed.

Lemma files_under_adds p d d' :
  adds_dirs d d' → files_under p d' = files_under p d.
Proof.
  intros H. apply map_eq. intros k. apply option_eq. intros n.
  rewrite !lookup_files_under.
  destruct (H k) as [->|[E ->]]; [done|]. rewrite E.
  split; [intros ([= <-] & _ & Hf); done|intros ([=] & _)].
Qed.

Lemma files_under_insert_file p d k c :
  p `prefix_of` k → p ≠ k →
  files_under p (<[k := File c]> d) = <[k := File c]> (files_under p d).
Proof. intros Hp Hne. unfold files_under. by rewrite map_filter_insert_True. Qed.

Lemma files_under_rmtree p d :
  files_under p (filter (λ kv, ¬ p `prefix_of` kv.1) d) = ∅.
Proof.
  apply map_eq. intros k. rewrite lookup_empty.
  apply eq_None_not_Some. intros [n Hn].
  apply lookup_files_under in Hn as (Hk & [Hp _] & _).
  apply map_lookup_filter_Some in Hk as [_ Hk]. by apply Hk.
Qed.

Lemma fs_extract_ok dest n c d d' :
  fs_extract dest n c d = Ok d' →
  ∃ d1, adds_dirs d d1 ∧ stat d1 (dest ++ path_parts n) ≠ Some Dir ∧
        d' = <[dest ++ path_parts n := File c]> d1.
Proof.
  unfold fs_extract.
  destruct (mkdirs_from [] _ d) as [d1|e] eqn:Hmk; [|by destruct e].
  apply mkdirs_from_adds in Hmk. intros H. exists d1. split; [done|].
  destruct (stat d1 _) as [[]|]; naive_solver.
Qed.

Lemma dir_chain_insert_below d e k n :
  dir_chain d e → ¬ k `prefix_of` e → dir_chain (<[k := n]> d) e.
Proof.
  intros H Hk q Hq. specialize (H q Hq). destruct q as [|x q]; [done|].
  simpl in *. rewrite lookup_insert_ne; [done|]. by intros ->.
Qed.

(** * The staging area when merging is off *)

Lemma place_plain_staged cfg m e P s s' :
  dry_run cfg = false →
  path_parts (name m) ∉ P → staged e P s →
  place_member cfg m e None s = (Ok tt, s') →
  staged e (path_parts (name m) :: P)
    (set_files_in_batch (files_in_batch s + 1) s').
Proof.
  intros Hdry Hnew [Hdir Horigin Hcount].
  unfold place_member. rewrite Hdry. simpl. rewrite andb_false_r.
  intros (d' & Hex & ->)%on_disk_ok.
  apply fs_extract_ok in Hex as (d1 & Hadds & Hfree & ->).
  set (ps := path_parts (name m)) in *.
  assert (ps ≠ []) as Hps.
  { intros E. rewrite E, app_nil_r in Hfree. apply Hfree.
    by eapply adds_dirs_stat_dir. }
  assert (e `prefix_of` e ++ ps) as Hpre by by apply prefix_app_r.
  assert (e ≠ e ++ ps) as Hne.
  { intros E. apply Hps. rewrite <- (app_nil_r e) in E at 1.
    by apply app_inv_head in E. }
  split; simpl.
  - destruct e as [|x e]; [done|]. simpl.
    rewrite lookup_insert_ne by done. by eapply adds_dirs_dir.
  - intros p c' Hpne. rewrite elem_of_cons.
    destruct (decide (p = ps)) as [->|Hp]; [by left|].
    rewrite lookup_insert_ne by (by intros ?%app_inv_head).
    rewrite adds_dirs_file by done. intros ?%Horigin; [by right|done].
  - rewrite files_under_insert_file, (files_under_adds _ _ _ Hadds) by done.
    rewrite map_size_insert_None; [lia|].
    apply eq_None_not_Some. intros [n (Hk & _ & Hf)%lookup_files_under].
    destruct n as [c'|]; [|done]. by apply Horigin in Hk.
Qed.

Lemma reset_plain cfg e s s' :
  merge_duplicates cfg = false →
  reset_staging cfg e s = (Ok tt, s') →
  e ≠ [] ∧ disk s' !! e = Some Dir ∧ files_under e (disk s') = ∅ ∧
  quiet s s'.
Proof.
  intros Hm Hreset.
  pose proof (quiet_reset_staging cfg e s) as Hq. rewrite Hreset in Hq.
  revert Hreset. unfold reset_staging.
  intros (s0 & ? & Hget & H)%bind_ok. injection Hget as <- <-.
  unfold merging_here in H. rewrite Hm in H. simpl in H.
  apply bind_ok in H as ([] & s1 & (d1 & Hrm & ->)%on_disk_ok
                            & (d2 & Hmk & ->)%on_disk_ok).
  simpl in *. unfold fs_makedirs in Hmk.
  destruct (exists_ d1 e) eqn:Hex; [done|].
  split; [by intros ->|]. split; [|split; [|exact Hq]].
  - eapply mkdirs_from_made; [done|done|].
    destruct e; [by simpl in Hex|simpl; lia].
  - apply mkdirs_from_adds in Hmk. rewrite (files_under_adds _ _ _ Hmk).
    unfold fs_rmtree in Hrm. destruct (stat _ e) as [[]|]; [done| |done].
    injection Hrm as <-. apply files_under_rmtree.
Qed.

Lemma count_and_commit_plain cfg e P s s' :
  merge_duplicates cfg = false → dry_run cfg = false →
  staged e P (set_files_in_batch (files_in_batch s + 1) s) →
  count_and_commit cfg e s = (Ok tt, s') →
  staged e P s' ∧
  committed_of (journal s') =
    (if batch_size cfg <=? files_in_batch s + 1
     then [files_in_batch s + 1] else []) ++ committed_of (journal s).
Proof.
  intros Hm Hdry [Hdir Horigin Hcount]. simpl in *.
  unfold count_and_commit. run_M. simpl.
  destruct (batch_size cfg <=? files_in_batch s + 1) eqn:Hb.
  - rewrite Hdry. simpl. unfold content_root. rewrite Hm.
    match goal with
    | |- context [append_to_squashfs cfg e ?s0] =>
        destruct (append_to_squashfs cfg e s0) as [[[]|err] s1] eqn:Happ
    end; [|discriminate].
    apply append_real_ok in Happ as ->; [|done].
    match goal with
    | |- context [reset_staging cfg e ?s0] =>
        destruct (reset_staging cfg e s0) as [[[]|err] s2] eqn:Hreset
    end; [|discriminate].
    apply reset_plain in Hreset as (He & Hdir' & Hnone & Hq); [|done].
    intros [= <-]. split.
    + split; simpl; [by rewrite stat_nonempty| |
                     by rewrite Hnone, map_size_empty].
      intros p c Hne Hp. exfalso.
      assert (files_under e (disk s2) !! (e ++ p) = Some (File c)) as Hin.
      { apply lookup_files_under. split; [done|]. split; [|done].
        split; [by apply prefix_app_r|]. intros E. apply Hne.
        rewrite <- (app_nil_r e) in E at 1. by apply app_inv_head in E. }
      by rewrite Hnone in Hin.
    + unfold committed_of. simpl. rewrite (quiet_appends _ _ Hq). simpl.
      unfold committed_files at 1. simpl. by rewrite Hcount.
  - intros [= <-]. split; [by split|done].
Qed.

Lemma file_paths_cons m r :
  file_paths (m :: r) =
    if isfile m then path_parts (name m) :: file_paths r else file_paths r.
Proof. unfold file_paths. simpl. by destruct (isfile m). Qed.

(** With merging off and distinct member paths, every commit of the
    streaming loop holds exactly the files of its announced batch. *)
Lemma streaming_loop_plain cfg ms e k s k' s' P :
  merge_duplicates cfg = false → dry_run cfg = false →
  NoDup (file_paths ms) → (∀ p, p ∈ P → p ∉ file_paths ms) →
  staged e P s →
  streaming_loop cfg ms e k s = (Ok k', s') →
  (∃ P', staged e P' s') ∧
  committed_of (journal s') =
    rev (batch_plan (batch_size cfg) ms (files_in_batch s)).1
      ++ committed_of (journal s).
Proof.
  intros Hm Hdry. revert k s P.
  induction ms as [|m r IH]; intros k s P Hnodup Hfresh Hst; simpl.
  - intros [= <- <-]. eauto.
  - rewrite file_paths_cons in Hnodup, Hfresh. rewrite Hm. simpl.
    destruct (isfile m) eqn:Hf; [|by eapply IH].
    apply NoDup_cons in Hnodup as [Hnew Hnodup].
    intros ([] & s1 & Hsetup & ([] & s2 & Hmember & Hrest)%bind_ok)%bind_ok.
    injection Hsetup as <-.
    unfold process_tar_member in Hmember. rewrite Hf in Hmember.
    apply bind_ok in Hmember as ([] & s1 & Hplace & Hcount).
    pose proof (quiet_place_member cfg m e None s) as Hq.
    rewrite Hplace in Hq. simpl in Hq.
    eapply place_plain_staged in Hplace; [|done| |done].
    2:{ intros Hin. apply (Hfresh _ Hin). apply elem_of_cons. by left. }
    rewrite <- (quiet_batch _ _ Hq) in Hplace.
    pose proof (count_and_commit_ledger cfg e s1 s2 Hcount) as Hl.
    destruct (count_and_commit_plain cfg e _ s1 s2 Hm Hdry Hplace Hcount)
      as [Hst2 Hcom].
    rewrite (quiet_batch _ _ Hq) in Hcom, Hl.
    assert (committed_of (journal s1) = committed_of (journal s)) as Hsame
      by (unfold committed_of; by rewrite (quiet_appends _ _ Hq)).
    rewrite Hsame in Hcom.
    eapply IH in Hrest as [HP' Hrest]; [|done| |exact Hst2].
    2:{ intros p [->|Hp]%elem_of_cons; [done|].
        intros Hin. apply (Hfresh _ Hp). apply elem_of_cons. by right. }
    split; [done|]. rewrite Hrest, Hcom.
    destruct (batch_size cfg <=? files_in_batch s + 1).
    + rewrite (step_batch _ _ _ _ _ _ Hl).
      destruct (batch_plan (batch_size cfg) r 0) as [l f]. simpl.
      by rewrite <- app_assoc.
    + by rewrite (step_batch _ _ _ _ _ _ Hl).
Qed.

(** ** What leaves the disk and the tool alone *)

#[global] Instance untouched_preorder : PreOrder untouched.
Proof.
  split.
  - intros s. by split.
  - intros s1 s2 s3 [] []. split; congruence.
Qed.

Lemma untouched_log lvl r : Keeps untouched (log lvl r).
Proof. intros s. by split. Qed.

Lemma untouched_modify f :
  (∀ s, disk (f s) = disk s ∧ tool_calls (f s) = tool_calls s ∧
        journal (f s) = journal s) →
  Keeps untouched (modify f).
Proof.
  intros Hf. apply Keeps_modify. intros s.
  destruct (Hf s) as (? & ? & Hj). split; [done..|by rewrite Hj].
Qed.

Create HintDb untouched.
#[global] Hint Resolve Keeps_ret Keeps_raise Keeps_get Keeps_when
  Keeps_try_finally Keeps_try_except Keeps_for_each
  untouched_log untouched_preorder : untouched.
#[global] Hint Extern 1 (Keeps untouched (modify _)) =>
  (apply untouched_modify; intros ?; by repeat split) : untouched.
#[global] Hint Extern 2 (Keeps _ (_ ≫= _)) =>
  (apply Keeps_bind; [apply _| |intros ?]) : untouched.
#[global] Hint Extern 3 (Keeps _ (match ?x with _ => _ end)) =>
  destruct x : untouched.

Ltac untouched_steps := intros; eauto 30 with untouched.

Lemma untouched_note_top_dirs a : Keeps untouched (note_top_dirs a).
Proof. unfold note_top_dirs. untouched_steps. Qed.

(** ** One archive in streaming mode, taken apart *)

Lemma process_archive_streaming_at cfg a s s' :
  process_archive_streaming cfg a s = (Ok tt, s') →
  ∃ t s0 k s1 s2,
    quiet (set_files_in_batch 0 s) s0 ∧ files_in_batch s0 = 0 ∧
    (merge_duplicates cfg = true → merge_base_dir s0 = None) ∧
    (staging_ready cfg (disk s) →
     dir_chain (disk s0) t ∧ clear_below (disk s0) t) ∧
    streaming_loop cfg (members a) t 0 s0 = (Ok k, s1) ∧
    (if 0 <? files_in_batch s1
     then log DEBUG (AppendingFinalBatch (files_in_batch s1)) ;;
          append_to_squashfs cfg (content_root cfg t s1)
     else mret tt)
      (set_journal (Log INFO (FoundFiles k) :: journal s1) s1) = (Ok tt, s2) ∧
    quiet s2 s' ∧ scoped cfg t (disk s).
Proof.
  unfold process_archive_streaming.
  intros ([] & s1 & Hlog & H)%bind_ok. injection Hlog as <-.
  apply temp_directory_at in H as (t & s2 & s3 & Hq1 & H & Hq2 & Hready & Hat).
  apply bind_ok in H as ([] & s4 & Hfib & H). injection Hfib as <-.
  apply bind_ok in H as ([] & s5 & Hmb & H).
  assert (quiet (set_files_in_batch 0 s2) s5 ∧ files_in_batch s5 = 0 ∧
          disk s5 = disk s2 ∧
          (merge_duplicates cfg = true → merge_base_dir s5 = None))
    as (Hq3 & Hfib5 & Hd5 & Hmb5).
  { destruct (merge_duplicates cfg); injection Hmb as <-; by repeat split. }
  apply try_except_reraise_ok in H.
  apply bind_ok in H as ([] & s6 & Hnote & H).
  assert (quiet s5 s6 ∧ untouched s5 s6 ∧
          merge_base_dir s6 = merge_base_dir s5) as (Hq4 & Hu4 & Hmb6).
  { destruct (merge_duplicates cfg).
    - pose proof (quiet_note_top_dirs a s5) as Hk.
      pose proof (untouched_note_top_dirs a s5) as Hu.
      simpl in Hnote. rewrite Hnote in Hk, Hu. split_and!; [done..|].
      unfold note_top_dirs in Hnote. revert Hnote. run_M.
      by destruct (negb _); intros [= <-].
    - injection Hnote as <-. by split_and!. }
  apply bind_ok in H as (k & s7 & Hloop & H).
  apply bind_ok in H as ([] & s8 & Hfound & H). injection Hfound as <-.
  apply bind_ok in H as (s9 & ? & Hget & H). injection Hget as <- <-.
  exists t, s6, k, s7, s3. split_and!; try done.
  - trans s5; [|done]. etrans; [|exact Hq3]. destruct Hq1. by split.
  - by rewrite (quiet_batch _ _ Hq4).
  - intros Hm. rewrite Hmb6. by apply Hmb5.
  - rewrite (untouched_disk _ _ Hu4), Hd5. by apply Hready.
Qed.

Lemma process_archive_streaming_inv cfg a s s' :
  process_archive_streaming cfg a s = (Ok tt, s') →
  ∃ t s0 k s1 s2,
    quiet (set_files_in_batch 0 s) s0 ∧ files_in_batch s0 = 0 ∧
    (merge_duplicates cfg = true → merge_base_dir s0 = None) ∧
    (staging_ready cfg (disk s) →
     dir_chain (disk s0) t ∧ clear_below (disk s0) t) ∧
    streaming_loop cfg (members a) t 0 s0 = (Ok k, s1) ∧
    (if 0 <? files_in_batch s1
     then log DEBUG (AppendingFinalBatch (files_in_batch s1)) ;;
          append_to_squashfs cfg (content_root cfg t s1)
     else mret tt)
      (set_journal (Log INFO (FoundFiles k) :: journal s1) s1) = (Ok tt, s2) ∧
    quiet s2 s'.
Proof.
  intros (t & s0 & k & s1 & s2 & ? & ? & ? & ? & ? & ? & ? & _)
    %process_archive_streaming_at.
  by exists t, s0, k, s1, s2.
Qed.

(** * Commits per archive *)

Lemma sum_list_rev l : sum_list (rev l) = sum_list l.
Proof.
  induction l as [|x l IH]; simpl; [done|].
  rewrite sum_list_app. simpl. lia.
Qed.

Lemma sum_list_fmap_rev {A} (f : A → Z) l :
  sum_list (f <$> rev l) = sum_list (f <$> l).
Proof.
  induction l as [|x l IH]; [done|].
  change (rev (x :: l)) with (rev l ++ [x]).
  rewrite fmap_app, sum_list_app, IH.
  change (sum_list (f <$> x :: l)) with (f x + sum_list (f <$> l)).
  change (sum_list (f <$> [x])) with (f x + 0). lia.
Qed.

Lemma committed_total_of s :
  committed_total s = sum_list (committed_of (journal s)).
Proof. apply sum_list_fmap_rev. Qed.

Lemma committed_of_append j src image comp limit seen :
  committed_of (Run (MksquashfsAppend src image comp) limit seen :: j) =
    Z.of_nat (size (files_under src seen)) :: committed_of j.
Proof. reflexivity. Qed.

Lemma committed_of_log j lvl r : committed_of (Log lvl r :: j) = committed_of j.
Proof. reflexivity. Qed.

(** With merging off, distinct member paths and a ready disk, the
    commits of an archive hold the files of the batches of its plan. *)
Lemma process_archive_streaming_plain cfg a s s' :
  merge_duplicates cfg = false → dry_run cfg = false →
  NoDup (file_paths (members a)) → staging_ready cfg (disk s) →
  process_archive_streaming cfg a s = (Ok tt, s') →
  committed_of (journal s') =
    rev (archive_plan (batch_size cfg) (members a))
      ++ committed_of (journal s).
Proof.
  intros Hm Hdry Hnodup Hready
    (t & s0 & k & s1 & s2 & Hq0 & Hfib0 & _ & Hdir & Hloop & Hfin & Hq2)
      %process_archive_streaming_inv.
  destruct (Hdir Hready) as [Hst Hclear].
  assert (staged t [] s0) as Hstaged.
  { split; [by apply Hst| |].
    - intros p c Hp Hin. rewrite Hclear in Hin; [done|by apply prefix_app_r|].
      intros E. apply Hp. rewrite <- (app_nil_r t) in E at 1.
      by apply app_inv_head in E.
    - rewrite Hfib0.
      assert (files_under t (disk s0) = ∅) as ->; [|by rewrite map_size_empty].
      apply map_eq. intros q. rewrite lookup_empty.
      apply eq_None_not_Some. intros [n (Hq & [Hpre Hne] & _)%lookup_files_under].
      by rewrite Hclear in Hq. }
  pose proof (streaming_loop_ledger _ _ _ _ _ _ _ Hloop) as [Hl _].
  eapply streaming_loop_plain in Hloop as [[P' Hst1] Hcom];
    [|done|done|done| |exact Hstaged].
  2:{ intros p Hp. by apply elem_of_nil in Hp. }
  rewrite Hfib0 in Hcom, Hl. unfold archive_plan.
  assert (committed_of (journal s0) = committed_of (journal s)) as Hsame.
  { unfold committed_of. by rewrite (quiet_appends _ _ Hq0). }
  assert (committed_of (journal s') = committed_of (journal s2)) as ->.
  { unfold committed_of. by rewrite (quiet_appends _ _ Hq2). }
  destruct (batch_plan (batch_size cfg) (members a) 0) as [l f].
  simpl in *. rewrite (step_batch _ _ _ _ _ _ Hl) in Hfin.
  destruct (0 <? f).
  - apply bind_ok in Hfin as ([] & s3 & Hlog & Happ). injection Hlog as <-.
    apply append_real_ok in Happ as ->; [|done].
    cbn [journal set_journal set_tool_calls disk].
    rewrite committed_of_append, !committed_of_log.
    unfold content_root. rewrite Hm.
    rewrite (staged_count _ _ _ Hst1), (step_batch _ _ _ _ _ _ Hl).
    rewrite Hcom, Hsame, rev_app_distr. done.
  - injection Hfin as <-. cbn [journal set_journal].
    by rewrite committed_of_log, Hcom, Hsame, app_nil_r.
Qed.

(** * Placement through the merge root *)

Lemma parent_prefix p : parent p `prefix_of` p.
Proof.
  destruct p as [|x p _] using rev_ind; [done|].
  rewrite parent_snoc. by apply prefix_app_r.
Qed.

Lemma app_ne_self {A} (l k : list A) : k ≠ [] → l ++ k ≠ l.
Proof.
  intros Hk E. apply Hk. rewrite <- (app_nil_r l) in E at 2.
  by apply app_inv_head in E.
Qed.

(** What the temporary extraction directory does to the disk outside
    itself: nothing. *)
Lemma extract_to_temp d e n c :
  path_parts n ≠ [] →
  dir_chain d e →
  d !! (e ++ ["temp_extract"]) = None →
  clear_below d (e ++ ["temp_extract"]) →
  let temp := e ++ ["temp_extract"] in
  ∃ d3, fs_mkdir true temp d = Ok (<[temp := Dir]> d) ∧
        fs_extract temp n c (<[temp := Dir]> d) = Ok d3 ∧
        d3 !! temp = Some Dir ∧
        d3 !! (temp ++ path_parts n) = Some (File c) ∧
        ∀ q, ¬ temp `prefix_of` q → d3 !! q = d !! q.
Proof.
  intros Hps Hchain Hfree Hclear temp.
  set (ps := path_parts n) in *.
  assert (fs_mkdir true temp d = Ok (<[temp := Dir]> d)) as Hmk.
  { unfold fs_mkdir, temp. rewrite stat_snoc, Hfree, parent_snoc.
    by rewrite (Hchain e). }
  assert (temp ++ ps ≠ temp) as Htarget by by apply app_ne_self.
  assert (∀ q, q `prefix_of` temp → q ≠ temp → q ≠ [] →
               d !! q = Some Dir) as Hup.
  { intros q [->|Hq]%prefix_snoc_cases Hne1 Hne2; [done|].
    by eapply dir_chain_lookup. }
  unfold fs_extract. fold ps. rewrite parent_app by done.
  destruct (mkdirs_from_succeeds [] (temp ++ parent ps) (<[temp := Dir]> d))
    as [d2 Hmk2].
  { intros q c' Hq Hlen.
    destruct (decide (q = temp)) as [->|Hne]; [by rewrite lookup_insert_eq|].
    rewrite lookup_insert_ne by done.
    destruct (prefix_weak_total q temp (temp ++ parent ps)) as [Hlt|Hgt];
      [done|by apply prefix_app_r| |].
    - assert (q ≠ []) as Hq0 by (intros ->; simpl in Hlen; lia).
      by rewrite (Hup q Hlt Hne Hq0).
    - by rewrite (Hclear q Hgt (not_eq_sym Hne)). }
  rewrite Hmk2.
  assert (d2 !! (temp ++ ps) = None) as Hnone.
  { rewrite (mkdirs_from_stable _ _ _ _ _ Hmk2).
    - rewrite lookup_insert_ne by done.
      apply Hclear; [by apply prefix_app_r|done].
    - simpl. intros Hq%prefix_app_inv. exfalso.
      destruct ps as [|x ps _] using rev_ind; [done|].
      unfold parent in Hq. rewrite removelast_last in Hq.
      by apply prefix_snoc_not in Hq. }
  rewrite stat_nonempty, Hnone by (by destruct temp, e).
  eexists. split_and!; [done|done| | |].
  - rewrite lookup_insert_ne by done.
    rewrite (mkdirs_from_keeps _ _ _ _ _ Hmk2); by rewrite lookup_insert_eq.
  - by rewrite lookup_insert_eq.
  - intros q Hq. rewrite lookup_insert_ne.
    2:{ intros <-. apply Hq. by apply prefix_app_r. }
    assert (q ≠ temp) as Hne by by intros ->.
    destruct (decide (q `prefix_of` temp ++ parent ps)) as [Hin|Hout].
    + destruct (prefix_weak_total q temp (temp ++ parent ps)) as [Hlt|Hgt];
        [done|by apply prefix_app_r| |done].
      destruct (decide (q = [])) as [->|Hq0].
      * rewrite (mkdirs_from_stable _ _ _ _ _ Hmk2) by (simpl; lia).
        by rewrite lookup_insert_ne.
      * rewrite (mkdirs_from_keeps _ _ _ _ _ Hmk2);
          rewrite lookup_insert_ne by done; [done|].
        by rewrite Hup.
    + rewrite (mkdirs_from_only _ _ _ _ _ Hmk2) by done.
      by rewrite lookup_insert_ne.
Qed.

Lemma place_member_merged cfg m e top s mb dm :
  merge_duplicates cfg = true → dry_run cfg = false → has_top top = true →
  merge_base_dir s = Some mb →
  let ps := path_parts (name m) in
  let temp := e ++ ["temp_extract"] in
  let dst := mb ++ ps in
  ps ≠ [] →
  dir_chain (disk s) e →
  disk s !! temp = None → clear_below (disk s) temp →
  ¬ temp `prefix_of` dst →
  mkdirs_from [] (parent dst) (disk s) = Ok dm →
  stat dm dst ≠ Some Dir →
  place_member cfg m e top s =
    (Ok tt,
     set_disk (<[dst := File (content m)]> dm)
       (if exists_ (disk s) dst
        then set_journal
               (Log DEBUG (OverwritingDuplicateFile (name m)) :: journal s) s
        else s)).
Proof.
  intros Hm Hdry Htop Hmb ps temp dst Hps Hchain Hfree Hclear Hout Hdm Hnodir.
  destruct (extract_to_temp (disk s) e (name m) (content m) Hps Hchain
              Hfree Hclear) as (d3 & Hmk & Hex & Htemp & Hsrc & Hsame).
  fold temp ps in Hmk, Hex, Htemp, Hsrc, Hsame.
  assert (∀ q, q `prefix_of` parent dst → ¬ temp `prefix_of` q) as Hpar.
  { intros q Hq Ht. apply Hout. etrans; [exact Ht|]. etrans; [exact Hq|].
    unfold dst. rewrite parent_app by done. by apply prefix_app, parent_prefix. }
  destruct (mkdirs_from_agree [] (parent dst) (disk s) d3 dm) as (dm3 & Hdm3 & Hag);
    [by intros q Hq; apply Hsame, Hpar|done|].
  assert (dst ≠ []) as Hdst0 by (unfold dst; by destruct mb, ps).
  assert (¬ dst `prefix_of` parent dst) as Hdstpar.
  { unfold dst. rewrite parent_app by done. intros Hp%prefix_app_inv.
    destruct ps as [|x ps' _] using rev_ind; [done|].
    rewrite parent_snoc in Hp. by apply prefix_snoc_not in Hp. }
  set (src := temp ++ ps) in *.
  assert (temp `prefix_of` src) as Htsrc by by apply prefix_app_r.
  assert (dm3 !! src = Some (File (content m))) as Hsrc3.
  { rewrite (mkdirs_from_only _ _ _ _ _ Hdm3); [done|].
    intros Hq. by apply (Hpar src). }
  assert (dm !! dst = disk s !! dst) as Hdmdst
    by by rewrite (mkdirs_from_only _ _ _ _ _ Hdm).
  assert (dm3 !! dst = disk s !! dst) as Hdst3.
  { rewrite (mkdirs_from_only _ _ _ _ _ Hdm3) by done. by apply Hsame. }
  assert (dm3 !! temp = Some Dir) as Htemp3.
  { rewrite (mkdirs_from_only _ _ _ _ _ Hdm3); [done|].
    intros Hq. by apply (Hpar temp). }
  assert (stat dm3 (parent dst) = Some Dir) as Hpardir.
  { destruct (parent dst) as [|x p] eqn:Hp; [done|]. simpl.
    rewrite Hag by done. eapply mkdirs_from_made; [exact Hdm|done|simpl; lia]. }
  assert (∀ q, ¬ temp `prefix_of` q → dm3 !! q = dm !! q) as Hsame3.
  { intros q Hq. destruct (decide (q `prefix_of` parent dst)) as [Hin|Hno].
    - by apply Hag.
    - rewrite (mkdirs_from_only _ _ _ _ _ Hdm3),
        (mkdirs_from_only _ _ _ _ _ Hdm) by done. by apply Hsame. }
  assert (filter (λ kv, ¬ temp `prefix_of` kv.1)
            (<[dst := File (content m)]> (delete src dm3)) =
          <[dst := File (content m)]> dm) as Hfinal.
  { apply map_eq. intros q. apply option_eq. intros n.
    rewrite map_lookup_filter_Some. simpl.
    destruct (decide (q = dst)) as [->|Hqd].
    - rewrite !lookup_insert_eq. split; [by intros [? _]|by intros ?].
    - rewrite !lookup_insert_ne by done. split.
      + intros [Hq Hnt]. rewrite <- Hsame3 by done.
        rewrite lookup_delete_ne in Hq; [done|]. by intros <-.
      + intros Hq. assert (¬ temp `prefix_of` q) as Hnt.
        { intros Ht. rewrite (mkdirs_from_only _ _ _ _ _ Hdm) in Hq.
          - destruct (decide (temp = q)) as [<-|Hne]; [congruence|].
            by rewrite (Hclear q Ht Hne) in Hq.
          - intros Hp. by apply (Hpar q). }
        split; [|done]. rewrite lookup_delete_ne by (by intros <-).
        by rewrite Hsame3. }
  unfold place_member. rewrite Hdry, Hm, Htop. run_M. cbn [negb andb].
  rewrite Hmb. fold temp ps. rewrite Hmk. cbn [disk set_disk].
  rewrite Hex. cbn [disk set_disk merge_base_dir]. rewrite Hmb.
  change (default e (Some mb)) with mb. fold dst src.
  unfold fs_mkdir_parents. rewrite Hdm3. cbn [disk set_disk].
  assert (exists_ dm3 src = true) as -> by
    (unfold exists_; by rewrite stat_nonempty, Hsrc3 by (by destruct temp, e)).
  assert (exists_ dm3 dst = exists_ (disk s) dst) as ->
    by (unfold exists_; by rewrite !stat_nonempty, Hdst3).
  assert (fs_move src dst dm3 =
          Ok (<[dst := File (content m)]> (delete src dm3))) as Hmove.
  { rewrite stat_nonempty, Hdmdst in Hnodir by done.
    unfold fs_move, fs_rename.
    rewrite (stat_nonempty _ dst), Hdst3 by done.
    rewrite (stat_nonempty _ src), Hsrc3, Hpardir by (by destruct temp, e).
    by destruct (disk s !! dst) as [[]|]. }
  assert (fs_rmtree true temp (<[dst := File (content m)]> (delete src dm3)) =
          Ok (<[dst := File (content m)]> dm)) as Hrm.
  { unfold fs_rmtree. rewrite stat_nonempty by (by destruct e).
    rewrite lookup_insert_ne by (intros <-; by apply Hout).
    rewrite lookup_delete_ne by (unfold src; by apply app_ne_self).
    by rewrite Htemp3, Hfinal. }
  destruct (exists_ (disk s) dst); cbn [disk set_disk set_journal];
    rewrite Hmove; cbn [disk set_disk set_journal]; rewrite Hrm; done.
Qed.

Lemma temp_extract_outside_merged e ps :
  ¬ e ++ ["temp_extract"] `prefix_of` (e ++ ["merged"]) ++ ps.
Proof.
  rewrite <- app_assoc. intros [k Hk]%prefix_app_inv. discriminate.
Qed.





(** * Merging across archives *)

(** C3, the claim as stated fails: after archive A (with [foo/x.txt])
    and then archive B (with [foo/y.txt]) have been processed, the
    content root committed last, which is the merge root of B, holds
    [foo/y.txt] but not [foo/x.txt], and the disk it was taken from has
    no trace of A's staging directory. *)
Lemma later_archive_gets_fresh_merge_root :
  let r := build_from_archives (plain_config 1000 false true)
             [archive_A "1"; archive_B "2"] false (init_state bare_disk) in
  r.1 = Ok tt ∧
  last (commit_roots r.2) = Some ["tmp"; "extract_2"; "merged"] ∧
  last_commit_lookup r.2 ["foo"; "y.txt"] = Some (File "2") ∧
  last_commit_lookup r.2 ["foo"; "x.txt"] = None ∧
  last_commit_files r.2 ["tmp"] =
    [(["extract_2"; "merged"; "foo"; "y.txt"], "2")].
Proof. by vm_compute. Qed.


(** * Where the staging area is not reset *)

(** With a merge root in place, the reset after a commit touches the
    merge root only. *)
Lemma reset_merged cfg e mb s s' :
  merge_duplicates cfg = true → merge_base_dir s = Some mb →
  reset_staging cfg e s = (Ok tt, s') →
  merge_base_dir s' = Some (e ++ ["merged"]) ∧
  ∀ q, ¬ mb `prefix_of` q → q ≠ e ++ ["merged"] → disk s' !! q = disk s !! q.
Proof.
  intros Hm Hmb. unfold reset_staging.
  intros (s0 & ? & Hget & H)%bind_ok. injection Hget as <- <-.
  unfold merging_here in H. rewrite Hm, Hmb in H. simpl in H.
  apply bind_ok in H as ([] & s1 & (d1 & Hrm & ->)%on_disk_ok & H).
  apply bind_ok in H as ([] & s2 & Hset & (d2 & Hmk & ->)%on_disk_ok).
  injection Hset as <-. simpl in *. split; [done|].
  intros q Hq Hne. unfold fs_rmtree in Hrm.
  destruct (stat (disk s) mb) as [[]|]; [done| |done]. injection Hrm as <-.
  assert (filter (λ kv, ¬ mb `prefix_of` kv.1) (disk s) !! q = disk s !! q)
    as Hkeep.
  { apply option_eq. intros n. rewrite map_lookup_filter_Some. simpl.
    split; [by intros [? _]|by intros ?]. }
  unfold fs_mkdir in Hmk.
  destruct (stat _ (e ++ ["merged"])) as [[]|]; [done|by injection Hmk as <-|].
  destruct (stat _ (parent _)) as [[]|]; [done| |done].
  injection Hmk as <-. by rewrite lookup_insert_ne.
Qed.

(** The defect behind C1 and C4 in general: in streaming mode with
    merging enabled, once the merge root exists, a root-level file with
    a dotted name is written into the staging root and is still there
    when [process_tar_member] returns, commit or no commit; so is
    everything else outside the merge root. *)
Lemma root_file_outlives_commit cfg m seg e s s' :
  merge_duplicates cfg = true → dry_run cfg = false →
  isfile m = true →
  path_parts (name m) = [seg] → contains_char "." seg = true →
  merge_base_dir s = Some (e ++ ["merged"]) →
  dir_chain (disk s) e → stat (disk s) (e ++ [seg]) ≠ Some Dir →
  process_tar_member cfg m e None s = (Ok tt, s') →
  merge_base_dir s' = Some (e ++ ["merged"]) ∧
  ∀ q, ¬ (e ++ ["merged"]) `prefix_of` q →
       disk s' !! q = <[e ++ [seg] := File (content m)]> (disk s) !! q.
Proof.
  intros Hm Hdry Hfile Hparts Hdot Hmb Hchain Hfree.
  unfold process_tar_member. rewrite Hfile.
  rewrite run_bind, (place_member_at_root _ _ seg) by done.
  unfold count_and_commit. run_M. cbn [files_in_batch set_files_in_batch
    set_total_files set_disk].
  destruct (batch_size cfg <=? files_in_batch s + 1).
  - rewrite Hdry. cbn [negb].
    match goal with
    | |- context [append_to_squashfs cfg ?r ?s0] =>
        destruct (append_to_squashfs cfg r s0) as [[[]|err] s1] eqn:Happ
    end; [|discriminate].
    apply append_real_ok in Happ as ->; [|done].
    match goal with
    | |- context [reset_staging cfg e ?s0] =>
        destruct (reset_staging cfg e s0) as [[[]|err] s2] eqn:Hreset
    end; [|discriminate].
    eapply reset_merged in Hreset as [Hmb2 Hdisk]; [|done|exact Hmb].
    intros [= <-]. split; [done|]. intros q Hq.
    rewrite Hdisk; [done|done|]. intros ->. by apply Hq.
  - intros [= <-]. by split.
Qed.

(** C1, at failing inputs.  Merging enabled, batch size [B]; one entry
    under [foo/] followed by [k] root-level files with dotted names.
    All commits named by the batch size have been issued
    ([files_in_batch] is back to 0), yet the staging directory still
    holds all [k] root-level files: 4 or 12 of them for [B = 1], 11 for
    [B = 3]. *)
Theorem staging_grows_with_root_files :
  let run B k :=
    streaming_in_staging (plain_config B false true)
      (regular "foo/a" "a" :: dotted_members k) (init_state bare_disk) in
  let staging := ["tmp"; "extract_0"] in
  ((run 1 4%nat).1 = Ok (staging, 5) ∧
   files_in_batch (run 1 4%nat).2 = 0 ∧
   count_files_under staging (disk (run 1 4%nat).2) = 4 ∧
   count_entries_under staging (disk (run 1 4%nat).2) = 5) ∧
  ((run 1 12%nat).1 = Ok (staging, 13) ∧
   files_in_batch (run 1 12%nat).2 = 0 ∧
   count_files_under staging (disk (run 1 12%nat).2) = 12 ∧
   count_entries_under staging (disk (run 1 12%nat).2) = 13) ∧
  ((run 3 11%nat).1 = Ok (staging, 12) ∧
   files_in_batch (run 3 11%nat).2 = 0 ∧
   count_files_under staging (disk (run 3 11%nat).2) = 11 ∧
   count_entries_under staging (disk (run 3 11%nat).2) = 12).
Proof. by vm_compute. Qed.

(** C4, at a failing input.  Merging enabled, batch size 2, an archive
    with [manifest.json] and then [foo/a].  The second entry fills the
    batch; the commit is issued on the merge root and only the merge
    root is reset.  Right after that commit the staging directory still
    contains one regular file, [manifest.json], which was not part of
    the committed content root either. *)
Theorem root_file_survives_commit :
  let r := streaming_in_staging (plain_config 2 false true)
             [regular "manifest.json" "{}"; regular "foo/a" "a"]
             (init_state bare_disk) in
  let staging := ["tmp"; "extract_0"] in
  r.1 = Ok (staging, 2) ∧
  files_in_batch r.2 = 0 ∧
  commit_roots r.2 = [staging ++ ["merged"]] ∧
  commit_listings r.2 = [[(["foo"; "a"], "a")]] ∧
  count_files_under staging (disk r.2) = 1 ∧
  listing staging (disk r.2) = [(["manifest.json"], "{}")].
Proof. by vm_compute. Qed.

(** C6, at a failing input.  Two archives, A with [foo/x.txt] and B
    with [foo/y.txt], merging enabled, [mkdtemp] staging.  Streaming
    mode commits B from the merge root inside B's own staging directory
    and leaves the disk as it found it.  Memory-efficient mode never
    resets the merge-root reference: B's file is placed in, and
    committed from, the merge root of A's staging directory, which had
    already been released, and it is still on the disk when the run is
    over. *)
Theorem memory_efficient_keeps_stale_merge_root :
  let run mode :=
    build_from_archives (plain_config 1000 false true)
      [archive_A "1"; archive_B "2"] mode (init_state bare_disk) in
  ((run false).1 = Ok tt ∧
   commit_roots (run false).2 =
     [["tmp"; "extract_1"; "merged"]; ["tmp"; "extract_2"; "merged"]] ∧
   count_entries_under ["tmp"] (disk (run false).2) = 0) ∧
  ((run true).1 = Ok tt ∧
   commit_roots (run true).2 =
     [["tmp"; "batch_1"; "merged"]; ["tmp"; "batch_1"; "merged"]] ∧
   merge_base_dir (run true).2 = Some ["tmp"; "batch_1"; "merged"] ∧
   listing ["tmp"] (disk (run true).2) =
     [(["batch_1"; "merged"; "foo"; "y.txt"], "2")] ∧
   count_entries_under ["tmp"] (disk (run true).2) = 4).
Proof. by vm_compute. Qed.

(** C9, at a failing input.  Merging enabled, streaming mode, an archive
    whose only entry is the regular file [README].  The entry gets
    [README] as its top-level directory and the name goes into the seen
    set, but [setup_merge_directory] has made a directory
    [merged/README] before the file is moved, so the file lands at
    [merged/README/README] and a spurious overwrite is logged.
    Memory-efficient mode, which does not call
    [setup_merge_directory], puts the file at [merged/README]. *)
Theorem undotted_root_file_is_nested :
  let run mode :=
    build_from_archives (plain_config 1000 false true)
      [shard "A" [regular "README" "hello"]] mode (init_state bare_disk) in
  get_top_level_dir "README" = Some "README" ∧
  ((run false).1 = Ok tt ∧
   elements (seen_top_dirs (run false).2) = ["README"] ∧
   commit_listings (run false).2 = [[(["README"; "README"], "hello")]] ∧
   overwrites_of (journal (run false).2) = ["README"]) ∧
  ((run true).1 = Ok tt ∧
   commit_listings (run true).2 = [[(["README"], "hello")]] ∧
   overwrites_of (journal (run true).2) = []).
Proof. by vm_compute. Qed.

(** * Time limits of the tool *)

(** A commit that runs for more than 300 seconds is reported as an
    error after that single run of the tool. *)
Lemma append_times_out cfg src s :
  dry_run cfg = false →
  100 * (1024 * 1024) ≤ free_bytes cfg (tool_calls s) →
  300 < duration (tool cfg (tool_calls s)) →
  append_to_squashfs cfg src s =
    (Raise (RuntimeError TimedOut),
     set_tool_calls (S (tool_calls s))
       (set_journal
          (Run (MksquashfsAppend src (output_file cfg) (comp_option cfg))
               (Some 300) (disk s) :: journal s) s)).
Proof.
  intros Hdry Hfree Hslow.
  unfold append_to_squashfs, check_disk_space, subprocess_run.
  rewrite Hdry. run_M.
  destruct (Z.ltb_spec (free_bytes cfg (tool_calls s)) (100 * (1024 * 1024)));
    [lia|].
  cbn [tool_calls set_tool_calls set_journal].
  destruct (Z.ltb_spec 300 (duration (tool cfg (tool_calls s)))); [done|lia].
Qed.

(** C10, at a failing input.  The tool takes [t] seconds, however many,
    and exits with status 0.  Image initialization runs it without a
    time limit and returns normally; the commit call on the same
    environment runs it with a limit of 300 seconds and, when [t]
    exceeds it, raises the time-out error after that one run. *)
Theorem initialization_has_no_time_limit t :
  let init := initialize_squashfs (slow_config t) (init_state bare_disk) in
  let commit := append_to_squashfs (slow_config t) ["tmp"]
                  (init_state bare_disk) in
  init.1 = Ok tt ∧
  time_limits_of (journal init.2) =
    [(MksquashfsCreate ["tmp"; "squashfs_0"; "empty"] ["out.sqfs"] (Some "xz"),
      None)] ∧
  (300 < t →
   commit.1 = Raise (RuntimeError TimedOut) ∧
   time_limits_of (journal commit.2) =
     [(MksquashfsAppend ["tmp"] ["out.sqfs"] (Some "xz"), Some 300)]).
Proof.
  intros init commit. split_and!; [by vm_compute..|].
  intros Ht. unfold commit.
  rewrite append_times_out; [by vm_compute|done|by vm_compute|done].
Qed.

(** * The ledger of whole runs, in both modes *)

Lemma memory_efficient_count_and_commit_ledger cfg e s s' :
  memory_efficient_count_and_commit cfg e s = (Ok tt, s') →
  if batch_size cfg <=? files_in_batch s + 1
  then ledger_step cfg [files_in_batch s + 1] 0 1 s s'
  else ledger_step cfg [] (files_in_batch s + 1) 1 s s'.
Proof.
  unfold memory_efficient_count_and_commit. run_M. simpl.
  destruct (batch_size cfg <=? files_in_batch s + 1) eqn:Hb.
  - destruct (dry_run cfg) eqn:Hdry; simpl.
    + rewrite append_dry by done. intros [= <-].
      split; simpl; try done. congruence.
    + match goal with
      | |- context [append_to_squashfs cfg ?r ?s0] =>
          destruct (append_to_squashfs cfg r s0) as [[[]|err] s1] eqn:Happ
      end; [|discriminate].
      apply append_real_ok in Happ as ->; [|done].
      match goal with
      | |- context [reset_staging cfg e ?s0] =>
          pose proof (quiet_reset_staging cfg e s0) as Hq;
          destruct (reset_staging cfg e s0) as [[[]|err] s2]
      end; [|discriminate].
      intros [= <-]. simpl in Hq. destruct Hq. simpl in *.
      split; simpl; try congruence.
      intros _. rewrite quiet_appends0. done.
  - intros [= <-]. split; simpl; done.
Qed.

Lemma memory_efficient_member_ledger cfg m e s s' :
  isfile m = true →
  memory_efficient_member cfg m e s = (Ok tt, s') →
  if batch_size cfg <=? files_in_batch s + 1
  then ledger_step cfg [files_in_batch s + 1] 0 1 s s'
  else ledger_step cfg [] (files_in_batch s + 1) 1 s s'.
Proof.
  intros Hf. unfold memory_efficient_member. rewrite Hf.
  intros (? & s1 & Hplace & Hcount)%bind_ok.
  pose proof (quiet_memory_efficient_place cfg m e s) as Hq.
  rewrite Hplace in Hq. simpl in Hq.
  apply memory_efficient_count_and_commit_ledger in Hcount.
  rewrite (quiet_batch _ _ Hq) in Hcount.
  destruct (batch_size cfg <=? files_in_batch s + 1);
    by eapply ledger_step_quiet_l.
Qed.

Lemma memory_efficient_loop_ledger cfg ms e s s' :
  for_each ms (λ m, memory_efficient_member cfg m e) s = (Ok tt, s') →
  ledger_step cfg (batch_plan (batch_size cfg) ms (files_in_batch s)).1
    (batch_plan (batch_size cfg) ms (files_in_batch s)).2
    (file_count ms) s s'.
Proof.
  revert s. induction ms as [|m r IH]; intros s; simpl.
  - intros [= <-]. apply ledger_step_nil.
  - rewrite file_count_cons. destruct (isfile m) eqn:Hf.
    + intros ([] & s1 & Hmember & Hrest)%bind_ok.
      apply memory_efficient_member_ledger in Hmember; [|done].
      apply IH in Hrest.
      destruct (batch_size cfg <=? files_in_batch s + 1).
      * rewrite (step_batch _ _ _ _ _ _ Hmember) in Hrest.
        destruct (batch_plan (batch_size cfg) r 0) as [l f]. simpl in *.
        by apply (ledger_step_trans _ [_] _ _ l f _ _ _ _ Hmember).
      * rewrite (step_batch _ _ _ _ _ _ Hmember) in Hrest.
        by apply (ledger_step_trans _ [] _ _ _ _ _ _ _ _ Hmember).
    + intros ([] & s1 & Hmember & Hrest)%bind_ok.
      unfold memory_efficient_member in Hmember. rewrite Hf in Hmember.
      injection Hmember as <-. by apply IH.
Qed.

Lemma process_archive_memory_efficient_ledger cfg a s s' :
  process_archive_memory_efficient cfg a s = (Ok tt, s') →
  ∃ f, ledger_step cfg (archive_plan (batch_size cfg) (members a)) f
         (file_count (members a)) s s'.
Proof.
  unfold process_archive_memory_efficient.
  intros ([] & s1 & Hlog & H)%bind_ok. injection Hlog as <-.
  apply temp_directory_ok in H as (t & s2 & s3 & Hq1 & H & Hq2 & _).
  apply bind_ok in H as ([] & s4 & Hfib & H). injection Hfib as <-.
  apply bind_ok in H as ([] & s6 & Hnote & H).
  assert (quiet (set_files_in_batch 0 s2) s6) as Hq4.
  { destruct (merge_duplicates cfg).
    - pose proof (quiet_note_top_dirs a (set_files_in_batch 0 s2)) as Hk.
      simpl in Hnote. rewrite Hnote in Hk. exact Hk.
    - injection Hnote as <-. reflexivity. }
  apply bind_ok in H as ([] & s7 & Hloop & H).
  apply memory_efficient_loop_ledger in Hloop.
  apply bind_ok in H as (s9 & ? & Hget & H). injection Hget as <- <-.
  rewrite (quiet_batch _ _ Hq4) in Hloop. simpl in Hloop.
  unfold archive_plan.
  destruct (batch_plan (batch_size cfg) (members a) 0) as [l f].
  simpl in Hloop.
  assert (ledger_step cfg l f (file_count (members a)) s s7) as Hmain.
  { eapply ledger_step_quiet_l.
    { trans (set_journal
        (Log INFO (ProcessingArchiveMemoryEfficient (archive_name a))
           :: journal s) s); [by split|exact Hq1]. }
    apply ledger_step_reset.
    eapply ledger_step_quiet_l; [exact Hq4|]. exact Hloop. }
  rewrite (step_batch _ _ _ _ _ _ Hloop) in H.
  exists f. eapply ledger_step_quiet_r; [|exact Hq2].
  destruct (0 <? f).
  - apply final_commit_ledger in H; [|exact (step_batch _ _ _ _ _ _ Hloop)].
    replace (file_count (members a)) with (file_count (members a) + 0) by lia.
    by eapply ledger_step_trans.
  - injection H as <-. by rewrite app_nil_r.
Qed.

(** All the archives of a run: the announcements are those of the run
    plan, in either mode, dry or real. *)
Lemma archives_loop_ledger cfg l mode i total s s' :
  archives_loop cfg l mode i total s = (Ok tt, s') →
  ∃ f, ledger_step cfg (run_plan (batch_size cfg) l) f (run_file_count l) s s'.
Proof.
  revert i s. induction l as [|a r IH]; intros i s; simpl.
  - intros [= <-]. eexists. apply ledger_step_nil.
  - intros ([] & s1 & Hlog & H)%bind_ok. injection Hlog as <-.
    apply bind_ok in H as ([] & s2 & Harch & Hrest).
    assert (∃ f, ledger_step cfg (archive_plan (batch_size cfg) (members a)) f
                   (file_count (members a)) s s2) as [f1 H1].
    { destruct mode.
      - apply process_archive_memory_efficient_ledger in Harch as [f Hl].
        exists f. eapply ledger_step_quiet_l; [|exact Hl]. by split.
      - apply process_archive_streaming_ledger in Harch as [f Hl].
        exists f. eapply ledger_step_quiet_l; [|exact Hl]. by split. }
    apply IH in Hrest as [f2 H2].
    exists f2. unfold run_plan, run_file_count. simpl.
    by eapply ledger_step_trans.
Qed.

#[global] Instance calm_preorder : PreOrder calm.
Proof.
  split.
  - intros s. by split.
  - intros s1 s2 s3 [] []. split; congruence.
Qed.

Lemma quiet_calm s s' : quiet s s' → calm s s'.
Proof. intros []. by split. Qed.

Lemma Keeps_quiet_calm {A} (m : M A) : Keeps quiet m → Keeps calm m.
Proof. intros H s. apply quiet_calm, H. Qed.

Lemma ledger_step_calm_l cfg l f n s s1 s' :
  calm s s1 → ledger_step cfg l f n s1 s' → ledger_step cfg l f n s s'.
Proof.
  intros [] []. split; try congruence.
  intros Hdry. rewrite step_appends0 by done. congruence.
Qed.

Lemma ledger_step_calm_r cfg l f n s s1 s' :
  ledger_step cfg l f n s s1 → calm s1 s' →
  ledger_step cfg l (files_in_batch s') n s s'.
Proof.
  intros [] []. split; try congruence.
  intros Hdry. rewrite <- step_appends0 by done. congruence.
Qed.

Lemma calm_check_tools cfg : Keeps calm (check_tools cfg).
Proof.
  intros s. unfold check_tools, subprocess_run_checked, subprocess_run.
  run_M. simpl. repeat case_match; simplify_eq/=; by split.
Qed.

Lemma calm_initialize_squashfs cfg : Keeps calm (initialize_squashfs cfg).
Proof.
  unfold initialize_squashfs. destruct (dry_run cfg).
  - intros s. by split.
  - unfold temp_directory.
    assert (∀ e : path, Keeps calm
              (subprocess_run_checked cfg
                 (MksquashfsCreate e (output_file cfg) (comp_option cfg))))
      as Hrun.
    { intros e s. unfold subprocess_run_checked, subprocess_run.
      run_M. simpl. repeat case_match; simplify_eq/=; by split. }
    assert (∀ lvl r, plain_record r = true → Keeps calm (log lvl r)) as Hlog
      by (intros; by apply Keeps_quiet_calm, quiet_log).
    assert (∀ f, Keeps calm (on_disk f)) as Hdisk
      by (intros; apply Keeps_quiet_calm, quiet_on_disk).
    destruct (temp_dir cfg) as [t|].
    + repeat first
        [ apply Hdisk | apply Hrun | by apply Hlog
        | apply Keeps_get; apply _
        | apply Keeps_when; [apply _|]
        | apply Keeps_try_finally; [apply _| |]
        | apply Keeps_bind; [apply _| |intros ?] ].
    + repeat first
        [ apply Hdisk | apply Hrun | by apply Hlog
        | apply Keeps_quiet_calm, quiet_mkdtemp
        | apply Keeps_try_finally; [apply _| |]
        | apply Keeps_bind; [apply _| |intros ?] ].
Qed.

(** A whole run: the announcements are those of the run plan and the
    total is the number of regular files, in either mode, dry or
    real. *)
Lemma build_from_archives_ledger cfg l mode s s' :
  build_from_archives cfg l mode s = (Ok tt, s') →
  total_files s' = total_files s + run_file_count l ∧
  announced_of (journal s') =
    rev (run_plan (batch_size cfg) l) ++ announced_of (journal s).
Proof.
  unfold build_from_archives.
  intros ([] & s1 & Hcheck & H)%bind_ok.
  apply bind_ok in H as ([] & s2 & Hinit & H).
  apply bind_ok in H as ([] & s3 & Hloop & H).
  apply bind_ok in H as (s4 & ? & Hget & H). injection Hget as <- <-.
  apply bind_ok in H as ([] & s5 & Hlog & H). injection Hlog as <-.
  assert (calm s s2) as Hc.
  { trans s1.
    - destruct (dry_run cfg); simpl in Hcheck.
      + injection Hcheck as <-. reflexivity.
      + pose proof (calm_check_tools cfg s) as Hk.
        rewrite Hcheck in Hk. exact Hk.
    - pose proof (calm_initialize_squashfs cfg s1) as Hk.
      rewrite Hinit in Hk. exact Hk. }
  apply archives_loop_ledger in Hloop as [f Hl].
  pose proof (ledger_step_calm_l _ _ _ _ _ _ _ Hc Hl) as [].
  destruct (dry_run cfg); simpl in H; injection H as <-; simpl; by split.
Qed.

(** * What a dry run spares *)

#[global] Instance sparing_preorder : PreOrder sparing.
Proof.
  split.
  - intros s. by split.
  - intros s1 s2 s3 [H1 ? ?] [H2 ? ?]. split; [|congruence..].
    intros p c Hp. by apply H1, H2.
Qed.

Lemma sparing_log lvl r : Keeps sparing (log lvl r).
Proof. intros s. by split. Qed.

Lemma sparing_modify f :
  (∀ s, disk (f s) = disk s ∧ tool_calls (f s) = tool_calls s ∧
        journal (f s) = journal s) →
  Keeps sparing (modify f).
Proof.
  intros Hf. apply Keeps_modify. intros s.
  destruct (Hf s) as (Hd & ? & Hj). split; [|done|by rewrite Hj].
  intros p c. by rewrite Hd.
Qed.

Lemma sparing_on_disk f :
  (∀ d d', f d = Ok d' →
           ∀ p c, d' !! p = Some (File c) → d !! p = Some (File c)) →
  Keeps sparing (on_disk f).
Proof.
  intros Hf. apply Keeps_on_disk; [apply _|].
  intros s d Hd. split; [|done..]. by apply Hf.
Qed.

Lemma sparing_mkdir_parents t : Keeps sparing (on_disk (fs_mkdir_parents t)).
Proof.
  apply sparing_on_disk. intros d d' H%mkdirs_from_adds p c.
  by rewrite adds_dirs_file.
Qed.

Lemma sparing_rmtree b t : Keeps sparing (on_disk (fs_rmtree b t)).
Proof.
  apply sparing_on_disk. intros d d'. unfold fs_rmtree.
  destruct (stat d t) as [[]|], b; intros [= <-] p c; try done.
  - by intros [? _]%map_lookup_filter_Some.
  - by intros [? _]%map_lookup_filter_Some.
Qed.

Lemma sparing_mkdtemp cfg prefix : Keeps sparing (mkdtemp cfg prefix).
Proof.
  intros s. unfold mkdtemp.
  destruct (stat (disk s) _) as [[]|]; simpl; try reflexivity.
  destruct (exists_ (disk s) _) eqn:Hex; simpl; [reflexivity|].
  split; simpl; [|done..]. intros p c.
  destruct (decide (p = default ["tmp"] (temp_base cfg)
                         ++ [prefix +:+ pretty (temp_serial s)])) as [->|Hne].
  - by rewrite lookup_insert_eq.
  - by rewrite lookup_insert_ne.
Qed.

Create HintDb sparing.
#[global] Hint Resolve Keeps_ret Keeps_raise Keeps_get Keeps_when
  Keeps_try_finally Keeps_try_except Keeps_for_each
  sparing_log sparing_mkdir_parents sparing_rmtree sparing_mkdtemp
  sparing_preorder : sparing.
#[global] Hint Extern 1 (Keeps sparing (modify _)) =>
  (apply sparing_modify; intros ?; by repeat split) : sparing.
#[global] Hint Extern 2 (Keeps _ (_ ≫= _)) =>
  (apply Keeps_bind; [apply _| |intros ?]) : sparing.
#[global] Hint Extern 3 (Keeps _ (match ?x with _ => _ end)) =>
  destruct x : sparing.

Ltac sparing_steps := intros; eauto 30 with sparing.

Section DryRun.
Context (cfg : config) (Hdry : dry_run cfg = true).

Lemma sparing_temp_directory {A} prefix (body : path → M A) :
  (∀ t, Keeps sparing (body t)) → Keeps sparing (temp_directory cfg prefix body).
Proof. intros Hb. unfold temp_directory. sparing_steps. Qed.

Lemma sparing_append src : Keeps sparing (append_to_squashfs cfg src).
Proof. unfold append_to_squashfs. rewrite Hdry. sparing_steps. Qed.

Lemma sparing_place_member m e top : Keeps sparing (place_member cfg m e top).
Proof. unfold place_member. rewrite Hdry. sparing_steps. Qed.

Lemma sparing_setup_merge_directory e top :
  Keeps sparing (setup_merge_directory cfg e top).
Proof. unfold setup_merge_directory. rewrite Hdry. simpl. sparing_steps. Qed.

Lemma sparing_count_and_commit e : Keeps sparing (count_and_commit cfg e).
Proof. unfold count_and_commit. rewrite Hdry. simpl. sparing_steps. Qed.

Lemma sparing_streaming_loop ms e k : Keeps sparing (streaming_loop cfg ms e k).
Proof.
  revert k. induction ms as [|m r IH]; intros k; simpl; [sparing_steps|].
  pose proof sparing_setup_merge_directory.
  pose proof sparing_place_member. pose proof sparing_count_and_commit.
  unfold process_tar_member. sparing_steps.
Qed.

Lemma sparing_note_top_dirs a : Keeps sparing (note_top_dirs a).
Proof. unfold note_top_dirs. sparing_steps. Qed.

Lemma sparing_process_archive_streaming a :
  Keeps sparing (process_archive_streaming cfg a).
Proof.
  unfold process_archive_streaming.
  pose proof sparing_streaming_loop. pose proof sparing_append.
  pose proof sparing_note_top_dirs.
  apply Keeps_bind; [apply _|apply sparing_log|intros _].
  apply sparing_temp_directory. sparing_steps.
Qed.

Lemma sparing_memory_efficient_member m e :
  Keeps sparing (memory_efficient_member cfg m e).
Proof.
  unfold memory_efficient_member, memory_efficient_place,
    memory_efficient_count_and_commit.
  rewrite Hdry. simpl. pose proof sparing_append. sparing_steps.
Qed.

Lemma sparing_process_archive_memory_efficient a :
  Keeps sparing (process_archive_memory_efficient cfg a).
Proof.
  unfold process_archive_memory_efficient.
  pose proof sparing_memory_efficient_member. pose proof sparing_append.
  pose proof sparing_note_top_dirs.
  apply Keeps_bind; [apply _|apply sparing_log|intros _].
  apply sparing_temp_directory. sparing_steps.
Qed.

Lemma sparing_archives_loop l mode i total :
  Keeps sparing (archives_loop cfg l mode i total).
Proof.
  revert i. induction l as [|a r IH]; intros i; simpl; [sparing_steps|].
  pose proof sparing_process_archive_streaming.
  pose proof sparing_process_archive_memory_efficient.
  sparing_steps.
Qed.

Lemma sparing_build_from_archives l mode :
  Keeps sparing (build_from_archives cfg l mode).
Proof.
  unfold build_from_archives, initialize_squashfs. rewrite Hdry. simpl.
  pose proof sparing_archives_loop. sparing_steps.
Qed.
End DryRun.

(** * Dry runs *)

(** C7, the claim as stated fails.  Batch size 2, one archive with three
    files, streaming mode.  The real run commits a batch of 2 files and
    a final batch of 1; the dry run reports a single would-be commit, of
    0 files.  The dry run also works on the disk: it makes its staging
    directory, as the state inside the scope shows, and with a fixed
    temporary directory it removes that directory at the end together
    with a file that was in it before the run. *)
Lemma dry_run_report_differs :
  let dry := build_from_archives (plain_config 2 true true)
               [archive_of_three] false (init_state bare_disk) in
  let real := build_from_archives (plain_config 2 false true)
                [archive_of_three] false (init_state bare_disk) in
  let inside := streaming_in_staging (plain_config 2 true true)
                  (members archive_of_three) (init_state bare_disk) in
  let fixed := build_from_archives (with_dry_run true scratch_config)
                 [archive_of_three] false (init_state scratch_disk) in
  dry.1 = Ok tt ∧ real.1 = Ok tt ∧
  committed_files <$> appends real.2 = [2; 1] ∧
  would_append dry.2 = [0] ∧
  would_append dry.2 ≠ (committed_files <$> appends real.2) ∧
  disk inside.2 !! ["tmp"; "extract_0"] = Some Dir ∧
  bare_disk !! ["tmp"; "extract_0"] = None ∧
  fixed.1 = Ok tt ∧
  scratch_disk !! ["scratch"; "keep.txt"] = Some (File "mine") ∧
  disk fixed.2 !! ["scratch"; "keep.txt"] = None ∧
  disk fixed.2 !! ["scratch"] = None.
Proof. by vm_compute. Qed.


Lemma initialization_has_no_time_limit_witness :
  let init := initialize_squashfs (slow_config 301) (init_state bare_disk) in
  let commit := append_to_squashfs (slow_config 301) ["tmp"]
                  (init_state bare_disk) in
  init.1 = Ok tt ∧ commit.1 = Raise (RuntimeError TimedOut).
Proof.
  intros init commit.
  destruct (initialization_has_no_time_limit 301) as (Hinit & _ & Hcommit).
  split; [exact Hinit|]. apply Hcommit. lia.
Defined.

(** * The staging area when merging is on *)

Lemma fs_mkdir_ok b p d d' :
  fs_mkdir b p d = Ok d' → p ≠ [] →
  d' !! p = Some Dir ∧
  (d' = d ∨ (d !! p = None ∧ d' = <[p := Dir]> d)).
Proof.
  unfold fs_mkdir. intros H Hp. rewrite stat_nonempty in H by done.
  destruct (d !! p) as [[]|] eqn:Hd.
  - done.
  - destruct b; [|done]. injection H as <-. eauto.
  - destruct (stat d (parent p)) as [[]|]; [done| |done].
    injection H as <-. rewrite lookup_insert_eq. eauto.
Qed.

Lemma fs_mkdir_adds b p d d' : fs_mkdir b p d = Ok d' → adds_dirs d d'.
Proof.
  unfold fs_mkdir. destruct (stat d p) as [[]|] eqn:Hd.
  - done.
  - destruct b; [|done]. intros [= <-]. reflexivity.
  - destruct (stat d (parent p)) as [[]|]; [done| |done].
    intros [= <-]. apply adds_dirs_insert.
    destruct p; [done|]. exact Hd.
Qed.

Lemma temp_not_merged e p :
  e ++ ["temp_extract"] `prefix_of` (e ++ ["merged"]) ++ p → False.
Proof. apply temp_extract_outside_merged. Qed.

Lemma merged_not_temp e p :
  e ++ ["merged"] `prefix_of` (e ++ ["temp_extract"]) ++ p → False.
Proof. rewrite <- app_assoc. intros [k Hk]%prefix_app_inv. discriminate. Qed.

(** Directories added outside the temporary directory keep the
    invariant, provided the new ones below the merge root are accounted
    for. *)
Lemma merged_staged_adds e Pf Pd Pd' s d' :
  merged_staged e Pf Pd s →
  adds_dirs (disk s) d' →
  (∀ q, e ++ ["temp_extract"] `prefix_of` q → d' !! q = disk s !! q) →
  (∀ p, p ≠ [] → d' !! ((e ++ ["merged"]) ++ p) = Some Dir →
        ∃ q, q ∈ Pd' ∧ p `prefix_of` q ∧ p ≠ q) →
  merged_staged e Pf Pd' (set_disk d' s).
Proof.
  intros [] Hadds Htemp Hdirs. split; simpl; try done.
  - by eapply dir_chain_adds.
  - by eapply adds_dirs_dir.
  - by rewrite Htemp.
  - intros q Hq Hne. rewrite Htemp by done. by apply ms_temp_clear0.
  - intros p c. rewrite adds_dirs_file by done. apply ms_files0.
  - by rewrite (files_under_adds _ _ _ Hadds).
Qed.

Lemma fresh_then_merged e s d1 :
  fresh_staging e s →
  fs_mkdir true (e ++ ["merged"]) (disk s) = Ok d1 →
  merged_staged e [] []
    (set_disk d1 (set_merge_base_dir (Some (e ++ ["merged"])) s)).
Proof.
  intros [Hmb Hchain Hclear Hfib] Hmk.
  pose proof (fs_mkdir_adds _ _ _ _ Hmk) as Hadds.
  apply fs_mkdir_ok in Hmk as [Hroot Hd1]; [|by destruct e].
  assert (∀ q, e ++ ["merged"] ≠ q → e `prefix_of` q → e ≠ q →
               d1 !! q = None) as Hnone.
  { intros q Hne Hq Hneq. destruct Hd1 as [->|[_ ->]].
    - by apply Hclear.
    - rewrite lookup_insert_ne by done. by apply Hclear. }
  split; simpl; try done.
  - by eapply dir_chain_adds.
  - apply Hnone; [by intros [=]%app_inv_head|by apply prefix_app_r|].
    by apply not_eq_sym, app_ne_self.
  - intros q Hq Hne. apply Hnone.
    + intros <-. by apply (temp_not_merged e []); rewrite app_nil_r.
    + etrans; [|exact Hq]. by apply prefix_app_r.
    + intros ->. by apply prefix_snoc_not in Hq.
  - intros p c Hp. rewrite Hnone in Hp; [done| | |].
    + intros E. rewrite <- E, Hroot in Hp. done.
    + rewrite <- app_assoc. by apply prefix_app_r.
    + rewrite <- app_assoc. by apply not_eq_sym, app_ne_self.
  - intros p Hp Hd. rewrite Hnone in Hd; [done| | |].
    + by apply not_eq_sym, app_ne_self.
    + rewrite <- app_assoc. by apply prefix_app_r.
    + rewrite <- app_assoc. by apply not_eq_sym, app_ne_self.
  - rewrite Hfib.
    assert (files_under (e ++ ["merged"]) d1 = ∅) as ->;
      [|by rewrite map_size_empty].
    apply map_eq. intros q. rewrite lookup_empty.
    apply eq_None_not_Some. intros [n (Hq & [Hpre Hne] & _)%lookup_files_under].
    rewrite Hnone in Hq; [done|done| |].
    + etrans; [|exact Hpre]. by apply prefix_app_r.
    + intros ->. by apply prefix_snoc_not in Hpre.
Qed.

Lemma merged_staged_top_dir e P t r s d2 :
  r ≠ [] →
  merged_staged e P P s →
  fs_mkdir true ((e ++ ["merged"]) ++ [t]) (disk s) = Ok d2 →
  merged_staged e P ((t :: r) :: P) (set_disk d2 s).
Proof.
  intros Hr Hst Hmk.
  pose proof (fs_mkdir_adds _ _ _ _ Hmk) as Hadds.
  apply fs_mkdir_ok in Hmk as [Htop Hd2]; [|by destruct e].
  eapply merged_staged_adds; [exact Hst|done| |].
  - intros q Hq. destruct Hd2 as [->|[_ ->]]; [done|].
    apply lookup_insert_ne. intros <-. by apply temp_not_merged in Hq.
  - intros p Hp Hd.
    destruct (decide (p = [t])) as [->|Hne].
    + exists (t :: r). split; [by left|]. split.
      * by apply (prefix_app_r [t] [t] r).
      * intros [= E]. by apply Hr.
    + destruct Hd2 as [->|[_ ->]].
      * destruct (ms_dirs _ _ _ _ Hst p Hp Hd) as (q & Hq & Hpq).
        exists q. split; [by right|done].
      * rewrite lookup_insert_ne in Hd by (by intros ?%app_inv_head).
        destruct (ms_dirs _ _ _ _ Hst p Hp Hd) as (q & Hq & Hpq).
        exists q. split; [by right|done].
Qed.

(** [setup_merge_directory] on the way to placing an entry that lies in
    a directory. *)
Lemma setup_merged cfg e t r P s p s1 :
  merge_duplicates cfg = true → dry_run cfg = false →
  truthy t = true → r ≠ [] →
  (fresh_staging e s ∧ P = []) ∨ merged_staged e P P s →
  setup_merge_directory cfg e (Some t) s = (Ok p, s1) →
  merged_staged e P ((t :: r) :: P) s1.
Proof.
  intros Hm Hdry Ht Hr Hst. unfold setup_merge_directory.
  rewrite Hm, Hdry. simpl. rewrite Ht. simpl.
  intros (s_ & ? & Hget & H)%bind_ok. injection Hget as <- <-.
  apply bind_ok in H as ([] & s2 & Hroot & H).
  apply bind_ok in H as (s_ & ? & Hget & H). injection Hget as <- <-.
  apply bind_ok in H as ([] & s3 & (d2 & Hmk & ->)%on_disk_ok & Hret).
  injection Hret as _ <-.
  assert (merged_staged e P P s2) as Hst2.
  { destruct Hst as [[Hfresh ->]|Hst].
    - rewrite (fresh_mb _ _ Hfresh) in Hroot.
      apply bind_ok in Hroot as ([] & s4 & Hset & (d1 & Hmk1 & ->)%on_disk_ok).
      injection Hset as <-. by apply fresh_then_merged.
    - rewrite (ms_mb _ _ _ _ Hst) in Hroot. by injection Hroot as <-. }
  rewrite (ms_mb _ _ _ _ Hst2) in Hmk. simpl in Hmk.
  by apply merged_staged_top_dir.
Qed.

Lemma merged_staged_insert_file e Pf Pd ps c s :
  ps ≠ [] →
  merged_staged e Pf Pd s →
  disk s !! ((e ++ ["merged"]) ++ ps) = None →
  merged_staged e (ps :: Pf) Pd
    (set_files_in_batch (files_in_batch s + 1)
       (set_disk (<[(e ++ ["merged"]) ++ ps := File c]> (disk s)) s)).
Proof.
  intros Hps [] Hnone. set (mr := e ++ ["merged"]) in *.
  assert (mr ++ ps ≠ mr) as Hne by by apply app_ne_self.
  split; simpl; try done.
  - apply dir_chain_insert_below; [done|].
    unfold mr. rewrite <- app_assoc. by intros ?%prefix_app_self_nil.
  - by rewrite lookup_insert_ne.
  - rewrite lookup_insert_ne; [done|].
    intros E. apply (temp_not_merged e ps). unfold mr in E. by rewrite E.
  - intros q Hq Hneq. rewrite lookup_insert_ne; [by apply ms_temp_clear0|].
    intros <-. by apply temp_not_merged in Hq.
  - intros p c'. rewrite elem_of_cons.
    destruct (decide (p = ps)) as [->|Hp]; [by left|].
    rewrite lookup_insert_ne by (by intros ?%app_inv_head).
    intros ?%ms_files0. by right.
  - intros p Hp. destruct (decide (p = ps)) as [->|Hpps].
    + by rewrite lookup_insert_eq.
    + rewrite lookup_insert_ne by (by intros ?%app_inv_head).
      by apply ms_dirs0.
  - rewrite files_under_insert_file; [|by apply prefix_app_r|done].
    rewrite map_size_insert_None; [fold mr; lia|].
    apply eq_None_not_Some. intros [n (Hk & _)%lookup_files_under].
    congruence.
Qed.

Lemma parent_shorter p : p ≠ [] → ¬ p `prefix_of` parent p.
Proof.
  intros Hp. destruct p as [|x p _] using rev_ind; [done|].
  rewrite parent_snoc. apply prefix_snoc_not.
Qed.

(** Placing an entry that lies in a directory, apart from the entries
    placed before it. *)
Lemma place_merged_staged cfg m e t r P s s1 :
  merge_duplicates cfg = true → dry_run cfg = false →
  truthy t = true → path_parts (name m) = t :: r → r ≠ [] →
  Forall (apart (t :: r)) P →
  merged_staged e P ((t :: r) :: P) s →
  place_member cfg m e (Some t) s = (Ok tt, s1) →
  merged_staged e ((t :: r) :: P) ((t :: r) :: P)
    (set_files_in_batch (files_in_batch s + 1) s1).
Proof.
  intros Hm Hdry Ht Hparts Hr Hapart Hst.
  set (ps := t :: r) in *. set (mr := e ++ ["merged"]) in *.
  set (dst := mr ++ ps).
  assert (ps ≠ []) as Hps by done.
  assert (dst ≠ []) as Hdst0 by (unfold dst, mr; by destruct e).
  assert (parent dst = mr ++ parent ps) as Hpar by by apply parent_app.
  assert (∀ p, p ∈ P → ¬ p `prefix_of` ps ∧ ¬ ps `prefix_of` p) as Hap.
  { intros p Hp. rewrite Forall_forall in Hapart.
    destruct (Hapart p Hp). by split. }
  assert (disk s !! dst = None) as Hfree.
  { destruct (disk s !! dst) as [[c|]|] eqn:Hd; [| |done].
    - apply (ms_files _ _ _ _ Hst) in Hd. by destruct (Hap _ Hd) as [[] _].
    - destruct (ms_dirs _ _ _ _ Hst ps Hps Hd) as (q & [->|Hq]%elem_of_cons
                                                      & Hpre & Hne); [done|].
      by destruct (Hap _ Hq) as [_ []]. }
  destruct (mkdirs_from_succeeds [] (parent dst) (disk s)) as [dm Hdm].
  { simpl. rewrite Hpar. intros q c Hq Hlen Hfile.
    destruct (prefix_weak_total q mr (mr ++ parent ps)) as [Hlt|Hgt];
      [done|by apply prefix_app_r| |].
    - apply prefix_snoc_cases in Hlt as [->|Hlt].
      + rewrite (ms_root _ _ _ _ Hst) in Hfile. done.
      + rewrite (dir_chain_lookup _ e q (ms_chain _ _ _ _ Hst)) in Hfile;
          [done|done|]. intros ->. simpl in Hlen. lia.
    - destruct Hgt as [q' ->]. apply prefix_app_inv in Hq.
      apply (ms_files _ _ _ _ Hst) in Hfile.
      destruct (Hap _ Hfile) as [[] _]. etrans; [exact Hq|apply parent_prefix]. }
  assert (dm !! dst = None) as Hdmdst.
  { rewrite (mkdirs_from_only _ _ _ _ _ Hdm); [done|].
    simpl. by apply parent_shorter. }
  assert (place_member cfg m e (Some t) s =
          (Ok tt, set_disk (<[dst := File (content m)]> dm) s)) as Heq.
  { rewrite (place_member_merged cfg m e (Some t) s mr dm);
      rewrite ?Hparts; fold ps dst; try done.
    - by assert (exists_ (disk s) dst = false) as ->
        by (unfold exists_; by rewrite stat_nonempty, Hfree).
    - apply (ms_mb _ _ _ _ Hst).
    - apply (ms_chain _ _ _ _ Hst).
    - apply (ms_temp _ _ _ _ Hst).
    - apply (ms_temp_clear _ _ _ _ Hst).
    - apply temp_extract_outside_merged.
    - by rewrite stat_nonempty, Hdmdst. }
  rewrite Heq. intros [= <-].
  pose proof (mkdirs_from_adds _ _ _ _ Hdm) as Hadds.
  assert (merged_staged e P (ps :: P) (set_disk dm s)) as Hst'.
  { eapply merged_staged_adds; [exact Hst|done| |].
    - intros q Hq. apply (mkdirs_from_only _ _ _ _ _ Hdm). simpl.
      rewrite Hpar. intros Hq'.
      apply (temp_not_merged e (parent ps)). by etrans.
    - intros p Hp Hd. fold mr in Hd.
      destruct (Hadds (mr ++ p)) as [E|[E _]].
      + rewrite E in Hd. by apply (ms_dirs _ _ _ _ Hst).
      + exists ps. split; [by left|].
        destruct (decide (mr ++ p `prefix_of` parent dst)) as [Hin|Hout].
        * rewrite Hpar in Hin. apply prefix_app_inv in Hin. split.
          -- etrans; [exact Hin|apply parent_prefix].
          -- intros ->. by apply (parent_shorter ps).
        * rewrite (mkdirs_from_only _ _ _ _ _ Hdm) in Hd by done.
          congruence. }
  by apply (merged_staged_insert_file e P (ps :: P) ps (content m)
              (set_disk dm s)).
Qed.

(** An entry that lies in a directory has that directory as its
    top-level directory. *)
Lemma get_top_level_dir_nested n t r :
  path_parts n = t :: r → r ≠ [] →
  get_top_level_dir n = Some t ∧ truthy t = true.
Proof.
  intros Hp Hr. split.
  - unfold get_top_level_dir.
    destruct n as [|a n]; [done|].
    destruct (String.eqb_spec (String a n) ".") as [E|_].
    + by rewrite E in Hp.
    + change (truthy (String a n)) with true. cbn [negb orb].
      rewrite Hp. by destruct r.
  - assert (In t (path_parts n)) as Hin by (rewrite Hp; by left).
    apply List.filter_In in Hin as [_ Hseg]. unfold real_segment in Hseg.
    by apply andb_true_iff in Hseg as [? _].
Qed.

Lemma merged_staged_same e Pf Pd s s' :
  merge_base_dir s' = merge_base_dir s → disk s' = disk s →
  files_in_batch s' = files_in_batch s →
  merged_staged e Pf Pd s → merged_staged e Pf Pd s'.
Proof. intros Hmb Hd Hf []. split; rewrite ?Hmb, ?Hd, ?Hf; done. Qed.

Lemma merged_staged_empty e P s :
  merged_staged e [] [] s → merged_staged e P P s.
Proof.
  intros []. split; try done.
  - intros p c Hp. by apply ms_files0, elem_of_nil in Hp.
  - intros p Hp Hd. by destruct (ms_dirs0 p Hp Hd) as (q & ?%elem_of_nil & _).
Qed.

(** The reset after a commit leaves an empty merge root. *)
Lemma reset_merged_staged cfg e Pf Pd s s' :
  merge_duplicates cfg = true →
  merged_staged e Pf Pd s →
  reset_staging cfg e s = (Ok tt, s') →
  merged_staged e [] [] (set_files_in_batch 0 s').
Proof.
  intros Hm Hst. unfold reset_staging.
  intros (s0 & ? & Hget & H)%bind_ok. injection Hget as <- <-.
  unfold merging_here in H. rewrite Hm, (ms_mb _ _ _ _ Hst) in H. simpl in H.
  apply bind_ok in H as ([] & s1 & (d1 & Hrm & ->)%on_disk_ok & H).
  apply bind_ok in H as ([] & s2 & Hset & (d2 & Hmk & ->)%on_disk_ok).
  injection Hset as <-. simpl in *.
  unfold fs_rmtree in Hrm. rewrite stat_snoc, (ms_root _ _ _ _ Hst) in Hrm.
  injection Hrm as <-.
  set (mr := e ++ ["merged"]) in *.
  apply fs_mkdir_ok in Hmk as [Hroot Hd2]; [|by destruct e].
  assert (∀ q, mr `prefix_of` q → q ≠ mr → d2 !! q = None) as Hin.
  { intros q Hq Hne.
    assert (filter (λ kv, ¬ mr `prefix_of` kv.1) (disk s) !! q = None) as Hnone.
    { apply eq_None_not_Some. intros [n [_ Hn]%map_lookup_filter_Some].
      by apply Hn. }
    destruct Hd2 as [->|[_ ->]]; [done|]. by rewrite lookup_insert_ne. }
  assert (∀ q, ¬ mr `prefix_of` q → d2 !! q = disk s !! q) as Hout.
  { intros q Hq.
    assert (filter (λ kv, ¬ mr `prefix_of` kv.1) (disk s) !! q = disk s !! q)
      as Hkeep.
    { apply option_eq. intros n. rewrite map_lookup_filter_Some. simpl.
      split; [by intros [? _]|by intros ?]. }
    destruct Hd2 as [->|[_ ->]]; [done|].
    rewrite lookup_insert_ne; [done|]. by intros <-. }
  split; simpl; fold mr; try done.
  - intros q Hq. pose proof (ms_chain _ _ _ _ Hst q Hq) as Hc.
    destruct q as [|x q]; [done|]. simpl in *. rewrite Hout; [done|].
    intros Hmr. apply (prefix_snoc_not e "merged"). by etrans.
  - rewrite Hout; [apply (ms_temp _ _ _ _ Hst)|].
    intros Hmr. apply (merged_not_temp e []). by rewrite app_nil_r.
  - intros q Hq Hne. rewrite Hout; [by apply (ms_temp_clear _ _ _ _ Hst)|].
    intros Hmr. destruct Hq as [k ->]. by apply merged_not_temp in Hmr.
  - intros p c Hp. destruct (decide (p = [])) as [->|Hne].
    + rewrite app_nil_r in Hp. fold mr in Hp. congruence.
    + rewrite Hin in Hp; [done|by apply prefix_app_r|by apply app_ne_self].
  - intros p Hp Hd.
    rewrite Hin in Hd; [done|by apply prefix_app_r|by apply app_ne_self].
  - assert (files_under mr d2 = ∅) as ->; [|by rewrite map_size_empty].
    apply map_eq. intros q. rewrite lookup_empty.
    apply eq_None_not_Some. intros [n (Hq & [Hpre Hne] & _)%lookup_files_under].
    rewrite Hin in Hq; done.
Qed.

(** Counting an entry in merge mode: a commit at the batch boundary
    reads the merge root, which holds the files of the batch. *)
Lemma count_and_commit_merged cfg e P s s' :
  merge_duplicates cfg = true → dry_run cfg = false →
  merged_staged e P P (set_files_in_batch (files_in_batch s + 1) s) →
  count_and_commit cfg e s = (Ok tt, s') →
  merged_staged e P P s' ∧
  committed_of (journal s') =
    (if batch_size cfg <=? files_in_batch s + 1
     then [files_in_batch s + 1] else []) ++ committed_of (journal s).
Proof.
  intros Hm Hdry Hst.
  pose proof (ms_mb _ _ _ _ Hst) as Hmb.
  pose proof (ms_count _ _ _ _ Hst) as Hcount. simpl in Hmb, Hcount.
  unfold count_and_commit. run_M. simpl.
  destruct (batch_size cfg <=? files_in_batch s + 1) eqn:Hb.
  - rewrite Hdry. simpl. unfold content_root. rewrite Hm. simpl.
    rewrite Hmb. simpl.
    match goal with
    | |- context [append_to_squashfs cfg ?r ?s0] =>
        destruct (append_to_squashfs cfg r s0) as [[[]|err] s1] eqn:Happ
    end; [|discriminate].
    apply append_real_ok in Happ as ->; [|done].
    match goal with
    | |- context [reset_staging cfg e ?s0] =>
        pose proof (quiet_reset_staging cfg e s0) as Hq;
        destruct (reset_staging cfg e s0) as [[[]|err] s2] eqn:Hreset
    end; [|discriminate].
    apply (reset_merged_staged cfg e P P) in Hreset; [|done|].
    2:{ by apply (merged_staged_same e P P
                 (set_files_in_batch (files_in_batch s + 1) s)). }
    intros [= <-]. split.
    + by apply merged_staged_empty.
    + unfold committed_of. simpl. simpl in Hq.
      rewrite (quiet_appends _ _ Hq). simpl.
      unfold committed_files at 1. simpl. by rewrite Hcount.
  - intros [= <-]. split; [|done].
    by apply (merged_staged_same e P P
                 (set_files_in_batch (files_in_batch s + 1) s)).
Qed.

Lemma apart_sym p q : apart p q → apart q p.
Proof. by intros []. Qed.

(** With merging on, entries that lie in directories and whose paths
    are pairwise apart: every commit of the streaming loop holds
    exactly the files of its announced batch. *)
Lemma streaming_loop_merged cfg ms e k s k' s' P :
  merge_duplicates cfg = true → dry_run cfg = false →
  Forall (λ p, (2 ≤ length p)%nat) (file_paths ms) →
  prefix_free (file_paths ms) →
  Forall (λ p, Forall (apart p) P) (file_paths ms) →
  (fresh_staging e s ∧ P = []) ∨ merged_staged e P P s →
  streaming_loop cfg ms e k s = (Ok k', s') →
  (fresh_staging e s' ∨ ∃ P', merged_staged e P' P' s') ∧
  committed_of (journal s') =
    rev (batch_plan (batch_size cfg) ms (files_in_batch s)).1
      ++ committed_of (journal s).
Proof.
  intros Hm Hdry. revert k s P.
  induction ms as [|m r IH]; intros k s P Hlen Hfree Hap Hst; simpl.
  - intros [= <- <-]. split; [|done].
    destruct Hst as [[? _]|?]; eauto.
  - rewrite file_paths_cons in Hlen, Hfree, Hap. rewrite Hm.
    destruct (isfile m) eqn:Hf; [|by eapply IH].
    apply Forall_cons in Hlen as [Hlen1 Hlen].
    apply Forall_cons in Hap as [Hap1 Hap].
    destruct Hfree as [Hfree1 Hfree].
    destruct (path_parts (name m)) as [|t [|x q]] eqn:Hparts;
      [simpl in Hlen1; lia..|].
    destruct (get_top_level_dir_nested (name m) t (x :: q) Hparts)
      as [Htop Ht]; [done|].
    rewrite Htop. simpl. rewrite Ht.
    intros ([] & s1 & Hsetup & ([] & s2 & Hmember & Hrest)%bind_ok)%bind_ok.
    apply bind_ok in Hsetup as (p & s0 & Hsetup & Heq). injection Heq as <-.
    pose proof (quiet_setup_merge_directory cfg e (Some t) s) as Hq0.
    rewrite Hsetup in Hq0. simpl in Hq0.
    apply (setup_merged cfg e t (x :: q) P) in Hsetup; [|done..].
    unfold process_tar_member in Hmember. rewrite Hf in Hmember.
    apply bind_ok in Hmember as ([] & s1 & Hplace & Hcount).
    pose proof (quiet_place_member cfg m e (Some t) s0) as Hq1.
    rewrite Hplace in Hq1. simpl in Hq1.
    eapply place_merged_staged in Hplace; [|done..].
    rewrite <- (quiet_batch _ _ Hq1) in Hplace.
    pose proof (count_and_commit_ledger cfg e s1 s2 Hcount) as Hl.
    destruct (count_and_commit_merged cfg e _ s1 s2 Hm Hdry Hplace Hcount)
      as [Hst2 Hcom].
    assert (files_in_batch s1 = files_in_batch s) as Hfib
      by (by rewrite (quiet_batch _ _ Hq1), (quiet_batch _ _ Hq0)).
    rewrite Hfib in Hcom, Hl.
    assert (committed_of (journal s1) = committed_of (journal s)) as Hsame.
    { unfold committed_of.
      by rewrite (quiet_appends _ _ Hq1), (quiet_appends _ _ Hq0). }
    rewrite Hsame in Hcom.
    eapply IH in Hrest as [HP' Hrest]; [|done|done| |right; exact Hst2].
    2:{ apply Forall_forall. intros p' Hp. apply Forall_cons. split.
        - rewrite Forall_forall in Hfree1. by apply apart_sym, Hfree1.
        - rewrite Forall_forall in Hap. by apply Hap. }
    split; [done|]. rewrite Hrest, Hcom.
    destruct (batch_size cfg <=? files_in_batch s + 1).
    + rewrite (step_batch _ _ _ _ _ _ Hl).
      destruct (batch_plan (batch_size cfg) r 0) as [l f]. simpl.
      by rewrite <- app_assoc.
    + by rewrite (step_batch _ _ _ _ _ _ Hl).
Qed.

Lemma process_archive_streaming_merged cfg a s s' :
  merge_duplicates cfg = true → dry_run cfg = false →
  Forall (λ p, (2 ≤ length p)%nat) (file_paths (members a)) →
  prefix_free (file_paths (members a)) →
  staging_ready cfg (disk s) →
  process_archive_streaming cfg a s = (Ok tt, s') →
  committed_of (journal s') =
    rev (archive_plan (batch_size cfg) (members a))
      ++ committed_of (journal s).
Proof.
  intros Hm Hdry Hlen Hfree Hready
    (t & s0 & k & s1 & s2 & Hq0 & Hfib0 & Hmb0 & Hdir & Hloop & Hfin & Hq2)
      %process_archive_streaming_inv.
  destruct (Hdir Hready) as [Hchain Hclear].
  assert (fresh_staging t s0) as Hfresh by (split; auto).
  pose proof (streaming_loop_ledger _ _ _ _ _ _ _ Hloop) as [Hl _].
  eapply (streaming_loop_merged _ _ _ _ _ _ _ []) in Hloop as [Hst1 Hcom];
    [|done|done|done|done| |left; by split].
  2:{ apply Forall_forall. intros p _. constructor. }
  rewrite Hfib0 in Hcom, Hl. unfold archive_plan.
  assert (committed_of (journal s0) = committed_of (journal s)) as Hsame.
  { unfold committed_of. by rewrite (quiet_appends _ _ Hq0). }
  assert (committed_of (journal s') = committed_of (journal s2)) as ->.
  { unfold committed_of. by rewrite (quiet_appends _ _ Hq2). }
  destruct (batch_plan (batch_size cfg) (members a) 0) as [l f].
  simpl in *. rewrite (step_batch _ _ _ _ _ _ Hl) in Hfin.
  destruct (0 <? f) eqn:Hf.
  - apply bind_ok in Hfin as ([] & s3 & Hlog & Happ). injection Hlog as <-.
    apply append_real_ok in Happ as ->; [|done].
    cbn [journal set_journal set_tool_calls disk].
    rewrite committed_of_append, !committed_of_log.
    destruct Hst1 as [Hfresh1|[P' Hst1]].
    + pose proof (step_batch _ _ _ _ _ _ Hl) as E.
      rewrite (fresh_batch _ _ Hfresh1) in E. by subst f.
    + unfold content_root. rewrite Hm. cbn [merge_base_dir set_journal].
      rewrite (ms_mb _ _ _ _ Hst1). simpl.
      rewrite (ms_count _ _ _ _ Hst1), (step_batch _ _ _ _ _ _ Hl).
      rewrite Hcom, Hsame, rev_app_distr. done.
  - injection Hfin as <-. cbn [journal set_journal].
    by rewrite committed_of_log, Hcom, Hsame, app_nil_r.
Qed.

(** * Commits and the files they hold *)

Lemma ceil_div_zero b : 1 ≤ b → ceil_div 0 b = 0.
Proof. intros Hb. unfold ceil_div. apply Z.div_small. lia. Qed.

(** C2, as amended.  A real run of streaming mode over an archive with
    [N] regular files and batch size [B ≥ 1] that completes issues
    exactly [⌈N / B⌉] commits (none when [N = 0]), and the batch sizes
    it announces add up to [N].  The content roots of those commits
    hold [N] regular files in total when the regular files have plain
    names (relative, without [..]), the disk is a tree on which a fixed
    temporary directory is free and, with merging off, the member paths
    are pairwise distinct; with merging on, when every regular file
    lies in a directory and no member path is a prefix of another. *)
Theorem archive_commits_by_batches cfg a s s' :
  1 ≤ batch_size cfg → dry_run cfg = false →
  process_archive_streaming cfg a s = (Ok tt, s') →
  let N := file_count (members a) in
  Z.of_nat (length (appends s')) =
    Z.of_nat (length (appends s)) + ceil_div N (batch_size cfg) ∧
  (N = 0 → length (appends s') = length (appends s)) ∧
  sum_list (announced s') = sum_list (announced s) + N ∧
  (merge_duplicates cfg = false → plain_files (members a) →
   NoDup (file_paths (members a)) →
   staging_ready cfg (disk s) →
   committed_total s' = committed_total s + N) ∧
  (merge_duplicates cfg = true → plain_files (members a) →
   Forall (λ p, (2 ≤ length p)%nat) (file_paths (members a)) →
   prefix_free (file_paths (members a)) →
   staging_ready cfg (disk s) →
   committed_total s' = committed_total s + N).
Proof.
  intros Hb Hdry Hrun N.
  pose proof (process_archive_streaming_ledger _ _ _ _ Hrun) as [f Hl].
  pose proof (archive_plan_arith (batch_size cfg) (members a) Hb)
    as [Hlen Hsum].
  assert (Z.of_nat (length (appends s')) =
          Z.of_nat (length (appends s)) + ceil_div N (batch_size cfg)) as Hn.
  { unfold appends. rewrite !length_rev.
    rewrite (step_appends _ _ _ _ _ _ Hl Hdry). fold N in Hlen. lia. }
  split_and!.
  - done.
  - intros HN. rewrite HN, ceil_div_zero in Hn by done. lia.
  - unfold announced. rewrite !sum_list_rev, (step_announced _ _ _ _ _ _ Hl).
    rewrite sum_list_app, sum_list_rev. fold N in Hsum. lia.
  - intros Hm _ Hnodup Hready. rewrite !committed_total_of.
    rewrite (process_archive_streaming_plain _ _ _ _ Hm Hdry Hnodup Hready Hrun).
    rewrite sum_list_app, sum_list_rev. fold N in Hsum. lia.
  - intros Hm _ Hdeep Hfree Hready. rewrite !committed_total_of.
    rewrite (process_archive_streaming_merged _ _ _ _ Hm Hdry Hdeep Hfree
               Hready Hrun).
    rewrite sum_list_app, sum_list_rev. fold N in Hsum. lia.
Qed.

(** C2, the claim as stated fails.  Batch size 2, merging off, an
    archive whose two regular-file entries have the same path: the one
    commit that is issued holds one file, the later one, not two. *)
Lemma duplicate_paths_commit_fewer_files :
  let r := process_archive_streaming (plain_config 2 false false)
             archive_with_duplicate (init_state bare_disk) in
  r.1 = Ok tt ∧
  file_count (members archive_with_duplicate) = 2 ∧
  ceil_div 2 2 = 1 ∧
  length (appends r.2) = 1%nat ∧
  commit_listings r.2 = [[(["a"; "x"], "2")]] ∧
  committed_total r.2 = 1 ∧
  committed_total r.2 ≠ file_count (members archive_with_duplicate).
Proof. by vm_compute. Qed.

Lemma staging_ready_bare b dry mrg :
  staging_ready (plain_config b dry mrg) bare_disk.
Proof.
  split; [|done]. apply treeb_sound. vm_compute. reflexivity.
Qed.

Lemma archive_commits_by_batches_witness :
  let s := init_state bare_disk in
  let plain := (process_archive_streaming (plain_config 2 false false)
                  archive_of_three s).2 in
  let merged := (process_archive_streaming (plain_config 2 false true)
                   archive_of_three s).2 in
  (Z.of_nat (length (appends plain)) = 0 + ceil_div 3 2 ∧
   sum_list (announced plain) = 0 + 3 ∧
   committed_total plain = 0 + 3) ∧
  (Z.of_nat (length (appends merged)) = 0 + ceil_div 3 2 ∧
   sum_list (announced merged) = 0 + 3 ∧
   committed_total merged = 0 + 3).
Proof.
  intros s plain merged.
  assert ((process_archive_streaming (plain_config 2 false false)
             archive_of_three s).1 = Ok tt)
    as Hplain by (vm_compute; reflexivity).
  assert ((process_archive_streaming (plain_config 2 false true)
             archive_of_three s).1 = Ok tt)
    as Hmerged by (vm_compute; reflexivity).
  assert (1 ≤ 2) as Hb by lia.
  split.
  - destruct (archive_commits_by_batches (plain_config 2 false false)
                archive_of_three s plain Hb eq_refl (run_ok_eq _ _ _ Hplain))
      as (Hn & _ & Hsum & Hfiles & _).
    split; [exact Hn|]. split; [exact Hsum|]. apply Hfiles.
    + reflexivity.
    + apply (bool_decide_unpack _). by vm_compute.
    + apply (bool_decide_unpack _). by vm_compute.
    + apply staging_ready_bare.
  - destruct (archive_commits_by_batches (plain_config 2 false true)
                archive_of_three s merged Hb eq_refl (run_ok_eq _ _ _ Hmerged))
      as (Hn & _ & Hsum & _ & Hfiles).
    split; [exact Hn|]. split; [exact Hsum|]. apply Hfiles.
    + reflexivity.
    + apply (bool_decide_unpack _). by vm_compute.
    + apply (bool_decide_unpack _). by vm_compute.
    + apply (bool_decide_unpack _). by vm_compute.
    + apply staging_ready_bare.
Defined.

(** * Batches in closed form *)

Lemma Forall_eq_replicate {A} (x : A) l :
  Forall (λ y, y = x) l → l = replicate (length l) x.
Proof. induction 1 as [|y l -> _ IH]; simpl; [done|]. by rewrite <- IH. Qed.

(** With a batch size of at least 1, the plan of an archive is: full
    batches, then the remainder if there is one. *)
Lemma archive_plan_batches b ms :
  1 ≤ b → archive_plan b ms = batches (file_count ms) b.
Proof.
  intros Hb. unfold archive_plan, batches.
  pose proof (batch_plan_arith b ms 0 Hb ltac:(lia)) as H.
  destruct (batch_plan b ms 0) as [l f]. destruct H as (Hf & Hall & Hsum).
  assert (file_count ms / b = Z.of_nat (length l)) as Hq.
  { symmetry. apply (Z.div_unique _ _ _ f); lia. }
  assert (file_count ms mod b = f) as Hr.
  { symmetry. apply (Z.mod_unique _ _ (Z.of_nat (length l))); lia. }
  rewrite Hq, Hr, Nat2Z.id. f_equal. by apply Forall_eq_replicate.
Qed.

(** A batch size below 1 never lets the counter pass a file: every
    regular file is a batch of its own. *)
Lemma batch_plan_small b ms :
  b ≤ 1 →
  batch_plan b ms 0 = (replicate (Z.to_nat (file_count ms)) 1, 0).
Proof.
  intros Hb. induction ms as [|m r IH]; [done|].
  rewrite file_count_cons. simpl. destruct (isfile m); [|done].
  destruct (Z.leb_spec b (0 + 1)) as [_|?]; [|lia]. rewrite IH.
  pose proof (file_count_nonneg r).
  replace (Z.to_nat (1 + file_count r)) with (S (Z.to_nat (file_count r)))
    by lia.
  done.
Qed.

Lemma archive_plan_small b ms :
  b ≤ 1 → archive_plan b ms = replicate (Z.to_nat (file_count ms)) 1.
Proof.
  intros Hb. unfold archive_plan. rewrite batch_plan_small by done.
  simpl. by rewrite app_nil_r.
Qed.

Lemma run_plan_batches b l :
  1 ≤ b → run_plan b l = run_batches b l.
Proof.
  intros Hb. unfold run_plan, run_batches. f_equal.
  apply list_fmap_ext. intros _ a _. by apply archive_plan_batches.
Qed.

Lemma run_file_count_nonneg l : 0 ≤ run_file_count l.
Proof.
  unfold run_file_count. induction l as [|a r IH]; [done|].
  rewrite fmap_cons. cbn [sum_list].
  pose proof (file_count_nonneg (members a)). lia.
Qed.

Lemma run_plan_small b l :
  b ≤ 1 → run_plan b l = replicate (Z.to_nat (run_file_count l)) 1.
Proof.
  intros Hb. unfold run_plan, run_file_count.
  induction l as [|a r IH]; [done|].
  rewrite !fmap_cons. cbn [sum_list concat].
  rewrite IH, archive_plan_small by done.
  pose proof (file_count_nonneg (members a)).
  pose proof (run_file_count_nonneg r). unfold run_file_count in *.
  rewrite Z2Nat.inj_add by done. by rewrite replicate_add.
Qed.

Lemma run_plan_length b l :
  1 ≤ b → Z.of_nat (length (run_plan b l)) = run_commit_count b l.
Proof.
  intros Hb. unfold run_plan, run_commit_count.
  induction l as [|a r IH]; [done|].
  rewrite !fmap_cons. cbn [sum_list concat].
  rewrite length_app, Nat2Z.inj_add, IH.
  by destruct (archive_plan_arith b (members a) Hb) as [-> _].
Qed.

(** * Whole runs and the other mode, by batches *)

Lemma build_from_archives_steps cfg l mode s s' :
  build_from_archives cfg l mode s = (Ok tt, s') →
  (∃ f, ledger_step cfg (run_plan (batch_size cfg) l) f
          (run_file_count l) s s') ∧
  Log INFO (SuccessfullyProcessed (total_files s') (Z.of_nat (length l)))
    ∈ journal s'.
Proof.
  unfold build_from_archives.
  intros ([] & s1 & Hcheck & H)%bind_ok.
  apply bind_ok in H as ([] & s2 & Hinit & H).
  apply bind_ok in H as ([] & s3 & Hloop & H).
  apply bind_ok in H as (s4 & ? & Hget & H). injection Hget as <- <-.
  apply bind_ok in H as ([] & s5 & Hlog & H). injection Hlog as <-.
  assert (calm s s2) as Hc.
  { trans s1.
    - destruct (dry_run cfg); simpl in Hcheck.
      + injection Hcheck as <-. reflexivity.
      + pose proof (calm_check_tools cfg s) as Hk.
        rewrite Hcheck in Hk. exact Hk.
    - pose proof (calm_initialize_squashfs cfg s1) as Hk.
      rewrite Hinit in Hk. exact Hk. }
  apply archives_loop_ledger in Hloop as [f Hl].
  pose proof (ledger_step_calm_l _ _ _ _ _ _ _ Hc Hl) as Hl'.
  destruct (dry_run cfg); simpl in H; injection H as <-; simpl.
  - split; [|apply elem_of_cons; right; apply elem_of_cons; by left].
    exists f. eapply ledger_step_quiet_r; [exact Hl'|by split].
  - split; [|apply elem_of_cons; by left].
    exists f. eapply ledger_step_quiet_r; [exact Hl'|by split].
Qed.

Lemma announced_step cfg l f n s s' :
  ledger_step cfg l f n s s' → announced s' = announced s ++ l.
Proof.
  intros Hl. unfold announced.
  by rewrite (step_announced _ _ _ _ _ _ Hl), rev_app_distr, rev_involutive.
Qed.

Lemma appends_step cfg l f n s s' :
  ledger_step cfg l f n s s' → dry_run cfg = false →
  length (appends s') = (length (appends s) + length l)%nat.
Proof.
  intros Hl Hdry. unfold appends.
  rewrite !length_rev, (step_appends _ _ _ _ _ _ Hl Hdry). lia.
Qed.

(** Memory-efficient mode cuts an archive into the same batches as
    streaming mode: an archive with [N] regular files that is processed
    to the end announces [⌊N / B⌋] batches of [B] files and then the
    remaining [N mod B] files if there are any, counts [N] files, and in
    a real run commits once per batch, [⌈N / B⌉] times. *)
Theorem memory_efficient_commits_by_batches cfg a s s' :
  1 ≤ batch_size cfg →
  process_archive_memory_efficient cfg a s = (Ok tt, s') →
  let N := file_count (members a) in
  announced s' = announced s ++ batches N (batch_size cfg) ∧
  total_files s' = total_files s + N ∧
  (dry_run cfg = false →
   Z.of_nat (length (appends s')) =
     Z.of_nat (length (appends s)) + ceil_div N (batch_size cfg)).
Proof.
  intros Hb [f Hl]%process_archive_memory_efficient_ledger N.
  split_and!.
  - rewrite (announced_step _ _ _ _ _ _ Hl). by rewrite archive_plan_batches.
  - apply (step_total _ _ _ _ _ _ Hl).
  - intros Hdry. rewrite (appends_step _ _ _ _ _ _ Hl Hdry).
    destruct (archive_plan_arith (batch_size cfg) (members a) Hb) as [Hn _].
    fold N in Hn. lia.
Qed.

Lemma memory_efficient_commits_by_batches_witness :
  let cfg := plain_config 2 false true in
  let s := init_state bare_disk in
  let s' := (process_archive_memory_efficient cfg archive_of_three s).2 in
  announced s' = [] ++ batches 3 2 ∧
  total_files s' = 0 + 3 ∧
  Z.of_nat (length (appends s')) = 0 + ceil_div 3 2.
Proof.
  intros cfg s s'.
  assert ((process_archive_memory_efficient cfg archive_of_three s).1 = Ok tt)
    as Hok by (vm_compute; reflexivity).
  assert (1 ≤ batch_size cfg) as Hb by (simpl; lia).
  destruct (memory_efficient_commits_by_batches cfg archive_of_three s s' Hb
              (run_ok_eq _ _ _ Hok)) as (Ha & Ht & Hn).
  split; [exact Ha|]. split; [exact Ht|]. by apply Hn.
Defined.

(** A whole run that completes, in either mode: the batches are those
    of the archives one after the other (a batch never spans two
    archives), the total reported at the end is the number of regular
    files of all archives, and a real run has committed once per
    batch. *)
Theorem run_commits_by_batches cfg l mode s s' :
  1 ≤ batch_size cfg →
  build_from_archives cfg l mode s = (Ok tt, s') →
  announced s' = announced s ++ run_batches (batch_size cfg) l ∧
  total_files s' = total_files s + run_file_count l ∧
  Log INFO (SuccessfullyProcessed (total_files s + run_file_count l)
              (Z.of_nat (length l))) ∈ journal s' ∧
  (dry_run cfg = false →
   Z.of_nat (length (appends s')) =
     Z.of_nat (length (appends s)) + run_commit_count (batch_size cfg) l).
Proof.
  intros Hb [[f Hl] Hlog]%build_from_archives_steps.
  rewrite (step_total _ _ _ _ _ _ Hl) in Hlog.
  split_and!.
  - rewrite (announced_step _ _ _ _ _ _ Hl). by rewrite run_plan_batches.
  - apply (step_total _ _ _ _ _ _ Hl).
  - exact Hlog.
  - intros Hdry. rewrite (appends_step _ _ _ _ _ _ Hl Hdry).
    rewrite <- run_plan_length by done. lia.
Qed.

Lemma run_commits_by_batches_witness :
  let cfg := plain_config 2 false true in
  let l := [archive_of_three; archive_A "1"] in
  let s := init_state bare_disk in
  let s' := (build_from_archives cfg l true s).2 in
  announced s' = [] ++ [2; 1; 1] ∧
  total_files s' = 0 + 4 ∧
  Z.of_nat (length (appends s')) = 0 + 3.
Proof.
  intros cfg l s s'.
  assert ((build_from_archives cfg l true s).1 = Ok tt)
    as Hok by (vm_compute; reflexivity).
  assert (1 ≤ batch_size cfg) as Hb by (simpl; lia).
  destruct (run_commits_by_batches cfg l true s s' Hb (run_ok_eq _ _ _ Hok))
    as (Ha & Ht & _ & Hn).
  split; [exact Ha|]. split; [exact Ht|]. by apply Hn.
Defined.

(** A batch size of 1, of 0 or below 0 all behave alike: in a run that
    completes every regular file is announced as a batch of its own,
    and a real run commits once per file. *)
Theorem small_batch_size_commits_each_file cfg l mode s s' :
  batch_size cfg ≤ 1 →
  build_from_archives cfg l mode s = (Ok tt, s') →
  announced s' = announced s ++ replicate (Z.to_nat (run_file_count l)) 1 ∧
  (dry_run cfg = false →
   Z.of_nat (length (appends s')) =
     Z.of_nat (length (appends s)) + run_file_count l).
Proof.
  intros Hb [[f Hl] _]%build_from_archives_steps.
  rewrite run_plan_small in Hl by done. split.
  - apply (announced_step _ _ _ _ _ _ Hl).
  - intros Hdry. rewrite (appends_step _ _ _ _ _ _ Hl Hdry).
    rewrite length_replicate. pose proof (run_file_count_nonneg l). lia.
Qed.

Lemma small_batch_size_commits_each_file_witness :
  let cfg := plain_config (-5) false true in
  let s := init_state bare_disk in
  let s' := (build_from_archives cfg [archive_of_three] false s).2 in
  announced s' = [] ++ [1; 1; 1] ∧
  Z.of_nat (length (appends s')) = 0 + 3.
Proof.
  intros cfg s s'.
  assert ((build_from_archives cfg [archive_of_three] false s).1 = Ok tt)
    as Hok by (vm_compute; reflexivity).
  assert (batch_size cfg ≤ 1) as Hb by (simpl; lia).
  destruct (small_batch_size_commits_each_file cfg [archive_of_three] false
              s s' Hb (run_ok_eq _ _ _ Hok)) as (Ha & Hn).
  split; [exact Ha|]. by apply Hn.
Defined.

(** * The commit call *)

(** A real commit call leaves the disk and the builder's fields alone
    and runs the tool at most once.  When the free space reported is
    below 100 MB it fails without running the tool.  When it returns
    normally, the tool has been run exactly once, with a time limit of
    300 seconds, on the content root and the disk as they were (one
    commit more, one time limit more); at least 100 MB were reported
    free, and the tool answered within the limit and exited with
    status 0. *)
Theorem commit_call_outcomes cfg src s :
  dry_run cfg = false →
  let res := append_to_squashfs cfg src s in
  let k := tool_calls s in
  (disk res.2 = disk s ∧ files_in_batch res.2 = files_in_batch s ∧
   total_files res.2 = total_files s ∧
   merge_base_dir res.2 = merge_base_dir s) ∧
  (tool_calls res.2 = k ∨ tool_calls res.2 = S k) ∧
  (free_bytes cfg k < 100 * (1024 * 1024) →
   res.1 ≠ Ok tt ∧ tool_calls res.2 = k) ∧
  (res.1 = Ok tt →
   commits_well cfg k ∧ tool_calls res.2 = S k ∧
   time_limits_of (journal res.2) =
     (MksquashfsAppend src (output_file cfg) (comp_option cfg), Some 300)
       :: time_limits_of (journal s) ∧
   appends res.2 = appends s ++ [(src, disk s)]).
Proof.
  intros Hdry res k. subst res k.
  unfold append_to_squashfs, check_disk_space, subprocess_run, commits_well.
  rewrite Hdry. run_M.
  destruct (Z.ltb_spec (free_bytes cfg (tool_calls s)) (100 * (1024 * 1024)))
    as [Hs|Hs]; simpl.
  { split_and!; try done; auto. }
  destruct (Z.ltb_spec 300 (duration (tool cfg (tool_calls s)))) as [Ht|Ht];
    simpl.
  { split_and!; try done; [auto|lia]. }
  destruct (Z.eqb_spec (returncode (tool cfg (tool_calls s))) 0) as [Hr|Hr];
    simpl.
  { split_and!; try done; [auto|lia]. }
  destruct (contains_sub _ _); simpl; split_and!; try done; auto; lia.
Qed.

Lemma commit_call_outcomes_witness :
  let s := init_state bare_disk in
  let res := append_to_squashfs (plain_config 2 false true) ["tmp"] s in
  res.1 = Ok tt ∧ tool_calls res.2 = 1%nat ∧ disk res.2 = bare_disk ∧
  time_limits_of (journal res.2) =
    [(MksquashfsAppend ["tmp"] ["out.sqfs"] (Some "xz"), Some 300)] ∧
  appends res.2 = [(["tmp"], bare_disk)].
Proof.
  intros s res.
  assert (res.1 = Ok tt) as Hok by (vm_compute; reflexivity).
  destruct (commit_call_outcomes (plain_config 2 false true) ["tmp"] s
              eq_refl) as ((Hdisk & _) & _ & _ & Hret).
  destruct (Hret Hok) as (_ & Hcalls & Hlimits & Happ).
  split; [exact Hok|]. split; [exact Hcalls|]. split; [exact Hdisk|].
  split; [exact Hlimits|exact Happ].
Defined.

(** * Runs that end normally *)

Section Succeeds.
Context (Q : relation state) `{!PreOrder Q}.

Lemma Succeeds_ret {A} (a : A) : Succeeds Q (mret a : M A).
Proof. intros s b s' [= _ <-]. reflexivity. Qed.

Lemma Succeeds_raise {A} e : Succeeds Q (raise e : M A).
Proof. intros s b s' [=]. Qed.

Lemma Succeeds_get : Succeeds Q get.
Proof. intros s b s' [= _ <-]. reflexivity. Qed.

Lemma Succeeds_bind {A B} (m : M A) (f : A → M B) :
  Succeeds Q m → (∀ a, Succeeds Q (f a)) → Succeeds Q (m ≫= f).
Proof.
  intros Hm Hf s b s' (a & s1 & H1 & H2)%bind_ok.
  etrans; [by eapply Hm|by eapply Hf].
Qed.

Lemma Succeeds_when b (m : M unit) : Succeeds Q m → Succeeds Q (when b m).
Proof. destruct b; [done|]. intros _. apply Succeeds_ret. Qed.

Lemma Succeeds_try_finally {A} (m : M A) c :
  Succeeds Q m → Succeeds Q c → Succeeds Q (try_finally m c).
Proof.
  intros Hm Hc s a s' (s1 & H1 & H2)%try_finally_ok.
  etrans; [by eapply Hm|by eapply Hc].
Qed.

(** Every handler of the program raises again, so a [try] that ends
    normally is a body that ended normally. *)
Lemma Succeeds_try_except {A} (m : M A) h :
  (∀ e s, ∃ e' s', h e s = (Raise e', s')) →
  Succeeds Q m → Succeeds Q (try_except m h).
Proof.
  intros Hh Hm s a s'. unfold try_except.
  destruct (m s) as [[x|e] s1] eqn:H1.
  - intros [= <- <-]. by eapply Hm.
  - destruct (Hh e s1) as (e' & s2 & ->). discriminate.
Qed.

Lemma Succeeds_for_each {A} (l : list A) (body : A → M unit) :
  (∀ x, Succeeds Q (body x)) → Succeeds Q (for_each l body).
Proof.
  intros Hb. induction l as [|x l IH]; simpl.
  - apply Succeeds_ret.
  - apply Succeeds_bind; auto.
Qed.

Lemma Succeeds_modify f : (∀ s, Q s (f s)) → Succeeds Q (modify f).
Proof. intros Hf s a s' [= _ <-]. apply Hf. Qed.

Lemma Keeps_Succeeds {A} (m : M A) : Keeps Q m → Succeeds Q m.
Proof. intros Hm s a s' H. specialize (Hm s). by rewrite H in Hm. Qed.
End Succeeds.

#[global] Instance committing_preorder cfg : PreOrder (committing cfg).
Proof.
  split.
  - intros s. split; [done| |done]. intros k ?. lia.
  - intros s1 s2 s3 [] []. split; [lia| |lia].
    intros k Hk. destruct (decide (k < tool_calls s2)%nat); auto with lia.
Qed.

Lemma quiet_committing cfg s s' : quiet s s' → committing cfg s s'.
Proof.
  intros []. split.
  - by rewrite quiet_calls0.
  - intros k. rewrite quiet_calls0. lia.
  - by rewrite quiet_calls0, quiet_appends0.
Qed.

Lemma Keeps_quiet_committing cfg {A} (m : M A) :
  Keeps quiet m → Succeeds (committing cfg) m.
Proof.
  intros Hm. apply Keeps_Succeeds. intros s. apply quiet_committing, Hm.
Qed.

Lemma committing_log cfg lvl r : Succeeds (committing cfg) (log lvl r).
Proof.
  apply Succeeds_modify. intros s. split; simpl; [done| |done].
  intros k ?. lia.
Qed.

Lemma committing_modify cfg f :
  (∀ s, tool_calls (f s) = tool_calls s ∧ journal (f s) = journal s) →
  Succeeds (committing cfg) (modify f).
Proof.
  intros Hf. apply Succeeds_modify. intros s. destruct (Hf s) as [Hc Hj].
  split; rewrite ?Hc, ?Hj; [done| |done]. intros k ?. lia.
Qed.

(** A commit call that returns normally was answered well. *)
Lemma append_real_well cfg src s s' :
  dry_run cfg = false →
  append_to_squashfs cfg src s = (Ok tt, s') →
  commits_well cfg (tool_calls s).
Proof.
  intros Hdry.
  unfold append_to_squashfs, check_disk_space, subprocess_run, commits_well.
  rewrite Hdry. run_M.
  destruct (Z.ltb_spec (free_bytes cfg (tool_calls s)) (100 * (1024 * 1024)))
    as [Hs|Hs]; simpl; [done|].
  destruct (Z.ltb_spec 300 (duration (tool cfg (tool_calls s)))) as [Ht|Ht];
    simpl; [done|].
  destruct (Z.eqb_spec (returncode (tool cfg (tool_calls s))) 0) as [Hr|Hr];
    simpl; [done|].
  by destruct (contains_sub _ _).
Qed.

Lemma committing_append cfg src :
  Succeeds (committing cfg) (append_to_squashfs cfg src).
Proof.
  intros s [] s' H. destruct (dry_run cfg) eqn:Hdry.
  - rewrite append_dry in H by done. injection H as <-.
    split; simpl; [done| |done]. intros k ?. lia.
  - pose proof (append_real_well _ _ _ _ Hdry H) as Hw.
    apply append_real_ok in H as ->; [|done].
    split; simpl; [lia| |lia].
    intros k Hk. by replace k with (tool_calls s) by lia.
Qed.

Create HintDb committing.
#[global] Hint Resolve Succeeds_ret Succeeds_raise Succeeds_get Succeeds_when
  Succeeds_try_finally Succeeds_for_each
  committing_log committing_append committing_preorder : committing.
#[global] Hint Extern 1 (Succeeds (committing _) (modify _)) =>
  (apply committing_modify; intros ?; by split) : committing.
#[global] Hint Extern 1 (Succeeds (committing _) (on_disk _)) =>
  (apply Keeps_quiet_committing, quiet_on_disk) : committing.
#[global] Hint Extern 2 (Succeeds _ (_ ≫= _)) =>
  (apply Succeeds_bind; [apply _| |intros ?]) : committing.
#[global] Hint Extern 3 (Succeeds _ (match ?x with _ => _ end)) =>
  destruct x : committing.

Ltac committing_steps := intros; eauto 30 with committing.

Section Committing.
Context (cfg : config).

Lemma committing_place_member m e top :
  Succeeds (committing cfg) (place_member cfg m e top).
Proof. apply Keeps_quiet_committing, quiet_place_member. Qed.

Lemma committing_setup_merge_directory e top :
  Succeeds (committing cfg) (setup_merge_directory cfg e top).
Proof. apply Keeps_quiet_committing, quiet_setup_merge_directory. Qed.

Lemma committing_reset_staging e :
  Succeeds (committing cfg) (reset_staging cfg e).
Proof. apply Keeps_quiet_committing, quiet_reset_staging. Qed.

Lemma committing_memory_efficient_place m e :
  Succeeds (committing cfg) (memory_efficient_place cfg m e).
Proof. apply Keeps_quiet_committing, quiet_memory_efficient_place. Qed.

Lemma committing_note_top_dirs a :
  Succeeds (committing cfg) (note_top_dirs a).
Proof. apply Keeps_quiet_committing, quiet_note_top_dirs. Qed.

Lemma committing_count_and_commit e :
  Succeeds (committing cfg) (count_and_commit cfg e).
Proof.
  unfold count_and_commit. pose proof committing_reset_staging.
  committing_steps.
Qed.

Lemma committing_streaming_loop ms e k :
  Succeeds (committing cfg) (streaming_loop cfg ms e k).
Proof.
  revert k. induction ms as [|m r IH]; intros k; simpl; [committing_steps|].
  pose proof committing_setup_merge_directory.
  pose proof committing_place_member. pose proof committing_count_and_commit.
  unfold process_tar_member. committing_steps.
Qed.

Lemma committing_temp_directory {A} prefix (body : path → M A) :
  (∀ t, Succeeds (committing cfg) (body t)) →
  Succeeds (committing cfg) (temp_directory cfg prefix body).
Proof.
  intros Hb. unfold temp_directory.
  assert (Succeeds (committing cfg) (mkdtemp cfg prefix))
    by apply Keeps_quiet_committing, quiet_mkdtemp.
  committing_steps.
Qed.

Lemma committing_process_archive_streaming a :
  Succeeds (committing cfg) (process_archive_streaming cfg a).
Proof.
  unfold process_archive_streaming.
  pose proof committing_streaming_loop. pose proof committing_note_top_dirs.
  apply Succeeds_bind; [apply _|apply committing_log|intros _].
  apply committing_temp_directory. intros t.
  apply Succeeds_bind; [apply _|committing_steps|intros _].
  apply Succeeds_bind; [apply _|committing_steps|intros _].
  apply Succeeds_try_except; try apply _.
  - intros e s. by eexists _, _.
  - committing_steps.
Qed.

Lemma committing_memory_efficient_member m e :
  Succeeds (committing cfg) (memory_efficient_member cfg m e).
Proof.
  unfold memory_efficient_member, memory_efficient_count_and_commit.
  pose proof committing_memory_efficient_place.
  pose proof committing_reset_staging. committing_steps.
Qed.

Lemma committing_process_archive_memory_efficient a :
  Succeeds (committing cfg) (process_archive_memory_efficient cfg a).
Proof.
  unfold process_archive_memory_efficient.
  pose proof committing_memory_efficient_member.
  pose proof committing_note_top_dirs.
  apply Succeeds_bind; [apply _|apply committing_log|intros _].
  apply committing_temp_directory. committing_steps.
Qed.

Lemma committing_archives_loop l mode i total :
  Succeeds (committing cfg) (archives_loop cfg l mode i total).
Proof.
  revert i. induction l as [|a r IH]; intros i; simpl; [committing_steps|].
  pose proof committing_process_archive_streaming.
  pose proof committing_process_archive_memory_efficient.
  committing_steps.
Qed.
End Committing.

(** ** The preflight check and the creation of the image *)

Lemma check_tools_runs cfg s :
  runs_of (journal (check_tools cfg s).2) =
    MksquashfsVersion :: runs_of (journal s) ∧
  tool_calls (check_tools cfg s).2 = S (tool_calls s) ∧
  appends_of (journal (check_tools cfg s).2) = appends_of (journal s) ∧
  ((check_tools cfg s).1 = Ok tt → exits_well cfg (tool_calls s)).
Proof.
  unfold check_tools, subprocess_run_checked, subprocess_run, exits_well.
  run_M. simpl.
  destruct (Z.eqb_spec (returncode (tool cfg (tool_calls s))) 0); by simpl.
Qed.

Lemma initialize_squashfs_runs cfg s :
  dry_run cfg = false →
  let res := initialize_squashfs cfg s in
  appends_of (journal res.2) = appends_of (journal s) ∧
  ((runs_of (journal res.2) = runs_of (journal s) ∧
    tool_calls res.2 = tool_calls s ∧ res.1 ≠ Ok tt) ∨
   (∃ t, runs_of (journal res.2) =
           MksquashfsCreate (t ++ ["empty"]) (output_file cfg)
             (comp_option cfg) :: runs_of (journal s) ∧
         tool_calls res.2 = S (tool_calls s) ∧
         (res.1 = Ok tt → exits_well cfg (tool_calls s)))).
Proof.
  intros Hdry res. subst res.
  unfold initialize_squashfs, temp_directory, mkdtemp, subprocess_run_checked,
    subprocess_run, exits_well.
  rewrite Hdry. run_M. simpl.
  repeat (case_match; simplify_eq/=);
    try (split; [done|left; done]);
    try (split; [done|right; eexists; split_and!; [reflexivity|done|];
                 first [done|by intros ?; lia]]).
Qed.

(** * The image is created once *)

Lemma fmap_rev {A B} (f : A → B) l : f <$> rev l = rev (f <$> l).
Proof.
  induction l as [|x l IH]; [done|].
  rewrite fmap_cons. cbn [rev]. by rewrite fmap_app, IH.
Qed.

#[global] Instance appending_preorder cfg : PreOrder (appending cfg).
Proof.
  split.
  - intros s. by exists [].
  - intros s1 s2 s3 [r1 H1] [r2 H2]. exists (r2 ++ r1).
    by rewrite H2, H1, fmap_app, app_assoc.
Qed.

Lemma quiet_appending cfg s s' : quiet s s' → appending cfg s s'.
Proof. intros []. by exists []. Qed.

Lemma Keeps_quiet_appending cfg {A} (m : M A) :
  Keeps quiet m → Keeps (appending cfg) m.
Proof. intros Hm s. apply quiet_appending, Hm. Qed.

Lemma appending_log cfg lvl r : Keeps (appending cfg) (log lvl r).
Proof. intros s. by exists []. Qed.

Lemma appending_modify cfg f :
  (∀ s, journal (f s) = journal s) → Keeps (appending cfg) (modify f).
Proof. intros Hf s. exists []. simpl. by rewrite Hf. Qed.

Lemma appending_append cfg src : Keeps (appending cfg) (append_to_squashfs cfg src).
Proof.
  intros s.
  unfold append_to_squashfs, check_disk_space, subprocess_run. run_M.
  repeat (case_match; simplify_eq/=);
    first [by exists [] | by exists [src]].
Qed.

Create HintDb appending.
#[global] Hint Resolve Keeps_ret Keeps_raise Keeps_get Keeps_when
  Keeps_try_finally Keeps_try_except Keeps_for_each
  appending_log appending_append appending_preorder : appending.
#[global] Hint Extern 1 (Keeps (appending _) (modify _)) =>
  (apply appending_modify; intros ?; reflexivity) : appending.
#[global] Hint Extern 1 (Keeps (appending _) (on_disk _)) =>
  (apply Keeps_quiet_appending, quiet_on_disk) : appending.
#[global] Hint Extern 2 (Keeps _ (_ ≫= _)) =>
  (apply Keeps_bind; [apply _| |intros ?]) : appending.
#[global] Hint Extern 3 (Keeps _ (match ?x with _ => _ end)) =>
  destruct x : appending.

Ltac appending_steps := intros; eauto 30 with appending.

Section Appending.
Context (cfg : config).

Lemma appending_count_and_commit e :
  Keeps (appending cfg) (count_and_commit cfg e).
Proof.
  unfold count_and_commit.
  pose proof (λ e, Keeps_quiet_appending cfg _ (quiet_reset_staging cfg e)).
  appending_steps.
Qed.

Lemma appending_streaming_loop ms e k :
  Keeps (appending cfg) (streaming_loop cfg ms e k).
Proof.
  revert k. induction ms as [|m r IH]; intros k; simpl; [appending_steps|].
  pose proof (λ e top, Keeps_quiet_appending cfg _
                         (quiet_setup_merge_directory cfg e top)).
  pose proof (λ m e top, Keeps_quiet_appending cfg _
                           (quiet_place_member cfg m e top)).
  pose proof appending_count_and_commit.
  unfold process_tar_member. appending_steps.
Qed.

Lemma appending_temp_directory {A} prefix (body : path → M A) :
  (∀ t, Keeps (appending cfg) (body t)) →
  Keeps (appending cfg) (temp_directory cfg prefix body).
Proof.
  intros Hb. unfold temp_directory.
  pose proof (Keeps_quiet_appending cfg _ (quiet_mkdtemp cfg prefix)).
  appending_steps.
Qed.

Lemma appending_process_archive_streaming a :
  Keeps (appending cfg) (process_archive_streaming cfg a).
Proof.
  unfold process_archive_streaming.
  pose proof appending_streaming_loop.
  pose proof (λ a, Keeps_quiet_appending cfg _ (quiet_note_top_dirs a)).
  apply Keeps_bind; [apply _|apply appending_log|intros _].
  apply appending_temp_directory. appending_steps.
Qed.

Lemma appending_memory_efficient_member m e :
  Keeps (appending cfg) (memory_efficient_member cfg m e).
Proof.
  unfold memory_efficient_member, memory_efficient_count_and_commit.
  pose proof (λ m e, Keeps_quiet_appending cfg _
                       (quiet_memory_efficient_place cfg m e)).
  pose proof (λ e, Keeps_quiet_appending cfg _ (quiet_reset_staging cfg e)).
  appending_steps.
Qed.

Lemma appending_process_archive_memory_efficient a :
  Keeps (appending cfg) (process_archive_memory_efficient cfg a).
Proof.
  unfold process_archive_memory_efficient.
  pose proof appending_memory_efficient_member.
  pose proof (λ a, Keeps_quiet_appending cfg _ (quiet_note_top_dirs a)).
  apply Keeps_bind; [apply _|apply appending_log|intros _].
  apply appending_temp_directory. appending_steps.
Qed.

Lemma appending_archives_loop l mode i total :
  Keeps (appending cfg) (archives_loop cfg l mode i total).
Proof.
  revert i. induction l as [|a r IH]; intros i; simpl; [appending_steps|].
  pose proof appending_process_archive_streaming.
  pose proof appending_process_archive_memory_efficient.
  appending_steps.
Qed.
End Appending.

(** The tool runs of a whole run, whatever its outcome.  A dry run
    makes none.  A real run makes the preflight check, then creates the
    image once, from a directory [empty] inside a scoped staging
    directory, then only appends, always to the image and with the
    compression of the configuration; a run that fails has stopped
    somewhere along this sequence, and a run that completes has gone
    through all of it. *)
Theorem image_created_once_then_appended cfg l mode s :
  let res := build_from_archives cfg l mode s in
  ∃ new t roots,
    tool_runs res.2 = tool_runs s ++ new ∧
    new `prefix_of` run_pattern cfg (t ++ ["empty"]) roots ∧
    (dry_run cfg = true → new = []) ∧
    (dry_run cfg = false → res.1 = Ok tt →
     new = run_pattern cfg (t ++ ["empty"]) roots).
Proof.
  intros res. subst res. destruct (dry_run cfg) eqn:Hdry.
  { pose proof (sparing_build_from_archives cfg Hdry l mode s) as Hs.
    exists [], [], []. unfold tool_runs.
    rewrite (sparing_runs _ _ Hs), app_nil_r.
    split_and!; [done|apply prefix_nil|done|done]. }
  unfold build_from_archives. rewrite Hdry. simpl.
  rewrite run_bind.
  destruct (check_tools_runs cfg s) as (Hr1 & _ & _ & _).
  destruct (check_tools cfg s) as [[[]|e1] s1]; simpl in Hr1.
  2:{ exists [MksquashfsVersion], [], []. unfold tool_runs. simpl.
      rewrite Hr1. simpl. split_and!; try done.
      by apply (prefix_app_r [_] [_]). }
  rewrite run_bind.
  destruct (initialize_squashfs_runs cfg s1 Hdry) as (_ & Hr2).
  destruct (initialize_squashfs cfg s1) as [[[]|e2] s2]; simpl in Hr2.
  2:{ destruct Hr2 as [(Hr2 & _)|(t & Hr2 & _)].
      - exists [MksquashfsVersion], [], []. unfold tool_runs. simpl.
        rewrite Hr2, Hr1. simpl. split_and!; try done.
        by apply (prefix_app_r [_] [_]).
      - exists [MksquashfsVersion;
                MksquashfsCreate (t ++ ["empty"]) (output_file cfg)
                  (comp_option cfg)], t, [].
        unfold tool_runs. simpl. rewrite Hr2, Hr1. simpl.
        rewrite <- app_assoc. split_and!; done. }
  destruct Hr2 as [(_ & _ & Hno)|(t & Hr2 & _)]; [done|].
  rewrite run_bind.
  pose proof (appending_archives_loop cfg l mode 1 (Z.of_nat (length l)) s2)
    as [roots Hr3].
  destruct (archives_loop cfg l mode 1 (Z.of_nat (length l)) s2)
    as [[[]|e3] s3]; simpl in Hr3.
  - exists (run_pattern cfg (t ++ ["empty"]) (rev roots)), t, (rev roots).
    unfold tool_runs, run_pattern. simpl. rewrite Hr3, Hr2, Hr1.
    rewrite rev_app_distr, fmap_rev. simpl. rewrite <- !app_assoc.
    split_and!; done.
  - exists (run_pattern cfg (t ++ ["empty"]) (rev roots)), t, (rev roots).
    unfold tool_runs, run_pattern. simpl. rewrite Hr3, Hr2, Hr1.
    rewrite rev_app_distr, fmap_rev. simpl. rewrite <- !app_assoc.
    split_and!; done.
Qed.

(** A real run that completes was never let down by the tool: the
    preflight check and the creation of the image exited with status 0,
    and every other run of the tool was a commit that found 100 MB of
    free space, answered within 300 seconds and exited with status 0.
    The tool has run twice and then once per commit. *)
Theorem completed_run_had_no_tool_failure cfg l mode s s' :
  dry_run cfg = false →
  build_from_archives cfg l mode s = (Ok tt, s') →
  let k := tool_calls s in
  exits_well cfg k ∧ exits_well cfg (S k) ∧
  (tool_calls s' =
     k + 2 + (length (appends s') - length (appends s)))%nat ∧
  (length (appends s) ≤ length (appends s'))%nat ∧
  ∀ i, (k + 2 ≤ i < tool_calls s')%nat → commits_well cfg i.
Proof.
  intros Hdry H. cbv zeta. revert H.
  unfold build_from_archives. rewrite Hdry. simpl.
  intros ([] & s1 & Hcheck & H)%bind_ok.
  apply bind_ok in H as ([] & s2 & Hinit & H).
  apply bind_ok in H as ([] & s3 & Hloop & H).
  apply bind_ok in H as (s4 & ? & Hget & H). injection Hget as <- <-.
  apply bind_ok in H as ([] & s5 & Hlog & H). injection Hlog as <-.
  injection H as <-.
  destruct (check_tools_runs cfg s) as (_ & Hc1 & Ha1 & Hw1).
  rewrite Hcheck in Hc1, Ha1, Hw1. simpl in Hc1, Ha1, Hw1.
  destruct (initialize_squashfs_runs cfg s1 Hdry) as (Ha2 & Hr2).
  rewrite Hinit in Ha2, Hr2. simpl in Ha2, Hr2.
  destruct Hr2 as [(_ & _ & Hno)|(t & _ & Hc2 & Hw2)]; [done|].
  apply committing_archives_loop in Hloop as [Hle Heach Hcount].
  rewrite Hc2, Hc1, Ha2, Ha1 in *.
  unfold appends. simpl. rewrite !length_rev.
  split_and!; [by apply Hw1|by apply Hw2|lia|lia|].
  intros i Hi. apply Heach. lia.
Qed.

Lemma completed_run_had_no_tool_failure_witness :
  let cfg := plain_config 2 false true in
  let s := init_state bare_disk in
  let s' := (build_from_archives cfg [archive_of_three] false s).2 in
  exits_well cfg 0 ∧ exits_well cfg 1 ∧ tool_calls s' = 4%nat ∧
  commits_well cfg 2 ∧ commits_well cfg 3.
Proof.
  intros cfg s s'.
  assert ((build_from_archives cfg [archive_of_three] false s).1 = Ok tt)
    as Hok by (vm_compute; reflexivity).
  destruct (completed_run_had_no_tool_failure cfg [archive_of_three] false
              s s' eq_refl (run_ok_eq _ _ _ Hok))
    as (H0 & H1 & Hcalls & _ & Heach).
  assert (tool_calls s' = 4%nat) as Hfour by (vm_compute; reflexivity).
  split; [exact H0|]. split; [exact H1|]. split; [exact Hfour|].
  split; apply Heach; rewrite Hfour; simpl; lia.
Defined.

(** * Top-level directories *)

Lemma path_parts_real n t : t ∈ path_parts n → real_segment t = true.
Proof.
  unfold path_parts. rewrite list_elem_of_In. by intros [_ ?]%List.filter_In.
Qed.

Lemma get_top_level_dir_leads n t :
  get_top_level_dir n = Some t ↔ leads t n.
Proof.
  unfold leads, get_top_level_dir. split.
  - destruct (_ || _); [done|].
    destruct (path_parts n) as [|p [|q r]] eqn:Hp; [done| |].
    + destruct (contains_char _ p) eqn:Hdot; [done|]. intros [= <-]. eauto.
    + intros [= <-]. eexists. split; [done|]. done.
  - intros (r & Hp & Hdot).
    destruct n as [|a n]; [done|].
    destruct (String.eqb_spec (String a n) ".") as [E|_];
      [by rewrite E in Hp|].
    change (truthy (String a n)) with true. cbn [negb orb].
    rewrite Hp. destruct r; [|done]. by rewrite Hdot.
Qed.

(** For a relative member name, [get_top_level_dir] gives the first
    component of the path exactly when the path has two or more
    components, or one component without a dot; otherwise it gives
    [None].  What it gives is a real path component, never the empty
    string or [.], so the truth test the callers apply to it only tells
    [None] apart; and a leading [./] makes no difference.  (For an
    absolute name the first part of the path is the root, which is
    outside the model.) *)
Theorem top_level_dir_is_first_component n :
  String.prefix "/" n = false →
  (∀ t, get_top_level_dir n = Some t ↔ leads t n) ∧
  (get_top_level_dir n = None ↔
   path_parts n = [] ∨
   ∃ p, path_parts n = [p] ∧ contains_char "." p = true) ∧
  has_top (get_top_level_dir n) = bool_decide (is_Some (get_top_level_dir n)) ∧
  get_top_level_dir ("./" +:+ n) = get_top_level_dir n.
Proof.
  intros _. split_and!.
  - intros t. apply get_top_level_dir_leads.
  - split.
    + intros Hnone. destruct (path_parts n) as [|p [|q r]] eqn:Hp; [by left| |].
      * right. exists p. split; [done|].
        destruct (contains_char "." p) eqn:Hdot; [done|].
        assert (get_top_level_dir n = Some p) as E.
        { apply get_top_level_dir_leads. exists []. by rewrite Hp. }
        congruence.
      * assert (get_top_level_dir n = Some p) as E.
        { apply get_top_level_dir_leads. exists (q :: r). by rewrite Hp. }
        congruence.
    + intros Hp. destruct (get_top_level_dir n) as [t|] eqn:E; [|done].
      apply get_top_level_dir_leads in E as (r & Hr & Hdot).
      destruct Hp as [Hp|(p & Hp & Hd)]; [congruence|].
      rewrite Hr in Hp. injection Hp as -> ->. rewrite Hdot in Hd; done.
  - destruct (get_top_level_dir n) as [t|] eqn:E; simpl.
    + apply get_top_level_dir_leads in E as (r & Hr & _).
      assert (real_segment t = true) as Hreal.
      { apply (path_parts_real n). rewrite Hr. by left. }
      unfold real_segment in Hreal. apply andb_true_iff in Hreal as [Ht _].
      unfold truthy. by rewrite Ht.
    + done.
  - assert (path_parts ("./" +:+ n) = path_parts n) as Hsame by done.
    destruct (get_top_level_dir n) as [t|] eqn:E.
    + apply get_top_level_dir_leads. unfold leads. rewrite Hsame.
      by apply get_top_level_dir_leads.
    + destruct (get_top_level_dir ("./" +:+ n)) as [t|] eqn:E'; [|done].
      apply get_top_level_dir_leads in E'. unfold leads in E'.
      rewrite Hsame in E'. apply get_top_level_dir_leads in E'. congruence.
Qed.

Lemma top_level_dir_is_first_component_witness :
  get_top_level_dir "foo/x.txt" = Some "foo" ∧
  get_top_level_dir "manifest.json" = None ∧
  get_top_level_dir "./README" = get_top_level_dir "README".
Proof.
  split; [|split].
  - apply (proj1 (top_level_dir_is_first_component "foo/x.txt" eq_refl)).
    by exists ["x.txt"].
  - apply (proj1 (proj2 (top_level_dir_is_first_component "manifest.json"
                           eq_refl))).
    right. by exists "manifest.json".
  - apply (proj2 (proj2 (proj2 (top_level_dir_is_first_component "README"
                                  eq_refl)))).
Defined.

Lemma collect_top_dirs_spec ms acc t :
  t ∈ collect_top_dirs ms acc ↔
  t ∈ acc ∨
  ∃ m, m ∈ ms ∧ isfile m || isdir m = true ∧ leads t (name m).
Proof.
  revert acc. induction ms as [|m r IH]; intros acc; simpl.
  - split; [by left|]. intros [?|(m & []%elem_of_nil & _)]. done.
  - assert ((∃ m', m' ∈ m :: r ∧ isfile m' || isdir m' = true
                   ∧ leads t (name m')) ↔
            (isfile m || isdir m = true ∧ leads t (name m)) ∨
            (∃ m', m' ∈ r ∧ isfile m' || isdir m' = true
                   ∧ leads t (name m'))) as ->.
    { split.
      - intros (m' & [->|Hin]%elem_of_cons & H); [by left|right; eauto].
      - intros [H|(m' & Hin & H)].
        + exists m. split; [by left|done].
        + exists m'. split; [by right|done]. }
    destruct (isfile m || isdir m) eqn:Hk.
    + destruct (get_top_level_dir (name m)) as [t'|] eqn:Htop.
      * assert (truthy t' = true) as Ht'.
        { apply get_top_level_dir_leads in Htop as (q & Hq & _).
          assert (real_segment t' = true) as Hreal.
          { apply (path_parts_real (name m)). rewrite Hq. by left. }
          unfold real_segment in Hreal.
          by apply andb_true_iff in Hreal as [? _]. }
        rewrite Ht', IH, elem_of_union, elem_of_singleton.
        rewrite <- get_top_level_dir_leads, Htop.
        split; [intros [[->|?]|?]|intros [?|[[_ [= ->]]|?]]]; eauto.
      * rewrite IH, <- get_top_level_dir_leads, Htop.
        split; [intros [?|?]|intros [?|[[_ [=]]|?]]]; eauto.
    + rewrite IH. split; [intros [?|?]|intros [?|[[[=] _]|?]]]; eauto.
Qed.

(** The first pass over an archive.  The top-level directories it
    collects are exactly those of the archive's regular files and
    directories (members of other kinds do not count); they are added
    to the set of names seen so far, and a report of duplicate
    directories is logged exactly when one of them had been seen
    before, naming those that had; nothing else changes. *)
Theorem first_pass_records_top_dirs a s :
  let res := note_top_dirs a s in
  let tops := collect_top_dirs (members a) ∅ in
  (∀ t, t ∈ tops ↔
        ∃ m, m ∈ members a ∧ isfile m || isdir m = true ∧ leads t (name m)) ∧
  res.1 = Ok tt ∧
  seen_top_dirs res.2 = seen_top_dirs s ∪ tops ∧
  journal res.2 =
    (if bool_decide (tops ∩ seen_top_dirs s = ∅) then []
     else [Log INFO (MergingDuplicateDirectories (tops ∩ seen_top_dirs s))])
      ++ journal s ∧
  disk res.2 = disk s ∧ files_in_batch res.2 = files_in_batch s ∧
  merge_base_dir res.2 = merge_base_dir s.
Proof.
  intros res tops. subst res. split.
  { intros t. unfold tops. rewrite collect_top_dirs_spec.
    split; [intros [[]%elem_of_empty|?]|intros ?]; eauto. }
  unfold note_top_dirs. fold tops. run_M.
  by destruct (bool_decide (tops ∩ seen_top_dirs s = ∅)).
Qed.

(** * Finding the archives *)

Lemma ascii_compare_refl a : Ascii.compare a a = Eq.
Proof. unfold Ascii.compare. apply N.compare_refl. Qed.

Lemma ascii_compare_lt_trans a b c :
  Ascii.compare a b = Lt → Ascii.compare b c = Lt → Ascii.compare a c = Lt.
Proof.
  unfold Ascii.compare. rewrite !N.compare_lt_iff. lia.
Qed.

Lemma string_compare_refl s : String.compare s s = Eq.
Proof. induction s as [|a s IH]; simpl; [done|]. by rewrite ascii_compare_refl. Qed.

Lemma string_compare_eq s1 s2 : String.compare s1 s2 = Eq ↔ s1 = s2.
Proof. split; [apply String.compare_eq_iff|intros ->; apply string_compare_refl]. Qed.

Lemma string_compare_lt_trans s1 s2 s3 :
  String.compare s1 s2 = Lt → String.compare s2 s3 = Lt →
  String.compare s1 s3 = Lt.
Proof.
  revert s2 s3. induction s1 as [|a s1 IH]; intros [|b s2] [|c s3]; simpl;
    try done.
  destruct (Ascii.compare a b) eqn:Hab; [|..]; try done;
    destruct (Ascii.compare b c) eqn:Hbc; try done.
  - apply Ascii.compare_eq_iff in Hab as ->, Hbc as ->.
    rewrite ascii_compare_refl. apply IH.
  - apply Ascii.compare_eq_iff in Hab as ->. by rewrite Hbc.
  - apply Ascii.compare_eq_iff in Hbc as <-. by rewrite Hab.
  - by rewrite (ascii_compare_lt_trans _ _ _ Hab Hbc).
Qed.

Lemma string_compare_gt s1 s2 :
  String.compare s1 s2 = Gt ↔ String.compare s2 s1 = Lt.
Proof.
  rewrite (String.compare_antisym s2 s1).
  destruct (String.compare s1 s2); simpl; split; congruence.
Qed.

Lemma path_leb_refl p : path_leb p p = true.
Proof.
  induction p as [|a p IH]; simpl; [done|]. by rewrite string_compare_refl.
Qed.

#[global] Instance path_le_total : Total path_le.
Proof.
  intros p. unfold path_le. induction p as [|a p IH]; intros [|b q]; simpl;
    auto.
  rewrite (String.compare_antisym a b).
  destruct (String.compare b a); simpl; auto.
Qed.

#[global] Instance path_le_antisymm : AntiSymm (=) path_le.
Proof.
  intros p. unfold path_le. induction p as [|a p IH]; intros [|b q]; simpl;
    try done.
  rewrite (String.compare_antisym b a).
  destruct (String.compare a b) eqn:Hab; simpl; try done.
  apply String.compare_eq_iff in Hab as ->. intros H1 H2. f_equal. by apply IH.
Qed.

#[global] Instance path_le_trans : Transitive path_le.
Proof.
  intros p. unfold path_le.
  induction p as [|a p IH]; intros [|b q] [|c r]; simpl; try done.
  destruct (String.compare a b) eqn:Hab; try done;
    destruct (String.compare b c) eqn:Hbc; try done.
  - apply String.compare_eq_iff in Hab as ->, Hbc as ->.
    rewrite string_compare_refl. apply IH.
  - apply String.compare_eq_iff in Hab as ->. by rewrite Hbc.
  - apply String.compare_eq_iff in Hbc as <-. by rewrite Hab.
  - by rewrite (string_compare_lt_trans _ _ _ Hab Hbc).
Qed.

Lemma ends_with_spec suffix s :
  ends_with suffix s = true ↔ ∃ stem, s = stem +:+ suffix.
Proof.
  induction s as [|a s IH]; simpl.
  - rewrite orb_false_r. split.
    + intros ->%String.eqb_eq. by exists "".
    + intros ([|b stem] & H); [|done].
      change ("" +:+ suffix) with suffix in H. subst.
      apply String.eqb_refl.
  - rewrite orb_true_iff, IH. split.
    + intros [->%String.eqb_eq|[stem ->]]; [by exists ""|].
      by exists (String a stem).
    + intros ([|b stem] & H).
      * left. change ("" +:+ suffix) with suffix in H. subst.
        apply String.eqb_refl.
      * right. change (String b stem +:+ suffix)
          with (String b (stem +:+ suffix)) in H.
        injection H as -> ->. by exists stem.
Qed.

Lemma find_archives_loop_spec files archives skipped :
  (find_archives_loop files archives skipped).1 =
    archives ++
    List.filter (λ f, negb (contains_sub "temp" (basename f)) &&
                      existsb (λ ext, ends_with ext (basename f))
                        archive_extensions) files ∧
  (find_archives_loop files archives skipped).2 =
    skipped ++
    (basename <$> List.filter (λ f, contains_sub "temp" (basename f)) files).
Proof.
  revert archives skipped.
  induction files as [|f r IH]; intros archives skipped.
  - simpl. by rewrite !app_nil_r.
  - cbn [find_archives_loop List.filter].
    destruct (contains_sub "temp" (basename f)); cbn [negb andb].
    + destruct (IH archives (skipped ++ [basename f])) as [-> ->].
      by rewrite fmap_cons, <- app_assoc.
    + destruct (existsb _ archive_extensions).
      * destruct (IH (archives ++ [f]) skipped) as [-> ->].
        by rewrite <- app_assoc.
      * by destruct (IH archives skipped) as [-> ->].
Qed.

Lemma elem_of_iterdir (p : path) (d : gmap path node) (q : path) :
  q ∈ List.filter (λ q, bool_decide (q ≠ [] ∧ parent q = p)) (map_to_list d).*1
  ↔ is_Some (d !! q) ∧ q ≠ [] ∧ parent q = p.
Proof.
  rewrite list_elem_of_In, List.filter_In, <- list_elem_of_In.
  rewrite bool_decide_eq_true, list_elem_of_fmap. split.
  - intros [([q' n] & -> & Hin%elem_of_map_to_list) ?]. split; [|done].
    by exists n.
  - intros [[n Hn] ?]. split; [|done]. exists (q, n). split; [done|].
    by apply elem_of_map_to_list.
Qed.

Lemma NoDup_filter_list {A} (f : A → bool) l :
  NoDup l → NoDup (List.filter f l).
Proof.
  induction 1 as [|x l Hx _ IH]; simpl; [constructor|].
  destruct (f x); [|done]. constructor; [|done].
  rewrite list_elem_of_In, List.filter_In, <- list_elem_of_In. by intros [? _].
Qed.

(** [find_archives] fails when the directory is missing or is a file.
    Otherwise it returns, sorted by path and without repetition, the
    entries directly in the directory whose name ends in [.tar.gz] or
    [.tgz] and does not contain [temp] anywhere; whether an entry is a
    file or a directory is not looked at.  The names it reports as
    skipped are those that contain [temp]. *)
Theorem find_archives_sorted_selection directory d :
  match find_archives directory d with
  | Ok (found, skipped) =>
      stat d directory = Some Dir ∧
      (∀ f, f ∈ found ↔
            (is_Some (d !! f) ∧ f ≠ [] ∧ parent f = directory) ∧
            contains_sub "temp" (basename f) = false ∧
            ∃ stem, basename f = stem +:+ ".tar.gz" ∨
                    basename f = stem +:+ ".tgz") ∧
      StronglySorted path_le found ∧ NoDup found ∧
      (∀ n, n ∈ skipped ↔
            ∃ f, (is_Some (d !! f) ∧ f ≠ [] ∧ parent f = directory) ∧
                 basename f = n ∧ contains_sub "temp" n = true)
  | Raise e =>
      (stat d directory = None ∧ e = FileNotFoundError directory) ∨
      (∃ c, stat d directory = Some (File c) ∧
            e = NotADirectoryError directory)
  end.
Proof.
  unfold find_archives, iterdir.
  destruct (stat d directory) as [[c|]|] eqn:Hst; [right; eauto| |left; eauto].
  set (files := List.filter _ _).
  destruct (find_archives_loop_spec files [] []) as [Ha Hs].
  destruct (find_archives_loop files [] []) as [archives skipped].
  simpl in Ha, Hs. subst archives skipped. split_and!.
  - done.
  - intros f. rewrite merge_sort_Permutation.
    rewrite list_elem_of_In, List.filter_In, <- list_elem_of_In.
    unfold files. rewrite elem_of_iterdir, andb_true_iff, negb_true_iff.
    unfold archive_extensions. simpl. rewrite orb_false_r, orb_true_iff.
    rewrite !ends_with_spec. split.
    + intros (? & ? & [[stem ?]|[stem ?]]); (split; [done|]);
        (split; [done|]); exists stem; auto.
    + intros (? & ? & stem & [?|?]); (split; [done|]); (split; [done|]);
        [left|right]; by exists stem.
  - apply StronglySorted_merge_sort; apply _.
  - rewrite merge_sort_Permutation. apply NoDup_filter_list.
    unfold files. apply NoDup_filter_list, NoDup_fst_map_to_list.
  - intros n. rewrite list_elem_of_fmap. split.
    + intros (f & -> & Hf). exists f.
      rewrite list_elem_of_In, List.filter_In, <- list_elem_of_In in Hf.
      destruct Hf as [Hf ?]. by apply elem_of_iterdir in Hf.
    + intros (f & Hf & <- & ?). exists f. split; [done|].
      rewrite list_elem_of_In, List.filter_In, <- list_elem_of_In.
      split; [|done]. by apply elem_of_iterdir.
Qed.

(** * The command line *)

(** How [main] ends.  A compression outside the choices is turned
    down by the argument parser: exit status 2, nothing logged.
    Otherwise an exception of the directory listing escapes; no archive
    found means exit status 1 after an error record; in a real run a
    failure to make the output directory escapes, and an output
    directory that is not writable means exit status 1 after an error
    record; then the build runs, [main] returns when it returns, and
    leaves with status 1 after an error record when it raises: no
    exception of the build escapes.  Conversely, [main] returns only
    after a build that completed over the archives found, a non-empty
    list, and the builder has then counted every regular file of these
    archives; and an exception escapes only from the listing of the
    input directory or the creation of the output directory, before any
    builder exists. *)
Theorem main_endings env args d :
  let res := main env args d in
  let output_dir := parent (output args) in
  let cfg := builder_config env args in
  (arg_compression args ∉ valid_compressions →
   ending_of res = Exits 2 ∧ console res = []) ∧
  (arg_compression args ∈ valid_compressions →
   (∀ e, find_archives (input_dir args) d = Raise e →
         ending_of res = Fails e) ∧
   (∀ skipped, find_archives (input_dir args) d = Ok ([], skipped) →
         ending_of res = Exits 1 ∧
         last (console res) = Some (ERROR, NoArchivesFound (input_dir args))) ∧
   (∀ found skipped,
      find_archives (input_dir args) d = Ok (found, skipped) → found ≠ [] →
      (∀ e, arg_dry_run args = false → exists_ d output_dir = false →
            fs_mkdir_parents output_dir d = Raise e →
            ending_of res = Fails e) ∧
      (∀ d1, (if arg_dry_run args || exists_ d output_dir then Ok d
              else fs_mkdir_parents output_dir d) = Ok d1 →
             (arg_dry_run args = false → writable env output_dir = false →
              ending_of res = Exits 1 ∧
              last (console res) =
                Some (ERROR, OutputDirectoryNotWritable output_dir)) ∧
             (arg_dry_run args = true ∨ writable env output_dir = true →
              ∀ r s, build_from_archives cfg (archive_at env <$> found)
                       (memory_efficient args) (init_state d1) = (r, s) →
                     builder_state res = s ∧
                     match r with
                     | Ok _ => ending_of res = Returns
                     | Raise e =>
                         ending_of res = Exits 1 ∧
                         last (console res) = Some (ERROR, FailedToBuild e)
                     end)))) ∧
  match ending_of res with
  | Returns =>
      ∃ found skipped d1,
        find_archives (input_dir args) d = Ok (found, skipped) ∧
        found ≠ [] ∧
        build_from_archives cfg (archive_at env <$> found)
          (memory_efficient args) (init_state d1) =
          (Ok tt, builder_state res) ∧
        total_files (builder_state res) =
          run_file_count (archive_at env <$> found)
  | Exits status =>
      status = 2 ∧ console res = [] ∨
      status = 1 ∧ ∃ r, last (console res) = Some (ERROR, r)
  | Fails e =>
      builder_state res = init_state d ∧
      (find_archives (input_dir args) d = Raise e ∨
       arg_dry_run args = false ∧
       fs_mkdir_parents (parent (output args)) d = Raise e)
  end.
Proof.
  intros res output_dir cfg. subst res output_dir cfg. unfold main.
  destruct (decide (arg_compression args ∈ valid_compressions)) as [Hv|Hv].
  2:{ rewrite bool_decide_eq_false_2 by done. simpl.
      split; [done|]. split; [done|]. by left. }
  rewrite bool_decide_eq_true_2 by done. cbn [negb].
  split; [done|].
  destruct (find_archives (input_dir args) d) as [[found skipped]|e] eqn:Hfind.
  2:{ simpl. split; [|by auto]. intros _.
      split; [by intros ? [= <-]|]. split; [done|done]. }
  destruct (decide (found = [])) as [->|Hnil].
  { simpl. split.
    - intros _. split; [done|]. split.
      + intros ? _. split; [done|]. by rewrite last_snoc.
      + by intros ? ? [= <- _].
    - right. split; [done|]. eexists. by rewrite last_snoc. }
  rewrite bool_decide_eq_false_2 by done.
  assert (∀ d1 log3,
    let res :=
      if negb (arg_dry_run args) && negb (writable env (parent (output args)))
      then {| ending_of := Exits 1; builder_state := init_state d1;
              console := log3 ++ [(ERROR, OutputDirectoryNotWritable
                                            (parent (output args)))] |}
      else
        match build_from_archives (builder_config env args)
                (archive_at env <$> found) (memory_efficient args)
                (init_state d1) with
        | (Ok _, s) =>
            {| ending_of := Returns; builder_state := s;
               console :=
                 (log3 ++ [(INFO, Configuration args)]) ++
                 [(INFO, if arg_dry_run args then NoFilesWereCreated
                         else MountInstructions (output args))] |}
        | (Raise e, s) =>
            {| ending_of := Exits 1; builder_state := s;
               console := (log3 ++ [(INFO, Configuration args)]) ++
                          [(ERROR, FailedToBuild e)] |}
        end in
    ((arg_dry_run args = false → writable env (parent (output args)) = false →
      ending_of res = Exits 1 ∧
      last (console res) =
        Some (ERROR, OutputDirectoryNotWritable (parent (output args)))) ∧
     (arg_dry_run args = true ∨ writable env (parent (output args)) = true →
      ∀ r s, build_from_archives (builder_config env args)
               (archive_at env <$> found) (memory_efficient args)
               (init_state d1) = (r, s) →
             builder_state res = s ∧
             match r with
             | Ok _ => ending_of res = Returns
             | Raise e =>
                 ending_of res = Exits 1 ∧
                 last (console res) = Some (ERROR, FailedToBuild e)
             end)) ∧
    match ending_of res with
    | Returns =>
        build_from_archives (builder_config env args)
          (archive_at env <$> found) (memory_efficient args)
          (init_state d1) = (Ok tt, builder_state res) ∧
        total_files (builder_state res) =
          run_file_count (archive_at env <$> found)
    | Exits status => status = 1 ∧ ∃ r, last (console res) = Some (ERROR, r)
    | Fails e => False
    end) as Hrest.
  { intros d1 log3. cbv zeta.
    destruct (negb (arg_dry_run args) &&
              negb (writable env (parent (output args)))) eqn:Hguard.
    - apply andb_true_iff in Hguard as [Hd%negb_true_iff Hw%negb_true_iff].
      cbn [ending_of builder_state console]. split.
      + split; [intros _ _; split; [done|by rewrite last_snoc]|].
        intros [H|H]; congruence.
      + split; [done|]. eexists. by rewrite last_snoc.
    - assert (¬ (arg_dry_run args = false ∧
                 writable env (parent (output args)) = false)) as Hno.
      { intros [Hd Hw]. by rewrite Hd, Hw in Hguard. }
      destruct (build_from_archives (builder_config env args)
                  (archive_at env <$> found) (memory_efficient args)
                  (init_state d1)) as [[[]|e] s] eqn:Hbuild;
        cbn [ending_of builder_state console].
      + split.
        * split; [intros Hd Hw; by destruct Hno|].
          by intros _ r s' [= <- <-].
        * split; [done|].
          apply build_from_archives_steps in Hbuild as [[f Hl] _].
          rewrite (step_total _ _ _ _ _ _ Hl). simpl. lia.
      + split.
        * split; [intros Hd Hw; by destruct Hno|].
          intros _ r s' [= <- <-]. split; [done|]. split; [done|].
          by rewrite last_snoc.
        * split; [done|]. eexists. by rewrite last_snoc. }
  split.
  - intros _. split; [by intros ? [=]|]. split; [by intros ? [= -> _]|].
    intros found' skipped' [= <- <-] _. split.
    + intros e Hdry Hex Hmk. rewrite Hdry, Hex. cbn [negb]. by rewrite Hmk.
    + intros d1 Hmade.
      destruct (arg_dry_run args) eqn:Hdry; cbn [orb] in Hmade.
      * injection Hmade as <-. apply (Hrest d _).
      * destruct (exists_ d (parent (output args))) eqn:Hex; cbn [negb].
        -- injection Hmade as <-. apply (Hrest d _).
        -- rewrite Hmade. apply (Hrest d1 _).
  - destruct (arg_dry_run args) eqn:Hdry.
    + destruct (Hrest d (((λ n, (DEBUG, SkippingTemporaryFile n)) <$> skipped)
                          ++ [(INFO, FoundArchives (Z.of_nat (length found)))]))
        as [_ Hback].
      revert Hback. cbv zeta.
      destruct (ending_of _); [|by right|done].
      intros [Hb Ht]. by exists found, skipped, d.
    + destruct (exists_ d (parent (output args))) eqn:Hex; cbn [negb].
      * destruct (Hrest d (((λ n, (DEBUG, SkippingTemporaryFile n)) <$> skipped)
                          ++ [(INFO, FoundArchives (Z.of_nat (length found)))]))
          as [_ Hback].
        revert Hback. cbv zeta.
        destruct (ending_of _); [|by right|done].
        intros [Hb Ht]. by exists found, skipped, d.
      * destruct (fs_mkdir_parents (parent (output args)) d) as [d1|e] eqn:Hmk.
        -- destruct (Hrest d1
                       ((((λ n, (DEBUG, SkippingTemporaryFile n)) <$> skipped)
                          ++ [(INFO, FoundArchives (Z.of_nat (length found)))])
                          ++ [(INFO, CreatingOutputDirectory
                                       (parent (output args)))]))
             as [_ Hback].
           revert Hback. cbv zeta.
           destruct (ending_of _); [|by right|done].
           intros [Hb Ht]. by exists found, skipped, d1.
        -- simpl. by auto.
Qed.

(** * Work that stays in the staging directory *)

Section Inside.
Context (t : path).
Implicit Types (d : gmap path node) (p q k : path).

Lemma inside_refl d : dir_chain d t → inside t d d.
Proof. by split. Qed.

Lemma inside_trans d1 d2 d3 :
  inside t d1 d2 → inside t d2 d3 → inside t d1 d3.
Proof.
  intros [_ H1] [Hc H2]. split; [done|].
  intros q Hq. by rewrite H2, H1.
Qed.

Lemma strictly_below_not_above k : t `prefix_of` k → k ≠ t → ¬ k `prefix_of` t.
Proof. intros Hk Hne. apply clear_below_not_prefix; [done|]. by intros ->. Qed.

Lemma insert_inside d k n :
  dir_chain d t → t `prefix_of` k → k ≠ t → inside t d (<[k := n]> d).
Proof.
  intros Hc Hk Hne. split.
  - apply dir_chain_insert_below; [done|]. by apply strictly_below_not_above.
  - intros q Hq. apply lookup_insert_ne. by intros ->.
Qed.

Lemma delete_inside d k :
  dir_chain d t → t `prefix_of` k → k ≠ t → inside t d (delete k d).
Proof.
  intros Hc Hk Hne. split.
  - intros q Hq. specialize (Hc q Hq). destruct q as [|x q]; [done|].
    simpl in *. rewrite lookup_delete_ne; [done|].
    intros ->. by apply (strictly_below_not_above (x :: q)).
  - intros q Hq. apply lookup_delete_ne. by intros ->.
Qed.

Lemma mkdir_inside b p d d' :
  dir_chain d t → t `prefix_of` p → p ≠ t →
  fs_mkdir b p d = Ok d' → inside t d d'.
Proof.
  intros Hc Hp Hne Hmk.
  assert (p ≠ []) as Hp0.
  { intros ->. apply Hne. symmetry. exact (prefix_nil_inv t Hp). }
  apply fs_mkdir_ok in Hmk as [_ [->|[_ ->]]]; [| |done].
  - by apply inside_refl.
  - by apply insert_inside.
Qed.

Lemma mkdirs_inside p d d' :
  dir_chain d t → t `prefix_of` p ∨ p `prefix_of` t →
  mkdirs_from [] p d = Ok d' → inside t d d'.
Proof.
  intros Hc [Hp|Hp] Hmk.
  - split; [eapply dir_chain_adds; [by eapply mkdirs_from_adds|done]|].
    intros q Hq. destruct (decide (q `prefix_of` p)) as [Hqp|Hqp].
    + assert (q `prefix_of` t) as Hqt.
      { destruct (prefix_weak_total q t p Hqp Hp); [done|by destruct Hq]. }
      destruct q as [|x q].
      * apply (mkdirs_from_stable _ _ _ _ _ Hmk). simpl. lia.
      * apply (mkdirs_from_keeps _ _ _ _ _ Hmk).
        exists Dir. by apply (dir_chain_lookup d t).
    + by apply (mkdirs_from_only _ _ _ _ _ Hmk).
  - rewrite mkdirs_dir_chain in Hmk.
    + injection Hmk as <-. by apply inside_refl.
    + intros q Hq. apply Hc. by etrans.
Qed.

Lemma parent_side x ps :
  t `prefix_of` x →
  t `prefix_of` parent (x ++ ps) ∨ parent (x ++ ps) `prefix_of` t.
Proof.
  intros [k ->]. rewrite <- app_assoc.
  destruct (decide (k ++ ps = [])) as [E|Hne].
  - right. rewrite E, app_nil_r. apply parent_prefix.
  - left. rewrite parent_app by done. by apply prefix_app_r.
Qed.

Lemma extract_inside dest n c d d' :
  dir_chain d t → t `prefix_of` dest →
  fs_extract dest n c d = Ok d' → inside t d d'.
Proof.
  intros Hc Hdest. unfold fs_extract.
  destruct (mkdirs_from [] _ d) as [d1|e] eqn:Hmk; [|by destruct e].
  apply mkdirs_inside in Hmk; [|done|by apply parent_side].
  intros Hins. apply (inside_trans _ d1); [done|].
  assert (stat d1 (dest ++ path_parts n) ≠ Some Dir ∧
          d' = <[dest ++ path_parts n := File c]> d1) as [Hnd ->].
  { revert Hins. destruct (stat d1 _) as [[]|]; [|done|];
      by intros [= <-]. }
  destruct Hmk as [Hc1 _]. apply insert_inside; [done| |].
  - etrans; [done|]. by apply prefix_app_r.
  - intros E. apply Hnd. rewrite E. by apply Hc1.
Qed.

Lemma rmtree_inside b p d d' :
  dir_chain d t → t `prefix_of` p → p ≠ t →
  fs_rmtree b p d = Ok d' → inside t d d'.
Proof.
  intros Hc Hp Hne. unfold fs_rmtree.
  assert (inside t d (filter (λ kv, ¬ p `prefix_of` kv.1) d)) as Hf.
  { split.
    - intros q Hq. specialize (Hc q Hq). destruct q as [|x q]; [done|].
      simpl in *. apply map_lookup_filter_Some. split; [done|]. simpl.
      intros Hpq. apply (strictly_below_not_above p); [done..|]. by etrans.
    - intros q Hq. apply option_eq. intros n.
      rewrite map_lookup_filter_Some. simpl. split; [by intros [? _]|].
      intros ?. split; [done|]. intros Hpq. apply Hq. by etrans. }
  destruct (stat d p) as [[]|], b; intros [= <-];
    first [exact Hf|by apply inside_refl].
Qed.

Lemma rename_inside src dst d d' :
  dir_chain d t → t `prefix_of` src → src ≠ t →
  t `prefix_of` dst → dst ≠ t →
  fs_rename src dst d = Ok d' → inside t d d'.
Proof.
  intros Hc Hsrc Hs Hdst Hd. unfold fs_rename.
  destruct (stat d src) as [[c|]|]; [|done..].
  destruct (stat d (parent dst)) as [[]|]; [done| |done].
  intros Hins.
  assert (d' = <[dst := File c]> (delete src d)) as ->.
  { revert Hins. destruct (stat d dst) as [[]|]; [|done|];
      by intros [= <-]. }
  apply (inside_trans _ (delete src d)); [by apply delete_inside|].
  apply insert_inside; [|done..]. by apply delete_inside.
Qed.

Lemma move_inside src dst d d' :
  dir_chain d t → t `prefix_of` src → src ≠ t → t `prefix_of` dst →
  fs_move src dst d = Ok d' → inside t d d'.
Proof.
  intros Hc Hsrc Hs Hdst. unfold fs_move.
  destruct (stat d dst) as [[c|]|] eqn:Hst.
  - apply rename_inside; try done. intros ->. by rewrite (Hc t) in Hst.
  - destruct (exists_ d _); [done|].
    apply rename_inside; try done; [by etrans; [|apply prefix_app_r]|].
    intros E. apply prefix_length in Hdst.
    rewrite <- E, length_app in Hdst. simpl in Hdst. lia.
  - apply rename_inside; try done. intros ->. by rewrite (Hc t) in Hst.
Qed.

(** The reset of the whole staging directory puts it back. *)
Lemma reset_inside d :
  t ≠ [] → dir_chain d t →
  ∃ d1 d2, fs_rmtree false t d = Ok d1 ∧ fs_makedirs t d1 = Ok d2 ∧
           inside t d d2.
Proof.
  intros Ht Hc. unfold fs_rmtree, fs_makedirs. rewrite (Hc t) by done.
  set (d1 := filter (λ kv, ¬ t `prefix_of` kv.1) d).
  assert (∀ q, ¬ t `prefix_of` q → d1 !! q = d !! q) as Hout.
  { intros q Hq. apply option_eq. intros n.
    unfold d1. rewrite map_lookup_filter_Some. simpl. tauto. }
  assert (∀ q, t `prefix_of` q → d1 !! q = None) as Hin.
  { intros q Hq. apply eq_None_not_Some.
    intros [n [_ Hn]%map_lookup_filter_Some]. by apply Hn. }
  assert (exists_ d1 t = false) as Hex.
  { unfold exists_. by rewrite stat_nonempty, Hin. }
  destruct (mkdirs_from_succeeds [] t d1) as [d2 Hmk].
  { intros q c Hq Hlen. destruct (decide (q = t)) as [->|Hne].
    - by rewrite Hin.
    - rewrite Hout.
      + destruct q as [|x q]; [simpl in *; lia|].
        by rewrite (dir_chain_lookup d t).
      + intros Htq. apply Hne. by apply (anti_symm prefix). }
  exists d1, d2. split; [done|]. split; [by rewrite Hex|]. split.
  - intros q Hq. destruct q as [|x q]; [done|]. simpl.
    eapply mkdirs_from_made; [done|done|simpl; lia].
  - intros q Hq. rewrite <- Hout by done.
    destruct (decide (q `prefix_of` t)) as [Hqt|Hqt].
    + destruct q as [|x q].
      * apply (mkdirs_from_stable _ _ _ _ _ Hmk). simpl. lia.
      * apply (mkdirs_from_keeps _ _ _ _ _ Hmk). exists Dir.
        rewrite Hout by done. by apply (dir_chain_lookup d t).
    + by apply (mkdirs_from_only _ _ _ _ _ Hmk).
Qed.
End Inside.

#[global] Instance unmoved_preorder : PreOrder unmoved.
Proof.
  split.
  - intros s. by split.
  - intros s1 s2 s3 [] []. split; congruence.
Qed.

Lemma unmoved_log lvl r : Keeps unmoved (log lvl r).
Proof. intros s. by split. Qed.

Lemma unmoved_modify f :
  (∀ s, disk (f s) = disk s ∧ merge_base_dir (f s) = merge_base_dir s) →
  Keeps unmoved (modify f).
Proof. intros Hf s. destruct (Hf s). by split. Qed.

Lemma unmoved_append cfg src : Keeps unmoved (append_to_squashfs cfg src).
Proof.
  intros s.
  unfold append_to_squashfs, check_disk_space, subprocess_run. run_M.
  repeat (case_match; simplify_eq/=); by split.
Qed.

Lemma unmoved_note_top_dirs a : Keeps unmoved (note_top_dirs a).
Proof.
  intros s. unfold note_top_dirs. run_M. by destruct (negb _).
Qed.

Section Within.
Context (cfg : config) (t : path) (Ht : t ≠ []).

#[local] Instance within_preorder : PreOrder (within cfg t).
Proof.
  split.
  - by intros s Hs.
  - intros s1 s2 s3 H12 H23 H1. destruct (H12 H1) as [H2 Ho].
    destruct (H23 H2) as [H3 Ho']. split; [done|].
    intros q Hq. by rewrite Ho', Ho.
Qed.

Lemma unmoved_within s s' : unmoved s s' → within cfg t s s'.
Proof.
  intros [Hd Hmb] [Hc Hm]. unfold staging_inv. rewrite Hd, Hmb. by repeat split.
Qed.

Lemma stays_unmoved {A} (m : M A) s : Keeps unmoved m → stays cfg t m s.
Proof. intros Hm. apply unmoved_within, Hm. Qed.

Lemma stays_ret {A} (a : A) s : stays cfg t (mret a : M A) s.
Proof. unfold stays. reflexivity. Qed.

Lemma stays_raise {A} e s : stays cfg t (raise e : M A) s.
Proof. unfold stays. reflexivity. Qed.

Lemma stays_bind {A B} (m : M A) (f : A → M B) s :
  stays cfg t m s →
  (∀ a s1, m s = (Ok a, s1) → stays cfg t (f a) s1) →
  stays cfg t (m ≫= f) s.
Proof.
  unfold stays. intros Hm Hf. rewrite run_bind.
  destruct (m s) as [[a|e] s1]; simpl in *; [|done].
  etrans; [exact Hm|]. by apply Hf.
Qed.

Lemma stays_get s : stays cfg t get s.
Proof. unfold stays. reflexivity. Qed.

Lemma stays_when b (m : M unit) s :
  (b = true → stays cfg t m s) → stays cfg t (when b m) s.
Proof. destruct b; [auto|]. intros _. apply stays_ret. Qed.

Lemma stays_try_except {A} (m : M A) h s :
  stays cfg t m s →
  (∀ e s1, stays cfg t (h e) s1) →
  stays cfg t (try_except m h) s.
Proof.
  unfold stays, try_except. intros Hm Hh.
  destruct (m s) as [[a|e] s1]; simpl in *; [done|].
  etrans; [exact Hm|]. apply Hh.
Qed.

Lemma stays_on_disk f s :
  (staging_inv cfg t s → ∀ d', f (disk s) = Ok d' → inside t (disk s) d') →
  stays cfg t (on_disk f) s.
Proof.
  intros Hf Hinv. unfold on_disk.
  destruct (f (disk s)) as [d'|e] eqn:E; simpl; [|done].
  destruct (Hf Hinv d' eq_refl) as [Hc Ho]. destruct Hinv as [_ Hm].
  by repeat split.
Qed.

Lemma stays_set_merge_root s :
  stays cfg t (modify (set_merge_base_dir (Some (t ++ ["merged"])))) s.
Proof. intros [Hc Hm]. repeat split; simpl; auto. Qed.

Lemma stays_forget_merge_root s :
  stays cfg t (modify (set_merge_base_dir None)) s.
Proof. intros [Hc Hm]. repeat split; simpl; auto. Qed.

(** The merge root in use lies in the staging directory. *)
Lemma merge_root_inside s :
  staging_inv cfg t s → merge_duplicates cfg = true →
  t `prefix_of` default t (merge_base_dir s).
Proof.
  intros [_ Hm] Hmerge. destruct (Hm Hmerge) as [->| ->]; simpl; [done|].
  by apply prefix_app_r.
Qed.

Lemma merged_below : t `prefix_of` t ++ ["merged"] ∧ t ++ ["merged"] ≠ t.
Proof. split; [by apply prefix_app_r|by apply app_ne_self]. Qed.

Lemma temp_below :
  t `prefix_of` t ++ ["temp_extract"] ∧ t ++ ["temp_extract"] ≠ t.
Proof. split; [by apply prefix_app_r|by apply app_ne_self]. Qed.

Lemma stays_mkdir_merged b s :
  stays cfg t (on_disk (fs_mkdir b (t ++ ["merged"]))) s.
Proof.
  apply stays_on_disk. intros [Hc _] d'.
  apply mkdir_inside; [done|apply merged_below..].
Qed.

Lemma stays_mkdir_temp b s :
  stays cfg t (on_disk (fs_mkdir b (t ++ ["temp_extract"]))) s.
Proof.
  apply stays_on_disk. intros [Hc _] d'.
  apply mkdir_inside; [done|apply temp_below..].
Qed.

Lemma stays_rmtree_temp b s :
  stays cfg t (on_disk (fs_rmtree b (t ++ ["temp_extract"]))) s.
Proof.
  apply stays_on_disk. intros [Hc _] d'.
  apply rmtree_inside; [done|apply temp_below..].
Qed.

Lemma stays_extract_temp n c s :
  stays cfg t (on_disk (fs_extract (t ++ ["temp_extract"]) n c)) s.
Proof.
  apply stays_on_disk. intros [Hc _] d'.
  apply extract_inside; [done|apply temp_below].
Qed.

Lemma stays_choose_merge_root s :
  stays cfg t
    (match merge_base_dir s with
     | None =>
         modify (set_merge_base_dir (Some (t ++ ["merged"]))) ;;
         on_disk (fs_mkdir true (t ++ ["merged"]))
     | Some _ => mret tt
     end) s.
Proof.
  destruct (merge_base_dir s); [apply stays_ret|].
  apply stays_bind; [apply stays_set_merge_root|intros _ s1 _].
  apply stays_mkdir_merged.
Qed.

Lemma stays_place_member m top s : stays cfg t (place_member cfg m t top) s.
Proof.
  unfold place_member. apply stays_when. intros _.
  destruct (merge_duplicates cfg && has_top top) eqn:Hm.
  - apply andb_true_iff in Hm as [Hm _].
    apply stays_bind; [apply stays_get|intros ? ? [= <- <-]].
    apply stays_bind; [apply stays_choose_merge_root|intros _ s1 _].
    apply stays_bind; [apply stays_mkdir_temp|intros _ s2 _].
    apply stays_bind; [apply stays_extract_temp|intros _ s3 _].
    apply stays_bind; [apply stays_get|intros ? ? [= <- <-]].
    apply stays_bind.
    { apply stays_on_disk. intros Hinv d'. destruct (Hinv) as [Hc _].
      apply mkdirs_inside; [done|]. apply parent_side.
      by apply merge_root_inside. }
    intros [] ? (d4 & _ & ->)%on_disk_ok.
    apply stays_bind; [apply stays_get|intros ? ? [= <- <-]].
    apply stays_bind; [|intros _ s5 _; apply stays_rmtree_temp].
    apply stays_when. intros _.
    apply stays_bind.
    { apply stays_when. intros _. apply stays_unmoved, unmoved_log. }
    intros [] s5 Hlog.
    assert (merge_base_dir s5 = merge_base_dir s3) as Hmb.
    { revert Hlog. destruct (exists_ _ _); by intros [= <-]. }
    apply stays_on_disk. intros Hinv d'.
    destruct (Hinv) as [Hc _]. apply move_inside; [done| | |].
    + rewrite <- app_assoc. by apply prefix_app_r.
    + rewrite <- app_assoc. by apply app_ne_self.
    + etrans; [|by apply prefix_app_r]. rewrite <- Hmb.
      by apply merge_root_inside.
  - apply stays_on_disk. intros [Hc _] d'. by apply extract_inside.
Qed.

Lemma stays_setup_merge_directory top s :
  stays cfg t (setup_merge_directory cfg t top) s.
Proof.
  unfold setup_merge_directory.
  destruct (negb (merge_duplicates cfg) || negb (has_top top)) eqn:Hm;
    [apply stays_ret|].
  apply orb_false_iff in Hm as [Hm%negb_false_iff _].
  apply stays_bind; [apply stays_get|intros ? ? [= <- <-]].
  apply stays_bind.
  { destruct (merge_base_dir s); [apply stays_ret|].
    apply stays_bind; [apply stays_set_merge_root|intros _ s1 _].
    apply stays_when. intros _. apply stays_mkdir_merged. }
  intros _ s1 _.
  apply stays_bind; [apply stays_get|intros ? ? [= <- <-]].
  apply stays_bind; [|intros; apply stays_ret].
  apply stays_when. intros _. apply stays_on_disk. intros Hinv d'.
  destruct (Hinv) as [Hc _]. apply mkdir_inside; [done| |].
  - etrans; [|by apply prefix_app_r]. by apply merge_root_inside.
  - intros E. pose proof (merge_root_inside _ Hinv Hm) as Hp.
    apply prefix_length in Hp. apply (f_equal length) in E.
    rewrite length_app in E. simpl in E. lia.
Qed.

Lemma stays_reset_whole s :
  stays cfg t (on_disk (fs_rmtree false t) ;; on_disk (fs_makedirs t)) s.
Proof.
  intros Hinv.
  destruct (reset_inside t (disk s) Ht (proj1 Hinv))
    as (d1 & d2 & H1 & H2 & Hc & Ho).
  assert ((on_disk (fs_rmtree false t) ;; on_disk (fs_makedirs t)) s =
          (Ok tt, set_disk d2 (set_disk d1 s))) as ->.
  { rewrite run_bind. unfold on_disk. rewrite H1. simpl. by rewrite H2. }
  destruct Hinv as [_ Hroot]. split; [split; [exact Hc|exact Hroot]|exact Ho].
Qed.

Lemma stays_reset_staging s : stays cfg t (reset_staging cfg t) s.
Proof.
  unfold reset_staging.
  apply stays_bind; [apply stays_get|intros ? ? [= <- <-]].
  unfold merging_here. destruct (merge_duplicates cfg) eqn:Hm; simpl.
  - destruct (merge_base_dir s) as [mb|] eqn:Hmb; simpl.
    + apply stays_bind.
      { apply stays_on_disk. intros [Hc Hroot] d'.
        destruct (Hroot Hm) as [E|E]; rewrite Hmb in E; [done|].
        injection E as ->.
        apply rmtree_inside; [done|apply merged_below..]. }
      intros _ s1 _.
      apply stays_bind; [apply stays_set_merge_root|intros _ s2 _].
      apply stays_mkdir_merged.
    + apply stays_reset_whole.
  - apply stays_reset_whole.
Qed.

Lemma stays_count_and_commit s : stays cfg t (count_and_commit cfg t) s.
Proof.
  unfold count_and_commit.
  apply stays_bind;
    [by apply stays_unmoved, unmoved_modify|intros _ s1 _].
  apply stays_bind;
    [by apply stays_unmoved, unmoved_modify|intros _ s2 _].
  apply stays_bind; [apply stays_get|intros ? ? [= <- <-]].
  destruct (batch_size cfg <=? files_in_batch s2); [|apply stays_ret].
  apply stays_bind; [apply stays_unmoved, unmoved_log|intros _ s3 _].
  apply stays_bind;
    [|intros _ s4 _; by apply stays_unmoved, unmoved_modify].
  apply stays_when. intros _.
  apply stays_bind; [apply stays_unmoved, unmoved_append|intros _ s4 _].
  apply stays_reset_staging.
Qed.

Lemma stays_streaming_loop ms k s : stays cfg t (streaming_loop cfg ms t k) s.
Proof.
  revert k s. induction ms as [|m r IH]; intros k s; simpl;
    [apply stays_ret|].
  destruct (isfile m) eqn:Hf; [|apply IH].
  apply stays_bind.
  { destruct (_ && _); [|apply stays_ret].
    apply stays_bind; [apply stays_setup_merge_directory|].
    intros; apply stays_ret. }
  intros _ s1 _. apply stays_bind; [|intros; apply IH].
  unfold process_tar_member. rewrite Hf.
  apply stays_bind; [apply stays_place_member|intros _ s2 _].
  apply stays_count_and_commit.
Qed.

(** The body of the scope of [process_archive_streaming]. *)
Lemma streaming_body_inside a s :
  dir_chain (disk s) t →
  inside t (disk s)
    (disk
       ((modify (set_files_in_batch 0) ;;
         when (merge_duplicates cfg) (modify (set_merge_base_dir None)) ;;
         try_except
           (when (merge_duplicates cfg) (note_top_dirs a) ;;
            file_count ← streaming_loop cfg (members a) t 0;
            log INFO (FoundFiles file_count) ;;
            s ← get;
            if 0 <? files_in_batch s then
              log DEBUG (AppendingFinalBatch (files_in_batch s)) ;;
              append_to_squashfs cfg (content_root cfg t s)
            else mret tt)
           (λ e, log ERROR (UnexpectedError e) ;; raise e)) s).2).
Proof.
  intros Hc. rewrite run_bind. simpl. rewrite run_bind.
  set (s0 := (when (merge_duplicates cfg) (modify (set_merge_base_dir None))
                (set_files_in_batch 0 s)).2).
  assert (disk s0 = disk s ∧ staging_inv cfg t s0) as [Hd Hinv].
  { unfold s0, staging_inv.
    destruct (merge_duplicates cfg); simpl; split; auto. split; [done|].
    discriminate. }
  assert ((when (merge_duplicates cfg) (modify (set_merge_base_dir None))
             (set_files_in_batch 0 s)) = (Ok tt, s0)) as ->.
  { unfold s0. by destruct (merge_duplicates cfg). }
  rewrite <- Hd.
  match goal with
  | |- inside t _ (disk (?m s0).2) =>
      assert (stays cfg t m s0) as Hstay
  end.
  { apply stays_try_except.
    - apply stays_bind.
      { apply stays_when. intros _. apply stays_unmoved, unmoved_note_top_dirs. }
      intros _ s1 _.
      apply stays_bind; [apply stays_streaming_loop|intros n s2 _].
      apply stays_bind; [apply stays_unmoved, unmoved_log|intros _ s3 _].
      apply stays_bind; [apply stays_get|intros ? ? [= <- <-]].
      destruct (0 <? files_in_batch s3); [|apply stays_ret].
      apply stays_bind; [apply stays_unmoved, unmoved_log|intros _ s4 _].
      apply stays_unmoved, unmoved_append.
    - intros e s1.
      apply stays_bind; [apply stays_unmoved, unmoved_log|intros _ s2 _].
      apply stays_raise. }
  destruct (Hstay Hinv) as [[Hc' _] Ho]. by split.
Qed.
End Within.

(** * Scoped staging directories are cleaned up *)

Lemma lookup_rmtree (p q : path) (d : gmap path node) :
  filter (λ kv, ¬ p `prefix_of` kv.1) d !! q =
    if decide (p `prefix_of` q) then None else d !! q.
Proof.
  destruct (decide (p `prefix_of` q)) as [Hpq|Hpq].
  - apply eq_None_not_Some. intros [n [_ Hn]%map_lookup_filter_Some].
    by apply Hn.
  - apply option_eq. intros n. rewrite map_lookup_filter_Some. simpl. tauto.
Qed.

(** A scope in a directory made by [mkdtemp] puts the disk back, when
    its body stays in that directory. *)
Lemma scope_restores {A} cfg prefix (body : path → M A) s :
  temp_dir cfg = None → tree (disk s) →
  (∀ t s0, t ≠ [] → dir_chain (disk s0) t →
           inside t (disk s0) (disk (body t s0).2)) →
  disk (temp_directory cfg prefix body s).2 = disk s.
Proof.
  intros Htd Htree Hbody. unfold temp_directory. rewrite Htd.
  rewrite run_bind. unfold mkdtemp.
  set (base := default ["tmp"] (temp_base cfg)).
  set (p := base ++ [prefix +:+ pretty (temp_serial s)]).
  destruct (stat (disk s) base) as [[c|]|] eqn:Hbase; [done| |done].
  destruct (exists_ (disk s) p) eqn:Hex; [done|].
  assert (p ≠ []) as Hp by (unfold p; by destruct base).
  assert (disk s !! p = None) as Hfree.
  { unfold exists_ in Hex. rewrite stat_nonempty in Hex by done.
    by destruct (disk s !! p). }
  set (s0 := set_temp_serial (S (temp_serial s))
               (set_disk (<[p := Dir]> (disk s)) s)).
  unfold try_finally. rewrite run_bind. simpl.
  set (s1 := set_journal _ s0).
  assert (dir_chain (disk s1) p) as Hchain.
  { simpl. intros q [->|Hq]%prefix_snoc_cases.
    - rewrite stat_nonempty by done. apply lookup_insert_eq.
    - destruct q as [|x q]; [done|]. simpl. rewrite lookup_insert_ne.
      + by apply (tree_chain (disk s) base Htree Hbase (x :: q)).
      + intros E. rewrite <- E in Hq. by apply prefix_snoc_not in Hq. }
  destruct (Hbody p s1 Hp Hchain) as [Hc Ho].
  destruct (body p s1) as [r s2]. simpl in Hc, Ho.
  unfold on_disk, fs_rmtree. rewrite (Hc p) by done. simpl.
  apply map_eq. intros q. rewrite lookup_rmtree.
  destruct (decide (p `prefix_of` q)) as [Hpq|Hpq].
  - symmetry. by apply (tree_absent _ p).
  - rewrite Ho by done. simpl. apply lookup_insert_ne. by intros <-.
Qed.

(** A scope in a directory [u] fixed by the configuration ends with
    nothing at or below [u], whatever was there before; the rest of the
    disk is as it was, up to the ancestors of [u] made on the way. *)
Lemma scope_wipes {A} cfg prefix (body : path → M A) u s :
  temp_dir cfg = Some u → u ≠ [] → tree (disk s) →
  (∀ c, disk s !! u ≠ Some (File c)) →
  (∀ t s0, t ≠ [] → dir_chain (disk s0) t →
           inside t (disk s0) (disk (body t s0).2)) →
  let s' := (temp_directory cfg prefix body s).2 in
  (∀ q, u `prefix_of` q → disk s' !! q = None) ∧
  (∀ q, ¬ u `prefix_of` q → ¬ q `prefix_of` u → disk s' !! q = disk s !! q).
Proof.
  intros Htd Hu Htree Hnofile Hbody s'. subst s'.
  unfold temp_directory. rewrite Htd. rewrite run_bind. simpl.
  rewrite run_bind.
  assert (∀ s0, dir_chain (disk s0) u →
            let s' := (try_finally
                         (log DEBUG (CreatedTemporaryDirectory u) ;; body u)
                         (on_disk (fs_rmtree true u)) s0).2 in
            (∀ q, u `prefix_of` q → disk s' !! q = None) ∧
            (∀ q, ¬ u `prefix_of` q → disk s' !! q = disk s0 !! q)) as Hscope.
  { intros s0 Hchain. unfold try_finally. rewrite run_bind. simpl.
    set (s1 := set_journal _ s0).
    destruct (Hbody u s1 Hu Hchain) as [Hc Ho].
    destruct (body u s1) as [r s2]. simpl in Hc, Ho.
    unfold on_disk, fs_rmtree. rewrite (Hc u) by done. simpl.
    split; intros q Hq; rewrite lookup_rmtree.
    - by destruct (decide (u `prefix_of` q)).
    - destruct (decide (u `prefix_of` q)); [done|]. by apply Ho. }
  unfold exists_. rewrite stat_nonempty by done.
  destruct (disk s !! u) as [[c|]|] eqn:Hd; simpl.
  - by destruct (Hnofile c).
  - destruct (Hscope s) as [H1 H2].
    { apply tree_chain; [done|]. by rewrite stat_nonempty. }
    split; [done|]. intros q Hq _. by apply H2.
  - unfold on_disk, fs_mkdir_parents.
    destruct (mkdirs_from [] u (disk s)) as [d0|e] eqn:Hmk; simpl.
    + destruct (Hscope (set_disk d0 s)) as [H1 H2].
      { simpl. intros q Hq. destruct q as [|x q]; [done|]. simpl.
        eapply mkdirs_from_made; [done|done|simpl; lia]. }
      split; [done|]. intros q Hq Hqu. rewrite H2 by done. simpl.
      by apply (mkdirs_from_only _ _ _ _ _ Hmk).
    + split; [|done]. intros q Hq. by apply (tree_absent _ u).
Qed.

(** Directories made with their parents keep a tree a tree. *)
Lemma mkdirs_tree p d d' :
  tree d → mkdirs_from [] p d = Ok d' → tree d'.
Proof.
  intros Htree Hmk q Hq k Hk.
  pose proof (mkdirs_from_adds _ _ _ _ Hmk) as Hadds.
  destruct (Hadds q) as [E|[E _]].
  - rewrite E in Hq. apply (adds_dirs_stat_dir _ _ _ Hadds).
    by apply (Htree q).
  - destruct (decide (q `prefix_of` p)) as [Hin|Hout].
    + destruct k as [|x k]; [done|]. simpl.
      eapply mkdirs_from_made; [done| |simpl; lia].
      simpl. etrans; [exact Hk|]. etrans; [apply parent_prefix|done].
    + rewrite (mkdirs_from_only _ _ _ _ _ Hmk) in Hq by done.
      rewrite E in Hq. by destruct Hq.
Qed.

Lemma wiped_trans u d1 d2 d3 : wiped u d1 d2 → wiped u d2 d3 → wiped u d1 d3.
Proof.
  intros (_ & H2 & H12) (Htree & H3 & H23). split; [done|]. split; [done|].
  intros q Hq. destruct (H23 q Hq) as [E|(Hpre & Hn & Hd)].
  - rewrite E. by apply H12.
  - destruct (H12 q Hq) as [E|(_ & _ & Hd2)]; [|congruence].
    right. by rewrite <- E.
Qed.

(** A scope in a directory [u] fixed by the configuration, on a tree. *)
Lemma scope_wipes_full {A} cfg prefix (body : path → M A) u s :
  temp_dir cfg = Some u → u ≠ [] → tree (disk s) →
  (∀ c, disk s !! u ≠ Some (File c)) →
  (∀ t s0, t ≠ [] → dir_chain (disk s0) t →
           inside t (disk s0) (disk (body t s0).2)) →
  wiped u (disk s) (disk (temp_directory cfg prefix body s).2).
Proof.
  intros Htd Hu Htree Hnofile Hbody.
  unfold temp_directory. rewrite Htd. rewrite run_bind. simpl.
  rewrite run_bind.
  assert (∀ s0, tree (disk s0) → dir_chain (disk s0) u →
            let s' := (try_finally
                         (log DEBUG (CreatedTemporaryDirectory u) ;; body u)
                         (on_disk (fs_rmtree true u)) s0).2 in
            tree (disk s') ∧
            (∀ q, u `prefix_of` q → disk s' !! q = None) ∧
            (∀ q, ¬ u `prefix_of` q → disk s' !! q = disk s0 !! q)) as Hscope.
  { intros s0 Htree0 Hchain. unfold try_finally. rewrite run_bind. simpl.
    set (s1 := set_journal _ s0).
    destruct (Hbody u s1 Hu Hchain) as [Hc Ho].
    destruct (body u s1) as [r s2]. simpl in Hc, Ho.
    unfold on_disk, fs_rmtree. rewrite (Hc u) by done. simpl.
    assert (∀ q, ¬ u `prefix_of` q →
              filter (λ kv, ¬ u `prefix_of` kv.1) (disk s2) !! q =
                disk s0 !! q) as Hout.
    { intros q Hq. rewrite lookup_rmtree.
      destruct (decide (u `prefix_of` q)); [done|]. by apply Ho. }
    split; [|split; [|done]].
    - intros q [n Hq] k Hk.
      assert (¬ u `prefix_of` q) as Hnq.
      { intros Huq. rewrite lookup_rmtree, decide_True in Hq; done. }
      assert (¬ u `prefix_of` k) as Hnk.
      { intros Huk. apply Hnq. etrans; [exact Huk|]. etrans; [exact Hk|].
        apply parent_prefix. }
      rewrite Hout in Hq by done.
      destruct k as [|x k]; [done|]. simpl. rewrite Hout by done.
      by apply (Htree0 q (ex_intro _ n Hq) (x :: k)).
    - intros q Hq. rewrite lookup_rmtree. by rewrite decide_True. }
  unfold exists_. rewrite stat_nonempty by done.
  destruct (disk s !! u) as [[c|]|] eqn:Hd; simpl.
  - by destruct (Hnofile c).
  - destruct (Hscope s) as (H0 & H1 & H2); [done| |].
    { apply tree_chain; [done|]. by rewrite stat_nonempty. }
    split; [done|]. split; [done|]. intros q Hq. left. by apply H2.
  - unfold on_disk, fs_mkdir_parents.
    destruct (mkdirs_from [] u (disk s)) as [d0|e] eqn:Hmk; simpl.
    + destruct (Hscope (set_disk d0 s)) as (H0 & H1 & H2).
      { simpl. by eapply mkdirs_tree. }
      { simpl. intros q Hq. destruct q as [|x q]; [done|]. simpl.
        eapply mkdirs_from_made; [done|done|simpl; lia]. }
      split; [done|]. split; [done|]. intros q Hq. rewrite H2 by done. simpl.
      destruct (mkdirs_from_adds _ _ _ _ Hmk q) as [E|[E1 E2]]; [by left|].
      right. split; [|done].
      destruct (decide (q `prefix_of` u)) as [|Hno]; [done|].
      rewrite (mkdirs_from_only _ _ _ _ _ Hmk) in E2 by done. congruence.
    + split; [done|]. split; [|by left].
      intros q Hq. by apply (tree_absent _ u).
Qed.

Section WithinMemoryEfficient.
Context (cfg : config) (t : path) (Ht : t ≠ []).
Context (Hmerge : merge_duplicates cfg = false).

Lemma stays_memory_efficient_place m s :
  stays cfg t (memory_efficient_place cfg m t) s.
Proof.
  unfold memory_efficient_place. apply stays_when. intros _.
  rewrite Hmerge. simpl.
  apply stays_bind; [apply stays_mkdir_temp|intros _ s1 _].
  apply stays_bind; [apply stays_extract_temp|intros _ s2 _].
  apply stays_bind.
  { apply stays_on_disk. intros [Hc _] d'.
    apply mkdirs_inside; [done|]. by apply parent_side. }
  intros _ s3 _.
  apply stays_bind; [|intros _ s4 _; apply stays_rmtree_temp].
  apply stays_on_disk. intros [Hc _] d'. apply move_inside; [done| | |].
  - rewrite <- app_assoc. by apply prefix_app_r.
  - rewrite <- app_assoc. by apply app_ne_self.
  - by apply prefix_app_r.
Qed.

Lemma stays_memory_efficient_count_and_commit s :
  stays cfg t (memory_efficient_count_and_commit cfg t) s.
Proof.
  unfold memory_efficient_count_and_commit.
  apply stays_bind;
    [by apply stays_unmoved, unmoved_modify|intros _ s1 _].
  apply stays_bind;
    [by apply stays_unmoved, unmoved_modify|intros _ s2 _].
  apply stays_bind; [apply stays_get|intros ? ? [= <- <-]].
  destruct (batch_size cfg <=? files_in_batch s2); [|apply stays_ret].
  apply stays_bind; [apply stays_unmoved, unmoved_log|intros _ s3 _].
  apply stays_bind; [apply stays_unmoved, unmoved_append|intros _ s4 _].
  apply stays_bind;
    [|intros _ s5 _; by apply stays_unmoved, unmoved_modify].
  apply stays_when. intros _. by apply stays_reset_staging.
Qed.

Lemma stays_memory_efficient_members ms s :
  stays cfg t (for_each ms (λ m, memory_efficient_member cfg m t)) s.
Proof.
  revert s. induction ms as [|m r IH]; intros s; simpl; [apply stays_ret|].
  apply stays_bind; [|intros; apply IH].
  unfold memory_efficient_member. destruct (isfile m); [|apply stays_ret].
  apply stays_bind; [apply stays_memory_efficient_place|intros _ s1 _].
  apply stays_memory_efficient_count_and_commit.
Qed.

(** The body of the scope of [process_archive_memory_efficient]. *)
Lemma memory_efficient_body_inside a s :
  dir_chain (disk s) t →
  inside t (disk s)
    (disk
       ((modify (set_files_in_batch 0) ;;
         when (merge_duplicates cfg) (note_top_dirs a) ;;
         for_each (members a) (λ m, memory_efficient_member cfg m t) ;;
         s ← get;
         if 0 <? files_in_batch s then
           log DEBUG (AppendingFinalBatch (files_in_batch s)) ;;
           append_to_squashfs cfg (content_root cfg t s)
         else mret tt) s).2).
Proof.
  intros Hc.
  match goal with
  | |- inside t _ (disk (?m s).2) => assert (stays cfg t m s) as Hstay
  end.
  { apply stays_bind;
      [by apply stays_unmoved, unmoved_modify|intros _ s1 _].
    apply stays_bind.
    { apply stays_when. intros _. apply stays_unmoved, unmoved_note_top_dirs. }
    intros _ s2 _.
    apply stays_bind; [apply stays_memory_efficient_members|intros _ s3 _].
    apply stays_bind; [apply stays_get|intros ? ? [= <- <-]].
    destruct (0 <? files_in_batch s3); [|apply stays_ret].
    apply stays_bind; [apply stays_unmoved, unmoved_log|intros _ s4 _].
    apply stays_unmoved, unmoved_append. }
  destruct Hstay as [[Hc' _] Ho]; [|by split].
  split; [done|]. by rewrite Hmerge.
Qed.
End WithinMemoryEfficient.

(** In a dry run memory-efficient mode does no work on the disk, with
    or without merging. *)
Lemma memory_efficient_body_dry cfg t a s :
  dry_run cfg = true →
  dir_chain (disk s) t →
  inside t (disk s)
    (disk
       ((modify (set_files_in_batch 0) ;;
         when (merge_duplicates cfg) (note_top_dirs a) ;;
         for_each (members a) (λ m, memory_efficient_member cfg m t) ;;
         s ← get;
         if 0 <? files_in_batch s then
           log DEBUG (AppendingFinalBatch (files_in_batch s)) ;;
           append_to_squashfs cfg (content_root cfg t s)
         else mret tt) s).2).
Proof.
  intros Hdry Hc.
  match goal with
  | |- inside t _ (disk (?m s).2) => assert (Keeps unmoved m) as Hk
  end.
  { apply Keeps_bind; [apply _|by apply unmoved_modify|intros _].
    apply Keeps_bind; [apply _| |intros _].
    { apply Keeps_when; [apply _|apply unmoved_note_top_dirs]. }
    apply Keeps_bind; [apply _| |intros _].
    { apply Keeps_for_each; [apply _|]. intros m.
      unfold memory_efficient_member.
      destruct (isfile m); [|apply Keeps_ret; apply _].
      apply Keeps_bind; [apply _| |intros _].
      { unfold memory_efficient_place. rewrite Hdry. simpl.
        apply Keeps_ret; apply _. }
      unfold memory_efficient_count_and_commit. rewrite Hdry. simpl.
      apply Keeps_bind; [apply _|by apply unmoved_modify|intros _].
      apply Keeps_bind; [apply _|by apply unmoved_modify|intros _].
      apply Keeps_bind; [apply _|apply Keeps_get; apply _|intros s1].
      destruct (batch_size cfg <=? files_in_batch s1);
        [|apply Keeps_ret; apply _].
      apply Keeps_bind; [apply _|apply unmoved_log|intros _].
      apply Keeps_bind; [apply _|apply unmoved_append|intros _].
      apply Keeps_bind; [apply _|apply Keeps_ret; apply _|intros _].
      by apply unmoved_modify. }
    apply Keeps_bind; [apply _|apply Keeps_get; apply _|intros s1].
    destruct (0 <? files_in_batch s1); [|apply Keeps_ret; apply _].
    apply Keeps_bind; [apply _|apply unmoved_log|intros _].
    apply unmoved_append. }
  rewrite (unmoved_disk _ _ (Hk s)). by apply inside_refl.
Qed.

#[global] Instance restored_preorder : PreOrder restored.
Proof.
  split.
  - by intros s _.
  - intros s1 s2 s3 H12 H23 H1. rewrite H23, H12; [done..|].
    by rewrite H12.
Qed.

Lemma unmoved_restored s s' : unmoved s s' → restored s s'.
Proof. by intros [Hd _] _. Qed.

Lemma Keeps_unmoved_restored {A} (m : M A) : Keeps unmoved m → Keeps restored m.
Proof. intros Hm s. apply unmoved_restored, Hm. Qed.

Lemma unmoved_check_tools cfg : Keeps unmoved (check_tools cfg).
Proof.
  intros s. unfold check_tools, subprocess_run_checked, subprocess_run.
  run_M. simpl. repeat case_match; simplify_eq/=; by split.
Qed.

Section Restored.
Context (cfg : config) (Htd : temp_dir cfg = None).

Lemma restored_process_archive_streaming a :
  Keeps restored (process_archive_streaming cfg a).
Proof.
  intros s Htree. unfold process_archive_streaming. rewrite run_bind. simpl.
  rewrite scope_restores; [done|done|done|].
  intros t s0 Ht Hc. by apply streaming_body_inside.
Qed.

Lemma restored_process_archive_memory_efficient a :
  merge_duplicates cfg = false ∨ dry_run cfg = true →
  Keeps restored (process_archive_memory_efficient cfg a).
Proof.
  intros Hmode s Htree. unfold process_archive_memory_efficient.
  rewrite run_bind. simpl.
  rewrite scope_restores; [done|done|done|].
  intros t s0 Ht Hc. destruct Hmode as [Hmerge|Hdry].
  - by apply memory_efficient_body_inside.
  - by apply memory_efficient_body_dry.
Qed.

Lemma restored_initialize_squashfs : Keeps restored (initialize_squashfs cfg).
Proof.
  intros s Htree. unfold initialize_squashfs.
  destruct (dry_run cfg); [done|].
  rewrite scope_restores; [done|done|done|].
  intros t s0 Ht Hc. rewrite run_bind. unfold on_disk at 1.
  destruct (fs_mkdir false (t ++ ["empty"]) (disk s0)) as [d'|e] eqn:Hmk;
    simpl; [|by apply inside_refl].
  apply (mkdir_inside t) in Hmk;
    [|done|by apply prefix_app_r|by apply app_ne_self].
  match goal with
  | |- inside t _ (disk (?m ?s1).2) =>
      assert (Keeps unmoved m) as Hk
  end.
  { apply Keeps_bind; [apply _| |intros _; apply unmoved_log].
    intros s1. unfold subprocess_run_checked, subprocess_run.
    run_M. simpl. repeat case_match; simplify_eq/=; by split. }
  by rewrite (unmoved_disk _ _ (Hk _)).
Qed.

Lemma restored_archives_loop l mode i total :
  mode = false ∨ merge_duplicates cfg = false ∨ dry_run cfg = true →
  Keeps restored (archives_loop cfg l mode i total).
Proof.
  intros Hmode. revert i. induction l as [|a r IH]; intros i; simpl.
  - apply Keeps_ret; apply _.
  - apply Keeps_bind; [apply _| |intros _].
    { apply Keeps_unmoved_restored, unmoved_log. }
    apply Keeps_bind; [apply _| |intros _; apply IH].
    destruct mode.
    + destruct Hmode as [?|Hm]; [done|].
      by apply restored_process_archive_memory_efficient.
    + apply restored_process_archive_streaming.
Qed.

Lemma restored_build_from_archives l mode :
  mode = false ∨ merge_duplicates cfg = false ∨ dry_run cfg = true →
  Keeps restored (build_from_archives cfg l mode).
Proof.
  intros Hmode. unfold build_from_archives.
  apply Keeps_bind; [apply _| |intros _].
  { apply Keeps_when; [apply _|].
    apply Keeps_unmoved_restored, unmoved_check_tools. }
  apply Keeps_bind; [apply _|apply restored_initialize_squashfs|intros _].
  apply Keeps_bind; [apply _|by apply restored_archives_loop|intros _].
  apply Keeps_bind; [apply _|apply Keeps_get; apply _|intros s0].
  apply Keeps_bind; [apply _| |intros _].
  { apply Keeps_unmoved_restored, unmoved_log. }
  apply Keeps_when; [apply _|]. apply Keeps_unmoved_restored, unmoved_log.
Qed.
End Restored.

(** ** Runs in a fixed temporary directory *)

Section Wiped.
Context (cfg : config) (u : path).
Context (Htd : temp_dir cfg = Some u) (Hu : u ≠ []).

Lemma wiped_process_archive a mode s :
  mode = false ∨ merge_duplicates cfg = false ∨ dry_run cfg = true →
  tree (disk s) → (∀ c, disk s !! u ≠ Some (File c)) →
  wiped u (disk s) (disk (process_archive cfg mode a s).2).
Proof.
  intros Hmode Htree Hnofile. unfold process_archive. destruct mode.
  - destruct Hmode as [?|Hmode]; [done|].
    unfold process_archive_memory_efficient. rewrite run_bind. simpl.
    apply (scope_wipes_full cfg "batch_" _ u
             (set_journal (Log INFO (ProcessingArchiveMemoryEfficient
                                       (archive_name a)) :: journal s) s));
      try done.
    intros t s0 Ht Hc. destruct Hmode as [Hmerge|Hdry].
    + by apply memory_efficient_body_inside.
    + by apply memory_efficient_body_dry.
  - unfold process_archive_streaming. rewrite run_bind. simpl.
    apply (scope_wipes_full cfg "extract_" _ u
             (set_journal (Log INFO (ProcessingArchive (archive_name a))
                             :: journal s) s)); try done.
    intros t s0 Ht Hc. by apply streaming_body_inside.
Qed.

Lemma wiped_archives_loop l mode i total s :
  mode = false ∨ merge_duplicates cfg = false ∨ dry_run cfg = true →
  l ≠ [] → tree (disk s) → (∀ c, disk s !! u ≠ Some (File c)) →
  wiped u (disk s) (disk (archives_loop cfg l mode i total s).2).
Proof.
  intros Hmode. revert i s.
  induction l as [|a r IH]; intros i s Hl Htree Hnofile; [done|].
  cbn [archives_loop]. rewrite run_bind. simpl. rewrite run_bind.
  set (s0 := set_journal _ s).
  pose proof (wiped_process_archive a mode s0 Hmode Htree Hnofile) as Hw.
  unfold process_archive in Hw.
  destruct ((if mode then process_archive_memory_efficient cfg a
             else process_archive_streaming cfg a) s0) as [[[]|e] s1];
    simpl in Hw |- *; [|done].
  destruct r as [|b r]; [done|].
  eapply wiped_trans; [exact Hw|]. apply IH; [done|by destruct Hw|].
  intros c. destruct Hw as (_ & Hnone & _). by rewrite Hnone.
Qed.
End Wiped.

(** A run over archives whose regular files have plain names, staging
    in directories made by [mkdtemp] (no fixed temporary directory),
    leaves the disk exactly as it found it, whatever the outcome:
    completed, stopped by a failure of the tool or by an error on the
    disk, real or dry.  This holds in streaming mode, and in
    memory-efficient mode when merging is off or the run is a dry run.
    (The image is written by the tool and is not part of the modelled
    disk; the disk is assumed to be a tree.) *)
Theorem run_leaves_the_disk_as_found cfg l mode s :
  temp_dir cfg = None →
  mode = false ∨ merge_duplicates cfg = false ∨ dry_run cfg = true →
  Forall (λ a, plain_files (members a)) l →
  tree (disk s) →
  disk (build_from_archives cfg l mode s).2 = disk s.
Proof. intros Htd Hmode _ Htree. by apply restored_build_from_archives. Qed.

Lemma run_leaves_the_disk_as_found_witness :
  disk (build_from_archives (plain_config 2 false true)
          [archive_of_three; archive_with_duplicate] false
          (init_state bare_disk)).2 = bare_disk.
Proof.
  apply (run_leaves_the_disk_as_found (plain_config 2 false true)
           [archive_of_three; archive_with_duplicate] false
           (init_state bare_disk)).
  - reflexivity.
  - by left.
  - apply (bool_decide_unpack _). by vm_compute.
  - apply treeb_sound. vm_compute. reflexivity.
Defined.

(** * The image starts empty *)

(** The creation of the image in a real run, on a disk that is a tree:
    when it returns normally, the tool has been run once, without a time
    limit, on a directory [empty] that was made for this run inside the
    scoped staging directory and holds nothing.  So the image holds
    nothing before the first commit.  The journal tells the whole
    story: the staging directory, the run of the tool, the record of
    success. *)
Theorem image_is_created_from_an_empty_directory cfg s s' :
  dry_run cfg = false → tree (disk s) →
  initialize_squashfs cfg s = (Ok tt, s') →
  ∃ t seen,
    journal s' =
      [Log INFO Initialized;
       Run (MksquashfsCreate (t ++ ["empty"]) (output_file cfg)
              (comp_option cfg)) None seen;
       Log DEBUG (CreatedTemporaryDirectory t)] ++ journal s ∧
    seen !! (t ++ ["empty"]) = Some Dir ∧
    clear_below seen (t ++ ["empty"]) ∧
    exits_well cfg (tool_calls s) ∧
    tool_calls s' = S (tool_calls s).
Proof.
  intros Hdry Htree. unfold initialize_squashfs. rewrite Hdry.
  assert (∀ t s0,
    (∀ q, t ++ ["empty"] `prefix_of` q → disk s0 !! q = None) →
    try_finally
      (log DEBUG (CreatedTemporaryDirectory t) ;;
       on_disk (fs_mkdir false (t ++ ["empty"])) ;;
       subprocess_run_checked cfg
         (MksquashfsCreate (t ++ ["empty"]) (output_file cfg)
            (comp_option cfg)) ;;
       log INFO Initialized)
      (on_disk (fs_rmtree true t)) s0 = (Ok tt, s') →
    ∃ seen,
      journal s' =
        [Log INFO Initialized;
         Run (MksquashfsCreate (t ++ ["empty"]) (output_file cfg)
                (comp_option cfg)) None seen;
         Log DEBUG (CreatedTemporaryDirectory t)] ++ journal s0 ∧
      seen !! (t ++ ["empty"]) = Some Dir ∧
      clear_below seen (t ++ ["empty"]) ∧
      exits_well cfg (tool_calls s0) ∧
      tool_calls s' = S (tool_calls s0)) as Hbody.
  { intros t s0 Hnone (s1 & H & Hclean)%try_finally_ok.
    apply on_disk_ok in Hclean as (d' & _ & ->).
    apply bind_ok in H as ([] & s2 & Hlog & H). injection Hlog as <-.
    apply bind_ok in H as ([] & s3 & (d1 & Hmk & ->)%on_disk_ok & H).
    apply bind_ok in H as ([] & s4 & Hrun & Hlog). injection Hlog as <-.
    unfold subprocess_run_checked, subprocess_run in Hrun.
    revert Hrun. run_M. simpl.
    destruct (Z.eqb_spec (returncode (tool cfg (tool_calls s0))) 0) as [Hz|];
      [|done].
    intros [= <-]. simpl in *. unfold fs_mkdir in Hmk.
    rewrite stat_snoc, parent_snoc in Hmk.
    destruct (disk s0 !! (t ++ ["empty"])) as [n|]; [by destruct n|].
    destruct (stat (disk s0) t) as [[]|]; [done| |done].
    injection Hmk as <-.
    eexists. split_and!; [done| | |done|done].
    - apply lookup_insert_eq.
    - intros q Hq Hne. rewrite lookup_insert_ne by done. by apply Hnone. }
  unfold temp_directory. destruct (temp_dir cfg) as [u|].
  - intros (s_ & ? & Hget & H)%bind_ok. injection Hget as <- <-.
    apply bind_ok in H as ([] & s0 & Hmk & H).
    destruct (exists_ (disk s) u) eqn:Hex; simpl in Hmk.
    + injection Hmk as <-.
      exists u. apply Hbody; [|done].
      apply try_finally_ok in H as (s1 & H & _).
      apply bind_ok in H as ([] & s2 & Hlog & H). injection Hlog as <-.
      apply bind_ok in H as ([] & s3 & (d1 & Hmk & _)%on_disk_ok & _).
      simpl in Hmk. unfold fs_mkdir in Hmk. rewrite stat_snoc in Hmk.
      destruct (disk s !! (u ++ ["empty"])) as [n|] eqn:Hnone;
        [by destruct n|].
      intros q Hq. apply (tree_absent (disk s) (u ++ ["empty"]) q);
        [done|by destruct u|done|done].
    + apply on_disk_ok in Hmk as (d0 & Hmk & ->).
      destruct (Hbody u (set_disk d0 s)) as (seen & Hj); [|done|by exists u, seen].
      simpl. intros q Hq. unfold fs_mkdir_parents in Hmk.
      assert (u `prefix_of` q) as Huq.
      { etrans; [|exact Hq]. by apply prefix_app_r. }
      assert (u ≠ q) as Hne.
      { intros <-. by apply prefix_app_self_nil in Hq. }
      rewrite (mkdirs_from_only _ _ _ _ _ Hmk).
      * apply (tree_absent (disk s) u q); [done| |  |done].
        -- intros ->. done.
        -- unfold exists_ in Hex. destruct u; [done|]. simpl in Hex.
           by destruct (disk s !! (s0 :: u)).
      * simpl. by apply clear_below_not_prefix.
  - intros (t & s0 & Hmk & H)%bind_ok.
    unfold mkdtemp in Hmk.
    destruct (stat (disk s) _) as [[]|]; [done| |done].
    destruct (exists_ (disk s) _) eqn:Hex; [done|].
    injection Hmk as <- <-.
    set (t := default ["tmp"] (temp_base cfg) ++ _) in *.
    destruct (Hbody t (set_temp_serial (S (temp_serial s))
                         (set_disk (<[t := Dir]> (disk s)) s)))
      as (seen & Hj); [|done|by exists t, seen].
    simpl. intros q Hq.
    assert (t `prefix_of` q) as Htq.
    { etrans; [|exact Hq]. by apply prefix_app_r. }
    assert (t ≠ q) as Hne.
    { intros <-. by apply prefix_app_self_nil in Hq. }
    rewrite lookup_insert_ne by done.
    assert (t ≠ []) as Ht0 by (unfold t; by destruct (default _ _)).
    apply (tree_absent (disk s) t q); [done|done| |done].
    unfold exists_ in Hex. rewrite stat_nonempty in Hex by done.
    by destruct (disk s !! t).
Qed.

Lemma image_is_created_from_an_empty_directory_witness :
  let cfg := plain_config 2 false true in
  let s' := (initialize_squashfs cfg (init_state bare_disk)).2 in
  ∃ seen,
    journal s' =
      [Log INFO Initialized;
       Run (MksquashfsCreate ["tmp"; "squashfs_0"; "empty"] ["out.sqfs"]
              (Some "xz")) None seen;
       Log DEBUG (CreatedTemporaryDirectory ["tmp"; "squashfs_0"])] ∧
    clear_below seen ["tmp"; "squashfs_0"; "empty"].
Proof.
  intros cfg s'.
  assert ((initialize_squashfs cfg (init_state bare_disk)).1 = Ok tt)
    as Hok by (vm_compute; reflexivity).
  assert (tree (disk (init_state bare_disk))) as Htree.
  { apply treeb_sound. vm_compute. reflexivity. }
  destruct (image_is_created_from_an_empty_directory cfg
              (init_state bare_disk) s' eq_refl Htree (run_ok_eq _ _ _ Hok))
    as (t & seen & Hj & _ & Hclear & _).
  assert (t = ["tmp"; "squashfs_0"]) as ->.
  { assert (journal s' !! 2%nat =
            Some (Log DEBUG (CreatedTemporaryDirectory ["tmp"; "squashfs_0"])))
      as Hthird by (by vm_compute).
    rewrite Hj in Hthird. simpl in Hthird. by injection Hthird as ->. }
  exists seen. split; [|exact Hclear].
  rewrite Hj. by rewrite app_nil_r.
Defined.

(** A dry run from the command line, without a fixed temporary
    directory: however [main] ends, the tool has not been run and the
    disk is as it was found; not even the output directory is made.
    When [main] returns, its last record says that no files were
    created. *)
Theorem dry_run_of_main_changes_nothing env args d :
  arg_dry_run args = true → arg_temp_dir args = None → tree d →
  let res := main env args d in
  disk (builder_state res) = d ∧
  tool_calls (builder_state res) = 0%nat ∧
  tool_runs (builder_state res) = [] ∧
  (ending_of res = Returns →
   last (console res) = Some (INFO, NoFilesWereCreated)).
Proof.
  intros Hdry Htd Htree res. subst res. unfold main.
  destruct (negb (bool_decide (arg_compression args ∈ valid_compressions)));
    [done|].
  destruct (find_archives (input_dir args) d) as [[found skipped]|e];
    [|done].
  destruct (bool_decide (found = [])); [done|].
  rewrite Hdry. simpl.
  set (cfg := builder_config env args).
  set (l := archive_at env <$> found).
  assert (dry_run cfg = true) as Hdry' by done.
  pose proof (sparing_build_from_archives cfg Hdry' l (memory_efficient args)
                (init_state d)) as Hs.
  pose proof (restored_build_from_archives cfg Htd l (memory_efficient args)
                (or_intror (or_intror Hdry')) (init_state d) Htree) as Hd.
  destruct (build_from_archives cfg l (memory_efficient args) (init_state d))
    as [[[]|e] s]; simpl in *.
  - split_and!; [done|apply (sparing_calls _ _ Hs)| |].
    + unfold tool_runs. by rewrite (sparing_runs _ _ Hs).
    + intros _. by rewrite last_snoc.
  - split_and!; [done|apply (sparing_calls _ _ Hs)| |done].
    unfold tool_runs. by rewrite (sparing_runs _ _ Hs).
Qed.

Lemma dry_run_of_main_changes_nothing_witness :
  let res := main shelf_env (shelf_args true true) shelf_disk in
  ending_of res = Returns ∧ total_files (builder_state res) = 3 ∧
  disk (builder_state res) = shelf_disk ∧
  tool_runs (builder_state res) = [].
Proof.
  intros res.
  destruct (dry_run_of_main_changes_nothing shelf_env (shelf_args true true)
              shelf_disk) as (Hd & _ & Hr & _).
  - reflexivity.
  - reflexivity.
  - apply treeb_sound. vm_compute. reflexivity.
  - split; [by vm_compute|]. split; [by vm_compute|]. by split.
Defined.

(** A real run from the command line, without a fixed temporary
    directory, in streaming mode or with merging off, over archives
    whose regular files have plain names: however [main] ends, the disk is as it was found, except that the directory of
    the image has been made, with its parents, when it was missing and
    the run came that far.  (The image itself is written by the tool
    and is not part of the modelled disk.)  When [main] returns, the
    path of that directory exists. *)
Theorem main_leaves_only_the_output_directory env args d :
  arg_dry_run args = false → arg_temp_dir args = None → tree d →
  memory_efficient args = false ∨ no_merge_duplicates args = true →
  (∀ p, plain_files (tar_members env p)) →
  let res := main env args d in
  let output_dir := parent (output args) in
  (disk (builder_state res) = d ∨
   exists_ d output_dir = false ∧
   fs_mkdir_parents output_dir d = Ok (disk (builder_state res))) ∧
  (ending_of res = Returns →
   exists_ (disk (builder_state res)) output_dir = true).
Proof.
  intros Hdry Htd Htree Hmode _ res output_dir. subst res output_dir.
  unfold main.
  destruct (negb (bool_decide (arg_compression args ∈ valid_compressions)));
    [by split; [left|]|].
  destruct (find_archives (input_dir args) d) as [[found skipped]|e];
    [|by split; [left|]].
  destruct (bool_decide (found = [])); [by split; [left|]|].
  rewrite Hdry. cbn [negb andb].
  set (cfg := builder_config env args).
  set (l := archive_at env <$> found).
  set (od := parent (output args)).
  assert (mode_ok : memory_efficient args = false ∨
                    merge_duplicates cfg = false ∨ dry_run cfg = true).
  { destruct Hmode as [?|Hno]; [by left|]. right. left. simpl.
    by rewrite Hno. }
  assert (∀ d1, tree d1 →
            disk (build_from_archives cfg l (memory_efficient args)
                    (init_state d1)).2 = d1) as Hrun.
  { intros d1 Htree1.
    apply (restored_build_from_archives cfg Htd l (memory_efficient args)
             mode_ok (init_state d1) Htree1). }
  destruct (exists_ d od) eqn:Hex; simpl.
  - destruct (writable env od); simpl; [|by split; [left|]].
    specialize (Hrun d Htree).
    destruct (build_from_archives cfg l (memory_efficient args) (init_state d))
      as [[[]|e] s]; simpl in *; (split; [by left|]); [|done].
    intros _. by rewrite Hrun.
  - destruct (fs_mkdir_parents od d) as [d1|e] eqn:Hmk; simpl;
      [|by split; [left|]].
    assert (exists_ d1 od = true) as Hdir.
    { unfold exists_. destruct od as [|x od'] eqn:Hod; [done|]. simpl.
      by erewrite mkdirs_from_made; [|exact Hmk|done|simpl; lia]. }
    destruct (writable env od); simpl; [|by split; [right|]].
    specialize (Hrun d1 (mkdirs_tree _ _ _ Htree Hmk)).
    destruct (build_from_archives cfg l (memory_efficient args) (init_state d1))
      as [[[]|e] s]; simpl in *; rewrite Hrun; by split; [right|].
Qed.

Lemma main_leaves_only_the_output_directory_witness :
  let res := main shelf_env (shelf_args false false) shelf_disk in
  exists_ shelf_disk ["out"] = false ∧
  exists_ (disk (builder_state res)) ["out"] = true.
Proof.
  intros res.
  assert (tree shelf_disk) as Htree.
  { apply treeb_sound. vm_compute. reflexivity. }
  assert (ending_of res = Returns) as Hend by (vm_compute; reflexivity).
  assert (∀ p, plain_files (tar_members shelf_env p)) as Hplain.
  { intros p. apply (bool_decide_unpack _). by vm_compute. }
  destruct (main_leaves_only_the_output_directory shelf_env
              (shelf_args false false) shelf_disk eq_refl eq_refl Htree
              (or_introl eq_refl) Hplain) as [_ Hret].
  split; [vm_compute; reflexivity|]. exact (Hret Hend).
Defined.


(** With a fixed temporary directory [u], processing an archive whose
    regular files have plain names in streaming mode ends, whatever the
    outcome, with nothing at or below [u]: the directory itself is
    removed, together with whatever it held before the run.  Every
    entry that is neither below [u] nor an ancestor of [u] is as it
    was. *)
Theorem fixed_temp_dir_is_wiped cfg a u s :
  temp_dir cfg = Some u → u ≠ [] → tree (disk s) →
  (∀ c, disk s !! u ≠ Some (File c)) →
  plain_files (members a) →
  let s' := (process_archive_streaming cfg a s).2 in
  (∀ q, u `prefix_of` q → disk s' !! q = None) ∧
  (∀ q, ¬ u `prefix_of` q → ¬ q `prefix_of` u → disk s' !! q = disk s !! q).
Proof.
  intros Htd Hu Htree Hnofile _. unfold process_archive_streaming.
  rewrite run_bind. simpl.
  apply (scope_wipes cfg "extract_" _ u
           (set_journal (Log INFO (ProcessingArchive (archive_name a))
                           :: journal s) s)); try done.
  intros t s0 Ht Hc. by apply streaming_body_inside.
Qed.

Lemma fixed_temp_dir_is_wiped_witness :
  let s' := (process_archive_streaming scratch_config archive_of_three
               (init_state scratch_disk)).2 in
  scratch_disk !! ["scratch"; "keep.txt"] = Some (File "mine") ∧
  disk s' !! ["scratch"; "keep.txt"] = None ∧
  disk s' !! ["scratch"] = None ∧
  disk s' !! ["home"] = Some Dir.
Proof.
  intros s'.
  destruct (fixed_temp_dir_is_wiped scratch_config archive_of_three
              ["scratch"] (init_state scratch_disk)) as [Hin Hout].
  - reflexivity.
  - done.
  - apply treeb_sound. vm_compute. reflexivity.
  - intros c. by vm_compute.
  - apply (bool_decide_unpack _). by vm_compute.
  - split; [by vm_compute|]. split; [|split].
    + apply Hin. by exists ["keep.txt"].
    + apply Hin. by exists [].
    + unfold s'. rewrite Hout.
      * by vm_compute.
      * intros [k Hk]. discriminate.
      * intros [k Hk]. discriminate.
Defined.

(** * Every file reaches a commit *)

(** The counting step of a real run: at the batch boundary it commits
    the content root as the disk then is, otherwise it only counts. *)
Lemma count_and_commit_commits cfg e s s' :
  dry_run cfg = false →
  count_and_commit cfg e s = (Ok tt, s') →
  if batch_size cfg <=? files_in_batch s + 1
  then appends_of (journal s') =
         (content_root cfg e s, disk s) :: appends_of (journal s) ∧
       files_in_batch s' = 0
  else s' = set_total_files (total_files s + 1)
              (set_files_in_batch (files_in_batch s + 1) s).
Proof.
  intros Hdry. unfold count_and_commit. run_M. simpl.
  destruct (batch_size cfg <=? files_in_batch s + 1) eqn:Hb.
  - rewrite Hdry. simpl.
    match goal with
    | |- context [append_to_squashfs cfg ?r ?s0] =>
        destruct (append_to_squashfs cfg r s0) as [[[]|err] s1] eqn:Happ
    end; [|discriminate].
    apply append_real_ok in Happ as ->; [|done].
    match goal with
    | |- context [reset_staging cfg e ?s0] =>
        pose proof (quiet_reset_staging cfg e s0) as Hq;
        destruct (reset_staging cfg e s0) as [[[]|err] s2]
    end; [|discriminate].
    intros [= <-]. simpl in *. by rewrite (quiet_appends _ _ Hq).
  - by intros [= <-].
Qed.

Lemma delivered_app_l cs1 cs2 m : delivered cs2 m → delivered (cs1 ++ cs2) m.
Proof. intros (c & Hc & H). exists c. split; [|done]. apply elem_of_app. auto. Qed.

Lemma delivered_app_r cs1 cs2 m : delivered cs1 m → delivered (cs1 ++ cs2) m.
Proof. intros (c & Hc & H). exists c. split; [|done]. apply elem_of_app. auto. Qed.

Lemma pending_delivered root W s cs :
  pending root W s → ∀ w, w ∈ W → delivered ((root, disk s) :: cs) w.
Proof.
  intros Hp w Hw. exists (root, disk s). split; [by left|]. by apply Hp.
Qed.

(** With merging off and distinct member paths: along the streaming
    loop every regular file read so far is either in place in the
    staging directory or in one of the commits. *)
Lemma streaming_loop_delivers_plain cfg ms e k s k' s' W :
  merge_duplicates cfg = false → dry_run cfg = false →
  NoDup (file_paths ms) →
  (∀ w, w ∈ W → path_parts (name w) ∉ file_paths ms) →
  pending e W s → Z.of_nat (length W) = files_in_batch s →
  streaming_loop cfg ms e k s = (Ok k', s') →
  ∃ new W',
    appends_of (journal s') = new ++ appends_of (journal s) ∧
    pending e W' s' ∧ Z.of_nat (length W') = files_in_batch s' ∧
    ∀ m, m ∈ W ∨ (m ∈ ms ∧ isfile m = true) → m ∈ W' ∨ delivered new m.
Proof.
  intros Hm Hdry. revert k s W.
  induction ms as [|m r IH]; intros k s W Hnodup Hfresh Hpend Hlen; simpl.
  - intros [= <- <-]. exists [], W. split_and!; try done.
    intros m [?|[[]%elem_of_nil _]]. by left.
  - rewrite file_paths_cons in Hnodup, Hfresh. rewrite Hm. simpl.
    destruct (isfile m) eqn:Hf.
    2:{ intros Hrest.
        destruct (IH _ _ _ Hnodup Hfresh Hpend Hlen Hrest)
          as (new & W' & Hnew & Hpend' & Hlen' & Hall).
        exists new, W'. split_and!; try done.
        intros m' [?|[[->|?]%elem_of_cons Hf']]; [auto|congruence|auto]. }
    apply NoDup_cons in Hnodup as [Hnew Hnodup].
    intros ([] & s0 & Hsetup & ([] & s2 & Hmember & Hrest)%bind_ok)%bind_ok.
    injection Hsetup as <-.
    unfold process_tar_member in Hmember. rewrite Hf in Hmember.
    apply bind_ok in Hmember as ([] & s1 & Hplace & Hcount).
    unfold place_member in Hplace. rewrite Hdry, Hm in Hplace.
    simpl in Hplace.
    apply on_disk_ok in Hplace as (d' & Hex & ->).
    apply fs_extract_ok in Hex as (d1 & Hadds & _ & ->).
    set (s1 := set_disk _ s) in *.
    assert (pending e (m :: W) s1) as Hpend1.
    { intros w [->|Hw]%elem_of_cons; simpl.
      - apply lookup_insert_eq.
      - rewrite lookup_insert_ne.
        + rewrite adds_dirs_file by done. by apply Hpend.
        + intros E%app_inv_head. apply (Hfresh w Hw). rewrite <- E. by left. }
    pose proof (count_and_commit_commits cfg e s1 s2 Hdry Hcount) as Hc.
    change (files_in_batch s1) with (files_in_batch s) in Hc.
    destruct (batch_size cfg <=? files_in_batch s + 1).
    + destruct Hc as [Happ Hzero].
      assert (∀ w, w ∈ [] → path_parts (name w) ∉ file_paths r) as Hf0
        by (by intros w ?%elem_of_nil).
      assert (pending e [] s2) as Hp0 by (by intros w ?%elem_of_nil).
      assert (Z.of_nat (length (@nil member)) = files_in_batch s2) as Hl0
        by (by rewrite Hzero).
      destruct (IH _ s2 [] Hnodup Hf0 Hp0 Hl0 Hrest)
        as (new & W' & Hnew' & Hpend' & Hlen' & Hall).
      exists (new ++ [(content_root cfg e s1, disk s1)]), W'.
      split_and!; try done.
      * by rewrite Hnew', Happ, <- app_assoc.
      * unfold content_root. rewrite Hm.
        intros m' [Hw|[[->|Hr]%elem_of_cons Hf']].
        -- right. apply delivered_app_l, (pending_delivered e (m :: W) s1);
             [done|by right].
        -- right. apply delivered_app_l, (pending_delivered e (m :: W) s1);
             [done|by left].
        -- destruct (Hall m') as [?|?]; [by right|by left|].
           right. by apply delivered_app_r.
    + subst s2.
      assert (∀ w, w ∈ m :: W → path_parts (name w) ∉ file_paths r) as Hf1.
      { intros w [->|Hw]%elem_of_cons; [done|].
        intros Hin. apply (Hfresh w Hw). by right. }
      assert (Z.of_nat (length (m :: W)) = files_in_batch s + 1) as Hl1.
      { simpl length. rewrite <- Hlen. lia. }
      destruct (IH _ (set_total_files (total_files s1 + 1)
                        (set_files_in_batch (files_in_batch s + 1) s1))
                  (m :: W) Hnodup Hf1 Hpend1 Hl1 Hrest)
        as (new & W' & Hnew' & Hpend' & Hlen' & Hall).
      exists new, W'. split_and!; try done.
      intros m' [Hw|[[->|Hr]%elem_of_cons Hf']].
      * apply Hall. left. by right.
      * apply Hall. left. by left.
      * apply Hall. by right.
Qed.

Lemma appends_grow s s' new :
  appends_of (journal s') = new ++ appends_of (journal s) →
  appends s' = appends s ++ rev new.
Proof. unfold appends. intros ->. apply rev_app_distr. Qed.

Lemma delivered_rev cs m : delivered cs m → delivered (rev cs) m.
Proof.
  intros (c & Hc & H). exists c. split; [|done].
  apply list_elem_of_In, in_rev. rewrite rev_involutive.
  by apply list_elem_of_In.
Qed.

(** Streaming mode with merging off hands every regular file of an
    archive to the tool. *)
Lemma streaming_delivers_plain cfg a s s' :
  dry_run cfg = false → merge_duplicates cfg = false →
  NoDup (file_paths (members a)) →
  process_archive_streaming cfg a s = (Ok tt, s') →
  ∃ new,
    appends s' = appends s ++ new ∧
    ∀ m, m ∈ members a → isfile m = true → delivered new m.
Proof.
  intros Hdry Hm Hnodup
    (t & s0 & k & s1 & s2 & Hq0 & Hfib0 & _ & _ & Hloop & Hfin & Hq2)
      %process_archive_streaming_inv.
  assert (∀ w, w ∈ [] → path_parts (name w) ∉ file_paths (members a)) as Hf0
    by (by intros w ?%elem_of_nil).
  assert (pending t [] s0) as Hp0 by (by intros w ?%elem_of_nil).
  assert (Z.of_nat (length (@nil member)) = files_in_batch s0) as Hl0
    by (by rewrite Hfib0).
  destruct (streaming_loop_delivers_plain cfg (members a) t 0 s0 k s1 []
              Hm Hdry Hnodup Hf0 Hp0 Hl0 Hloop)
    as (new & W' & Hnew & Hpend & Hlen & Hall).
  assert (appends_of (journal s0) = appends_of (journal s)) as Hsame
    by apply (quiet_appends _ _ Hq0).
  assert (appends_of (journal s') = appends_of (journal s2)) as Hlast
    by apply (quiet_appends _ _ Hq2).
  destruct (0 <? files_in_batch s1) eqn:Hpos.
  - apply bind_ok in Hfin as ([] & s3 & Hlog & Happ). injection Hlog as <-.
    apply append_real_ok in Happ as ->; [|done].
    exists (rev ((content_root cfg t s1, disk s1) :: new)). split.
    + apply appends_grow. rewrite Hlast. simpl. by rewrite Hnew, Hsame.
    + intros m Hin Hf. apply delivered_rev.
      destruct (Hall m) as [Hw|Hd]; [by right| |].
      * unfold content_root. rewrite Hm.
        by apply (pending_delivered t W' s1).
      * by apply (delivered_app_l [_]).
  - injection Hfin as <-.
    assert (W' = []) as ->.
    { apply Z.ltb_ge in Hpos. destruct W'; [done|]. simpl length in Hlen. lia. }
    exists (rev new). split.
    + apply appends_grow. rewrite Hlast. simpl. by rewrite Hnew, Hsame.
    + intros m Hin Hf. apply delivered_rev.
      destruct (Hall m) as [[]%elem_of_nil|Hd]; [by right|done].
Qed.

(** With merging off, when the regular files of an archive have plain
    names and pairwise distinct paths, a real run of streaming mode
    that completes has handed every one of them to the tool: for each
    regular file there is a commit of this archive whose content root
    held, when the tool read it, the file's content at the file's
    path. *)
Theorem streaming_commits_every_file cfg a s s' :
  dry_run cfg = false → merge_duplicates cfg = false →
  plain_files (members a) →
  NoDup (file_paths (members a)) →
  process_archive_streaming cfg a s = (Ok tt, s') →
  ∃ new,
    appends s' = appends s ++ new ∧
    ∀ m, m ∈ members a → isfile m = true → delivered new m.
Proof. intros Hdry Hm _. by apply streaming_delivers_plain. Qed.

Lemma streaming_commits_every_file_witness :
  let cfg := plain_config 2 false false in
  let s' := (process_archive_streaming cfg archive_of_three
               (init_state bare_disk)).2 in
  ∃ new, appends s' = [] ++ new ∧
         delivered new (regular "foo/z.txt" "3").
Proof.
  intros cfg s'.
  assert ((process_archive_streaming cfg archive_of_three
             (init_state bare_disk)).1 = Ok tt)
    as Hok by (vm_compute; reflexivity).
  destruct (streaming_commits_every_file cfg archive_of_three
              (init_state bare_disk) s' eq_refl eq_refl)
    as (new & Hnew & Hall).
  - apply (bool_decide_unpack _). by vm_compute.
  - apply (bool_decide_unpack _). by vm_compute.
  - exact (run_ok_eq _ _ _ Hok).
  - exists new. split; [exact Hnew|]. apply Hall; [|done].
    apply elem_of_cons. right. apply elem_of_cons. right.
    apply elem_of_cons. by left.
Defined.

(** ** With merging on *)

(** Placing an entry that lies in a directory, apart from the entries
    placed before it: what happens to the disk. *)
Lemma place_merged_disk cfg m e t r P s s1 :
  merge_duplicates cfg = true → dry_run cfg = false →
  truthy t = true → path_parts (name m) = t :: r → r ≠ [] →
  Forall (apart (t :: r)) P →
  merged_staged e P ((t :: r) :: P) s →
  place_member cfg m e (Some t) s = (Ok tt, s1) →
  ∃ dm, adds_dirs (disk s) dm ∧
        s1 = set_disk
               (<[(e ++ ["merged"]) ++ t :: r := File (content m)]> dm) s.
Proof.
  intros Hm Hdry Ht Hparts Hr Hapart Hst.
  set (ps := t :: r) in *. set (mr := e ++ ["merged"]) in *.
  set (dst := mr ++ ps).
  assert (ps ≠ []) as Hps by done.
  assert (dst ≠ []) as Hdst0 by (unfold dst, mr; by destruct e).
  assert (parent dst = mr ++ parent ps) as Hpar by by apply parent_app.
  assert (∀ p, p ∈ P → ¬ p `prefix_of` ps ∧ ¬ ps `prefix_of` p) as Hap.
  { intros p Hp. rewrite Forall_forall in Hapart.
    destruct (Hapart p Hp). by split. }
  assert (disk s !! dst = None) as Hfree.
  { destruct (disk s !! dst) as [[c|]|] eqn:Hd; [| |done].
    - apply (ms_files _ _ _ _ Hst) in Hd. by destruct (Hap _ Hd) as [[] _].
    - destruct (ms_dirs _ _ _ _ Hst ps Hps Hd) as (q & [->|Hq]%elem_of_cons
                                                      & Hpre & Hne); [done|].
      by destruct (Hap _ Hq) as [_ []]. }
  destruct (mkdirs_from_succeeds [] (parent dst) (disk s)) as [dm Hdm].
  { simpl. rewrite Hpar. intros q c Hq Hlen Hfile.
    destruct (prefix_weak_total q mr (mr ++ parent ps)) as [Hlt|Hgt];
      [done|by apply prefix_app_r| |].
    - apply prefix_snoc_cases in Hlt as [->|Hlt].
      + rewrite (ms_root _ _ _ _ Hst) in Hfile. done.
      + rewrite (dir_chain_lookup _ e q (ms_chain _ _ _ _ Hst)) in Hfile;
          [done|done|]. intros ->. simpl in Hlen. lia.
    - destruct Hgt as [q' ->]. apply prefix_app_inv in Hq.
      apply (ms_files _ _ _ _ Hst) in Hfile.
      destruct (Hap _ Hfile) as [[] _]. etrans; [exact Hq|apply parent_prefix]. }
  assert (dm !! dst = None) as Hdmdst.
  { rewrite (mkdirs_from_only _ _ _ _ _ Hdm); [done|].
    simpl. by apply parent_shorter. }
  assert (place_member cfg m e (Some t) s =
          (Ok tt, set_disk (<[dst := File (content m)]> dm) s)) as Heq.
  { rewrite (place_member_merged cfg m e (Some t) s mr dm);
      rewrite ?Hparts; fold ps dst; try done.
    - by assert (exists_ (disk s) dst = false) as ->
        by (unfold exists_; by rewrite stat_nonempty, Hfree).
    - apply (ms_mb _ _ _ _ Hst).
    - apply (ms_chain _ _ _ _ Hst).
    - apply (ms_temp _ _ _ _ Hst).
    - apply (ms_temp_clear _ _ _ _ Hst).
    - apply temp_extract_outside_merged.
    - by rewrite stat_nonempty, Hdmdst. }
  rewrite Heq. intros [= <-]. exists dm. split; [|done].
  by eapply mkdirs_from_adds.
Qed.

Lemma setup_merge_directory_adds cfg e top s p s1 :
  setup_merge_directory cfg e top s = (Ok p, s1) →
  adds_dirs (disk s) (disk s1).
Proof.
  unfold setup_merge_directory.
  destruct (negb (merge_duplicates cfg) || negb (has_top top)).
  { intros [= _ <-]. reflexivity. }
  intros (s_ & ? & Hget & H)%bind_ok. injection Hget as <- <-.
  apply bind_ok in H as ([] & s2 & Hroot & H).
  apply bind_ok in H as (s_ & ? & Hget & H). injection Hget as <- <-.
  apply bind_ok in H as ([] & s3 & Hmk & Hret). injection Hret as _ <-.
  trans (disk s2).
  - destruct (merge_base_dir s); [by injection Hroot as <-|].
    apply bind_ok in Hroot as ([] & s4 & Hset & Hmk1). injection Hset as <-.
    destruct (dry_run cfg); simpl in Hmk1; [by injection Hmk1 as <-|].
    apply on_disk_ok in Hmk1 as (d1 & Hmk1 & ->). simpl.
    by eapply fs_mkdir_adds.
  - destruct (dry_run cfg); simpl in Hmk; [by injection Hmk as <-|].
    apply on_disk_ok in Hmk as (d1 & Hmk & ->). simpl.
    by eapply fs_mkdir_adds.
Qed.

(** With merging on, entries that lie in directories and whose paths
    are pairwise apart: along the streaming loop every regular file read
    so far is either in place below the merge root or in one of the
    commits. *)
Lemma streaming_loop_delivers_merged cfg ms e k s k' s' P W :
  merge_duplicates cfg = true → dry_run cfg = false →
  Forall (λ p, (2 ≤ length p)%nat) (file_paths ms) →
  prefix_free (file_paths ms) →
  Forall (λ p, Forall (apart p) P) (file_paths ms) →
  (fresh_staging e s ∧ P = []) ∨ merged_staged e P P s →
  (∀ w, w ∈ W → path_parts (name w) ∈ P) →
  pending (e ++ ["merged"]) W s → Z.of_nat (length W) = files_in_batch s →
  streaming_loop cfg ms e k s = (Ok k', s') →
  ∃ new W',
    appends_of (journal s') = new ++ appends_of (journal s) ∧
    pending (e ++ ["merged"]) W' s' ∧
    Z.of_nat (length W') = files_in_batch s' ∧
    (fresh_staging e s' ∨ ∃ P', merged_staged e P' P' s') ∧
    (∀ c, c ∈ new → c.1 = e ++ ["merged"]) ∧
    ∀ m, m ∈ W ∨ (m ∈ ms ∧ isfile m = true) → m ∈ W' ∨ delivered new m.
Proof.
  intros Hm Hdry. revert k s P W.
  induction ms as [|m r IH];
    intros k s P W Hlen Hfree Hap Hst HWP Hpend HlenW; simpl.
  - intros [= <- <-]. exists [], W. split_and!; try done.
    + destruct Hst as [[? _]|?]; eauto.
    + by intros c ?%elem_of_nil.
    + intros m [?|[[]%elem_of_nil _]]. by left.
  - rewrite file_paths_cons in Hlen, Hfree, Hap. rewrite Hm.
    destruct (isfile m) eqn:Hf.
    2:{ intros Hrest.
        destruct (IH _ _ _ _ Hlen Hfree Hap Hst HWP Hpend HlenW Hrest)
          as (new & W' & Hnew & Hpend' & Hlen' & Hst' & Hroots & Hall).
        exists new, W'. split_and!; try done.
        intros m' [?|[[->|?]%elem_of_cons Hf']]; [auto|congruence|auto]. }
    apply Forall_cons in Hlen as [Hlen1 Hlen].
    apply Forall_cons in Hap as [Hap1 Hap].
    destruct Hfree as [Hfree1 Hfree].
    destruct (path_parts (name m)) as [|t [|x q]] eqn:Hparts;
      [simpl in Hlen1; lia..|].
    destruct (get_top_level_dir_nested (name m) t (x :: q) Hparts)
      as [Htop Ht]; [done|].
    rewrite Htop. simpl. rewrite Ht.
    intros ([] & s1 & Hsetup & ([] & s2 & Hmember & Hrest)%bind_ok)%bind_ok.
    apply bind_ok in Hsetup as (p & s0 & Hsetup & Heq). injection Heq as <-.
    pose proof (quiet_setup_merge_directory cfg e (Some t) s) as Hq0.
    rewrite Hsetup in Hq0. simpl in Hq0.
    pose proof (setup_merge_directory_adds _ _ _ _ _ _ Hsetup) as Hadds0.
    apply (setup_merged cfg e t (x :: q) P) in Hsetup; [|done..].
    unfold process_tar_member in Hmember. rewrite Hf in Hmember.
    apply bind_ok in Hmember as ([] & s1 & Hplace & Hcount).
    pose proof (quiet_place_member cfg m e (Some t) s0) as Hq1.
    rewrite Hplace in Hq1. simpl in Hq1.
    destruct (place_merged_disk cfg m e t (x :: q) P s0 s1)
      as (dm & Hadds1 & Hs1); [done..|].
    eapply place_merged_staged in Hplace; [|done..].
    rewrite <- (quiet_batch _ _ Hq1) in Hplace.
    set (mr := e ++ ["merged"]) in *.
    assert (pending mr (m :: W) s1) as Hpend1.
    { rewrite Hs1. intros w [->|Hw]%elem_of_cons; simpl.
      - rewrite Hparts. apply lookup_insert_eq.
      - rewrite lookup_insert_ne.
        + rewrite !adds_dirs_file by done. by apply Hpend.
        + intros E%app_inv_head. rewrite Forall_forall in Hap1.
          destruct (Hap1 _ (HWP w Hw)) as [Hno _]. apply Hno.
          by rewrite E. }
    assert (merge_base_dir s1 = Some mr) as Hmb1.
    { rewrite Hs1. simpl. apply (ms_mb _ _ _ _ Hsetup). }
    assert (files_in_batch s1 = files_in_batch s) as Hfib
      by (by rewrite (quiet_batch _ _ Hq1), (quiet_batch _ _ Hq0)).
    assert (appends_of (journal s1) = appends_of (journal s)) as Hsame.
    { by rewrite (quiet_appends _ _ Hq1), (quiet_appends _ _ Hq0). }
    pose proof (count_and_commit_commits cfg e s1 s2 Hdry Hcount) as Hc.
    destruct (count_and_commit_merged cfg e _ s1 s2 Hm Hdry Hplace Hcount)
      as [Hst2 _].
    rewrite Hfib in Hc.
    assert (Forall (λ p, Forall (apart p) ((t :: x :: q) :: P))
              (file_paths r)) as Hap2.
    { apply Forall_forall. intros p' Hp. apply Forall_cons. split.
      - rewrite Forall_forall in Hfree1. by apply apart_sym, Hfree1.
      - rewrite Forall_forall in Hap. by apply Hap. }
    destruct (batch_size cfg <=? files_in_batch s + 1).
    + destruct Hc as [Happ Hzero].
      assert (∀ w, w ∈ [] → path_parts (name w) ∈ (t :: x :: q) :: P) as HWP0
        by (by intros w ?%elem_of_nil).
      assert (pending mr [] s2) as Hp0 by (by intros w ?%elem_of_nil).
      assert (Z.of_nat (length (@nil member)) = files_in_batch s2) as Hl0
        by (by rewrite Hzero).
      destruct (IH _ s2 _ [] Hlen Hfree Hap2 (or_intror Hst2) HWP0 Hp0 Hl0
                  Hrest)
        as (new & W' & Hnew' & Hpend' & Hlen' & Hst' & Hroots & Hall).
      exists (new ++ [(content_root cfg e s1, disk s1)]), W'.
      split_and!; try done.
      * by rewrite Hnew', Happ, Hsame, <- app_assoc.
      * intros c [Hc|Hc%list_elem_of_singleton]%elem_of_app;
          [by apply Hroots|].
        subst c. unfold content_root. by rewrite Hm, Hmb1.
      * unfold content_root. rewrite Hm, Hmb1. simpl.
        intros m' [Hw|[[->|Hr]%elem_of_cons Hf']].
        -- right. apply delivered_app_l, (pending_delivered mr (m :: W) s1);
             [done|by right].
        -- right. apply delivered_app_l, (pending_delivered mr (m :: W) s1);
             [done|by left].
        -- destruct (Hall m') as [?|?]; [by right|by left|].
           right. by apply delivered_app_r.
    + subst s2.
      assert (∀ w, w ∈ m :: W →
                   path_parts (name w) ∈ (t :: x :: q) :: P) as HWP1.
      { intros w [->|Hw]%elem_of_cons; [rewrite Hparts; by left|].
        right. by apply HWP. }
      assert (Z.of_nat (length (m :: W)) = files_in_batch s + 1) as Hl1.
      { simpl length. rewrite <- HlenW. lia. }
      destruct (IH _ (set_total_files (total_files s1 + 1)
                        (set_files_in_batch (files_in_batch s + 1) s1))
                  _ (m :: W) Hlen Hfree Hap2 (or_intror Hst2) HWP1 Hpend1 Hl1
                  Hrest)
        as (new & W' & Hnew' & Hpend' & Hlen' & Hst' & Hroots & Hall).
      exists new, W'. split_and!; try done.
      * rewrite Hnew'. simpl. by rewrite Hsame.
      * intros m' [Hw|[[->|Hr]%elem_of_cons Hf']].
        -- apply Hall. left. by right.
        -- apply Hall. left. by left.
        -- apply Hall. by right.
Qed.

(** Streaming mode with merging on hands every regular file of an
    archive to the tool, from the merge root of the scoped staging
    directory of that archive. *)
Lemma streaming_delivers_merged_at cfg a s s' :
  dry_run cfg = false → merge_duplicates cfg = true →
  Forall (λ p, (2 ≤ length p)%nat) (file_paths (members a)) →
  prefix_free (file_paths (members a)) →
  staging_ready cfg (disk s) →
  process_archive_streaming cfg a s = (Ok tt, s') →
  ∃ t new,
    scoped cfg t (disk s) ∧
    appends s' = appends s ++ new ∧
    (∀ c, c ∈ new → c.1 = t ++ ["merged"]) ∧
    ∀ m, m ∈ members a → isfile m = true → delivered new m.
Proof.
  intros Hdry Hm Hdeep Hfree Hready
    (t & s0 & k & s1 & s2 & Hq0 & Hfib0 & Hmb0 & Hdir & Hloop & Hfin & Hq2
       & Hat)%process_archive_streaming_at.
  destruct (Hdir Hready) as [Hchain Hclear].
  assert (fresh_staging t s0) as Hfresh by (split; auto).
  assert (Forall (λ p, Forall (apart p) []) (file_paths (members a))) as Hap0.
  { apply Forall_forall. intros p _. constructor. }
  assert (∀ w, w ∈ [] → path_parts (name w) ∈ @nil path) as HWP0
    by (by intros w ?%elem_of_nil).
  assert (pending (t ++ ["merged"]) [] s0) as Hp0
    by (by intros w ?%elem_of_nil).
  assert (Z.of_nat (length (@nil member)) = files_in_batch s0) as Hl0
    by (by rewrite Hfib0).
  destruct (streaming_loop_delivers_merged cfg (members a) t 0 s0 k s1 [] []
              Hm Hdry Hdeep Hfree Hap0 (or_introl (conj Hfresh eq_refl))
              HWP0 Hp0 Hl0 Hloop)
    as (new & W' & Hnew & Hpend & Hlen & Hst1 & Hroots & Hall).
  assert (appends_of (journal s0) = appends_of (journal s)) as Hsame
    by apply (quiet_appends _ _ Hq0).
  assert (appends_of (journal s') = appends_of (journal s2)) as Hlast
    by apply (quiet_appends _ _ Hq2).
  destruct (0 <? files_in_batch s1) eqn:Hpos.
  - apply bind_ok in Hfin as ([] & s3 & Hlog & Happ). injection Hlog as <-.
    apply append_real_ok in Happ as ->; [|done].
    assert (merge_base_dir s1 = Some (t ++ ["merged"])) as Hmb1.
    { destruct Hst1 as [Hf1|[P' Hst1]]; [|apply (ms_mb _ _ _ _ Hst1)].
      apply Z.ltb_lt in Hpos. rewrite (fresh_batch _ _ Hf1) in Hpos. lia. }
    exists t, (rev ((content_root cfg t s1, disk s1) :: new)).
    split; [done|]. split; [|split].
    + apply appends_grow. rewrite Hlast. simpl. by rewrite Hnew, Hsame.
    + intros c Hc%list_elem_of_In%in_rev%list_elem_of_In.
      apply elem_of_cons in Hc as [->|Hc]; [|by apply Hroots].
      unfold content_root. by rewrite Hm, Hmb1.
    + intros m Hin Hf. apply delivered_rev.
      destruct (Hall m) as [Hw|Hd]; [by right| |].
      * unfold content_root. rewrite Hm, Hmb1. simpl.
        by apply (pending_delivered (t ++ ["merged"]) W' s1).
      * by apply (delivered_app_l [_]).
  - injection Hfin as <-.
    assert (W' = []) as ->.
    { apply Z.ltb_ge in Hpos. destruct W'; [done|]. simpl length in Hlen. lia. }
    exists t, (rev new). split; [done|]. split; [|split].
    + apply appends_grow. rewrite Hlast. simpl. by rewrite Hnew, Hsame.
    + intros c Hc%list_elem_of_In%in_rev%list_elem_of_In.
      by apply Hroots.
    + intros m Hin Hf. apply delivered_rev.
      destruct (Hall m) as [[]%elem_of_nil|Hd]; [by right|done].
Qed.

Lemma streaming_delivers_merged cfg a s s' :
  dry_run cfg = false → merge_duplicates cfg = true →
  Forall (λ p, (2 ≤ length p)%nat) (file_paths (members a)) →
  prefix_free (file_paths (members a)) →
  staging_ready cfg (disk s) →
  process_archive_streaming cfg a s = (Ok tt, s') →
  ∃ new,
    appends s' = appends s ++ new ∧
    ∀ m, m ∈ members a → isfile m = true → delivered new m.
Proof.
  intros Hdry Hm Hdeep Hfree Hready Hrun.
  destruct (streaming_delivers_merged_at cfg a s s')
    as (t & new & _ & Hnew & _ & Hall); [done..|].
  by exists new.
Qed.

(** With merging on, when every regular file of an archive has a plain
    name and lies in a directory and no member path is a prefix of
    another, a real run of streaming mode that starts on a tree where a
    fixed temporary directory is free and completes has handed every
    regular file to the tool: for each one there is a commit of this
    archive whose content root, the merge root, held the file's content
    at the file's path when the tool read it. *)
Theorem streaming_commits_every_merged_file cfg a s s' :
  dry_run cfg = false → merge_duplicates cfg = true →
  plain_files (members a) →
  Forall (λ p, (2 ≤ length p)%nat) (file_paths (members a)) →
  prefix_free (file_paths (members a)) →
  staging_ready cfg (disk s) →
  process_archive_streaming cfg a s = (Ok tt, s') →
  ∃ new,
    appends s' = appends s ++ new ∧
    ∀ m, m ∈ members a → isfile m = true → delivered new m.
Proof. intros Hdry Hm _. by apply streaming_delivers_merged. Qed.

Lemma streaming_commits_every_merged_file_witness :
  let cfg := plain_config 2 false true in
  let s' := (process_archive_streaming cfg archive_of_three
               (init_state bare_disk)).2 in
  ∃ new, appends s' = [] ++ new ∧
         delivered new (regular "foo/z.txt" "3").
Proof.
  intros cfg s'.
  assert ((process_archive_streaming cfg archive_of_three
             (init_state bare_disk)).1 = Ok tt)
    as Hok by (vm_compute; reflexivity).
  assert (Forall (λ p, (2 ≤ length p)%nat)
            (file_paths (members archive_of_three))) as Hdeep.
  { apply (bool_decide_unpack _). by vm_compute. }
  assert (prefix_free (file_paths (members archive_of_three))) as Hfree.
  { apply (bool_decide_unpack _). by vm_compute. }
  assert (plain_files (members archive_of_three)) as Hplain.
  { apply (bool_decide_unpack _). by vm_compute. }
  destruct (streaming_commits_every_merged_file cfg archive_of_three
              (init_state bare_disk) s' eq_refl eq_refl Hplain Hdeep Hfree
              (staging_ready_bare 2 false true) (run_ok_eq _ _ _ Hok))
    as (new & Hnew & Hall).
  exists new. split; [exact Hnew|]. apply Hall; [|reflexivity].
  apply elem_of_cons. right. apply elem_of_cons. right.
  apply elem_of_cons. by left.
Defined.

(** ** In memory-efficient mode *)

(** A file extracted into the temporary extraction directory of [e] and
    moved from there to [dst], outside that directory: afterwards the
    temporary directory is gone and the file is at [dst]. *)
Lemma through_temp d e n c root dm :
  let ps := path_parts n in
  let temp := e ++ ["temp_extract"] in
  let dst := root ++ ps in
  let src := temp ++ ps in
  ps ≠ [] → dir_chain d e →
  d !! temp = None → clear_below d temp →
  ¬ temp `prefix_of` dst →
  mkdirs_from [] (parent dst) d = Ok dm →
  stat dm dst ≠ Some Dir →
  ∃ d3 dm3,
    fs_mkdir true temp d = Ok (<[temp := Dir]> d) ∧
    fs_extract temp n c (<[temp := Dir]> d) = Ok d3 ∧
    fs_mkdir_parents (parent dst) d3 = Ok dm3 ∧
    fs_move src dst dm3 = Ok (<[dst := File c]> (delete src dm3)) ∧
    fs_rmtree false temp (<[dst := File c]> (delete src dm3)) =
      Ok (<[dst := File c]> dm).
Proof.
  intros ps temp dst src Hps Hchain Hfree Hclear Hout Hdm Hnodir.
  destruct (extract_to_temp d e n c Hps Hchain Hfree Hclear)
    as (d3 & Hmk & Hex & Htemp & Hsrc & Hsame).
  fold temp ps in Hmk, Hex, Htemp, Hsrc, Hsame. fold src in Hsrc.
  assert (∀ q, q `prefix_of` parent dst → ¬ temp `prefix_of` q) as Hpar.
  { intros q Hq Ht. apply Hout. etrans; [exact Ht|]. etrans; [exact Hq|].
    apply parent_prefix. }
  destruct (mkdirs_from_agree [] (parent dst) d d3 dm) as (dm3 & Hdm3 & Hag);
    [by intros q Hq; apply Hsame, Hpar|done|].
  assert (dst ≠ []) as Hdst0 by (unfold dst; by destruct root, ps).
  assert (temp ≠ []) as Htemp0 by (unfold temp; by destruct e).
  assert (src ≠ []) as Hsrc0 by (unfold src; by destruct temp, ps).
  assert (¬ dst `prefix_of` parent dst) as Hdstpar by by apply parent_shorter.
  assert (temp `prefix_of` src) as Htsrc by by apply prefix_app_r.
  assert (dm3 !! src = Some (File c)) as Hsrc3.
  { rewrite (mkdirs_from_only _ _ _ _ _ Hdm3); [done|].
    intros Hq. by apply (Hpar src). }
  assert (dm !! dst = d !! dst) as Hdmdst
    by by rewrite (mkdirs_from_only _ _ _ _ _ Hdm).
  assert (dm3 !! dst = d !! dst) as Hdst3.
  { rewrite (mkdirs_from_only _ _ _ _ _ Hdm3) by done. by apply Hsame. }
  assert (dm3 !! temp = Some Dir) as Htemp3.
  { rewrite (mkdirs_from_only _ _ _ _ _ Hdm3); [done|].
    intros Hq. by apply (Hpar temp). }
  assert (stat dm3 (parent dst) = Some Dir) as Hpardir.
  { destruct (parent dst) as [|x p] eqn:Hp; [done|]. simpl.
    rewrite Hag by done. eapply mkdirs_from_made; [exact Hdm|done|simpl; lia]. }
  assert (∀ q, ¬ temp `prefix_of` q → dm3 !! q = dm !! q) as Hsame3.
  { intros q Hq. destruct (decide (q `prefix_of` parent dst)) as [Hin|Hno].
    - by apply Hag.
    - rewrite (mkdirs_from_only _ _ _ _ _ Hdm3),
        (mkdirs_from_only _ _ _ _ _ Hdm) by done. by apply Hsame. }
  assert (filter (λ kv, ¬ temp `prefix_of` kv.1)
            (<[dst := File c]> (delete src dm3)) =
          <[dst := File c]> dm) as Hfinal.
  { apply map_eq. intros q. apply option_eq. intros k.
    rewrite map_lookup_filter_Some. simpl.
    destruct (decide (q = dst)) as [->|Hqd].
    - rewrite !lookup_insert_eq. split; [by intros [? _]|by intros ?].
    - rewrite !lookup_insert_ne by done. split.
      + intros [Hq Hnt]. rewrite <- Hsame3 by done.
        rewrite lookup_delete_ne in Hq; [done|]. by intros <-.
      + intros Hq. assert (¬ temp `prefix_of` q) as Hnt.
        { intros Ht. rewrite (mkdirs_from_only _ _ _ _ _ Hdm) in Hq.
          - destruct (decide (temp = q)) as [<-|Hne]; [congruence|].
            by rewrite (Hclear q Ht Hne) in Hq.
          - intros Hp. by apply (Hpar q). }
        split; [|done]. rewrite lookup_delete_ne by (by intros <-).
        by rewrite Hsame3. }
  exists d3, dm3. split_and!; [done|done|done| |].
  - rewrite stat_nonempty, Hdmdst in Hnodir by done.
    unfold fs_move, fs_rename.
    rewrite (stat_nonempty _ dst), Hdst3 by done.
    rewrite (stat_nonempty _ src), Hsrc3, Hpardir by done.
    by destruct (d !! dst) as [[]|].
  - unfold fs_rmtree. rewrite stat_nonempty by done.
    rewrite lookup_insert_ne by (intros <-; by apply Hout).
    rewrite lookup_delete_ne by (unfold src; by apply app_ne_self).
    by rewrite Htemp3, Hfinal.
Qed.

(** Nothing of a tidy batch directory is at or below its temporary
    extraction directory. *)
Lemma tidy_temp_free e P s q :
  Forall stageable P → tidy_staging e P s →
  e ++ ["temp_extract"] `prefix_of` q → disk s !! q = None.
Proof.
  intros HP Hst [k ->]. rewrite <- app_assoc. simpl.
  rewrite Forall_forall in HP.
  destruct (disk s !! (e ++ "temp_extract" :: k)) as [[c|]|] eqn:Hq; [| |done].
  - apply (ts_files _ _ _ Hst) in Hq; [|done].
    destruct (HP _ Hq) as [_ []]. by exists k.
  - apply (ts_dirs _ _ _ Hst) in Hq as (p & Hp & [k' ->] & _); [|done].
    destruct (HP _ Hp) as [_ []]. by exists (k ++ k').
Qed.

(** Placing a member in memory-efficient mode, with merging off: the
    file goes through the temporary extraction directory to its path
    below the batch directory. *)
Lemma memory_efficient_place_plain cfg m e P s :
  merge_duplicates cfg = false → dry_run cfg = false →
  let ps := path_parts (name m) in
  stageable ps → Forall (apart ps) P → Forall stageable P →
  tidy_staging e P s →
  ∃ dm, adds_dirs (disk s) dm ∧
        memory_efficient_place cfg m e s =
          (Ok tt, set_disk (<[e ++ ps := File (content m)]> dm) s) ∧
        tidy_staging e (ps :: P)
          (set_disk (<[e ++ ps := File (content m)]> dm) s).
Proof.
  intros Hm Hdry ps [Hps Hnt] Hapart HP Hst.
  set (temp := e ++ ["temp_extract"]). set (dst := e ++ ps).
  assert (dst ≠ []) as Hdst0 by (unfold dst; by destruct e, ps).
  assert (parent dst = e ++ parent ps) as Hpar by by apply parent_app.
  assert (∀ p, p ∈ P → ¬ p `prefix_of` ps ∧ ¬ ps `prefix_of` p) as Hap.
  { intros p Hp. rewrite Forall_forall in Hapart.
    destruct (Hapart p Hp). by split. }
  assert (disk s !! dst = None) as Hfree.
  { destruct (disk s !! dst) as [[c|]|] eqn:Hd; [| |done].
    - apply (ts_files _ _ _ Hst) in Hd; [|done].
      by destruct (Hap _ Hd) as [[] _].
    - destruct (ts_dirs _ _ _ Hst ps Hps Hd) as (q & Hq & Hpre & Hne).
      by destruct (Hap _ Hq) as [_ []]. }
  destruct (mkdirs_from_succeeds [] (parent dst) (disk s)) as [dm Hdm].
  { simpl. rewrite Hpar. intros q c Hq Hlen Hfile.
    assert (q ≠ []) as Hq0 by (intros ->; simpl in Hlen; lia).
    destruct (prefix_weak_total q e (e ++ parent ps)) as [Hlt|Hgt];
      [done|by apply prefix_app_r| |].
    - by rewrite (dir_chain_lookup _ e q (ts_chain _ _ _ Hst)) in Hfile.
    - destruct Hgt as [q' ->]. apply prefix_app_inv in Hq.
      destruct (decide (q' = [])) as [->|Hq'].
      { rewrite app_nil_r in Hfile, Hq0.
        by rewrite (dir_chain_lookup _ e e (ts_chain _ _ _ Hst)) in Hfile. }
      apply (ts_files _ _ _ Hst) in Hfile; [|done].
      destruct (Hap _ Hfile) as [[] _].
      etrans; [exact Hq|apply parent_prefix]. }
  assert (dm !! dst = None) as Hdmdst.
  { rewrite (mkdirs_from_only _ _ _ _ _ Hdm); [done|].
    simpl. by apply parent_shorter. }
  assert (¬ temp `prefix_of` dst) as Hout.
  { unfold temp, dst. by intros Ht%prefix_app_inv. }
  destruct (through_temp (disk s) e (name m) (content m) e dm)
    as (d3 & dm3 & Hmk & Hex & Hmk3 & Hmove & Hrm); try done.
  { apply (ts_chain _ _ _ Hst). }
  { by apply (tidy_temp_free e P s). }
  { intros q Hq _. by apply (tidy_temp_free e P s). }
  { fold ps dst. by rewrite stat_nonempty, Hdmdst. }
  fold ps temp dst in Hmk, Hex, Hmk3, Hmove, Hrm.
  pose proof (mkdirs_from_adds _ _ _ _ Hdm) as Hadds.
  exists dm. split_and!; [done| |].
  - unfold memory_efficient_place. rewrite Hdry, Hm. run_M. cbn [negb andb].
    fold ps temp dst. rewrite Hmk. cbn [disk set_disk]. rewrite Hex.
    cbn [disk set_disk]. rewrite Hmk3. cbn [disk set_disk].
    rewrite Hmove. cbn [disk set_disk]. by rewrite Hrm.
  - split; simpl.
    + intros q Hq. destruct q as [|x q]; [done|]. simpl.
      rewrite lookup_insert_ne.
      * apply (adds_dirs_dir _ _ _ Hadds).
        by apply (dir_chain_lookup _ e _ (ts_chain _ _ _ Hst)).
      * intros E. rewrite <- E in Hq.
        apply prefix_app_self_nil in Hq. done.
    + intros p c Hp. destruct (decide (p = ps)) as [->|Hne]; [by left|].
      rewrite lookup_insert_ne by (by intros ?%app_inv_head).
      rewrite (adds_dirs_file _ _ _ _ Hadds). intros Hf. right.
      by apply (ts_files _ _ _ Hst) in Hf.
    + intros p Hp. destruct (decide (p = ps)) as [->|Hne].
      { by rewrite lookup_insert_eq. }
      rewrite lookup_insert_ne by (by intros ?%app_inv_head).
      intros Hd. destruct (Hadds (e ++ p)) as [E|[E _]].
      * rewrite E in Hd.
        destruct (ts_dirs _ _ _ Hst p Hp Hd) as (q & Hq & Hpre & Hneq).
        exists q. split; [by right|done].
      * exists ps. split; [by left|]. split; [|done].
        destruct (decide (e ++ p `prefix_of` parent dst)) as [Hin|Hno].
        -- rewrite Hpar in Hin. apply prefix_app_inv in Hin.
           etrans; [exact Hin|apply parent_prefix].
        -- rewrite (mkdirs_from_only _ _ _ _ _ Hdm) in Hd by done.
           congruence.
Qed.

(** The reset after a commit, with merging off, leaves an empty batch
    directory. *)
Lemma reset_tidy cfg e s s' :
  merge_duplicates cfg = false →
  reset_staging cfg e s = (Ok tt, s') →
  tidy_staging e [] s' ∧ quiet s s'.
Proof.
  intros Hm Hreset.
  pose proof (quiet_reset_staging cfg e s) as Hq. rewrite Hreset in Hq.
  split; [|exact Hq]. revert Hreset. unfold reset_staging.
  intros (s0 & ? & Hget & H)%bind_ok. injection Hget as <- <-.
  unfold merging_here in H. rewrite Hm in H. simpl in H.
  apply bind_ok in H as ([] & s1 & (d1 & Hrm & ->)%on_disk_ok
                            & (d2 & Hmk & ->)%on_disk_ok).
  simpl in *. unfold fs_makedirs in Hmk.
  destruct (exists_ d1 e) eqn:Hex; [done|].
  unfold fs_rmtree in Hrm. destruct (stat _ e) as [[]|]; [done| |done].
  injection Hrm as <-.
  assert (∀ p, p ≠ [] → d2 !! (e ++ p) = None) as Hnone.
  { intros p Hp. rewrite (mkdirs_from_only _ _ _ _ _ Hmk).
    - rewrite lookup_rmtree. rewrite decide_True; [done|by apply prefix_app_r].
    - simpl. by intros ?%prefix_app_self_nil. }
  split; simpl.
  - intros q Hpre. destruct q as [|x q]; [done|]. simpl.
    eapply mkdirs_from_made; [done|done|simpl; lia].
  - intros p c Hp. by rewrite Hnone.
  - intros p Hp. by rewrite Hnone.
Qed.

(** The counting step of memory-efficient mode in a real run, with
    merging off: at the batch boundary it commits the batch directory
    as the disk then is and empties it, otherwise it only counts. *)
Lemma memory_efficient_commit cfg e s s' :
  merge_duplicates cfg = false → dry_run cfg = false →
  memory_efficient_count_and_commit cfg e s = (Ok tt, s') →
  if batch_size cfg <=? files_in_batch s + 1
  then appends_of (journal s') = (e, disk s) :: appends_of (journal s) ∧
       files_in_batch s' = 0 ∧ tidy_staging e [] s'
  else s' = set_total_files (total_files s + 1)
              (set_files_in_batch (files_in_batch s + 1) s).
Proof.
  intros Hm Hdry. unfold memory_efficient_count_and_commit. run_M. simpl.
  destruct (batch_size cfg <=? files_in_batch s + 1) eqn:Hb.
  - rewrite Hdry. simpl. unfold content_root. rewrite Hm.
    match goal with
    | |- context [append_to_squashfs cfg e ?s0] =>
        destruct (append_to_squashfs cfg e s0) as [[[]|err] s1] eqn:Happ
    end; [|discriminate].
    apply append_real_ok in Happ as ->; [|done].
    match goal with
    | |- context [reset_staging cfg e ?s0] =>
        destruct (reset_staging cfg e s0) as [[[]|err] s2] eqn:Hreset
    end; [|discriminate].
    apply reset_tidy in Hreset as [Hst Hq]; [|done].
    intros [= <-]. simpl in *. split_and!; [|done|].
    + by rewrite (quiet_appends _ _ Hq).
    + by destruct Hst.
  - by intros [= <-].
Qed.

(** With merging off, for member paths that can be staged and are
    pairwise apart: along the loop of memory-efficient mode every
    regular file read so far is either in place in the batch directory
    or in one of the commits. *)
Lemma memory_efficient_loop_delivers cfg ms e s s' P W :
  merge_duplicates cfg = false → dry_run cfg = false →
  Forall stageable (file_paths ms) →
  prefix_free (file_paths ms) →
  Forall (λ p, Forall (apart p) P) (file_paths ms) →
  Forall stageable P →
  tidy_staging e P s →
  (∀ w, w ∈ W → path_parts (name w) ∈ P) →
  pending e W s → Z.of_nat (length W) = files_in_batch s →
  for_each ms (λ m, memory_efficient_member cfg m e) s = (Ok tt, s') →
  ∃ new W',
    appends_of (journal s') = new ++ appends_of (journal s) ∧
    pending e W' s' ∧ Z.of_nat (length W') = files_in_batch s' ∧
    ∀ m, m ∈ W ∨ (m ∈ ms ∧ isfile m = true) → m ∈ W' ∨ delivered new m.
Proof.
  intros Hm Hdry. revert s P W.
  induction ms as [|m r IH];
    intros s P W Hstg Hfree Hap HP Hst HWP Hpend HlenW; simpl.
  - intros [= <-]. exists [], W. split_and!; try done.
    intros m [?|[[]%elem_of_nil _]]. by left.
  - rewrite file_paths_cons in Hstg, Hfree, Hap.
    intros ([] & s2 & Hmember & Hrest)%bind_ok.
    unfold memory_efficient_member in Hmember.
    destruct (isfile m) eqn:Hf.
    2:{ cbv [mret M_ret] in Hmember. injection Hmember as <-.
        destruct (IH _ _ _ Hstg Hfree Hap HP Hst HWP Hpend HlenW Hrest)
          as (new & W' & Hnew & Hpend' & Hlen' & Hall).
        exists new, W'. split_and!; try done.
        intros m' [?|[[->|?]%elem_of_cons Hf']]; [auto|congruence|auto]. }
    apply Forall_cons in Hstg as [Hstg1 Hstg].
    apply Forall_cons in Hap as [Hap1 Hap].
    destruct Hfree as [Hfree1 Hfree].
    apply bind_ok in Hmember as ([] & s1 & Hplace & Hcount).
    destruct (memory_efficient_place_plain cfg m e P s Hm Hdry Hstg1 Hap1 HP Hst)
      as (dm & Hadds & Heq & Hst1).
    rewrite Heq in Hplace. injection Hplace as Hs1.
    rewrite Hs1 in Hst1. clear Heq.
    set (ps := path_parts (name m)) in *.
    assert (pending e (m :: W) s1) as Hpend1.
    { rewrite <- Hs1. intros w [->|Hw]%elem_of_cons; simpl.
      - apply lookup_insert_eq.
      - rewrite lookup_insert_ne.
        + rewrite adds_dirs_file by done. by apply Hpend.
        + intros E%app_inv_head. rewrite Forall_forall in Hap1.
          destruct (Hap1 _ (HWP w Hw)) as [Hno _]. apply Hno.
          fold ps. by rewrite E. }
    assert (files_in_batch s1 = files_in_batch s) as Hfib
      by (by rewrite <- Hs1).
    assert (appends_of (journal s1) = appends_of (journal s)) as Hsame
      by (by rewrite <- Hs1).
    pose proof (memory_efficient_commit cfg e s1 s2 Hm Hdry Hcount) as Hc.
    rewrite Hfib in Hc.
    assert (Forall (λ p, Forall (apart p) (ps :: P)) (file_paths r)) as Hap2.
    { apply Forall_forall. intros p' Hp. apply Forall_cons. split.
      - rewrite Forall_forall in Hfree1. by apply apart_sym, Hfree1.
      - rewrite Forall_forall in Hap. by apply Hap. }
    destruct (batch_size cfg <=? files_in_batch s + 1).
    + destruct Hc as (Happ & Hzero & Hst2).
      assert (Forall (λ p, Forall (apart p) []) (file_paths r)) as Hap0.
      { apply Forall_forall. intros p _. constructor. }
      assert (∀ w, w ∈ [] → path_parts (name w) ∈ @nil path) as HWP0
        by (by intros w ?%elem_of_nil).
      assert (pending e [] s2) as Hp0 by (by intros w ?%elem_of_nil).
      assert (Z.of_nat (length (@nil member)) = files_in_batch s2) as Hl0
        by (by rewrite Hzero).
      assert (Forall stageable (@nil path)) as HP0 by constructor.
      destruct (IH s2 [] [] Hstg Hfree Hap0 HP0 Hst2 HWP0 Hp0 Hl0 Hrest)
        as (new & W' & Hnew' & Hpend' & Hlen' & Hall).
      exists (new ++ [(e, disk s1)]), W'.
      split_and!; try done.
      * by rewrite Hnew', Happ, Hsame, <- app_assoc.
      * intros m' [Hw|[[->|Hr]%elem_of_cons Hf']].
        -- right. apply delivered_app_l, (pending_delivered e (m :: W) s1);
             [done|by right].
        -- right. apply delivered_app_l, (pending_delivered e (m :: W) s1);
             [done|by left].
        -- destruct (Hall m') as [?|?]; [by right|by left|].
           right. by apply delivered_app_r.
    + subst s2.
      assert (∀ w, w ∈ m :: W → path_parts (name w) ∈ ps :: P) as HWP1.
      { intros w [->|Hw]%elem_of_cons; [by left|]. right. by apply HWP. }
      assert (Z.of_nat (length (m :: W)) = files_in_batch s + 1) as Hl1.
      { simpl length. rewrite <- HlenW. lia. }
      assert (Forall stageable (ps :: P)) as HP1 by by constructor.
      assert (tidy_staging e (ps :: P)
                (set_total_files (total_files s1 + 1)
                   (set_files_in_batch (files_in_batch s + 1) s1))) as Hst2
        by (by destruct Hst1).
      destruct (IH _ _ (m :: W) Hstg Hfree Hap2 HP1 Hst2 HWP1 Hpend1 Hl1 Hrest)
        as (new & W' & Hnew' & Hpend' & Hlen' & Hall).
      exists new, W'. split_and!; try done.
      * rewrite Hnew'. simpl. by rewrite Hsame.
      * intros m' [Hw|[[->|Hr]%elem_of_cons Hf']].
        -- apply Hall. left. by right.
        -- apply Hall. left. by left.
        -- apply Hall. by right.
Qed.

(** A run of memory-efficient mode over an archive that ends normally,
    with merging off: the loop ran normally in the batch directory, and
    the last commit, if any, went well. *)
Lemma process_archive_memory_efficient_inv cfg a s s' :
  merge_duplicates cfg = false →
  process_archive_memory_efficient cfg a s = (Ok tt, s') →
  ∃ t s0 s1 s2,
    quiet (set_files_in_batch 0 s) s0 ∧ files_in_batch s0 = 0 ∧
    (staging_ready cfg (disk s) →
     dir_chain (disk s0) t ∧ clear_below (disk s0) t) ∧
    for_each (members a) (λ m, memory_efficient_member cfg m t) s0 =
      (Ok tt, s1) ∧
    (if 0 <? files_in_batch s1
     then log DEBUG (AppendingFinalBatch (files_in_batch s1)) ;;
          append_to_squashfs cfg (content_root cfg t s1)
     else mret tt) s1 = (Ok tt, s2) ∧
    quiet s2 s'.
Proof.
  intros Hm. unfold process_archive_memory_efficient.
  intros ([] & s1 & Hlog & H)%bind_ok. injection Hlog as <-.
  apply temp_directory_ok in H as (t & s2 & s3 & Hq1 & H & Hq2 & Hready).
  apply bind_ok in H as ([] & s4 & Hfib & H). injection Hfib as <-.
  apply bind_ok in H as ([] & s6 & Hnote & H).
  rewrite Hm in Hnote. injection Hnote as <-.
  apply bind_ok in H as ([] & s7 & Hloop & H).
  apply bind_ok in H as (s9 & ? & Hget & H). injection Hget as <- <-.
  exists t, (set_files_in_batch 0 s2), s7, s3. split_and!; try done.
  destruct Hq1. by split.
Qed.

(** Memory-efficient mode with merging off hands every regular file of
    an archive to the tool. *)
Lemma memory_efficient_delivers cfg a s s' :
  dry_run cfg = false → merge_duplicates cfg = false →
  Forall stageable (file_paths (members a)) →
  prefix_free (file_paths (members a)) →
  staging_ready cfg (disk s) →
  process_archive_memory_efficient cfg a s = (Ok tt, s') →
  ∃ new,
    appends s' = appends s ++ new ∧
    ∀ m, m ∈ members a → isfile m = true → delivered new m.
Proof.
  intros Hdry Hm Hstg Hfree Hready
    (t & s0 & s1 & s2 & Hq0 & Hfib0 & Hdir & Hloop & Hfin & Hq2)
      %process_archive_memory_efficient_inv; [|done].
  destruct (Hdir Hready) as [Hchain Hclear].
  assert (tidy_staging t [] s0) as Hst0.
  { split; [done| |].
    - intros p c Hp. rewrite Hclear; [done|by apply prefix_app_r|].
      by apply not_eq_sym, app_ne_self.
    - intros p Hp. rewrite Hclear; [done|by apply prefix_app_r|].
      by apply not_eq_sym, app_ne_self. }
  assert (Forall (λ p, Forall (apart p) []) (file_paths (members a))) as Hap0.
  { apply Forall_forall. intros p _. constructor. }
  assert (∀ w, w ∈ [] → path_parts (name w) ∈ @nil path) as HWP0
    by (by intros w ?%elem_of_nil).
  assert (pending t [] s0) as Hp0 by (by intros w ?%elem_of_nil).
  assert (Z.of_nat (length (@nil member)) = files_in_batch s0) as Hl0
    by (by rewrite Hfib0).
  assert (Forall stageable (@nil path)) as HP0 by constructor.
  destruct (memory_efficient_loop_delivers cfg (members a) t s0 s1 [] []
              Hm Hdry Hstg Hfree Hap0 HP0 Hst0 HWP0 Hp0 Hl0 Hloop)
    as (new & W' & Hnew & Hpend & Hlen & Hall).
  assert (appends_of (journal s0) = appends_of (journal s)) as Hsame
    by apply (quiet_appends _ _ Hq0).
  assert (appends_of (journal s') = appends_of (journal s2)) as Hlast
    by apply (quiet_appends _ _ Hq2).
  destruct (0 <? files_in_batch s1) eqn:Hpos.
  - apply bind_ok in Hfin as ([] & s3 & Hlog & Happ). injection Hlog as <-.
    apply append_real_ok in Happ as ->; [|done].
    exists (rev ((content_root cfg t s1, disk s1) :: new)). split.
    + apply appends_grow. rewrite Hlast. simpl. by rewrite Hnew, Hsame.
    + intros m Hin Hf. apply delivered_rev.
      destruct (Hall m) as [Hw|Hd]; [by right| |].
      * unfold content_root. rewrite Hm.
        by apply (pending_delivered t W' s1).
      * by apply (delivered_app_l [_]).
  - injection Hfin as <-.
    assert (W' = []) as ->.
    { apply Z.ltb_ge in Hpos. destruct W'; [done|]. simpl length in Hlen. lia. }
    exists (rev new). split.
    + apply appends_grow. rewrite Hlast. simpl. by rewrite Hnew, Hsame.
    + intros m Hin Hf. apply delivered_rev.
      destruct (Hall m) as [[]%elem_of_nil|Hd]; [by right|done].
Qed.

(** With merging off, when the regular files of an archive have plain
    names, their paths can be staged (none is empty or starts with the
    name of the temporary extraction directory, [temp_extract]) and
    none is a prefix of another, a real run of memory-efficient mode
    that starts on a tree where a fixed temporary directory is free and
    completes has handed every regular file to the tool: for each one there is a commit of this archive
    whose content root, the batch directory, held the file's content at
    the file's path when the tool read it. *)
Theorem memory_efficient_commits_every_file cfg a s s' :
  dry_run cfg = false → merge_duplicates cfg = false →
  plain_files (members a) →
  Forall stageable (file_paths (members a)) →
  prefix_free (file_paths (members a)) →
  staging_ready cfg (disk s) →
  process_archive_memory_efficient cfg a s = (Ok tt, s') →
  ∃ new,
    appends s' = appends s ++ new ∧
    ∀ m, m ∈ members a → isfile m = true → delivered new m.
Proof. intros Hdry Hm _. by apply memory_efficient_delivers. Qed.

Lemma memory_efficient_commits_every_file_witness :
  let cfg := plain_config 2 false false in
  let s' := (process_archive_memory_efficient cfg archive_of_three
               (init_state bare_disk)).2 in
  ∃ new, appends s' = [] ++ new ∧
         delivered new (regular "foo/z.txt" "3").
Proof.
  intros cfg s'.
  assert ((process_archive_memory_efficient cfg archive_of_three
             (init_state bare_disk)).1 = Ok tt)
    as Hok by (vm_compute; reflexivity).
  assert (Forall stageable (file_paths (members archive_of_three))) as Hstg.
  { apply (bool_decide_unpack _). by vm_compute. }
  assert (prefix_free (file_paths (members archive_of_three))) as Hfree.
  { apply (bool_decide_unpack _). by vm_compute. }
  assert (plain_files (members archive_of_three)) as Hplain.
  { apply (bool_decide_unpack _). by vm_compute. }
  destruct (memory_efficient_commits_every_file cfg archive_of_three
              (init_state bare_disk) s' eq_refl eq_refl Hplain Hstg Hfree
              (staging_ready_bare 2 false false) (run_ok_eq _ _ _ Hok))
    as (new & Hnew & Hall).
  exists new. split; [exact Hnew|]. apply Hall; [|reflexivity].
  apply elem_of_cons. right. apply elem_of_cons. right.
  apply elem_of_cons. by left.
Defined.

(** ** What memory-efficient mode never commits *)





(** * Every file of a run reaches a commit *)

(** Processing an archive whose files are deliverable, in a real run
    on a tree and without a fixed temporary directory: the disk is put back, and every regular file has been
    handed to the tool. *)
Lemma process_archive_delivers cfg a mode s s' :
  dry_run cfg = false → temp_dir cfg = None →
  tree (disk s) → staging_ready cfg (disk s) →
  deliverable cfg mode a →
  process_archive cfg mode a s = (Ok tt, s') →
  disk s' = disk s ∧
  ∃ new,
    appends s' = appends s ++ new ∧
    ∀ m, m ∈ members a → isfile m = true → delivered new m.
Proof.
  intros Hdry Htd Htree Hready [_ Hdel] Hrun.
  unfold process_archive in Hrun.
  destruct mode.
  - destruct Hdel as (Hm & Hstg & Hfree). split.
    + pose proof (restored_process_archive_memory_efficient cfg Htd a
                    (or_introl Hm) s Htree) as Hd.
      by rewrite Hrun in Hd.
    + by apply (memory_efficient_delivers cfg a s s').
  - split.
    + pose proof (restored_process_archive_streaming cfg Htd a s Htree) as Hd.
      by rewrite Hrun in Hd.
    + destruct (merge_duplicates cfg) eqn:Hm.
      * destruct Hdel as [Hdeep Hfree]. by apply (streaming_delivers_merged cfg a s s').
      * by apply (streaming_delivers_plain cfg a s s').
Qed.

Lemma archives_loop_delivers cfg l mode i total s s' :
  dry_run cfg = false → temp_dir cfg = None →
  tree (disk s) → staging_ready cfg (disk s) →
  Forall (deliverable cfg mode) l →
  archives_loop cfg l mode i total s = (Ok tt, s') →
  ∃ news,
    appends s' = appends s ++ concat news ∧
    Forall2 (λ a new, ∀ m, m ∈ members a → isfile m = true → delivered new m)
      l news.
Proof.
  intros Hdry Htd. revert i s.
  induction l as [|a r IH]; intros i s Htree Hready Hdel; simpl.
  - intros [= <-]. exists []. split; [by rewrite app_nil_r|constructor].
  - apply Forall_cons in Hdel as [Hdel1 Hdel].
    intros ([] & s0 & Hlog & H)%bind_ok. injection Hlog as <-.
    apply bind_ok in H as ([] & s1 & Harchive & Hrest).
    fold (process_archive cfg mode a) in Harchive.
    apply process_archive_delivers in Harchive
      as (Hdisk & new & Hnew & Hall); [|done..].
    simpl in Hdisk.
    apply IH in Hrest as (news & Hnews & Hrest);
      [|by rewrite Hdisk..|done].
    exists (new :: news). split; [|by constructor].
    simpl. by rewrite Hnews, Hnew, app_assoc.
Qed.

(** A real run without a fixed temporary directory, on a disk that is
    a tree, over archives whose files are deliverable in the chosen
    mode (plain names and, by mode, distinct or prefix-free paths):
    when the run completes, the commits it has made split into one
    group per archive, in the order of the archives, and every regular
    file of an archive is held by a commit of that archive's group,
    with its content at its path below the content root. *)
Theorem run_commits_every_file cfg l mode s s' :
  dry_run cfg = false → temp_dir cfg = None →
  tree (disk s) →
  Forall (deliverable cfg mode) l →
  build_from_archives cfg l mode s = (Ok tt, s') →
  ∃ news,
    appends s' = appends s ++ concat news ∧
    Forall2 (λ a new, ∀ m, m ∈ members a → isfile m = true → delivered new m)
      l news.
Proof.
  intros Hdry Htd Htree Hdel.
  assert (staging_ready cfg (disk s)) as Hready.
  { split; [done|]. by rewrite Htd. }
  unfold build_from_archives.
  intros ([] & s1 & Hcheck & H)%bind_ok.
  apply bind_ok in H as ([] & s2 & Hinit & H).
  apply bind_ok in H as ([] & s3 & Hloop & H).
  apply bind_ok in H as (s4 & ? & Hget & H). injection Hget as <- <-.
  apply bind_ok in H as ([] & s5 & Hlog & H). injection Hlog as <-.
  assert (disk s1 = disk s ∧ appends s1 = appends s) as [Hd1 Ha1].
  { pose proof (Keeps_when _ (negb (dry_run cfg)) _ (unmoved_check_tools cfg) s)
      as Hu.
    pose proof (Keeps_when _ (negb (dry_run cfg)) _ (calm_check_tools cfg) s)
      as Hc.
    rewrite Hcheck in Hu, Hc. simpl in Hu, Hc. split.
    - apply (unmoved_disk _ _ Hu).
    - unfold appends. by rewrite (calm_appends _ _ Hc). }
  assert (disk s2 = disk s1 ∧ appends s2 = appends s1) as [Hd2 Ha2].
  { pose proof (restored_initialize_squashfs cfg Htd s1) as Hr.
    pose proof (calm_initialize_squashfs cfg s1) as Hc.
    rewrite Hinit in Hr, Hc. simpl in Hr, Hc. split.
    - apply Hr. by rewrite Hd1.
    - unfold appends. by rewrite (calm_appends _ _ Hc). }
  apply archives_loop_delivers in Hloop as (news & Hnews & Hall);
    [|done|done|by rewrite Hd2, Hd1..|done].
  exists news. split; [|done].
  assert (appends s' = appends s3) as ->.
  { rewrite Hdry in H. cbv [negb when log] in H. by injection H as <-. }
  by rewrite Hnews, Ha2, Ha1.
Qed.

Lemma run_commits_every_file_witness :
  let cfg := plain_config 2 false true in
  let s' := (build_from_archives cfg [archive_of_three; archive_of_two] false
               (init_state bare_disk)).2 in
  ∃ first second,
    appends s' = [] ++ concat [first; second] ∧
    delivered first (regular "foo/z.txt" "3") ∧
    delivered second (regular "foo/w.txt" "4").
Proof.
  intros cfg s'.
  assert ((build_from_archives cfg [archive_of_three; archive_of_two] false
             (init_state bare_disk)).1 = Ok tt)
    as Hok by (vm_compute; reflexivity).
  assert (tree (disk (init_state bare_disk))) as Htree.
  { apply treeb_sound. vm_compute. reflexivity. }
  assert (Forall (deliverable cfg false) [archive_of_three; archive_of_two])
    as Hdel.
  { apply (bool_decide_unpack _). by vm_compute. }
  destruct (run_commits_every_file cfg [archive_of_three; archive_of_two]
              false (init_state bare_disk) s' eq_refl eq_refl Htree
              Hdel (run_ok_eq _ _ _ Hok))
    as (news & Hnews & Hall).
  apply Forall2_cons_inv_l in Hall as (first & rest & H1 & Hall & ->).
  apply Forall2_cons_inv_l in Hall as (second & rest' & H2 & Hall & ->).
  apply Forall2_nil_inv_l in Hall as ->.
  exists first, second. split; [exact Hnews|]. split.
  - apply H1; [|reflexivity].
    apply elem_of_cons. right. apply elem_of_cons. right.
    apply elem_of_cons. by left.
  - apply H2; [|reflexivity]. apply elem_of_cons. by left.
Defined.


(** * Claims revisited with the results on whole runs *)

(** C3, as amended.  With merging enabled, a real run of streaming mode
    over an archive whose regular files have plain names, lie in
    directories and have paths none of which is a prefix of another,
    started on a tree where a fixed temporary directory is free: when
    it completes, every regular file has been handed to the tool at its
    relative path below the merge root [merged/] of the scoped staging
    directory [t] of this archive, the directory [mkdtemp] has made for
    it or the fixed temporary directory; all commits of the archive are
    made from that merge root.  This holds from every state, whatever
    top-level names have been seen before.  The merge root is made anew
    in every archive's own staging directory, so archive A (with
    [foo/x.txt]) and then archive B (with [foo/y.txt]) give two commits
    from two different merge roots, the first holding exactly
    [foo/x.txt] and the second exactly [foo/y.txt], each below [foo/];
    [foo] is reported as a duplicate directory when B is read and is in
    the seen set at the end. *)
Theorem merge_root_is_per_archive :
  (∀ cfg a s s',
     dry_run cfg = false → merge_duplicates cfg = true →
     plain_files (members a) →
     Forall (λ p, (2 ≤ length p)%nat) (file_paths (members a)) →
     prefix_free (file_paths (members a)) →
     staging_ready cfg (disk s) →
     process_archive_streaming cfg a s = (Ok tt, s') →
     ∃ t new,
       scoped cfg t (disk s) ∧
       appends s' = appends s ++ new ∧
       (∀ c, c ∈ new → c.1 = t ++ ["merged"]) ∧
       (∀ m, m ∈ members a → isfile m = true → delivered new m)) ∧
  (∀ c1 c2,
     let r := build_from_archives (plain_config 1000 false true)
                [archive_A c1; archive_B c2] false (init_state bare_disk) in
     r.1 = Ok tt ∧
     commit_roots r.2 =
       [["tmp"; "extract_1"; "merged"]; ["tmp"; "extract_2"; "merged"]] ∧
     commit_listings r.2 =
       [[(["foo"; "x.txt"], c1)]; [(["foo"; "y.txt"], c2)]] ∧
     merging_reports_of (journal r.2) = [["foo"]] ∧
     elements (seen_top_dirs r.2) = ["foo"]).
Proof.
  split.
  - intros cfg a s s' Hdry Hm _ Hdeep Hfree Hready Hrun.
    by apply streaming_delivers_merged_at.
  - intros c1 c2. by vm_compute.
Qed.

Lemma merge_root_is_per_archive_witness :
  let cfg := plain_config 1000 false true in
  let s := set_seen_top_dirs {["foo"]} (init_state bare_disk) in
  let s' := (process_archive_streaming cfg (archive_B "2") s).2 in
  ∃ t new,
    scoped cfg t (disk s) ∧
    appends s' = [] ++ new ∧
    (∀ c, c ∈ new → c.1 = t ++ ["merged"]) ∧
    delivered new (regular "foo/y.txt" "2").
Proof.
  intros cfg s s'.
  assert ((process_archive_streaming cfg (archive_B "2") s).1 = Ok tt)
    as Hok by (vm_compute; reflexivity).
  assert (plain_files (members (archive_B "2"))) as Hplain.
  { apply (bool_decide_unpack _). by vm_compute. }
  assert (Forall (λ p, (2 ≤ length p)%nat)
            (file_paths (members (archive_B "2")))) as Hdeep.
  { apply (bool_decide_unpack _). by vm_compute. }
  assert (prefix_free (file_paths (members (archive_B "2")))) as Hfree.
  { apply (bool_decide_unpack _). by vm_compute. }
  destruct (proj1 merge_root_is_per_archive cfg (archive_B "2") s s'
              eq_refl eq_refl Hplain Hdeep Hfree
              (staging_ready_bare 1000 false true) (run_ok_eq _ _ _ Hok))
    as (t & new & Hat & Hnew & Hroots & Hall).
  exists t, new. split; [exact Hat|]. split; [exact Hnew|].
  split; [exact Hroots|]. apply Hall; [|reflexivity].
  apply elem_of_cons. by left.
Defined.

(** C7, as amended.  In a dry run, in either mode and for every archive
    list and batch size, the tool is never run and no regular file is
    created or changed on the disk.  The scoped staging directories are
    still made and removed.  Without a fixed temporary directory the
    disk is at the end as it was at the start.  With a fixed temporary
    directory [u] and at least one archive, [u] is gone at the end with
    everything it held before the run, missing ancestors of [u] have
    been made and are left, and the rest of the disk is as it was.  The
    counting and the batch-boundary detection run as in a real run:
    when the dry run and the real run over the same inputs both
    complete, they have announced the same batch sizes in the same
    order and report the same total number of files, the number of
    regular-file entries of the archives. *)
Theorem dry_run_follows_the_batches cfg l mode s :
  dry_run cfg = true →
  let s' := (build_from_archives cfg l mode s).2 in
  (tool_calls s' = tool_calls s ∧
   runs_of (journal s') = runs_of (journal s)) ∧
  (∀ p c, disk s' !! p = Some (File c) → disk s !! p = Some (File c)) ∧
  (tree (disk s) → temp_dir cfg = None → disk s' = disk s) ∧
  (tree (disk s) →
   ∀ u, temp_dir cfg = Some u → u ≠ [] →
        (∀ c, disk s !! u ≠ Some (File c)) → l ≠ [] →
        wiped u (disk s) (disk s')) ∧
  ∀ sd sr,
    build_from_archives cfg l mode s = (Ok tt, sd) →
    build_from_archives (with_dry_run false cfg) l mode s = (Ok tt, sr) →
    announced sd = announced sr ∧
    total_files sd = total_files sr ∧
    total_files sd = total_files s + run_file_count l.
Proof.
  intros Hdry s'. subst s'.
  pose proof (sparing_build_from_archives cfg Hdry l mode s) as Hs.
  split; [by destruct Hs|]. split; [by destruct Hs|].
  split; [|split].
  - intros Htree Htd.
    apply (restored_build_from_archives cfg Htd l mode
             (or_intror (or_intror Hdry)) s Htree).
  - intros Htree u Htd Hu Hnofile Hl.
    unfold build_from_archives, initialize_squashfs. rewrite Hdry.
    cbn [negb when].
    set (s0 := set_journal (Log INFO WouldInitialize :: journal s) s).
    pose proof (wiped_archives_loop cfg u Htd Hu l mode 1
                  (Z.of_nat (length l)) s0
                  (or_intror (or_intror Hdry)) Hl Htree Hnofile) as Hw.
    rewrite run_bind, run_ret. cbv beta iota. rewrite run_bind.
    change (log INFO WouldInitialize s) with (Ok tt, s0).
    cbv beta iota. rewrite run_bind.
    by destruct (archives_loop cfg l mode 1 (Z.of_nat (length l)) s0)
      as [[[]|e] s1].
  - intros sd sr [Htd Had]%build_from_archives_ledger
      [Htr Har]%build_from_archives_ledger.
    split_and!; [|lia|lia]. unfold announced. by rewrite Had, Har.
Qed.

Lemma dry_run_follows_the_batches_witness :
  let cfg := with_dry_run true scratch_config in
  let s := init_state scratch_disk in
  let dry := build_from_archives cfg [archive_of_three] false s in
  let real := build_from_archives (with_dry_run false cfg)
                [archive_of_three] false s in
  tool_calls dry.2 = 0%nat ∧
  wiped ["scratch"] scratch_disk (disk dry.2) ∧
  announced dry.2 = announced real.2 ∧
  total_files dry.2 = total_files real.2 ∧
  total_files dry.2 = 0 + 3.
Proof.
  intros cfg s dry real.
  assert (dry.1 = Ok tt) as Hdry by (vm_compute; reflexivity).
  assert (real.1 = Ok tt) as Hreal by (vm_compute; reflexivity).
  assert (tree (disk s)) as Htree.
  { apply treeb_sound. vm_compute. reflexivity. }
  destruct (dry_run_follows_the_batches cfg [archive_of_three] false s
              eq_refl) as ([Hcalls _] & _ & _ & Hwipe & Hplan).
  split; [exact Hcalls|]. split.
  - apply (Hwipe Htree ["scratch"]); [reflexivity|done| |done].
    intros c. by vm_compute.
  - exact (Hplan dry.2 real.2 (run_ok_eq _ _ _ Hdry) (run_ok_eq _ _ _ Hreal)).
Defined.
